(** * tomli._parser: a shallow embedding and its properties

    The parser of [src/tomli/_parser.py] written as Rocq functions.

    - A Python [str] is a list of code points ([str := list N]); a position
      is a [nat] index into it, a slice [src[a:b]] is [slice src a b].
    - A Python exception is a value of [exn]; a function that may raise
      returns a [result].  The constructor [OutOfFuel] is not a Python
      outcome: the [while True] loops and the recursion of the value parser
      are bounded by a [fuel] argument, and [OutOfFuel] says the bound was
      too small.
    - The document tree is a [Value]; a Python [dict] is an insertion-ordered
      association list with unique keys ([dict]).
    - [NestedDict] hands out references into the tree; here the reference is
      the path that was walked, and what the caller does through it is the
      function [use] given to [get_or_create_nest].
    - The patterns of [tomli._re] are a parameter ([Patterns]) of the value
      parser; [tomli_re] is a model of them. *)

From Stdlib Require Import String Ascii DecimalString.
From Stdlib Require Import List ZArith NArith Arith Lia Bool.
Import ListNotations.

Set Implicit Arguments.
Set Warnings "-register-all".

(** ** Strings *)

Definition char := N.
Definition str := list char.
Definition Pos := nat.
Definition Key := list str.

Definition str_eq_dec : forall a b : str, {a = b} + {a <> b} := list_eq_dec N.eq_dec.

Definition str_eqb (a b : str) : bool := if str_eq_dec a b then true else false.

Definition ch (a : ascii) : char := N_of_ascii a.

(** The Python string with the characters of a Rocq string literal. *)
Definition py (s : string) : str := map ch (list_ascii_of_string s).

Definition LF : char := 10%N.
Definition CR : char := 13%N.
Definition TAB : char := 9%N.
Definition QUOTE : char := 34%N.
Definition APOSTROPHE : char := 39%N.
Definition BACKSLASH : char := 92%N.

(** The lines joined with a line feed. *)
Fixpoint doc (lines : list string) : str :=
  match lines with
  | [] => []
  | [l] => py l
  | l :: ls => py l ++ LF :: doc ls
  end.

(** [src[a:b]] for [0 <= a]. *)
Definition slice (src : str) (a b : nat) : str := firstn (b - a) (skipn a src).

(** [src[pos : pos + len(lit)] == lit] *)
Definition starts_with (src : str) (pos : Pos) (lit : str) : bool :=
  str_eqb (slice src pos (pos + length lit)) lit.

(** [src[pos]]: [None] stands for [IndexError]. *)
Definition char_at (src : str) (pos : Pos) : option char := nth_error src pos.

Definition char_is (o : option char) (c : char) : bool :=
  match o with Some c' => N.eqb c' c | None => false end.

Definition in_chars (cs : list char) (c : char) : bool := existsb (N.eqb c) cs.

Definition in_range (lo hi c : N) : bool := (N.leb lo c && N.leb c hi)%bool.

(** [s.replace("\r\n", "\n")] *)
Fixpoint replace_crlf (s : str) : str :=
  match s with
  | [] => []
  | c :: rest =>
      match rest with
      | c' :: _ => if (N.eqb c CR && N.eqb c' LF)%bool then replace_crlf rest
                   else c :: replace_crlf rest
      | [] => [c]
      end
  end.

(** ** Character sets *)

Definition ASCII_CTRL (c : char) : bool := (N.ltb c 32 || N.eqb c 127)%bool.

Definition ILLEGAL_BASIC_STR_CHARS (c : char) : bool :=
  (ASCII_CTRL c && negb (N.eqb c TAB))%bool.
Definition ILLEGAL_MULTILINE_BASIC_STR_CHARS (c : char) : bool :=
  (ASCII_CTRL c && negb (in_chars [TAB; LF; CR] c))%bool.
Definition ILLEGAL_LITERAL_STR_CHARS := ILLEGAL_BASIC_STR_CHARS.
Definition ILLEGAL_MULTILINE_LITERAL_STR_CHARS (c : char) : bool :=
  (ASCII_CTRL c && negb (in_chars [TAB; LF] c))%bool.
Definition ILLEGAL_COMMENT_CHARS := ILLEGAL_BASIC_STR_CHARS.

Definition TOML_WS (c : char) : bool := in_chars [32%N; TAB] c.
Definition TOML_WS_AND_NEWLINE (c : char) : bool := (TOML_WS c || N.eqb c LF)%bool.

Definition ascii_letter (c : char) : bool :=
  (in_range 97 122 c || in_range 65 90 c)%bool.
Definition ascii_digit (c : char) : bool := in_range 48 57 c.

Definition BARE_KEY_CHARS (c : char) : bool :=
  (ascii_letter c || ascii_digit c || in_chars (py "-_") c)%bool.
Definition KEY_INITIAL_CHARS (c : char) : bool :=
  (BARE_KEY_CHARS c || in_chars [QUOTE; APOSTROPHE] c)%bool.

(** [string.hexdigits] *)
Definition hexdigits (c : char) : bool :=
  (ascii_digit c || in_range 97 102 c || in_range 65 70 c)%bool.

(** [BASIC_STR_ESCAPE_REPLACEMENTS], keyed by the two characters of the
    escape. *)
Definition BASIC_STR_ESCAPE_REPLACEMENTS : list (str * str) :=
  [ (BACKSLASH :: py "b", [8%N]);
    (BACKSLASH :: py "t", [9%N]);
    (BACKSLASH :: py "n", [10%N]);
    (BACKSLASH :: py "f", [12%N]);
    (BACKSLASH :: py "r", [13%N]);
    ([BACKSLASH; QUOTE], [34%N]);
    ([BACKSLASH; BACKSLASH], [92%N]) ].

(** ** Exceptions and results *)

(** A piece of an error message: literal text, a string put in as it is, or
    the [repr] of a string or of a key. *)
Inductive frag :=
| Lit (s : string)
| Text (s : str)
| Repr (s : str)
| ReprKey (k : Key).

Definition message := list frag.

(** A double quote inside a message. *)
Definition DQ : frag := Text [QUOTE].

Inductive exn :=
| TOMLDecodeError (msg : message)
| KeyError (msg : string)
| IndexError
| TypeError
| ValueError (msg : string).

Inductive result (A : Type) :=
| Ok (a : A)
| Raise (e : exn)
| OutOfFuel.

Arguments Ok {A} a.
Arguments Raise {A} e.
Arguments OutOfFuel {A}.

Definition bind {A B} (r : result A) (k : A -> result B) : result B :=
  match r with
  | Ok a => k a
  | Raise e => Raise e
  | OutOfFuel => OutOfFuel
  end.

Declare Scope py_scope.
Delimit Scope py_scope with py.
Notation "x <- e ;; k" := (bind e (fun x => k))
  (at level 61, e at next level, right associativity) : py_scope.
Notation "' pat <- e ;; k" := (bind e (fun x => match x with pat => k end))
  (at level 61, pat pattern, e at next level, right associativity) : py_scope.
Open Scope py_scope.

(** [try: r  except KeyError: raise e] *)
Definition except_KeyError {A} (r : result A) (e : exn) : result A :=
  match r with
  | Raise (KeyError _) => Raise e
  | _ => r
  end.

Definition is_decode_error {A} (r : result A) : Prop :=
  exists msg, r = Raise (TOMLDecodeError msg).

(** ** Error locations *)

(** [src.count("\n", 0, pos)] *)
Definition count_newlines (src : str) (pos : Pos) : nat :=
  length (filter (N.eqb LF) (firstn pos src)).

(** [src.rindex("\n", 0, pos)]: the last index below [pos] that holds a line
    feed; [None] stands for the [ValueError] of a failed search. *)
Fixpoint rindex_from (rest : str) (i : nat) (found : option nat) : option nat :=
  match rest with
  | [] => found
  | c :: rest' => rindex_from rest' (S i) (if N.eqb c LF then Some i else found)
  end.

Definition rindex_newline (src : str) (pos : Pos) : option nat :=
  rindex_from (firstn pos src) 0 None.

Definition decimal (n : nat) : string := NilZero.string_of_uint (Nat.to_uint n).

(** [coord_repr]; [None] stands for the [ValueError] of [rindex]. *)
Definition coord_repr (src : str) (pos : Pos) : option string :=
  if length src <=? pos then Some "end of document"%string
  else
    let line := count_newlines src pos + 1 in
    match (if line =? 1 then Some (pos + 1)
           else match rindex_newline src pos with
                | Some i => Some (pos - i)
                | None => None
                end) with
    | Some column =>
        Some (String.append "line " (String.append (decimal line)
               (String.append ", column " (decimal column))))
    | None => None
    end.

(** The exception that [raise suffixed_err(src, pos, msg)] raises. *)
Definition suffixed_err (src : str) (pos : Pos) (msg : message) : exn :=
  match coord_repr src pos with
  | Some where_ => TOMLDecodeError (msg ++ [Lit " (at "; Lit where_; Lit ")"])
  | None => ValueError "substring not found"
  end.

(** ** Values and dictionaries *)

(** A Python [dict] with string keys: the items in insertion order. *)
Definition dict (V : Type) := list (str * V).

Section Dict.
Context {V : Type}.

(** [d.get(k)] *)
Fixpoint dict_get (d : dict V) (k : str) : option V :=
  match d with
  | [] => None
  | (k', v) :: d' => if str_eq_dec k k' then Some v else dict_get d' k
  end.

(** [k in d] *)
Definition dict_in (k : str) (d : dict V) : bool :=
  match dict_get d k with Some _ => true | None => false end.

(** [d[k] = v]: a key that is present keeps its place. *)
Fixpoint dict_set (d : dict V) (k : str) (v : V) : dict V :=
  match d with
  | [] => [(k, v)]
  | (k', v') :: d' =>
      if str_eq_dec k k' then (k', v) :: d' else (k', v') :: dict_set d' k v
  end.

(** [d.pop(k, None)]: the keys of a dict are unique, so that at most one
    item goes. *)
Fixpoint dict_pop (d : dict V) (k : str) : dict V :=
  match d with
  | [] => []
  | (k', v') :: d' =>
      if str_eq_dec k k' then dict_pop d' k else (k', v') :: dict_pop d' k
  end.
End Dict.

(** The values of a document.  A float is kept as the text that is handed to
    [parse_float]; [tzinfo] is the offset from UTC in minutes. *)
Inductive Value :=
| VStr (s : str)
| VInt (i : Z)
| VFloat (text : str)
| VBool (b : bool)
| VDate (year month day : Z)
| VTime (hour minute second microsecond : Z)
| VDateTime (year month day hour minute second microsecond : Z) (tzinfo : option Z)
| VList (items : list Value)
| VDict (items : dict Value).

(** [isinstance(value, (dict, list))] *)
Definition is_container (v : Value) : bool :=
  match v with VList _ | VDict _ => true | _ => false end.

(** [l[-1]]: [None] stands for [IndexError]. *)
Definition last_item {A} (l : list A) : option A :=
  match rev l with x :: _ => Some x | [] => None end.

(** ** class Flags *)

Definition FROZEN : nat := 0.
Definition EXPLICIT_NEST : nat := 1.

(** One entry of [Flags._flags]:
    [{"flags": ..., "recursive_flags": ..., "nested": ...}]. *)
Inductive FlagNode :=
| mkNode (flags : list nat) (recursive_flags : list nat) (nested : dict FlagNode).

Definition Flags := dict FlagNode.

Definition flag_in (flag : nat) (s : list nat) : bool := existsb (Nat.eqb flag) s.

Definition empty_node : FlagNode := mkNode [] [] [].

Definition node_nested (n : FlagNode) : dict FlagNode :=
  match n with mkNode _ _ nested => nested end.

(** [Flags.unset_all].  A key is never empty here: the callers raise the
    [IndexError] of [key[-1]] themselves. *)
Fixpoint unset_all (key : Key) (cont : Flags) : Flags :=
  match key with
  | [] => cont
  | [stem] => dict_pop cont stem
  | k :: rest =>
      match dict_get cont k with
      | None => cont
      | Some (mkNode f r nested) => dict_set cont k (mkNode f r (unset_all rest nested))
      end
  end.

(** The second loop of [Flags.set_for_relative_key]. *)
Fixpoint set_along (rel_key : Key) (flag : nat) (cont : Flags) : Flags :=
  match rel_key with
  | [] => cont
  | k :: rest =>
      match dict_get cont k with
      | Some (mkNode f r nested) =>
          dict_set cont k (mkNode (flag :: f) r (set_along rest flag nested))
      | None =>
          dict_set cont k (mkNode [flag] [] (set_along rest flag []))
      end
  end.

Fixpoint set_for_relative_key (head_key rel_key : Key) (flag : nat) (cont : Flags) : Flags :=
  match head_key with
  | [] => set_along rel_key flag cont
  | k :: rest =>
      match dict_get cont k with
      | Some (mkNode f r nested) =>
          dict_set cont k (mkNode f r (set_for_relative_key rest rel_key flag nested))
      | None =>
          dict_set cont k (mkNode [] [] (set_for_relative_key rest rel_key flag []))
      end
  end.

(** [Flags.set]; the key is not empty (see [unset_all]). *)
Fixpoint set_flag (key : Key) (flag : nat) (recursive : bool) (cont : Flags) : Flags :=
  match key with
  | [] => cont
  | [key_stem] =>
      let '(mkNode f r nested) :=
        match dict_get cont key_stem with Some n => n | None => empty_node end in
      dict_set cont key_stem
        (if recursive then mkNode f (flag :: r) nested else mkNode (flag :: f) r nested)
  | k :: rest =>
      let '(mkNode f r nested) :=
        match dict_get cont k with Some n => n | None => empty_node end in
      dict_set cont k (mkNode f r (set_flag rest flag recursive nested))
  end.

(** [Flags.is_] *)
Fixpoint is_ (key : Key) (flag : nat) (cont : Flags) : bool :=
  match key with
  | [] => false
  | [key_stem] =>
      match dict_get cont key_stem with
      | Some (mkNode f r _) => (flag_in flag f || flag_in flag r)%bool
      | None => false
      end
  | k :: rest =>
      match dict_get cont k with
      | None => false
      | Some (mkNode _ r nested) =>
          if flag_in flag r then true else is_ rest flag nested
      end
  end.

(** ** class NestedDict *)

Definition no_nest : exn := KeyError "There is no nest behind this key".

(** [NestedDict.get_or_create_nest]: [use] is what the caller does with the
    dict that is returned; the result is the tree after it. *)
Fixpoint get_or_create_nest (access_lists : bool) (key : Key)
    (use : dict Value -> result (dict Value)) (cont : dict Value)
    : result (dict Value) :=
  match key with
  | [] => use cont
  | k :: key' =>
      match (match dict_get cont k with Some v => v | None => VDict [] end) with
      | VDict d =>
          d' <- get_or_create_nest access_lists key' use d ;;
          Ok (dict_set cont k (VDict d'))
      | VList l =>
          if access_lists then
            match last_item l with
            | None => Raise IndexError
            | Some (VDict d) =>
                d' <- get_or_create_nest access_lists key' use d ;;
                Ok (dict_set cont k (VList (removelast l ++ [VDict d'])))
            | Some _ => Raise no_nest
            end
          else Raise no_nest
      | _ => Raise no_nest
      end
  end.

(** [NestedDict.append_nest_to_list]; the key is not empty. *)
Definition append_nest_to_list (key : Key) (root : dict Value) : result (dict Value) :=
  get_or_create_nest true (removelast key)
    (fun cont =>
       let last_key := last key [] in
       match dict_get cont last_key with
       | Some (VList list_) => Ok (dict_set cont last_key (VList (list_ ++ [VDict []])))
       | Some _ => Raise (KeyError "An object other than list found behind this key")
       | None => Ok (dict_set cont last_key (VList [VDict []]))
       end)
    root.

(** ** class State *)

Record State := mkState {
  out : dict Value;
  flags : Flags;
  header_namespace : Key
}.

Definition State_init : State := mkState [] [] [].

(** ** Skipping *)

(** The loop of [skip_chars], reading [src[pos]], [src[pos + 1]], ... from
    [rest = src[pos:]]. *)
Fixpoint skip_chars_from (rest : str) (pos : Pos) (chars : char -> bool) : Pos :=
  match rest with
  | c :: rest' => if chars c then skip_chars_from rest' (S pos) chars else pos
  | [] => pos
  end.

Definition skip_chars (src : str) (pos : Pos) (chars : char -> bool) : Pos :=
  skip_chars_from (skipn pos src) pos chars.

Fixpoint skip_until_from (rest : str) (src : str) (pos : Pos) (expect_char : char)
    (error_on : char -> bool) (error_on_eof : bool) : result Pos :=
  match rest with
  | [] =>
      if error_on_eof
      then Raise (suffixed_err src pos [Lit "Expected "; DQ; Repr [expect_char]; DQ])
      else Ok pos
  | c :: rest' =>
      if N.eqb c expect_char then Ok pos
      else if error_on c
      then Raise (suffixed_err src pos [Lit "Found invalid character "; DQ; Repr [c]; DQ])
      else skip_until_from rest' src (S pos) expect_char error_on error_on_eof
  end.

Definition skip_until (src : str) (pos : Pos) (expect_char : char)
    (error_on : char -> bool) (error_on_eof : bool) : result Pos :=
  skip_until_from (skipn pos src) src pos expect_char error_on error_on_eof.

Definition expect_comment (src : str) (pos : Pos) : result Pos :=
  let pos := pos + 1 in
  skip_until src pos LF ILLEGAL_COMMENT_CHARS false.

Definition skip_comment (src : str) (pos : Pos) : result Pos :=
  if char_is (char_at src pos) (ch "#") then expect_comment src pos else Ok pos.

Fixpoint skip_comments_and_array_ws (fuel : nat) (src : str) (pos : Pos) : result Pos :=
  match fuel with
  | 0 => OutOfFuel
  | S fuel' =>
      let pos_before_skip := pos in
      let pos := skip_chars src pos TOML_WS_AND_NEWLINE in
      pos <- skip_comment src pos ;;
      if pos =? pos_before_skip then Ok pos
      else skip_comments_and_array_ws fuel' src pos
  end.

(** ** Integers *)

Definition digit_value (c : char) : option Z :=
  if ascii_digit c then Some (Z.of_N c - 48)%Z
  else if in_range 97 122 c then Some (Z.of_N c - 87)%Z
  else if in_range 65 90 c then Some (Z.of_N c - 55)%Z
  else None.

(** The digits of an integer literal, with single underscores between
    digits. *)
Fixpoint int_digits (base : Z) (s : str) (acc : Z) (after_digit : bool) : option Z :=
  match s with
  | [] => if after_digit then Some acc else None
  | c :: s' =>
      if N.eqb c (ch "_") then
        if after_digit then int_digits base s' acc false else None
      else
        match digit_value c with
        | Some d => if (d <? base)%Z then int_digits base s' (acc * base + d)%Z true
                    else None
        | None => None
        end
  end.

(** Python's [int(s, base)] on a sign and digits (the parser passes nothing
    else); other texts raise [ValueError]. *)
Definition int_ (s : str) (base : Z) : result Z :=
  let '(sign, body) :=
    match s with
    | c :: s' => if N.eqb c (ch "-") then ((-1)%Z, s')
                 else if N.eqb c (ch "+") then (1%Z, s')
                 else (1%Z, s)
    | [] => (1%Z, [])
    end in
  match int_digits base body 0 false with
  | Some n => Ok (sign * n)%Z
  | None => Raise (ValueError "invalid literal for int()")
  end.

(** [chr] *)
Definition chr (i : Z) : char := Z.to_N i.

Definition is_unicode_scalar_value (codepoint : Z) : bool :=
  ((0 <=? codepoint) && (codepoint <=? 55295)
   || (57344 <=? codepoint) && (codepoint <=? 1114111))%Z%bool.

(** ** Strings and keys *)

Definition parse_hex_char (src : str) (pos : Pos) (hex_len : nat) : result (Pos * str) :=
  let hex_str := slice src pos (pos + hex_len) in
  if (negb (length hex_str =? hex_len) || existsb (fun c => negb (hexdigits c)) hex_str)%bool
  then Raise (suffixed_err src pos [Lit "Invalid hex value"])
  else
    let pos := pos + hex_len in
    hex_int <- int_ hex_str 16 ;;
    if negb (is_unicode_scalar_value hex_int)
    then Raise (suffixed_err src pos [Lit "Escaped character is not a Unicode scalar value"])
    else Ok (pos, [chr hex_int]).

Definition unescaped_backslash : message :=
  [Lit "Unescaped "; DQ; Text [BACKSLASH]; DQ; Lit " in a string"].

Definition parse_basic_str_escape (multiline : bool) (src : str) (pos : Pos)
    : result (Pos * str) :=
  let escape_id := slice src pos (pos + 2) in
  let pos := pos + 2 in
  if (multiline
      && existsb (str_eqb escape_id)
           [[BACKSLASH; 32%N]; [BACKSLASH; TAB]; [BACKSLASH; LF]])%bool
  then
    if str_eq_dec escape_id [BACKSLASH; LF]
    then Ok (skip_chars src pos TOML_WS_AND_NEWLINE, [])
    else
      let pos := skip_chars src pos TOML_WS in
      match slice src pos (pos + 1) with
      | [] => Ok (pos, [])
      | char_ =>
          if str_eq_dec char_ [LF]
          then
            let pos := pos + 1 in
            Ok (skip_chars src pos TOML_WS_AND_NEWLINE, [])
          else Raise (suffixed_err src pos unescaped_backslash)
      end
  else
    match dict_get BASIC_STR_ESCAPE_REPLACEMENTS escape_id with
    | Some replacement => Ok (pos, replacement)
    | None =>
        if str_eq_dec escape_id (BACKSLASH :: py "u") then parse_hex_char src pos 4
        else if str_eq_dec escape_id (BACKSLASH :: py "U") then parse_hex_char src pos 8
        else if negb (length escape_id =? 2)
        then Raise (suffixed_err src pos [Lit "Unterminated string"])
        else Raise (suffixed_err src pos unescaped_backslash)
    end.

Definition parse_basic_str_escape_multiline := parse_basic_str_escape true.

Definition parse_literal_str (src : str) (pos : Pos) : result (Pos * str) :=
  let pos := pos + 1 in
  let start_pos := pos in
  pos <- skip_until src pos APOSTROPHE ILLEGAL_LITERAL_STR_CHARS true ;;
  Ok (pos + 1, slice src start_pos pos).

(** The loop of [parse_string], with its variables [result], [start_pos] and
    [pos]. *)
Fixpoint parse_string_loop (fuel : nat) (src : str) (delim : char) (delim_len : nat)
    (error_on : char -> bool) (parse_escapes : option (str -> Pos -> result (Pos * str)))
    (result_ : str) (start_pos pos : Pos) : result (Pos * str) :=
  match fuel with
  | 0 => OutOfFuel
  | S fuel' =>
      let again := parse_string_loop fuel' src delim delim_len error_on parse_escapes in
      match char_at src pos with
      | None => Raise (suffixed_err src pos [Lit "Unterminated string"])
      | Some char_ =>
          if N.eqb char_ delim then
            if str_eq_dec (slice src (pos + 1) (pos + delim_len)) (repeat delim (delim_len - 1))
            then Ok (pos + delim_len, result_ ++ slice src start_pos pos)
            else again result_ start_pos (pos + 1)
          else
            match parse_escapes with
            | Some escapes =>
                if N.eqb char_ BACKSLASH then
                  let result_ := result_ ++ slice src start_pos pos in
                  '(pos, parsed_escape) <- escapes src pos ;;
                  again (result_ ++ parsed_escape) pos pos
                else if error_on char_
                then Raise (suffixed_err src pos [Lit "Illegal character "; DQ; Repr [char_]; DQ])
                else again result_ start_pos (pos + 1)
            | None =>
                if error_on char_
                then Raise (suffixed_err src pos [Lit "Illegal character "; DQ; Repr [char_]; DQ])
                else again result_ start_pos (pos + 1)
            end
      end
  end.

Definition parse_string (fuel : nat) (src : str) (pos : Pos) (delim : char)
    (delim_len : nat) (error_on : char -> bool)
    (parse_escapes : option (str -> Pos -> result (Pos * str))) : result (Pos * str) :=
  parse_string_loop fuel src delim delim_len error_on parse_escapes [] pos pos.

Definition parse_basic_str (fuel : nat) (src : str) (pos : Pos) : result (Pos * str) :=
  let pos := pos + 1 in
  parse_string fuel src pos QUOTE 1 ILLEGAL_BASIC_STR_CHARS
    (Some (parse_basic_str_escape false)).

Definition parse_multiline_str (fuel : nat) (src : str) (pos : Pos) (literal : bool)
    : result (Pos * str) :=
  let pos := pos + 3 in
  let pos := if starts_with src pos [LF] then pos + 1 else pos in
  let '(delim, illegal_chars, escape_parser) :=
    if literal
    then (APOSTROPHE, ILLEGAL_MULTILINE_LITERAL_STR_CHARS, None)
    else (QUOTE, ILLEGAL_MULTILINE_BASIC_STR_CHARS, Some parse_basic_str_escape_multiline) in
  '(pos, result_) <- parse_string fuel src pos delim 3 illegal_chars escape_parser ;;
  if negb (starts_with src pos [delim])
  then Ok (pos, result_)
  else
    let pos := pos + 1 in
    if negb (starts_with src pos [delim])
    then Ok (pos, result_ ++ [delim])
    else
      let pos := pos + 1 in
      Ok (pos, result_ ++ [delim; delim]).

Definition parse_key_part (fuel : nat) (src : str) (pos : Pos) : result (Pos * str) :=
  match char_at src pos with
  | Some char_ =>
      if BARE_KEY_CHARS char_ then
        let start_pos := pos in
        let pos := skip_chars src pos BARE_KEY_CHARS in
        Ok (pos, slice src start_pos pos)
      else if N.eqb char_ APOSTROPHE then parse_literal_str src pos
      else if N.eqb char_ QUOTE then parse_basic_str fuel src pos
      else Raise (suffixed_err src pos [Lit "Invalid initial character for a key part"])
  | None => Raise (suffixed_err src pos [Lit "Invalid initial character for a key part"])
  end.

(** The loop of [parse_key]. *)
Fixpoint parse_key_loop (fuel : nat) (src : str) (pos : Pos) (key : Key)
    : result (Pos * Key) :=
  match fuel with
  | 0 => OutOfFuel
  | S fuel' =>
      if negb (char_is (char_at src pos) (ch "."))
      then Ok (pos, key)
      else
        let pos := pos + 1 in
        let pos := skip_chars src pos TOML_WS in
        '(pos, key_part) <- parse_key_part fuel' src pos ;;
        let key := key ++ [key_part] in
        let pos := skip_chars src pos TOML_WS in
        parse_key_loop fuel' src pos key
  end.

Definition parse_key (fuel : nat) (src : str) (pos : Pos) : result (Pos * Key) :=
  '(pos, key_part) <- parse_key_part fuel src pos ;;
  let key := [key_part] in
  let pos := skip_chars src pos TOML_WS in
  parse_key_loop fuel src pos key.

(** ** Dates and times *)

(** [re.Match]: [group()], [end()] and [groups()]. *)
Record Match := mkMatch {
  m_group : str;
  m_end : Pos;
  m_groups : list (option str)
}.

(** A compiled pattern, as its method [match(src, pos)]. *)
Definition Pattern := str -> Pos -> option Match.

(** The names that [_parser.py] imports from [tomli._re]. *)
Record Patterns := mkPatterns {
  RE_BIN : Pattern;
  RE_DATETIME : Pattern;
  RE_DEC_OR_FLOAT : Pattern;
  RE_HEX : Pattern;
  RE_LOCAL_TIME : Pattern;
  RE_OCT : Pattern
}.

Definition group (m : Match) (i : nat) : option str := nth i (m_groups m) None.

(** [int(groups[i])]: [int(None)] raises [TypeError]. *)
Definition int_group (m : Match) (i : nat) : result Z :=
  match group m i with
  | Some s => int_ s 10
  | None => Raise TypeError
  end.

Local Open Scope Z_scope.

Definition is_leap (year : Z) : bool :=
  ((year mod 4 =? 0) && (negb (year mod 100 =? 0) || (year mod 400 =? 0)))%bool.

Definition days_in_month (year month : Z) : Z :=
  if month =? 2 then (if is_leap year then 29 else 28)
  else if existsb (Z.eqb month) [4; 6; 9; 11] then 30
  else 31.

Definition valid_date (year month day : Z) : bool :=
  ((1 <=? year) && (year <=? 9999) && (1 <=? month) && (month <=? 12)
   && (1 <=? day) && (day <=? days_in_month year month))%bool.

Definition valid_time (hour minute second microsecond : Z) : bool :=
  ((0 <=? hour) && (hour <=? 23) && (0 <=? minute) && (minute <=? 59)
   && (0 <=? second) && (second <=? 59)
   && (0 <=? microsecond) && (microsecond <=? 999999))%bool.

(** The constructors of Python's [datetime] module: they raise [ValueError]
    when a field is out of range. *)
Definition date (year month day : Z) : result Value :=
  if valid_date year month day then Ok (VDate year month day)
  else Raise (ValueError "date field out of range").

Definition time (hour minute second microsecond : Z) : result Value :=
  if valid_time hour minute second microsecond
  then Ok (VTime hour minute second microsecond)
  else Raise (ValueError "time field out of range").

Definition datetime (year month day hour minute second microsecond : Z)
    (tzinfo : option Z) : result Value :=
  if (valid_date year month day && valid_time hour minute second microsecond)%bool
  then Ok (VDateTime year month day hour minute second microsecond tzinfo)
  else Raise (ValueError "datetime field out of range").

(** [timezone(timedelta(hours=h, minutes=m))], as minutes east of UTC: the
    offset is strictly between minus and plus one day. *)
Definition timezone (hours minutes : Z) : result Z :=
  let offset := hours * 60 + minutes in
  if ((-1440 <? offset) && (offset <? 1440))%bool then Ok offset
  else Raise (ValueError "offset out of range").

Local Close Scope Z_scope.

(** [s.ljust(width, fill)] *)
Definition ljust (s : str) (width : nat) (fill : char) : str :=
  s ++ repeat fill (width - length s).

(** [int(micros_str[1:].ljust(6, "0")[:6]) if micros_str else 0] *)
Definition micros_of (micros_str : option str) : result Z :=
  match micros_str with
  | None | Some [] => Ok 0%Z
  | Some (_ :: digits) => int_ (firstn 6 (ljust digits 6 (ch "0"))) 10
  end.

Definition parse_datetime (src : str) (pos : Pos) (m : Match) : result (Pos * Value) :=
  let match_str := m_group m in
  let pos := m_end m in
  year <- int_group m 0 ;;
  month <- int_group m 1 ;;
  day <- int_group m 2 ;;
  match group m 3 with
  | None =>
      v <- date year month day ;;
      Ok (pos, v)
  | Some hour_str =>
      hour <- int_ hour_str 10 ;;
      minute <- int_group m 4 ;;
      sec <- int_group m 5 ;;
      micros <- micros_of (group m 6) ;;
      tz <- match group m 7 with
            | Some offset_hour_str =>
                let offset_dir := if in_chars match_str (ch "+") then 1%Z else (-1)%Z in
                offset_hour <- int_ offset_hour_str 10 ;;
                offset_minute <- int_group m 8 ;;
                tz <- timezone (offset_dir * offset_hour) (offset_dir * offset_minute) ;;
                Ok (Some tz)
            | None =>
                if in_chars match_str (ch "Z") then Ok (Some 0%Z) else Ok None
            end ;;
      v <- datetime year month day hour minute sec micros tz ;;
      Ok (pos, v)
  end.

Definition parse_localtime (src : str) (pos : Pos) (m : Match) : result (Pos * Value) :=
  let pos := m_end m in
  hour <- int_group m 0 ;;
  minute <- int_group m 1 ;;
  sec <- int_group m 2 ;;
  micros <- micros_of (group m 3) ;;
  v <- time hour minute sec micros ;;
  Ok (pos, v).

(** [parse_float] stays symbolic: [VFloat text] is [parse_float(text)]. *)
Definition parse_dec_or_float (src : str) (pos : Pos) (m : Match) : result (Pos * Value) :=
  let match_str := m_group m in
  let pos := m_end m in
  if (in_chars match_str (ch ".") || in_chars match_str (ch "e")
      || in_chars match_str (ch "E"))%bool
  then Ok (pos, VFloat match_str)
  else
    i <- int_ match_str 10 ;;
    Ok (pos, VInt i).

Definition parse_regex (src : str) (pos : Pos) (regex : Pattern) : result (Pos * str) :=
  match regex src pos with
  | None => Raise (suffixed_err src pos [Lit "Unexpected sequence"])
  | Some m => Ok (m_end m, m_group m)
  end.

(** ** Values, statements and documents *)

Definition parser (A : Type) := str -> Pos -> result (Pos * A).

Definition overwrite_a_value : message := [Lit "Can not overwrite a value"].

Section Parser.
Variable re : Patterns.

(** In the three definitions below [parse_value] is the recursive call of
    the value parser. *)
Definition parse_key_value_pair (parse_value : parser Value) (fuel : nat)
    (src : str) (pos : Pos) : result (Pos * (Key * Value)) :=
  '(pos, key) <- parse_key fuel src pos ;;
  if negb (char_is (char_at src pos) (ch "="))
  then Raise (suffixed_err src pos
                [Lit "Expected "; DQ; Lit "="; DQ; Lit " after a key in a key/value pair"])
  else
    let pos := pos + 1 in
    let pos := skip_chars src pos TOML_WS in
    '(pos, value) <- parse_value src pos ;;
    Ok (pos, (key, value)).

(** The loop of [parse_array]. *)
Fixpoint parse_array_loop (parse_value : parser Value) (fuel : nat) (src : str)
    (pos : Pos) (array : list Value) : result (Pos * Value) :=
  match fuel with
  | 0 => OutOfFuel
  | S fuel' =>
      '(pos, val) <- parse_value src pos ;;
      let array := array ++ [val] in
      pos <- skip_comments_and_array_ws fuel src pos ;;
      if starts_with src pos (py "]") then Ok (pos + 1, VList array)
      else if negb (starts_with src pos (py ","))
      then Raise (suffixed_err src pos [Lit "Unclosed array"])
      else
        let pos := pos + 1 in
        pos <- skip_comments_and_array_ws fuel src pos ;;
        if starts_with src pos (py "]") then Ok (pos + 1, VList array)
        else parse_array_loop parse_value fuel' src pos array
  end.

Definition parse_array (parse_value : parser Value) (fuel : nat) (src : str)
    (pos : Pos) : result (Pos * Value) :=
  let pos := pos + 1 in
  let array := [] in
  pos <- skip_comments_and_array_ws fuel src pos ;;
  if starts_with src pos (py "]") then Ok (pos + 1, VList array)
  else parse_array_loop parse_value fuel src pos array.

(** The loop of [parse_inline_table], with its variables [nested_dict] and
    [flags]. *)
Fixpoint parse_inline_table_loop (parse_value : parser Value) (fuel : nat)
    (src : str) (pos : Pos) (nested_dict : dict Value) (flags : Flags)
    : result (Pos * Value) :=
  match fuel with
  | 0 => OutOfFuel
  | S fuel' =>
      '(pos, (key, value)) <- parse_key_value_pair parse_value fuel src pos ;;
      match key with
      | [] => Raise IndexError
      | _ =>
          let key_parent := removelast key in
          let key_stem := last key [] in
          if is_ key FROZEN flags
          then Raise (suffixed_err src pos
                        [Lit "Can not mutate immutable namespace "; ReprKey key])
          else
            nested_dict <-
              except_KeyError
                (get_or_create_nest false key_parent
                   (fun nest =>
                      if dict_in key_stem nest
                      then Raise (suffixed_err src pos
                                    [Lit "Duplicate inline table key "; DQ; Text key_stem; DQ])
                      else Ok (dict_set nest key_stem value))
                   nested_dict)
                (suffixed_err src pos overwrite_a_value) ;;
            let pos := skip_chars src pos TOML_WS in
            if starts_with src pos (py "}") then Ok (pos + 1, VDict nested_dict)
            else if negb (starts_with src pos (py ","))
            then Raise (suffixed_err src pos [Lit "Unclosed inline table"])
            else
              let flags :=
                if is_container value then set_flag key FROZEN true flags else flags in
              let pos := pos + 1 in
              let pos := skip_chars src pos TOML_WS in
              parse_inline_table_loop parse_value fuel' src pos nested_dict flags
      end
  end.

Definition parse_inline_table (parse_value : parser Value) (fuel : nat) (src : str)
    (pos : Pos) : result (Pos * Value) :=
  let pos := pos + 1 in
  let nested_dict : dict Value := [] in
  let flags : Flags := [] in
  let pos := skip_chars src pos TOML_WS in
  if starts_with src pos (py "}") then Ok (pos + 1, VDict nested_dict)
  else parse_inline_table_loop parse_value fuel src pos nested_dict flags.

Fixpoint parse_value (fuel : nat) (src : str) (pos : Pos) : result (Pos * Value) :=
  match fuel with
  | 0 => OutOfFuel
  | S fuel' =>
      let char_ := char_at src pos in
      (* Basic strings *)
      if char_is char_ QUOTE then
        if starts_with src (pos + 1) [QUOTE; QUOTE]
        then '(pos, s) <- parse_multiline_str fuel' src pos false ;; Ok (pos, VStr s)
        else '(pos, s) <- parse_basic_str fuel' src pos ;; Ok (pos, VStr s)
      (* Literal strings *)
      else if char_is char_ APOSTROPHE then
        if starts_with src (pos + 1) [APOSTROPHE; APOSTROPHE]
        then '(pos, s) <- parse_multiline_str fuel' src pos true ;; Ok (pos, VStr s)
        else '(pos, s) <- parse_literal_str src pos ;; Ok (pos, VStr s)
      (* Booleans *)
      else if (char_is char_ (ch "t") && starts_with src (pos + 1) (py "rue"))%bool
      then Ok (pos + 4, VBool true)
      else if (char_is char_ (ch "f") && starts_with src (pos + 1) (py "alse"))%bool
      then Ok (pos + 5, VBool false)
      else
        (* Dates and times *)
        match RE_DATETIME re src pos with
        | Some date_match => parse_datetime src pos date_match
        | None =>
        match RE_LOCAL_TIME re src pos with
        | Some localtime_match => parse_localtime src pos localtime_match
        | None =>
        (* Non-decimal integers *)
        if (char_is char_ (ch "0") && starts_with src (pos + 1) (py "x"))%bool then
          let pos := pos + 2 in
          '(pos, hex_str) <- parse_regex src pos (RE_HEX re) ;;
          i <- int_ hex_str 16 ;; Ok (pos, VInt i)
        else if (char_is char_ (ch "0") && starts_with src (pos + 1) (py "o"))%bool then
          let pos := pos + 2 in
          '(pos, oct_str) <- parse_regex src pos (RE_OCT re) ;;
          i <- int_ oct_str 8 ;; Ok (pos, VInt i)
        else if (char_is char_ (ch "0") && starts_with src (pos + 1) (py "b"))%bool then
          let pos := pos + 2 in
          '(pos, bin_str) <- parse_regex src pos (RE_BIN re) ;;
          i <- int_ bin_str 2 ;; Ok (pos, VInt i)
        else
        (* Decimal integers and "normal" floats *)
        match RE_DEC_OR_FLOAT re src pos with
        | Some dec_match => parse_dec_or_float src pos dec_match
        | None =>
        (* Arrays *)
        if char_is char_ (ch "[") then parse_array (parse_value fuel') fuel' src pos
        (* Inline tables *)
        else if char_is char_ (ch "{") then parse_inline_table (parse_value fuel') fuel' src pos
        (* Special floats *)
        else
          let first_three := slice src pos (pos + 3) in
          if existsb (str_eqb first_three) [py "inf"; py "nan"]
          then Ok (pos + 3, VFloat first_three)
          else
            let first_four := slice src pos (pos + 4) in
            if existsb (str_eqb first_four) [py "-inf"; py "+inf"; py "-nan"; py "+nan"]
            then Ok (pos + 4, VFloat first_four)
            else Raise (suffixed_err src pos [Lit "Invalid value"])
        end end end
  end.

(** [key_value_rule] after the pair is parsed. *)
Definition key_value_effect (src : str) (pos : Pos) (state : State) (key : Key)
    (value : Value) : result State :=
  match key with
  | [] => Raise IndexError
  | _ =>
      let key_parent := removelast key in
      let key_stem := last key [] in
      let abs_key_parent := header_namespace state ++ key_parent in
      let abs_key := header_namespace state ++ key in
      if is_ abs_key_parent FROZEN (flags state)
      then Raise (suffixed_err src pos
                    [Lit "Can not mutate immutable namespace "; ReprKey abs_key_parent])
      else
        let flags1 :=
          set_for_relative_key (header_namespace state) key EXPLICIT_NEST (flags state) in
        out1 <-
          except_KeyError
            (get_or_create_nest true abs_key_parent
               (fun nest =>
                  if dict_in key_stem nest
                  then Raise (suffixed_err src pos
                                [Lit "Can not define "; ReprKey abs_key; Lit " twice"])
                  else Ok (dict_set nest key_stem value))
               (out state))
            (suffixed_err src pos overwrite_a_value) ;;
        let flags2 :=
          if is_container value then set_flag abs_key FROZEN true flags1 else flags1 in
        Ok (mkState out1 flags2 (header_namespace state))
  end.

Definition key_value_rule (fuel : nat) (src : str) (pos : Pos) (state : State)
    : result (Pos * State) :=
  '(pos, (key, value)) <- parse_key_value_pair (parse_value fuel) fuel src pos ;;
  state <- key_value_effect src pos state key value ;;
  Ok (pos, state).

(** [create_dict_rule] from the flag checks to the new namespace. *)
Definition create_dict_effect (src : str) (pos : Pos) (state : State) (key : Key)
    : result State :=
  if (is_ key EXPLICIT_NEST (flags state) || is_ key FROZEN (flags state))%bool
  then Raise (suffixed_err src pos [Lit "Can not declare "; ReprKey key; Lit " twice"])
  else
    match key with
    | [] => Raise IndexError
    | _ =>
        let flags1 := set_flag key EXPLICIT_NEST false (flags state) in
        out1 <-
          except_KeyError (get_or_create_nest true key (fun nest => Ok nest) (out state))
            (suffixed_err src pos overwrite_a_value) ;;
        Ok (mkState out1 flags1 key)
    end.

Definition create_dict_rule (fuel : nat) (src : str) (pos : Pos) (state : State)
    : result (Pos * State) :=
  let pos := pos + 1 in
  let pos := skip_chars src pos TOML_WS in
  '(pos, key) <- parse_key fuel src pos ;;
  state <- create_dict_effect src pos state key ;;
  if negb (starts_with src pos (py "]"))
  then Raise (suffixed_err src pos
                [Lit "Expected "; DQ; Lit "]"; DQ; Lit " at the end of a table declaration"])
  else Ok (pos + 1, state).

(** [create_list_rule] from the flag check to the new namespace. *)
Definition create_list_effect (src : str) (pos : Pos) (state : State) (key : Key)
    : result State :=
  if is_ key FROZEN (flags state)
  then Raise (suffixed_err src pos [Lit "Can not mutate immutable namespace "; ReprKey key])
  else
    match key with
    | [] => Raise IndexError
    | _ =>
        (* Free the namespace now that it points to another empty list item... *)
        let flags1 := unset_all key (flags state) in
        (* ...but this key precisely is still prohibited from table declaration *)
        let flags2 := set_flag key EXPLICIT_NEST false flags1 in
        out1 <-
          except_KeyError (append_nest_to_list key (out state))
            (suffixed_err src pos overwrite_a_value) ;;
        Ok (mkState out1 flags2 key)
    end.

Definition create_list_rule (fuel : nat) (src : str) (pos : Pos) (state : State)
    : result (Pos * State) :=
  let pos := pos + 2 in
  let pos := skip_chars src pos TOML_WS in
  '(pos, key) <- parse_key fuel src pos ;;
  state <- create_list_effect src pos state key ;;
  let end_marker := slice src pos (pos + 2) in
  if negb (str_eqb end_marker (py "]]"))
  then Raise (suffixed_err src pos
                [Lit "Found "; DQ; Repr end_marker; DQ;
                 Lit " at the end of an array declaration. Expected "; DQ; Lit "]]"; DQ])
  else Ok (pos + 2, state).

(** The statement loop of [loads]. *)
Fixpoint loads_loop (fuel : nat) (src : str) (pos : Pos) (state : State)
    : result (dict Value) :=
  match fuel with
  | 0 => OutOfFuel
  | S fuel' =>
      (* 1. Skip line leading whitespace *)
      let pos := skip_chars src pos TOML_WS in
      (* 2. Parse rules *)
      match char_at src pos with
      | None => Ok (out state)
      | Some char_ =>
          if N.eqb char_ LF then loads_loop fuel' src (pos + 1) state
          else
            '(pos, state) <-
              (if N.eqb char_ (ch "#")
               then pos <- expect_comment src pos ;; Ok (pos, state)
               else if KEY_INITIAL_CHARS char_ then key_value_rule fuel' src pos state
               else if starts_with src pos (py "[[") then create_list_rule fuel' src pos state
               else if N.eqb char_ (ch "[") then create_dict_rule fuel' src pos state
               else Raise (suffixed_err src pos [Lit "Invalid statement"])) ;;
            (* 3. Skip trailing whitespace and line comment *)
            let pos := skip_chars src pos TOML_WS in
            pos <- skip_comment src pos ;;
            (* 4. Expect end of line or end of file *)
            match char_at src pos with
            | None => Ok (out state)
            | Some char_ =>
                if negb (N.eqb char_ LF)
                then Raise (suffixed_err src pos
                              [Lit "Expected newline or end of document after a statement"])
                else loads_loop fuel' src (pos + 1) state
            end
      end
  end.

(** [loads]: one unit of fuel for each character and three to spare. *)
Definition loads (s : str) : result (dict Value) :=
  let src := replace_crlf s in
  let pos := 0 in
  let state := State_init in
  loads_loop (length src + 3) src pos state.
End Parser.

(** ** The patterns of [tomli._re] *)

Module Re.

(** The longest prefix of [rest] made of digits [D], each with at most one
    underscore before it, as its length. *)
Fixpoint digit_run (D : char -> bool) (rest : str) : nat :=
  match rest with
  | c :: rest' =>
      if D c then S (digit_run D rest')
      else if N.eqb c (ch "_") then
        match rest' with
        | d :: rest'' => if D d then S (S (digit_run D rest'')) else 0
        | [] => 0
        end
      else 0
  | [] => 0
  end.

(** A digit [D] and then such a run. *)
Definition digits (D : char -> bool) (rest : str) : option nat :=
  match rest with
  | c :: rest' => if D c then Some (S (digit_run D rest')) else None
  | [] => None
  end.

(** [[0-9]+], as its length. *)
Fixpoint digit_plus (rest : str) : nat :=
  match rest with
  | c :: rest' => if ascii_digit c then S (digit_plus rest') else 0
  | [] => 0
  end.

(** Two decimal digits whose value is between [lo] and [hi]. *)
Definition two_digits (lo hi : N) (rest : str) : option str :=
  match rest with
  | a :: b :: _ =>
      if (ascii_digit a && ascii_digit b && in_range lo hi (10 * (a - 48) + (b - 48)))%bool
      then Some [a; b] else None
  | _ => None
  end.

Definition literal (c : char) (rest : str) : bool :=
  match rest with c' :: _ => N.eqb c' c | [] => false end.

Definition of_matcher (matcher : str -> option (nat * list (option str))) : Pattern :=
  fun src pos =>
    let rest := skipn pos src in
    match matcher rest with
    | Some (len, groups) => Some (mkMatch (firstn len rest) (pos + len) groups)
    | None => None
    end.

Definition plain (matcher : str -> option nat) : Pattern :=
  of_matcher (fun rest => match matcher rest with
                          | Some len => Some (len, [])
                          | None => None
                          end).

(** [([01][0-9]|2[0-3]):([0-5][0-9]):([0-5][0-9])(\.[0-9]+)?] *)
Definition time_matcher (rest : str) : option (nat * list (option str)) :=
  match two_digits 0 23 rest with
  | None => None
  | Some hour =>
  if negb (literal (ch ":") (skipn 2 rest)) then None else
  match two_digits 0 59 (skipn 3 rest) with
  | None => None
  | Some minute =>
  if negb (literal (ch ":") (skipn 5 rest)) then None else
  match two_digits 0 59 (skipn 6 rest) with
  | None => None
  | Some second =>
      let after := skipn 8 rest in
      let n := digit_plus (skipn 1 after) in
      if (literal (ch ".") after && (0 <? n))%bool
      then Some (8 + 1 + n, [Some hour; Some minute; Some second; Some (firstn (1 + n) after)])
      else Some (8, [Some hour; Some minute; Some second; None])
  end end end.

(** [(?:Z|[+-]([01][0-9]|2[0-3]):([0-5][0-9]))?] *)
Definition offset_matcher (rest : str) : nat * list (option str) :=
  if literal (ch "Z") rest then (1, [None; None])
  else if (literal (ch "+") rest || literal (ch "-") rest)%bool then
    match two_digits 0 23 (skipn 1 rest), literal (ch ":") (skipn 3 rest),
          two_digits 0 59 (skipn 4 rest) with
    | Some hour, true, Some minute => (6, [Some hour; Some minute])
    | _, _, _ => (0, [None; None])
    end
  else (0, [None; None]).

(** [([0-9]{4})-(0[1-9]|1[0-2])-(0[1-9]|1[0-9]|2[0-9]|3[01])]
    [(?:[T ]<time><offset>)?] *)
Definition datetime_matcher (rest : str) : option (nat * list (option str)) :=
  let year := firstn 4 rest in
  if negb ((length year =? 4) && forallb ascii_digit year)%bool then None else
  if negb (literal (ch "-") (skipn 4 rest)) then None else
  match two_digits 1 12 (skipn 5 rest) with
  | None => None
  | Some month =>
  if negb (literal (ch "-") (skipn 7 rest)) then None else
  match two_digits 1 31 (skipn 8 rest) with
  | None => None
  | Some day =>
      let date_only := Some (10, [Some year; Some month; Some day;
                                  None; None; None; None; None; None]) in
      let after := skipn 10 rest in
      if (literal (ch "T") after || literal 32%N after)%bool then
        match time_matcher (skipn 1 after) with
        | Some (tlen, tgroups) =>
            let '(olen, ogroups) := offset_matcher (skipn (1 + tlen) after) in
            Some (10 + 1 + tlen + olen,
                  [Some year; Some month; Some day] ++ tgroups ++ ogroups)
        | None => date_only
        end
      else date_only
  end end.

(** An optional sign; [0], or a digit from 1 to 9 and then digits with
    single underscores between them; optionally a point and such digits;
    optionally [e] or [E], a sign and such digits. *)
Definition dec_or_float_matcher (rest : str) : option nat :=
  let sign := if (literal (ch "+") rest || literal (ch "-") rest)%bool then 1 else 0 in
  let body := skipn sign rest in
  match (match body with
         | c :: body' =>
             if N.eqb c (ch "0") then Some 1
             else if in_range 49 57 c then Some (S (digit_run ascii_digit body'))
             else None
         | [] => None
         end) with
  | None => None
  | Some int_len =>
      let after_int := skipn int_len body in
      let frac_len :=
        if literal (ch ".") after_int then
          match digits ascii_digit (skipn 1 after_int) with
          | Some n => 1 + n
          | None => 0
          end
        else 0 in
      let after_frac := skipn frac_len after_int in
      let exp_len :=
        if (literal (ch "e") after_frac || literal (ch "E") after_frac)%bool then
          let after_e := skipn 1 after_frac in
          let esign :=
            if (literal (ch "+") after_e || literal (ch "-") after_e)%bool then 1 else 0 in
          match digits ascii_digit (skipn esign after_e) with
          | Some n => 1 + esign + n
          | None => 0
          end
        else 0 in
      Some (sign + int_len + frac_len + exp_len)
  end.

End Re.

(** Modelled from the spec: the compiled patterns [RE_BIN], [RE_DATETIME],
    [RE_DEC_OR_FLOAT], [RE_HEX], [RE_LOCAL_TIME] and [RE_OCT] of [tomli._re],
    a module of the repository that [_parser.py] imports and that is not
    among the source files.  The spec calls them the tokenizer: patterns
    anchored at a position for hex, octal and binary integers, decimal
    integers and floats, dates and date-times with an optional offset, and
    local times.  The groups are the ones [parse_datetime] and
    [parse_localtime] read: year, month, day, hour, minute, second, fraction
    with its point, offset hour and offset minute. *)
Definition tomli_re : Patterns := {|
  RE_BIN := Re.plain (Re.digits (in_range 48 49));
  RE_DATETIME := Re.of_matcher Re.datetime_matcher;
  RE_DEC_OR_FLOAT := Re.plain Re.dec_or_float_matcher;
  RE_HEX := Re.plain (Re.digits hexdigits);
  RE_LOCAL_TIME := Re.of_matcher Re.time_matcher;
  RE_OCT := Re.plain (Re.digits (in_range 48 55))
|}.

(** [loads] with the patterns of [tomli._re]. *)
Definition toml_loads (s : str) : result (dict Value) := loads tomli_re s.

(** * Properties *)

Unset Implicit Arguments.
Open Scope string_scope.
Open Scope nat_scope.
Open Scope list_scope.

(** ** What the properties are stated with *)

(** A text with no line feed. *)
Definition one_line (line : str) : bool := forallb (fun c => negb (N.eqb c LF)) line.

Definition well_formed_hex (hex_str : str) (hex_len : nat) : Prop :=
  length hex_str = hex_len /\ forallb hexdigits hex_str = true.

(** [x = "\uD800"] and [x = "A"] *)
Definition surrogate_escape_doc : str :=
  py "x = " ++ [QUOTE; BACKSLASH] ++ py "uD800" ++ [QUOTE].
Definition letter_escape_doc : str :=
  py "x = " ++ [QUOTE; BACKSLASH] ++ py "u0041" ++ [QUOTE].

(** The number that a string of decimal digits denotes. *)
Fixpoint decimal_value_from (acc : Z) (digits : str) : Z :=
  match digits with
  | [] => acc
  | c :: digits' => decimal_value_from (acc * 10 + (Z.of_N c - 48)) digits'
  end.

Definition decimal_value (digits : str) : Z := decimal_value_from 0 digits.

(** The microsecond field of a time or of a date-time. *)
Definition microsecond_of (v : Value) : option Z :=
  match v with
  | VTime _ _ _ us => Some us
  | VDateTime _ _ _ _ _ _ us _ => Some us
  | _ => None
  end.

(** Six digits: padded with zeros on the right, then cut. *)
Definition six_digits (digits : str) : str := firstn 6 (ljust digits 6 (ch "0")).

(** A character that the loop of [parse_string] steps over. *)
Definition stepped_over (delim : char) (error_on : char -> bool)
    (parse_escapes : option (str -> Pos -> result (Pos * str))) (c : char) : bool :=
  (negb (N.eqb c delim) && negb (error_on c)
   && match parse_escapes with Some _ => negb (N.eqb c BACKSLASH) | None => true end)%bool.




(** A text of blanks, line ends and comments.  [in_comment] says that the
    text starts inside a comment.  A line ends with a line feed, or with a
    carriage return and a line feed; a comment runs to the end of its line
    and holds no control character but the tab. *)
Fixpoint blank_from (in_comment : bool) (s : str) : bool :=
  match s with
  | [] => true
  | c :: rest =>
      if N.eqb c LF then blank_from false rest
      else if (N.eqb c CR && char_is (head rest) LF)%bool then blank_from in_comment rest
      else if in_comment then (negb (ILLEGAL_COMMENT_CHARS c) && blank_from true rest)%bool
      else if TOML_WS c then blank_from false rest
      else if N.eqb c (ch "#") then blank_from true rest
      else false
  end.

Definition blank_document (s : str) : bool := blank_from false s.

(** The same on a text in which every line ends with a line feed. *)
Fixpoint blank_lines (in_comment : bool) (s : str) : bool :=
  match s with
  | [] => true
  | c :: rest =>
      if N.eqb c LF then blank_lines false rest
      else if in_comment then (negb (ILLEGAL_COMMENT_CHARS c) && blank_lines true rest)%bool
      else if TOML_WS c then blank_lines false rest
      else if N.eqb c (ch "#") then blank_lines true rest
      else false
  end.

(** The number of leading characters of [rest] that are in [chars]. *)
Fixpoint span (chars : char -> bool) (rest : str) : nat :=
  match rest with
  | c :: rest' => if chars c then S (span chars rest') else 0
  | [] => 0
  end.

(** The entry of the flag store at a key. *)
Fixpoint node_at (key : Key) (cont : Flags) : option FlagNode :=
  match key with
  | [] => None
  | [k] => dict_get cont k
  | k :: rest =>
      match dict_get cont k with
      | Some n => node_at rest (node_nested n)
      | None => None
      end
  end.

(** [flag] is among the recursive flags of the entry at [key]. *)
Definition marked_recursive (key : Key) (flag : nat) (cont : Flags) : bool :=
  match node_at key cont with
  | Some (mkNode _ r _) => flag_in flag r
  | None => false
  end.

(** [a] is [b] or a key above [b]. *)
Definition is_prefix (a b : Key) : Prop := exists rest, b = a ++ rest.

(** The value that a key denotes in a table: the path goes through tables
    and, at an array, through its last item. *)
Fixpoint value_at (key : Key) (cont : dict Value) : option Value :=
  match key with
  | [] => None
  | [k] => dict_get cont k
  | k :: rest =>
      match dict_get cont k with
      | Some (VDict d) => value_at rest d
      | Some (VList l) =>
          match last_item l with
          | Some (VDict d) => value_at rest d
          | _ => None
          end
      | _ => None
      end
  end.

Definition key_exists (key : Key) (cont : dict Value) : bool :=
  match value_at key cont with Some _ => true | None => false end.

(** A place in a value: through a table by a key, through an array by an
    index. *)
Inductive step :=
| Field (k : str)
| Item (i : nat).

Fixpoint get_path (p : list step) (v : Value) : option Value :=
  match p with
  | [] => Some v
  | Field k :: p' =>
      match v with
      | VDict d => match dict_get d k with Some v' => get_path p' v' | None => None end
      | _ => None
      end
  | Item i :: p' =>
      match v with
      | VList l => match nth_error l i with Some v' => get_path p' v' | None => None end
      | _ => None
      end
  end.

(** A table is still a table, an array is still an array, any other value
    is the same value. *)
Definition same_or_container (v v' : Value) : Prop :=
  match v, v' with
  | VList _, VList _ => True
  | VDict _, VDict _ => True
  | _, _ => v = v'
  end.

(** Every place of [old] is a place of [new], with the same value if it is
    not a container. *)
Definition kept (old new : Value) : Prop :=
  forall p v, get_path p old = Some v ->
    exists v', get_path p new = Some v' /\ same_or_container v v'.

(** A statement whose text is parsed: a key/value pair, a table header or
    an array-of-tables header. *)
Inductive stmt :=
| SKeyValue (key : Key) (value : Value)
| STable (key : Key)
| SArray (key : Key).

Definition stmt_key (s : stmt) : Key :=
  match s with SKeyValue key _ | STable key | SArray key => key end.

(** What the rule of the statement does to the state. *)
Definition exec (src : str) (pos : Pos) (state : State) (s : stmt) : result State :=
  match s with
  | SKeyValue key value => key_value_effect src pos state key value
  | STable key => create_dict_effect src pos state key
  | SArray key => create_list_effect src pos state key
  end.

(** The absolute key that the statement is about. *)
Definition target (state : State) (s : stmt) : Key :=
  match s with
  | SKeyValue key _ => header_namespace state ++ key
  | STable key | SArray key => key
  end.

(** The statement that the loop of [loads] finds at [pos], as its rule
    parses it, with the position that the rule has come to when it changes
    the state; [None] where there is no statement: at the end of the
    document, at the end of a line and at a comment. *)
Definition statement_at (re : Patterns) (fuel : nat) (src : str) (pos : Pos)
    : option (result (Pos * stmt)) :=
  let pos := skip_chars src pos TOML_WS in
  match char_at src pos with
  | None => None
  | Some char_ =>
      if (N.eqb char_ LF || N.eqb char_ (ch "#"))%bool then None
      else
        Some
          (if KEY_INITIAL_CHARS char_ then
             '(pos, (key, value)) <-
               parse_key_value_pair (parse_value re fuel) fuel src pos ;;
             Ok (pos, SKeyValue key value)
           else if starts_with src pos (py "[[") then
             '(pos, key) <- parse_key fuel src (skip_chars src (pos + 2) TOML_WS) ;;
             Ok (pos, SArray key)
           else if N.eqb char_ (ch "[") then
             '(pos, key) <- parse_key fuel src (skip_chars src (pos + 1) TOML_WS) ;;
             Ok (pos, STable key)
           else Raise (suffixed_err src pos [Lit "Invalid statement"]))
  end.

(** What the rule of the statement wants after the key: nothing, one
    closing bracket, or two. *)
Definition end_of_statement (src : str) (pos : Pos) (s : stmt) : result Pos :=
  match s with
  | SKeyValue _ _ => Ok pos
  | STable _ =>
      if negb (starts_with src pos (py "]"))
      then Raise (suffixed_err src pos
                    [Lit "Expected "; DQ; Lit "]"; DQ; Lit " at the end of a table declaration"])
      else Ok (pos + 1)
  | SArray _ =>
      if negb (str_eqb (slice src pos (pos + 2)) (py "]]"))
      then Raise (suffixed_err src pos
                    [Lit "Found "; DQ; Repr (slice src pos (pos + 2)); DQ;
                     Lit " at the end of an array declaration. Expected "; DQ; Lit "]]"; DQ])
      else Ok (pos + 2)
  end.

(** Where the loop of [loads] is when a line starts: the fuel that is left,
    the position and the state. *)
Definition loop_point : Type := nat * Pos * State.

(** One line of the document that the loop goes through, with the statement
    that it has run, if the line has one. *)
Inductive line (re : Patterns) (src : str)
    : loop_point -> option (Pos * stmt) -> loop_point -> Prop :=
| line_blank fuel pos state :
    char_at src (skip_chars src pos TOML_WS) = Some LF ->
    line re src (S fuel, pos, state) None (fuel, skip_chars src pos TOML_WS + 1, state)
| line_comment fuel pos state p p' :
    char_at src (skip_chars src pos TOML_WS) = Some (ch "#") ->
    expect_comment src (skip_chars src pos TOML_WS) = Ok p ->
    skip_comment src (skip_chars src p TOML_WS) = Ok p' ->
    char_at src p' = Some LF ->
    line re src (S fuel, pos, state) None (fuel, p' + 1, state)
| line_statement fuel pos state p s state' p1 p' :
    statement_at re fuel src pos = Some (Ok (p, s)) ->
    exec src p state s = Ok state' ->
    end_of_statement src p s = Ok p1 ->
    skip_comment src (skip_chars src p1 TOML_WS) = Ok p' ->
    char_at src p' = Some LF ->
    line re src (S fuel, pos, state) (Some (p, s)) (fuel, p' + 1, state').

(** Lines one after the other, whose statements all are [allowed]. *)
Inductive lines (allowed : stmt -> Prop) (re : Patterns) (src : str) (point : loop_point)
    : loop_point -> Prop :=
| lines_none : lines allowed re src point point
| lines_more point' point'' ran :
    lines allowed re src point point' ->
    line re src point' ran point'' ->
    (forall p s, ran = Some (p, s) -> allowed s) ->
    lines allowed re src point point''.

(** Where [loads] starts. *)
Definition loads_start (src : str) : loop_point := (length src + 3, 0, State_init).

(** The key [a] holds a container: it is marked [FROZEN] recursively and it
    is in the tree. *)
Definition frozen (a : Key) (state : State) : Prop :=
  marked_recursive a FROZEN (flags state) = true /\ key_exists a (out state) = true.

(** An array-of-tables header for a key strictly above [a]: it starts a new
    item, and [unset_all] drops the flags below the key. *)
Definition resets (a : Key) (s : stmt) : Prop :=
  match s with
  | SArray key => is_prefix key a /\ key <> a
  | _ => False
  end.

(** An outcome that the Python code has, and that is no [KeyError]: the
    fuel was enough, and the [KeyError] of the tree builder has been
    translated. *)
Definition settled {A} (r : result A) : Prop :=
  match r with
  | Ok _ => True
  | Raise (KeyError _) => False
  | Raise _ => True
  | OutOfFuel => False
  end.

(** A parser gives such an outcome at [pos], and when it returns it has
    gone forward. *)
Definition advances {A} (f : parser A) (src : str) (pos : Pos) : Prop :=
  settled (f src pos) /\ forall p x, f src pos = Ok (p, x) -> pos < p.

(** A match of the pattern is not empty. *)
Definition pattern_advances (P : Pattern) : Prop :=
  forall src pos m, P src pos = Some m -> pos < m_end m.

Definition patterns_advance (re : Patterns) : Prop :=
  pattern_advances (RE_BIN re) /\ pattern_advances (RE_DATETIME re) /\
  pattern_advances (RE_DEC_OR_FLOAT re) /\ pattern_advances (RE_HEX re) /\
  pattern_advances (RE_LOCAL_TIME re) /\ pattern_advances (RE_OCT re).

(** The escape parser of a string goes forward. *)
Definition escapes_advance
    (parse_escapes : option (str -> Pos -> result (Pos * str))) : Prop :=
  match parse_escapes with
  | Some escapes => forall src pos, advances escapes src pos
  | None => True
  end.

(** The result of [r], if there is one, ends at [q]. *)
Definition ends_at {A} (q : Pos) (r : result (Pos * A)) : Prop :=
  settled r /\ forall p x, r = Ok (p, x) -> p = q.

Definition is_date_or_datetime (v : Value) : bool :=
  match v with VDate _ _ _ | VDateTime _ _ _ _ _ _ _ _ => true | _ => false end.

Definition is_time (v : Value) : bool :=
  match v with VTime _ _ _ _ => true | _ => false end.

(** The state after [a = {x = 1}]. *)
Definition state_after_inline_table : State :=
  mkState [(py "a", VDict [(py "x", VInt 1)])]
          [(py "a", mkNode [EXPLICIT_NEST] [FROZEN] [])]
          [].

(** The state after [a = {x = 1}] and [[t]]. *)
Definition state_after_inline_table_and_header : State :=
  mkState [(py "a", VDict [(py "x", VInt 1)]); (py "t", VDict [])]
          [(py "a", mkNode [EXPLICIT_NEST] [FROZEN] []);
           (py "t", mkNode [EXPLICIT_NEST] [] [])]
          [py "t"].





(** The text with a carriage return put before each line feed. *)
Fixpoint with_crlf (s : str) : str :=
  match s with
  | [] => []
  | c :: rest => if N.eqb c LF then CR :: LF :: with_crlf rest else c :: with_crlf rest
  end.

(** A text without carriage returns. *)
Definition no_CR (s : str) : bool := forallb (fun c => negb (N.eqb c CR)) s.

(** [a] is [b] or a key above [b], as a test. *)
Fixpoint prefixb (a b : Key) : bool :=
  match a, b with
  | [], _ => true
  | x :: a', y :: b' => (str_eqb x y && prefixb a' b')%bool
  | _ :: _, [] => false
  end.

Definition key_eqb (a b : Key) : bool := (prefixb a b && prefixb b a)%bool.

(** A key strictly above [key] carries the flag recursively. *)
Fixpoint inherited (key : Key) (flag : nat) (cont : Flags) : bool :=
  match key with
  | [] => false
  | [_] => false
  | k :: rest =>
      match dict_get cont k with
      | None => false
      | Some (mkNode _ r nested) => (flag_in flag r || inherited rest flag nested)%bool
      end
  end.

(** The text does not start with a character of the set. *)
Definition stops (chars : char -> bool) (rest : str) : bool :=
  match rest with
  | c :: _ => negb (chars c)
  | [] => true
  end.

(** A part of a bare key: one character or more, letters, digits, [-] and
    [_]. *)
Definition bare_part (part : str) : bool :=
  (negb (length part =? 0) && forallb BARE_KEY_CHARS part)%bool.

(** What follows the first part of a dotted key: for each further part a
    dot, blanks, the part and blanks. *)
Fixpoint dotted_tail (ws1 ws2 : str) (parts : list str) : str :=
  match parts with
  | [] => []
  | part :: parts' => ch "." :: ws2 ++ part ++ ws1 ++ dotted_tail ws1 ws2 parts'
  end.

(** The parts of a key with dots between them, blanks [ws1] after each
    part and blanks [ws2] after each dot. *)
Definition dotted_key (ws1 ws2 : str) (parts : list str) : str :=
  match parts with
  | [] => []
  | part :: parts' => part ++ ws1 ++ dotted_tail ws1 ws2 parts'
  end.

(** A character that stands for itself in a literal string. *)
Definition literal_char (c : char) : bool :=
  (negb (N.eqb c APOSTROPHE) && negb (ILLEGAL_LITERAL_STR_CHARS c))%bool.

(** The lower-case hex digit of a number below sixteen. *)
Definition hex_digit (d : N) : char := if N.ltb d 10 then (48 + d)%N else (87 + d)%N.

(** A character as it can be written in a basic string: the quote and the
    backslash behind a backslash, a control character other than the tab as
    [\u00XX], any other character as it is. *)
Definition escape_char (c : char) : str :=
  if N.eqb c QUOTE then [BACKSLASH; QUOTE]
  else if N.eqb c BACKSLASH then [BACKSLASH; BACKSLASH]
  else if ILLEGAL_BASIC_STR_CHARS c
  then BACKSLASH :: ch "u" :: ch "0" :: ch "0"
         :: [hex_digit (c / 16); hex_digit (c mod 16)]
  else [c].

Definition escape (s : str) : str := flat_map escape_char s.

(** The characters that may follow the backslash of an escape. *)
Definition escape_letters : list char := py "btnfr" ++ [QUOTE; BACKSLASH] ++ py "uU".

Definition hex_escape_checked (c : char) : bool :=
  if ILLEGAL_BASIC_STR_CHARS c
  then
    let h := [ch "0"; ch "0"; hex_digit (c / 16); hex_digit (c mod 16)] in
    (forallb hexdigits h
     && match int_ h 16 with Ok i => Z.eqb i (Z.of_N c) | _ => false end)%bool
  else true.

(** What follows the first item of an array: for each further item a
    comma, blanks and line feeds, the item, blanks and line feeds. *)
Fixpoint array_tail (ws1 ws2 : str) (texts : list str) : str :=
  match texts with
  | [] => []
  | text :: texts' => ch "," :: ws2 ++ text ++ ws1 ++ array_tail ws1 ws2 texts'
  end.

(** The end of an array that has items, with a trailing comma or not. *)
Definition array_close (ws2 : str) (trailing : bool) : str :=
  (if trailing then ch "," :: ws2 else []) ++ [ch "]"].

(** An array of the given items in a document: [ws1] stands after each
    item, [ws2] after the opening bracket and after each comma. *)
Definition array_text (ws1 ws2 : str) (trailing : bool) (texts : list str) : str :=
  ch "[" :: ws2 ++
  match texts with
  | [] => [ch "]"]
  | text :: texts' => text ++ ws1 ++ array_tail ws1 ws2 texts' ++ array_close ws2 trailing
  end.

(** The first character of an item is no blank, line feed, [#] or [\]]. *)
Definition array_item_start (text : str) : bool :=
  match text with
  | c :: _ =>
      (negb (TOML_WS_AND_NEWLINE c) && negb (N.eqb c (ch "#")) && negb (N.eqb c (ch "]")))%bool
  | [] => false
  end.

(** What follows an item starts with a blank, a line feed, a comma or
    [\]]. *)
Definition array_item_end (rest : str) : bool :=
  match rest with
  | c :: _ => (TOML_WS_AND_NEWLINE c || N.eqb c (ch ",") || N.eqb c (ch "]"))%bool
  | [] => false
  end.

(** The value parser reads the item wherever it stands as an item. *)
Definition reads_item (parse_value : parser Value) (src : str) (item : str * Value) : Prop :=
  array_item_start (fst item) = true /\
  forall pos t,
    skipn pos src = fst item ++ t -> array_item_end t = true ->
    parse_value src pos = Ok (pos + length (fst item), snd item).

(** The first character of a number, a date or a time. *)
Definition starts_number (c : char) : bool :=
  (ascii_digit c || N.eqb c (ch "+") || N.eqb c (ch "-"))%bool.

(** The patterns of dates, times and numbers match only where a digit or a
    sign stands. *)
Definition patterns_start_numeric (re : Patterns) : Prop :=
  forall (src : str) pos,
    (forall c, char_at src pos = Some c -> starts_number c = false) ->
    RE_DATETIME re src pos = None /\ RE_LOCAL_TIME re src pos = None /\
    RE_DEC_OR_FLOAT re src pos = None.

(** Booleans, strings and arrays of them. *)
Fixpoint simple (v : Value) : bool :=
  match v with
  | VBool _ | VStr _ => true
  | VList items => forallb simple items
  | _ => false
  end.

(** A simple value as a document can hold it: strings as basic strings,
    arrays with [ws1] after each item, [ws2] after the opening bracket and
    each comma, and a trailing comma or not. *)
Fixpoint render (ws1 ws2 : str) (trailing : bool) (v : Value) : str :=
  match v with
  | VBool true => py "true"
  | VBool false => py "false"
  | VStr s => QUOTE :: escape s ++ [QUOTE]
  | VList items => array_text ws1 ws2 trailing (map (render ws1 ws2 trailing) items)
  | _ => []
  end.

(** Each item of an array takes a character, and a bracket or a comma
    before it. *)
Definition items_length (texts : list str) : nat :=
  list_sum (map (fun text : str => S (length text)) texts).

(** The value parser reads the text as the value where the text ends a
    line, with a unit of fuel for each character and one more. *)
Definition value_read (re : Patterns) (text : str) (v : Value) : Prop :=
  forall fuel (src : str) pos (rest : str),
    length text < fuel ->
    skipn pos src = text ++ LF :: rest ->
    parse_value re fuel src pos = Ok (pos + length text, v).

(** The line [key = text]. *)
Definition pair_line (key text : str) : str := key ++ py " = " ++ text ++ [LF].

(** A document of such lines, from the keys, the texts of the values and
    the values. *)
Definition document (items : list (str * (str * Value))) : str :=
  flat_map (fun item => pair_line (fst item) (fst (snd item))) items.

(** The table that the document describes. *)
Definition table_of (items : list (str * (str * Value))) : dict Value :=
  map (fun item => (fst item, snd (snd item))) items.

(** What the theorem below asks of an item: a bare key, and a text without
    carriage return that does not begin with a blank and is read as the
    value. *)
Definition pair_ok (re : Patterns) (item : str * (str * Value)) : Prop :=
  bare_part (fst item) = true /\ no_CR (fst (snd item)) = true /\
  stops TOML_WS (fst (snd item)) = true /\ value_read re (fst (snd item)) (snd (snd item)).

(** The pair [key = text]. *)
Definition pair_text (item : str * (str * Value)) : str :=
  fst item ++ py " = " ++ fst (snd item).

(** What follows the first pair of an inline table: for each further pair
    a comma, blanks, the pair and blanks. *)
Fixpoint table_tail (ws1 ws2 : str) (items : list (str * (str * Value))) : str :=
  match items with
  | [] => []
  | item :: items' => ch "," :: ws2 ++ pair_text item ++ ws1 ++ table_tail ws1 ws2 items'
  end.

(** An inline table of the given pairs: [ws1] stands after each pair,
    [ws2] after the opening brace and after each comma. *)
Definition table_text (ws1 ws2 : str) (items : list (str * (str * Value))) : str :=
  ch "{" :: ws2 ++
  match items with
  | [] => [ch "}"]
  | item :: items' => pair_text item ++ ws1 ++ table_tail ws1 ws2 items' ++ [ch "}"]
  end.

(** What follows a value in an inline table starts with a blank, a comma
    or the closing brace. *)
Definition table_item_end (rest : str) : bool :=
  match rest with
  | c :: _ => (TOML_WS c || N.eqb c (ch ",") || N.eqb c (ch "}"))%bool
  | [] => false
  end.

(** The text of a value starts with a character that is no blank. *)
Definition value_start (text : str) : bool :=
  match text with
  | c :: _ => negb (TOML_WS c)
  | [] => false
  end.

(** The key is bare, and the value parser reads the text as the value
    wherever it stands in an inline table. *)
Definition reads_pair (parse_value : parser Value) (src : str)
    (item : str * (str * Value)) : Prop :=
  bare_part (fst item) = true /\ value_start (fst (snd item)) = true /\
  forall pos t,
    skipn pos src = fst (snd item) ++ t -> table_item_end t = true ->
    parse_value src pos = Ok (pos + length (fst (snd item)), snd (snd item)).

(** ** Error locations *)

Lemma rindex_from_None rest : forall i found,
  rindex_from rest i found = None ->
  found = None /\ filter (N.eqb LF) rest = [].
Proof.
  induction rest as [|c rest IH]; intros i found H; cbn [rindex_from] in H.
  - auto.
  - apply IH in H. destruct H as [H1 H2].
    destruct (N.eqb_spec c LF) as [->|Hne]; [discriminate |].
    split; [assumption |].
    change (filter (N.eqb LF) (c :: rest)) with
      (if N.eqb LF c then c :: filter (N.eqb LF) rest else filter (N.eqb LF) rest).
    destruct (N.eqb_spec LF c); [congruence | assumption].
Qed.

Lemma coord_repr_defined src pos : exists where_, coord_repr src pos = Some where_.
Proof.
  unfold coord_repr.
  destruct (length src <=? pos); [eauto |].
  destruct (count_newlines src pos + 1 =? 1) eqn:E; [eauto |].
  destruct (rindex_newline src pos) eqn:R; [eauto |].
  apply rindex_from_None in R. destruct R as [_ R].
  unfold count_newlines in E. rewrite R in E. discriminate.
Qed.

(** [suffixed_err] always builds the document error. *)
Lemma suffixed_err_decode src pos msg :
  exists where_,
    coord_repr src pos = Some where_ /\
    suffixed_err src pos msg = TOMLDecodeError (msg ++ [Lit " (at "; Lit where_; Lit ")"]).
Proof.
  destruct (coord_repr_defined src pos) as [w Hw].
  exists w. split; [assumption |]. unfold suffixed_err. now rewrite Hw.
Qed.

Lemma raise_suffixed_err A src pos msg :
  is_decode_error (@Raise A (suffixed_err src pos msg)).
Proof.
  destruct (suffixed_err_decode src pos msg) as [w [_ H]].
  rewrite H. eexists. reflexivity.
Qed.

Lemma filter_one_line line : one_line line = true -> @filter char (N.eqb LF) line = [].
Proof.
  induction line as [|c line IH]; [reflexivity |].
  cbn [one_line forallb filter]. intros H. apply andb_true_iff in H. destruct H as [Hc H].
  rewrite N.eqb_sym. destruct (N.eqb c LF); [discriminate | now apply IH].
Qed.

Lemma rindex_from_one_line line : forall i found,
  one_line line = true -> rindex_from line i found = found.
Proof.
  induction line as [|c line IH]; intros i found H; [reflexivity |].
  cbn [one_line forallb] in H. apply andb_true_iff in H. destruct H as [Hc H].
  cbn [rindex_from]. destruct (N.eqb c LF); [discriminate | now apply IH].
Qed.

Lemma rindex_from_last_line before line : forall i found,
  one_line line = true ->
  rindex_from (before ++ LF :: line) i found = Some (i + length before).
Proof.
  induction before as [|c before IH]; intros i found H.
  - cbn [app rindex_from length]. rewrite N.eqb_refl.
    rewrite rindex_from_one_line by assumption. f_equal. lia.
  - cbn [app rindex_from length]. rewrite IH by assumption. f_equal. lia.
Qed.

Lemma firstn_prefix {A} (l l' : list A) : firstn (length l) (l ++ l') = l.
Proof. rewrite firstn_app, Nat.sub_diag, firstn_all. cbn. apply app_nil_r. Qed.

(** The location of a position in the first line: line 1, and the column
    counts from 1. *)
Lemma coord_repr_first_line line rest :
  one_line line = true -> rest <> [] ->
  coord_repr (line ++ rest) (length line)
  = Some (String.append "line 1, column " (decimal (length line + 1))).
Proof.
  intros Hl Hr. unfold coord_repr.
  replace (length (line ++ rest) <=? length line) with false.
  2: { symmetry. apply Nat.leb_gt. rewrite length_app.
       destruct rest; [congruence | cbn; lia]. }
  unfold count_newlines. rewrite firstn_prefix, filter_one_line by assumption.
  reflexivity.
Qed.

(** The location of a position in a later line: the line number is one more
    than the number of line feeds before the position, and the column
    counts from 1 after the last of them. *)
Lemma coord_repr_later_line before line rest :
  one_line line = true -> rest <> [] ->
  coord_repr (before ++ LF :: line ++ rest) (length before + 1 + length line)
  = Some (String.append "line "
            (String.append (decimal (count_newlines before (length before) + 1 + 1))
               (String.append ", column " (decimal (length line + 1))))).
Proof.
  intros Hl Hr. unfold coord_repr.
  replace (before ++ LF :: line ++ rest) with ((before ++ LF :: line) ++ rest)
    by (now rewrite <- app_assoc).
  replace (length before + 1 + length line) with (length (before ++ LF :: line))
    by (rewrite length_app; cbn; lia).
  replace (length ((before ++ LF :: line) ++ rest) <=? length (before ++ LF :: line))
    with false.
  2: { symmetry. apply Nat.leb_gt. rewrite (length_app (before ++ LF :: line)).
       destruct rest; [congruence | cbn; lia]. }
  unfold count_newlines, rindex_newline. rewrite firstn_prefix, firstn_all.
  rewrite filter_app. cbn [filter]. rewrite N.eqb_refl.
  rewrite (filter_one_line line Hl).
  rewrite length_app. cbn [length].
  replace (length (@filter char (N.eqb LF) before) + 1 + 1 =? 1) with false
    by (symmetry; apply Nat.eqb_neq; lia).
  rewrite rindex_from_last_line by assumption.
  replace (length (before ++ LF :: line) - (0 + length before)) with (length line + 1)
    by (rewrite length_app; cbn; lia).
  reflexivity.
Qed.

Lemma coord_repr_end src pos :
  length src <= pos -> coord_repr src pos = Some "end of document"%string.
Proof. intros H. unfold coord_repr. apply Nat.leb_le in H. now rewrite H. Qed.

(** ** Hex escapes *)

Lemma hexdigits_digit_value c :
  hexdigits c = true -> exists d, digit_value c = Some d /\ (0 <= d < 16)%Z.
Proof.
  unfold hexdigits, digit_value, ascii_digit, in_range. intros H.
  destruct (N.leb_spec 48 c), (N.leb_spec c 57); cbn [andb orb] in *.
  all: try (eexists; split; [reflexivity | lia]).
  all: destruct (N.leb_spec 97 c), (N.leb_spec c 102), (N.leb_spec c 122);
    cbn [andb orb] in *; try lia.
  all: try (eexists; split; [reflexivity | lia]).
  all: destruct (N.leb_spec 65 c), (N.leb_spec c 70), (N.leb_spec c 90);
    cbn [andb orb] in *; try lia; try discriminate.
  all: try (eexists; split; [reflexivity | lia]).
Qed.

Lemma hexdigits_not_underscore c : hexdigits c = true -> N.eqb c (ch "_") = false.
Proof.
  unfold hexdigits, ascii_digit, in_range. intros H.
  destruct (N.eqb_spec c (ch "_")) as [->|]; [discriminate | reflexivity].
Qed.

Lemma hexdigits_not_sign c :
  hexdigits c = true -> N.eqb c (ch "-") = false /\ N.eqb c (ch "+") = false.
Proof.
  intros H. split.
  - destruct (N.eqb_spec c (ch "-")) as [->|]; [discriminate | reflexivity].
  - destruct (N.eqb_spec c (ch "+")) as [->|]; [discriminate | reflexivity].
Qed.

Lemma int_digits_hex s : forall acc after_digit,
  forallb hexdigits s = true -> (0 <= acc)%Z -> (s <> [] \/ after_digit = true) ->
  exists i, int_digits 16 s acc after_digit = Some i /\ (0 <= i)%Z.
Proof.
  induction s as [|c s IH]; intros acc ad Hs Hacc Hne.
  - destruct Hne as [Hne | ->]; [congruence |]. exists acc. auto.
  - cbn [forallb] in Hs. apply andb_prop in Hs. destruct Hs as [Hc Hs].
    cbn [int_digits]. rewrite (hexdigits_not_underscore _ Hc).
    destruct (hexdigits_digit_value _ Hc) as [d [-> Hd]].
    replace (d <? 16)%Z with true by (symmetry; apply Z.ltb_lt; lia).
    apply IH; [assumption | lia | auto].
Qed.

(** On hex digits [int(hex_str, 16)] succeeds. *)
Lemma int_hex_defined s :
  s <> [] -> forallb hexdigits s = true ->
  exists i, int_ s 16 = Ok i /\ (0 <= i)%Z.
Proof.
  intros Hne Hs. unfold int_.
  destruct s as [|c s]; [congruence |].
  pose proof Hs as Hs'. cbn [forallb] in Hs'. apply andb_prop in Hs'.
  destruct Hs' as [Hc _]. destruct (hexdigits_not_sign _ Hc) as [-> ->].
  destruct (int_digits_hex (c :: s) 0 false Hs) as [i [Hi Hpos]]; [lia | left; congruence |].
  rewrite Hi. exists (1 * i)%Z. split; [reflexivity | lia].
Qed.

Lemma is_unicode_scalar_value_spec i :
  is_unicode_scalar_value i = true <->
  (0 <= i <= 55295 \/ 57344 <= i <= 1114111)%Z.
Proof.
  unfold is_unicode_scalar_value.
  rewrite orb_true_iff, !andb_true_iff, !Z.leb_le. tauto.
Qed.

Lemma existsb_negb_forallb {A} (f : A -> bool) l :
  existsb (fun x => negb (f x)) l = negb (forallb f l).
Proof.
  induction l as [|x l IH]; cbn; [reflexivity |].
  rewrite IH. now destruct (f x).
Qed.

Lemma parse_hex_char_malformed src pos hex_len :
  ~ well_formed_hex (slice src pos (pos + hex_len)) hex_len ->
  parse_hex_char src pos hex_len = Raise (suffixed_err src pos [Lit "Invalid hex value"]).
Proof.
  intros H. unfold parse_hex_char.
  rewrite existsb_negb_forallb.
  destruct (Nat.eqb_spec (length (slice src pos (pos + hex_len))) hex_len) as [E|E];
    cbn [negb orb]; [| reflexivity].
  destruct (forallb hexdigits (slice src pos (pos + hex_len))) eqn:F; cbn [negb]; [| reflexivity].
  exfalso. apply H. split; assumption.
Qed.

Lemma parse_hex_char_well_formed src pos hex_len :
  0 < hex_len ->
  well_formed_hex (slice src pos (pos + hex_len)) hex_len ->
  exists i, int_ (slice src pos (pos + hex_len)) 16 = Ok i /\
    parse_hex_char src pos hex_len =
      if is_unicode_scalar_value i then Ok (pos + hex_len, [chr i])
      else Raise (suffixed_err src (pos + hex_len)
                    [Lit "Escaped character is not a Unicode scalar value"]).
Proof.
  intros Hlen [E F]. unfold parse_hex_char.
  rewrite existsb_negb_forallb, F, E, Nat.eqb_refl. cbn [negb orb].
  destruct (int_hex_defined (slice src pos (pos + hex_len))) as [i [Hi _]];
    [intros C; rewrite C in E; cbn in E; lia | assumption |].
  exists i. split; [assumption |]. rewrite Hi. cbn [bind].
  now destruct (is_unicode_scalar_value i).
Qed.

Lemma parse_basic_str_escape_u multiline src pos :
  slice src pos (pos + 2) = BACKSLASH :: py "u" ->
  parse_basic_str_escape multiline src pos = parse_hex_char src (pos + 2) 4.
Proof.
  intros H. unfold parse_basic_str_escape. rewrite H.
  destruct multiline; reflexivity.
Qed.

Lemma parse_basic_str_escape_U multiline src pos :
  slice src pos (pos + 2) = BACKSLASH :: py "U" ->
  parse_basic_str_escape multiline src pos = parse_hex_char src (pos + 2) 8.
Proof.
  intros H. unfold parse_basic_str_escape. rewrite H.
  destruct multiline; reflexivity.
Qed.

(** C7.  In a basic string [\u] is followed by exactly four hex digits and
    [\U] by exactly eight.  A payload that is shorter, or that holds a
    character that is not a hex digit, is a document error; a payload of hex
    digits has a value, and the escape is a document error unless the value is
    a Unicode scalar value, in [0, 0xD7FF] or [0xE000, 0x10FFFF], in which
    case the escape yields that one character and the position after the
    payload.  [x = "\uD800"] is an error and [x = "A"] gives the string
    [A]. *)
Theorem hex_escape_is_checked :
  (forall multiline src pos,
      slice src pos (pos + 2) = BACKSLASH :: py "u" ->
      parse_basic_str_escape multiline src pos = parse_hex_char src (pos + 2) 4) /\
  (forall multiline src pos,
      slice src pos (pos + 2) = BACKSLASH :: py "U" ->
      parse_basic_str_escape multiline src pos = parse_hex_char src (pos + 2) 8) /\
  (forall src pos hex_len,
      length (slice src pos (pos + hex_len)) < hex_len \/
      (exists c, In c (slice src pos (pos + hex_len)) /\ hexdigits c = false) ->
      is_decode_error (parse_hex_char src pos hex_len)) /\
  (forall src pos hex_len,
      0 < hex_len ->
      length (slice src pos (pos + hex_len)) = hex_len ->
      (forall c, In c (slice src pos (pos + hex_len)) -> hexdigits c = true) ->
      exists i,
        int_ (slice src pos (pos + hex_len)) 16 = Ok i /\
        ((0 <= i <= 0xD7FF \/ 0xE000 <= i <= 0x10FFFF)%Z ->
         parse_hex_char src pos hex_len = Ok (pos + hex_len, [chr i])) /\
        (~ (0 <= i <= 0xD7FF \/ 0xE000 <= i <= 0x10FFFF)%Z ->
         is_decode_error (parse_hex_char src pos hex_len))) /\
  is_decode_error (toml_loads surrogate_escape_doc) /\
  toml_loads letter_escape_doc = Ok [(py "x", VStr (py "A"))].
Proof.
  split; [exact parse_basic_str_escape_u |].
  split; [exact parse_basic_str_escape_U |].
  split; [| split; [| split]].
  - intros src pos hex_len H.
    rewrite parse_hex_char_malformed; [apply raise_suffixed_err |].
    intros [E F]. destruct H as [H | [c [Hin Hc]]]; [lia |].
    rewrite forallb_forall in F. rewrite (F c Hin) in Hc. discriminate.
  - intros src pos hex_len Hlen E F.
    destruct (parse_hex_char_well_formed src pos hex_len Hlen) as [i [Hi Hp]].
    { split; [assumption | now apply forallb_forall]. }
    exists i. split; [assumption |]. rewrite Hp. split; intros Hs.
    + apply is_unicode_scalar_value_spec in Hs. now rewrite Hs.
    + destruct (is_unicode_scalar_value i) eqn:S.
      * apply is_unicode_scalar_value_spec in S. contradiction.
      * apply raise_suffixed_err.
  - eexists. vm_compute. reflexivity.
  - vm_compute. reflexivity.
Qed.

(** ** Fractional seconds *)

Lemma ascii_digit_value c :
  ascii_digit c = true ->
  digit_value c = Some (Z.of_N c - 48)%Z /\ (0 <= Z.of_N c - 48 < 10)%Z /\
  N.eqb c (ch "_") = false /\ N.eqb c (ch "-") = false /\ N.eqb c (ch "+") = false.
Proof.
  unfold digit_value, ascii_digit, in_range. intros H. rewrite H.
  apply andb_prop in H. destruct H as [H1 H2].
  apply N.leb_le in H1, H2.
  repeat split; try lia.
  all: apply N.eqb_neq; intros ->; cbn in *; lia.
Qed.

Lemma int_digits_decimal digits : forall acc after_digit,
  forallb ascii_digit digits = true ->
  (digits <> [] \/ after_digit = true) ->
  int_digits 10 digits acc after_digit = Some (decimal_value_from acc digits).
Proof.
  induction digits as [|c ds IH]; intros acc ad Hd Hne.
  - destruct Hne as [Hne | ->]; [congruence | reflexivity].
  - cbn [forallb] in Hd. apply andb_prop in Hd. destruct Hd as [Hc Hd].
    destruct (ascii_digit_value c Hc) as [Hv [Hr [Hu _]]].
    cbn [int_digits decimal_value_from]. rewrite Hu, Hv.
    replace (Z.of_N c - 48 <? 10)%Z with true by (symmetry; apply Z.ltb_lt; lia).
    apply IH; auto.
Qed.

Lemma int_decimal digits :
  digits <> [] -> forallb ascii_digit digits = true ->
  int_ digits 10 = Ok (decimal_value digits).
Proof.
  intros Hne Hd. unfold int_. destruct digits as [|c ds]; [congruence |].
  pose proof Hd as Hd'. cbn [forallb] in Hd'. apply andb_prop in Hd'.
  destruct Hd' as [Hc _].
  destruct (ascii_digit_value c Hc) as [_ [_ [_ [-> ->]]]].
  rewrite int_digits_decimal; [| assumption | left; congruence].
  unfold decimal_value. f_equal. lia.
Qed.

Lemma decimal_value_from_app a b : forall acc,
  decimal_value_from acc (a ++ b) = decimal_value_from (decimal_value_from acc a) b.
Proof. induction a as [|c a IH]; intros acc; cbn; [reflexivity | apply IH]. Qed.

Lemma decimal_value_from_acc b : forall acc,
  decimal_value_from acc b = (acc * 10 ^ Z.of_nat (length b) + decimal_value b)%Z.
Proof.
  unfold decimal_value.
  induction b as [|c b IH]; intros acc.
  - cbn. lia.
  - cbn [decimal_value_from length]. rewrite IH, (IH (0 * 10 + _)%Z).
    rewrite Nat2Z.inj_succ, Z.pow_succ_r by lia. lia.
Qed.

Lemma decimal_value_app a b :
  decimal_value (a ++ b) = (decimal_value a * 10 ^ Z.of_nat (length b) + decimal_value b)%Z.
Proof.
  unfold decimal_value at 1. rewrite decimal_value_from_app, decimal_value_from_acc.
  reflexivity.
Qed.

Lemma decimal_value_bound b :
  forallb ascii_digit b = true ->
  (0 <= decimal_value b < 10 ^ Z.of_nat (length b))%Z.
Proof.
  induction b as [|c b IH] using rev_ind; intros Hd.
  - cbn. lia.
  - rewrite forallb_app in Hd. apply andb_prop in Hd. destruct Hd as [Hb Hc].
    cbn [forallb] in Hc. rewrite andb_true_r in Hc.
    destruct (ascii_digit_value c Hc) as [_ [Hr _]].
    specialize (IH Hb).
    rewrite decimal_value_app, length_app. cbn [length].
    replace (decimal_value [c]) with (Z.of_N c - 48)%Z by (cbn; lia).
    rewrite Nat2Z.inj_add, Z.pow_add_r by lia. cbn [Z.of_nat Pos.of_succ_nat].
    change (10 ^ 1)%Z with 10%Z. nia.
Qed.

Lemma decimal_value_zeros n : decimal_value (repeat (ch "0") n) = 0%Z.
Proof.
  induction n as [|n IH]; [reflexivity |].
  change (repeat (ch "0") (S n)) with ([ch "0"] ++ repeat (ch "0") n).
  rewrite decimal_value_app, IH. cbn. lia.
Qed.

Lemma forallb_digit_zeros n : forallb ascii_digit (repeat (ch "0") n) = true.
Proof. induction n; [reflexivity | cbn [repeat forallb]; now rewrite IHn]. Qed.

Lemma In_firstn {A} (x : A) n : forall l, In x (firstn n l) -> In x l.
Proof.
  induction n as [|n IH]; intros [|y l] H; cbn in *; try contradiction.
  destruct H as [H | H]; [left; assumption | right; apply IH; assumption].
Qed.

Lemma six_digits_digits digits :
  forallb ascii_digit digits = true ->
  length (six_digits digits) = 6 /\ forallb ascii_digit (six_digits digits) = true.
Proof.
  intros Hd. unfold six_digits, ljust. split.
  - rewrite length_firstn, length_app, repeat_length. lia.
  - apply forallb_forall. intros c Hin. apply In_firstn in Hin.
    apply in_app_or in Hin. destruct Hin as [Hin | Hin].
    + rewrite forallb_forall in Hd. auto.
    + pose proof (forallb_digit_zeros (6 - length digits)) as Z.
      rewrite forallb_forall in Z. auto.
Qed.

(** Cutting to six digits truncates: the value is the whole part of
    [value * 10^6 / 10^length]. *)
Lemma six_digits_value digits :
  forallb ascii_digit digits = true ->
  decimal_value (six_digits digits) =
  (decimal_value digits * 10 ^ 6 / 10 ^ Z.of_nat (length digits))%Z.
Proof.
  intros Hd. unfold six_digits, ljust.
  destruct (Nat.le_gt_cases (length digits) 6) as [Hle | Hgt].
  - rewrite firstn_all2 by (rewrite length_app, repeat_length; lia).
    rewrite decimal_value_app, decimal_value_zeros, repeat_length, Z.add_0_r.
    replace (10 ^ 6)%Z with (10 ^ Z.of_nat (6 - length digits) * 10 ^ Z.of_nat (length digits))%Z.
    + rewrite Z.mul_assoc, Z.div_mul by (apply Z.pow_nonzero; lia). reflexivity.
    + rewrite <- Z.pow_add_r by lia. f_equal. lia.
  - replace (6 - length digits) with 0 by lia. cbn [repeat]. rewrite app_nil_r.
    rewrite <- (firstn_skipn 6 digits) at 2 3.
    assert (Hf : forallb ascii_digit (firstn 6 digits) = true /\
                 forallb ascii_digit (skipn 6 digits) = true).
    { rewrite <- (firstn_skipn 6 digits), forallb_app in Hd. now apply andb_prop in Hd. }
    destruct Hf as [_ Hs]. pose proof (decimal_value_bound _ Hs) as Hb.
    rewrite decimal_value_app, length_app, length_firstn, length_skipn in *.
    replace (Nat.min 6 (length digits)) with 6 by lia.
    set (k := length digits - 6) in *.
    rewrite Nat2Z.inj_add, Z.pow_add_r by lia.
    change (Z.of_nat 6) with 6%Z.
    set (a := decimal_value (firstn 6 digits)).
    set (b := decimal_value (skipn 6 digits)) in *.
    assert (Hk : (0 < 10 ^ Z.of_nat k)%Z) by (apply Z.pow_pos_nonneg; lia).
    apply Z.div_unique with (r := (b * 10 ^ 6)%Z); [left; nia | lia].
Qed.

Lemma micros_of_digits point digits :
  digits <> [] -> forallb ascii_digit digits = true ->
  micros_of (Some (point :: digits)) = Ok (decimal_value (six_digits digits)).
Proof.
  intros Hne Hd. cbn [micros_of]. fold (six_digits digits).
  destruct (six_digits_digits digits Hd) as [Hl Hs].
  apply int_decimal; [| assumption].
  intros E. rewrite E in Hl. discriminate.
Qed.

Ltac bind_inv H :=
  repeat match type of H with
    | bind ?r _ = _ =>
        let E := fresh "E" in
        destruct r eqn:E; cbn [bind] in H; [| discriminate H | discriminate H]
    | (let '(_, _) := ?p in _) = _ => destruct p
    | (match ?p with (_, _) => _ end) = _ => destruct p
    end.

Lemma parse_localtime_micros src pos m p v :
  parse_localtime src pos m = Ok (p, v) ->
  exists us, micros_of (group m 3) = Ok us /\ microsecond_of v = Some us.
Proof.
  unfold parse_localtime. intros H. bind_inv H.
  unfold time in *. destruct (valid_time a a0 a1 a2); [| discriminate].
  inversion E3; subst. inversion H; subst. eauto.
Qed.

Lemma parse_datetime_micros src pos m hour_str p v :
  group m 3 = Some hour_str ->
  parse_datetime src pos m = Ok (p, v) ->
  exists us, micros_of (group m 6) = Ok us /\ microsecond_of v = Some us.
Proof.
  unfold parse_datetime. intros G H. rewrite G in H. bind_inv H.
  unfold datetime in *.
  match type of E7 with (if ?c then _ else _) = _ => destruct c; [| discriminate] end.
  inversion E7; subst. inversion H; subst. eauto.
Qed.

(** C8.  The fraction of a second of a date-time or of a local time, a point
    and digits, becomes the microsecond field in this way: the digits are
    padded on the right with zeros to six and cut to six, and the field is
    the number these six digits denote.  That number is the whole part of
    [value * 10^6 / 10^length]: digits after the sixth are dropped without
    rounding, fewer than six digits are scaled up.  Nine digits keep the
    first six and two digits get four zeros. *)
Theorem fractional_seconds_six_digits :
  (forall point digits,
      digits <> [] ->
      (forall c, In c digits -> ascii_digit c = true) ->
      let padded := digits ++ repeat (ch "0") (6 - length digits) in
      micros_of (Some (point :: digits)) = Ok (decimal_value (firstn 6 padded)) /\
      length (firstn 6 padded) = 6 /\
      decimal_value (firstn 6 padded)
      = (decimal_value digits * 10 ^ 6 / 10 ^ Z.of_nat (length digits))%Z) /\
  (forall src pos m p v,
      parse_localtime src pos m = Ok (p, v) ->
      exists us, micros_of (group m 3) = Ok us /\ microsecond_of v = Some us) /\
  (forall src pos m hour_str p v,
      group m 3 = Some hour_str ->
      parse_datetime src pos m = Ok (p, v) ->
      exists us, micros_of (group m 6) = Ok us /\ microsecond_of v = Some us) /\
  toml_loads (py "x = 1979-05-27T07:32:00.999999999")
  = Ok [(py "x", VDateTime 1979 5 27 7 32 0 999999 None)] /\
  toml_loads (py "x = 07:32:00.12") = Ok [(py "x", VTime 7 32 0 120000)].
Proof.
  split; [| split; [exact parse_localtime_micros |
            split; [exact parse_datetime_micros | split; vm_compute; reflexivity]]].
  intros point digits Hne Hd padded.
  assert (Hd' : forallb ascii_digit digits = true) by now apply forallb_forall.
  destruct (six_digits_digits digits Hd') as [Hl _].
  split; [apply micros_of_digits; assumption |].
  split; [exact Hl | apply six_digits_value; assumption].
Qed.

(** ** Reading the source through its suffix *)

Lemma skipn_cons_char_at (src : str) pos c t :
  skipn pos src = c :: t -> char_at src pos = Some c /\ skipn (S pos) src = t.
Proof.
  revert src. induction pos as [|pos IH]; intros [|x src] H; cbn in *; try discriminate.
  - inversion H. auto.
  - apply IH in H. assumption.
Qed.

Lemma skipn_nil_char_at (src : str) pos : skipn pos src = [] -> char_at src pos = None.
Proof.
  revert src. induction pos as [|pos IH]; intros [|x src] H; cbn in *;
    try discriminate; auto.
Qed.

Lemma skipn_app_skip (src : str) pos a t :
  skipn pos src = a ++ t -> skipn (pos + length a) src = t.
Proof.
  intros H. rewrite Nat.add_comm, <- skipn_skipn, H.
  rewrite skipn_app, skipn_all, Nat.sub_diag. reflexivity.
Qed.

Lemma slice_prefix (src : str) pos a t :
  skipn pos src = a ++ t -> slice src pos (pos + length a) = a.
Proof.
  intros H. unfold slice. rewrite H.
  replace (pos + length a - pos) with (length a + 0) by lia.
  rewrite firstn_app_2. cbn. apply app_nil_r.
Qed.

Lemma str_eqb_refl a : str_eqb a a = true.
Proof. unfold str_eqb. destruct (str_eq_dec a a); congruence. Qed.

Lemma str_eqb_eq a b : str_eqb a b = true <-> a = b.
Proof. unfold str_eqb. destruct (str_eq_dec a b); split; congruence. Qed.

Lemma starts_with_prefix (src : str) pos lit t :
  skipn pos src = lit ++ t -> starts_with src pos lit = true.
Proof.
  intros H. unfold starts_with. rewrite (slice_prefix src pos lit t H).
  apply str_eqb_refl.
Qed.

Lemma starts_with_char (src : str) pos c :
  starts_with src pos [c] = char_is (char_at src pos) c.
Proof.
  unfold starts_with, slice, char_is.
  replace (pos + length [c] - pos) with 1 by (cbn; lia).
  destruct (skipn pos src) as [|x t] eqn:E.
  - rewrite (skipn_nil_char_at _ _ E). reflexivity.
  - destruct (skipn_cons_char_at _ _ _ _ E) as [-> _]. cbn [firstn].
    unfold str_eqb. destruct (str_eq_dec [x] [c]) as [e|n].
    + inversion e. symmetry. apply N.eqb_refl.
    + destruct (N.eqb_spec x c); congruence.
Qed.

(** ** Multiline strings *)

Section PlainBody.
Variables (delim : char) (delim_len : nat) (error_on : char -> bool).
Variable parse_escapes : option (str -> Pos -> result (Pos * str)).

Lemma parse_string_loop_step fuel src result_ start_pos pos c t :
  skipn pos src = c :: t -> stepped_over delim error_on parse_escapes c = true ->
  parse_string_loop (S fuel) src delim delim_len error_on parse_escapes
    result_ start_pos pos
  = parse_string_loop fuel src delim delim_len error_on parse_escapes
      result_ start_pos (pos + 1).
Proof.
  intros Hs Hc. destruct (skipn_cons_char_at _ _ _ _ Hs) as [Hat _].
  cbn [parse_string_loop]. rewrite Hat.
  unfold stepped_over in Hc. apply andb_prop in Hc. destruct Hc as [Hc He].
  apply andb_prop in Hc. destruct Hc as [Hd Hr].
  apply negb_true_iff in Hd, Hr. rewrite Hd, Hr.
  destruct parse_escapes; [| reflexivity].
  apply negb_true_iff in He. rewrite He. reflexivity.
Qed.


Lemma parse_string_loop_close fuel src result_ start_pos pos t :
  skipn pos src = repeat delim delim_len ++ t -> 0 < delim_len ->
  parse_string_loop (S fuel) src delim delim_len error_on parse_escapes
    result_ start_pos pos
  = Ok (pos + delim_len, result_ ++ slice src start_pos pos).
Proof.
  intros Hs Hl. destruct delim_len as [|n]; [lia |].
  cbn [repeat app] in Hs. destruct (skipn_cons_char_at _ _ _ _ Hs) as [Hat Hs'].
  cbn [parse_string_loop]. rewrite Hat, N.eqb_refl.
  replace (S n - 1) with n by lia.
  assert (Hsl : slice src (pos + 1) (pos + S n) = repeat delim n).
  { pose proof (slice_prefix src (pos + 1) (repeat delim n) t) as P.
    rewrite repeat_length, Nat.add_1_r in P.
    rewrite Nat.add_1_r. replace (pos + S n) with (S pos + n) by lia. auto. }
  rewrite Hsl.
  destruct (str_eq_dec (repeat delim n) (repeat delim n)); congruence.
Qed.
End PlainBody.


Lemma head_char_is (t : str) c (src : str) pos :
  skipn pos src = t -> char_is (char_at src pos) c = true <-> head t = Some c.
Proof.
  intros H. destruct t as [|x t].
  - rewrite (skipn_nil_char_at _ _ H). cbn. split; discriminate.
  - destruct (skipn_cons_char_at _ _ _ _ H) as [-> _]. cbn.
    rewrite N.eqb_eq. split; congruence.
Qed.

Lemma char_is_head_true (src : str) pos c t :
  skipn pos src = c :: t -> char_is (char_at src pos) c = true.
Proof. intros H. eapply head_char_is; [exact H | reflexivity]. Qed.

Lemma char_is_head_false (src : str) pos c t :
  skipn pos src = t -> head t <> Some c -> char_is (char_at src pos) c = false.
Proof.
  intros H Hne. apply not_true_is_false. intros C.
  apply (proj1 (head_char_is _ _ _ _ H)) in C. contradiction.
Qed.

Lemma skipn_cons_tail (src : str) pos c t :
  skipn pos src = c :: t -> skipn (pos + 1) src = t.
Proof.
  intros H. rewrite Nat.add_1_r. now destruct (skipn_cons_char_at _ _ _ _ H).
Qed.




(** ** Documents without statements *)

Lemma blank_from_replace_crlf s : forall in_comment,
  blank_from in_comment s = true -> blank_lines in_comment (replace_crlf s) = true.
Proof.
  induction s as [|c s IH]; intros b H; [reflexivity |].
  cbn [blank_from] in H. cbn [replace_crlf].
  destruct s as [|c' s'].
  - cbn [head char_is] in H. rewrite andb_false_r in H. exact H.
  - cbn [head char_is] in H.
    destruct (N.eqb_spec c LF) as [->|Hlf].
    + change (N.eqb LF CR) with false. cbn [andb].
      cbn [blank_lines]. rewrite N.eqb_refl. now apply IH.
    + destruct (N.eqb c CR && N.eqb c' LF)%bool eqn:E.
      * now apply IH.
      * cbn [blank_lines]. destruct (N.eqb_spec c LF); [contradiction |].
        destruct b.
        -- apply andb_prop in H. destruct H as [-> H]. cbn [andb]. now apply IH.
        -- destruct (TOML_WS c); [now apply IH |].
           destruct (N.eqb c (ch "#")); [now apply IH | discriminate].
Qed.

Lemma skip_chars_from_span chars rest : forall pos,
  skip_chars_from rest pos chars = pos + span chars rest.
Proof.
  induction rest as [|c rest IH]; intros pos; cbn; [lia |].
  destruct (chars c); [rewrite IH; lia | lia].
Qed.

Lemma skip_chars_span src pos chars :
  skip_chars src pos chars = pos + span chars (skipn pos src).
Proof. apply skip_chars_from_span. Qed.

Lemma skipn_add (src : str) pos k rest :
  skipn pos src = rest -> skipn (pos + k) src = skipn k rest.
Proof. intros <-. rewrite Nat.add_comm. symmetry. apply skipn_skipn. Qed.

Lemma span_head chars rest :
  match skipn (span chars rest) rest with
  | c :: _ => chars c = false
  | [] => True
  end.
Proof.
  induction rest as [|c rest IH]; cbn; [exact I |].
  destruct (chars c) eqn:E; cbn; [exact IH | exact E].
Qed.

Lemma TOML_WS_not_LF c : TOML_WS c = true -> N.eqb c LF = false.
Proof.
  unfold TOML_WS, in_chars. cbn [existsb]. rewrite orb_false_r, orb_true_iff, !N.eqb_eq.
  intros [-> | ->]; reflexivity.
Qed.

Lemma blank_lines_span rest :
  blank_lines false rest = true ->
  blank_lines false (skipn (span TOML_WS rest) rest) = true.
Proof.
  induction rest as [|c rest IH]; intros H; [exact H |].
  cbn [span]. destruct (TOML_WS c) eqn:E; [| exact H].
  cbn [skipn]. apply IH. cbn [blank_lines] in H.
  now rewrite (TOML_WS_not_LF c E), E in H.
Qed.

(** The rest of a comment: [skip_until] stops at the line feed or at the end
    of the text. *)
Lemma skip_until_comment src rest : forall pos,
  blank_lines true rest = true ->
  exists k,
    skip_until_from rest src pos LF ILLEGAL_COMMENT_CHARS false = Ok (pos + k) /\
    k <= length rest /\
    blank_lines false (skipn k rest) = true /\
    (head (skipn k rest) = None \/ head (skipn k rest) = Some LF).
Proof.
  induction rest as [|c rest IH]; intros pos H.
  - exists 0. cbn. rewrite Nat.add_0_r. auto.
  - cbn [blank_lines] in H. cbn [skip_until_from].
    destruct (N.eqb_spec c LF) as [->|Hne].
    + exists 0. rewrite Nat.add_0_r. cbn [skipn length head blank_lines].
      rewrite N.eqb_refl. repeat split; auto; lia.
    + apply andb_prop in H. destruct H as [Hc H].
      apply negb_true_iff in Hc. rewrite Hc.
      destruct (IH (S pos) H) as [k [Hk [Hle [Hb Hh]]]].
      exists (S k). rewrite Hk. cbn [skipn length].
      split; [f_equal; lia | split; [lia | split; assumption]].
Qed.

Lemma span_no_head chars (rest : str) :
  match rest with c :: _ => chars c = false | [] => True end -> span chars rest = 0.
Proof. destruct rest as [|c rest]; cbn; [reflexivity | now intros ->]. Qed.

Lemma loads_loop_blank re src state : forall n fuel pos rest,
  skipn pos src = rest -> length rest <= n -> n < fuel ->
  blank_lines false rest = true ->
  loads_loop re fuel src pos state = Ok (out state).
Proof.
  induction n as [|n IH]; intros fuel pos rest Hs Hlen Hfuel Hb;
    (destruct fuel as [|fuel]; [lia |]); cbn [loads_loop].
  - destruct rest; [| cbn in Hlen; lia].
    rewrite skip_chars_span, Hs. cbn [span]. rewrite Nat.add_0_r.
    now rewrite (skipn_nil_char_at _ _ Hs).
  - rewrite skip_chars_span, Hs.
    pose proof (blank_lines_span rest Hb) as Hb1.
    pose proof (span_head TOML_WS rest) as Hh1.
    pose proof (skipn_add src pos (span TOML_WS rest) rest Hs) as Hs1.
    assert (Hl1 : length (skipn (span TOML_WS rest) rest) <= S n)
      by (rewrite length_skipn; lia).
    set (pos1 := pos + span TOML_WS rest) in *.
    destruct (skipn (span TOML_WS rest) rest) as [|c t] eqn:E1.
    { now rewrite (skipn_nil_char_at _ _ Hs1). }
    destruct (skipn_cons_char_at _ _ _ _ Hs1) as [Hc1 Ht1]. rewrite Hc1.
    cbn [blank_lines] in Hb1. cbn [length] in Hl1.
    destruct (N.eqb c LF) eqn:Elf.
    { apply (IH fuel (pos1 + 1) t); [now rewrite Nat.add_1_r | lia | lia | assumption]. }
    rewrite Hh1 in Hb1.
    destruct (N.eqb c (ch "#")) eqn:Ehash; [| discriminate].
    unfold expect_comment, skip_until. rewrite Nat.add_1_r, Ht1.
    destruct (skip_until_comment src t (S pos1) Hb1) as [k [Hk [Hle [Hb2 Hh2]]]].
    rewrite Hk. cbn [bind].
    pose proof (skipn_add src (S pos1) k t Ht1) as Hs2.
    set (pos2 := S pos1 + k) in *.
    assert (Hspan : span TOML_WS (skipn k t) = 0).
    { apply span_no_head. destruct (skipn k t) as [|c2 t2]; [exact I |].
      destruct Hh2 as [Hh2 | Hh2]; cbn in Hh2; [discriminate |].
      inversion Hh2. reflexivity. }
    rewrite skip_chars_span, Hs2, Hspan, Nat.add_0_r.
    unfold skip_comment.
    assert (Hl2 : length (skipn k t) <= n) by (rewrite length_skipn; lia).
    destruct (skipn k t) as [|c2 t2] eqn:E2.
    { rewrite (skipn_nil_char_at _ _ Hs2). cbn [char_is bind].
      now rewrite (skipn_nil_char_at _ _ Hs2). }
    destruct Hh2 as [Hh2 | Hh2]; cbn in Hh2; [discriminate |].
    inversion Hh2; subst c2.
    destruct (skipn_cons_char_at _ _ _ _ Hs2) as [Hc2 Ht2]. rewrite Hc2.
    cbn [char_is]. change (N.eqb LF (ch "#")) with false. cbn [bind].
    rewrite Hc2, N.eqb_refl. cbn [negb].
    cbn [blank_lines] in Hb2. rewrite N.eqb_refl in Hb2. cbn [length] in Hl2.
    apply (IH fuel (pos2 + 1) t2); [now rewrite Nat.add_1_r | lia | lia | assumption].
Qed.

(** C10.  A text that holds nothing but blanks, line ends and comments, the
    empty text among them, is a document with no key: [loads] returns the
    empty table. *)
Theorem blank_document_is_empty_table (re : Patterns) (s : str) :
  blank_document s = true -> loads re s = Ok [].
Proof.
  intros H. unfold loads.
  apply (loads_loop_blank re (replace_crlf s) State_init
           (length (replace_crlf s)) _ 0 (replace_crlf s)); [reflexivity | lia | lia |].
  now apply blank_from_replace_crlf.
Qed.

Lemma blank_document_is_empty_table_witness :
  toml_loads (py "# one" ++ [CR; LF] ++ py "  " ++ [TAB; LF; LF] ++ py " # two") = Ok [].
Proof.
  apply (blank_document_is_empty_table tomli_re). reflexivity.
Defined.

(** ** Dictionaries *)

Section DictFacts.
Context {V : Type}.
Implicit Types (d : dict V) (k : str) (v : V).

Lemma dict_get_set_eq d k v : dict_get (dict_set d k v) k = Some v.
Proof.
  induction d as [|[k' v'] d IH]; cbn.
  - destruct (str_eq_dec k k); congruence.
  - destruct (str_eq_dec k k') as [->|Hne]; cbn.
    + destruct (str_eq_dec k' k'); congruence.
    + destruct (str_eq_dec k k'); [contradiction | exact IH].
Qed.

Lemma dict_get_set_ne d k k' v : k <> k' -> dict_get (dict_set d k v) k' = dict_get d k'.
Proof.
  intros Hne. induction d as [|[k0 v0] d IH]; cbn.
  - destruct (str_eq_dec k' k); congruence.
  - destruct (str_eq_dec k k0) as [->|Hne0]; cbn.
    + destruct (str_eq_dec k' k0); [congruence | reflexivity].
    + destruct (str_eq_dec k' k0); [reflexivity | exact IH].
Qed.

Lemma dict_get_pop_ne d k k' : k <> k' -> dict_get (dict_pop d k) k' = dict_get d k'.
Proof.
  intros Hne. induction d as [|[k0 v0] d IH]; cbn; [reflexivity |].
  destruct (str_eq_dec k k0) as [->|Hne0]; cbn.
  - destruct (str_eq_dec k' k0); [congruence | exact IH].
  - destruct (str_eq_dec k' k0); [reflexivity | exact IH].
Qed.

Lemma dict_get_pop_eq d k : dict_get (dict_pop d k) k = None.
Proof.
  induction d as [|[k0 v0] d IH]; cbn; [reflexivity |].
  destruct (str_eq_dec k k0) as [->|Hne0]; cbn; [exact IH |].
  destruct (str_eq_dec k k0); [contradiction | exact IH].
Qed.

Lemma dict_in_set d k k' v :
  dict_in k' (dict_set d k v) = if str_eq_dec k k' then true else dict_in k' d.
Proof.
  unfold dict_in. destruct (str_eq_dec k k') as [->|Hne].
  - now rewrite dict_get_set_eq.
  - now rewrite dict_get_set_ne.
Qed.
End DictFacts.

(** ** Flags *)

Lemma node_at_cons k k2 rest cont :
  node_at (k :: k2 :: rest) cont
  = match dict_get cont k with
    | Some n => node_at (k2 :: rest) (node_nested n)
    | None => None
    end.
Proof. reflexivity. Qed.

Lemma is_cons k k2 rest flag cont :
  is_ (k :: k2 :: rest) flag cont
  = match dict_get cont k with
    | None => false
    | Some (mkNode _ r nested) =>
        if flag_in flag r then true else is_ (k2 :: rest) flag nested
    end.
Proof. reflexivity. Qed.

Lemma set_flag_cons k k2 rest flag recursive cont :
  set_flag (k :: k2 :: rest) flag recursive cont
  = let '(mkNode f r nested) :=
      match dict_get cont k with Some n => n | None => empty_node end in
    dict_set cont k (mkNode f r (set_flag (k2 :: rest) flag recursive nested)).
Proof. reflexivity. Qed.

Lemma unset_all_cons k k2 rest cont :
  unset_all (k :: k2 :: rest) cont
  = match dict_get cont k with
    | None => cont
    | Some (mkNode f r nested) =>
        dict_set cont k (mkNode f r (unset_all (k2 :: rest) nested))
    end.
Proof. reflexivity. Qed.

Lemma is_prefix_cons k a b : is_prefix (k :: a) b <-> exists b', b = k :: b' /\ is_prefix a b'.
Proof.
  split.
  - intros [rest ->]. exists (a ++ rest). split; [reflexivity | now exists rest].
  - intros [b' [-> [rest ->]]]. now exists rest.
Qed.

Lemma is_prefix_nil b : is_prefix [] b.
Proof. now exists b. Qed.

(** A recursive flag is seen by [is_] at the key and at every key below. *)
Lemma is_marked_recursive a : forall key flag cont,
  marked_recursive a flag cont = true -> is_prefix a key -> is_ key flag cont = true.
Proof.
  unfold marked_recursive.
  induction a as [|k a IH]; intros key flag cont Hm Hp; [discriminate |].
  apply is_prefix_cons in Hp. destruct Hp as [key' [-> Hp]].
  destruct a as [|k2 a].
  - cbn [node_at] in Hm. destruct (dict_get cont k) as [[f r n]|] eqn:G; [| discriminate].
    destruct key' as [|k' key']; cbn [is_]; rewrite G.
    + rewrite Hm. apply orb_true_r.
    + now rewrite Hm.
  - apply is_prefix_cons in Hp. destruct Hp as [key2 [-> Hp]].
    rewrite node_at_cons in Hm. rewrite is_cons.
    destruct (dict_get cont k) as [[f r n]|] eqn:G; [| discriminate].
    destruct (flag_in flag r); [reflexivity |].
    apply IH; [exact Hm |]. apply is_prefix_cons. eauto.
Qed.

Lemma flag_in_cons flag s : flag_in flag (flag :: s) = true.
Proof. unfold flag_in. cbn. now rewrite Nat.eqb_refl. Qed.

Lemma flag_in_cons_mono flag f s : flag_in flag s = true -> flag_in flag (f :: s) = true.
Proof. unfold flag_in. cbn. intros ->. apply orb_true_r. Qed.

Lemma marked_recursive_set_flag a : forall flag cont,
  a <> [] -> marked_recursive a flag (set_flag a flag true cont) = true.
Proof.
  unfold marked_recursive.
  induction a as [|k a IH]; intros flag cont Hne; [congruence |].
  destruct a as [|k2 a].
  - cbn [set_flag node_at].
    destruct (match dict_get cont k with Some n => n | None => empty_node end) as [f r n].
    rewrite dict_get_set_eq. apply flag_in_cons.
  - rewrite set_flag_cons, node_at_cons.
    destruct (match dict_get cont k with Some n => n | None => empty_node end) as [f r n].
    rewrite dict_get_set_eq. cbn [node_nested]. apply IH. congruence.
Qed.

Lemma marked_recursive_head k a flag cont cont' :
  dict_get cont k = dict_get cont' k ->
  marked_recursive (k :: a) flag cont = marked_recursive (k :: a) flag cont'.
Proof.
  unfold marked_recursive. intros H. destruct a as [|k2 a].
  - cbn [node_at]. now rewrite H.
  - rewrite !node_at_cons. now rewrite H.
Qed.

Lemma marked_recursive_dict_set k1 a1 flag cont k f' r' n' :
  marked_recursive (k1 :: a1) flag cont = true ->
  (k = k1 -> forall f r n, dict_get cont k = Some (mkNode f r n) ->
     match a1 with
     | [] => flag_in flag r = true -> flag_in flag r' = true
     | _ => marked_recursive a1 flag n = true -> marked_recursive a1 flag n' = true
     end) ->
  marked_recursive (k1 :: a1) flag (dict_set cont k (mkNode f' r' n')) = true.
Proof.
  intros Hm Hnew. destruct (str_eq_dec k k1) as [->|Hne].
  - specialize (Hnew eq_refl). unfold marked_recursive in *. destruct a1 as [|k2 a1].
    + cbn [node_at] in *. rewrite dict_get_set_eq.
      destruct (dict_get cont k1) as [[f r n]|]; [| discriminate].
      now apply (Hnew f r n).
    + rewrite node_at_cons in *. rewrite dict_get_set_eq. cbn [node_nested].
      destruct (dict_get cont k1) as [[f r n]|]; [| discriminate].
      now apply (Hnew f r n).
  - rewrite <- Hm. apply marked_recursive_head. now apply dict_get_set_ne.
Qed.

(** Setting a flag keeps the recursive flags that are there. *)
Lemma marked_recursive_kept_set_flag key : forall a flag flag0 recursive cont,
  marked_recursive a flag cont = true ->
  marked_recursive a flag (set_flag key flag0 recursive cont) = true.
Proof.
  induction key as [|k key IH]; intros a flag flag0 recursive cont Hm; [exact Hm |].
  destruct a as [|k1 a1]; [discriminate |].
  destruct key as [|k2 key].
  - cbn [set_flag].
    destruct (match dict_get cont k with Some n => n | None => empty_node end)
      as [f r n] eqn:E.
    destruct recursive; apply marked_recursive_dict_set; try exact Hm;
      intros _ f0 r0 n0 G; rewrite G in E; inversion E; subst;
      destruct a1; auto using flag_in_cons_mono.
  - rewrite set_flag_cons.
    destruct (match dict_get cont k with Some n => n | None => empty_node end)
      as [f r n] eqn:E.
    apply marked_recursive_dict_set; [exact Hm |].
    intros _ f0 r0 n0 G. rewrite G in E. inversion E; subst.
    destruct a1; [auto |]. apply IH.
Qed.

Lemma marked_recursive_kept_set_along key : forall a flag flag0 cont,
  marked_recursive a flag cont = true ->
  marked_recursive a flag (set_along key flag0 cont) = true.
Proof.
  induction key as [|k key IH]; intros a flag flag0 cont Hm; [exact Hm |].
  destruct a as [|k1 a1]; [discriminate |].
  cbn [set_along]. destruct (dict_get cont k) as [[f r n]|] eqn:G.
  - apply marked_recursive_dict_set; [exact Hm |].
    intros _ f0 r0 n0 E. rewrite G in E. inversion E; subst.
    destruct a1; [auto |]. apply IH.
  - apply marked_recursive_dict_set; [exact Hm |]. intros _ f0 r0 n0 E. congruence.
Qed.

Lemma marked_recursive_kept_set_for_relative_key head_key :
  forall rel_key a flag flag0 cont,
  marked_recursive a flag cont = true ->
  marked_recursive a flag (set_for_relative_key head_key rel_key flag0 cont) = true.
Proof.
  induction head_key as [|k key IH]; intros rel_key a flag flag0 cont Hm.
  - now apply marked_recursive_kept_set_along.
  - destruct a as [|k1 a1]; [discriminate |].
    cbn [set_for_relative_key]. destruct (dict_get cont k) as [[f r n]|] eqn:G.
    + apply marked_recursive_dict_set; [exact Hm |].
      intros _ f0 r0 n0 E. rewrite G in E. inversion E; subst.
    destruct a1; [auto |]. apply IH.
    + apply marked_recursive_dict_set; [exact Hm |]. intros _ f0 r0 n0 E. congruence.
Qed.

(** [unset_all key] keeps the recursive flags of the keys that are neither
    [key] nor below it. *)
Lemma marked_recursive_kept_unset_all key : forall a flag cont,
  ~ is_prefix key a -> key <> [] ->
  marked_recursive a flag cont = true ->
  marked_recursive a flag (unset_all key cont) = true.
Proof.
  induction key as [|k key IH]; intros a flag cont Hp Hne Hm; [congruence |].
  destruct a as [|k1 a1]; [discriminate |].
  destruct key as [|k2 key].
  - cbn [unset_all]. rewrite <- Hm. apply marked_recursive_head.
    apply dict_get_pop_ne. intros ->. apply Hp. now exists a1.
  - rewrite unset_all_cons. destruct (dict_get cont k) as [[f r n]|] eqn:G; [| exact Hm].
    apply marked_recursive_dict_set; [exact Hm |].
    intros -> f0 r0 n0 E. rewrite G in E. inversion E; subst.
    destruct a1 as [|k3 a1]; [auto |].
    apply IH; [| congruence].
    intros Hp'. apply Hp. apply is_prefix_cons. eauto.
Qed.

Lemma flag_in_single flag flag0 : flag <> flag0 -> flag_in flag [flag0] = false.
Proof. intros H. unfold flag_in. cbn. rewrite orb_false_r. now apply Nat.eqb_neq. Qed.


(** After [unset_all key] and [set(key, flag0)] the key has no other flag
    than [flag0], if no key above it hands one down. *)
Lemma is_after_reset key : forall flag flag0 cont,
  flag <> flag0 ->
  is_ key flag cont = false ->
  is_ key flag (set_flag key flag0 false (unset_all key cont)) = false.
Proof.
  induction key as [|k key IH]; intros flag flag0 cont Hne His; [reflexivity |].
  destruct key as [|k2 key].
  - cbn [unset_all set_flag is_]. rewrite dict_get_pop_eq. cbn [empty_node].
    rewrite dict_get_set_eq, flag_in_single by assumption. reflexivity.
  - rewrite unset_all_cons. rewrite is_cons in His.
    destruct (dict_get cont k) as [[f r n]|] eqn:G.
    + rewrite set_flag_cons, dict_get_set_eq, is_cons, dict_get_set_eq.
      destruct (flag_in flag r); [discriminate |]. now apply IH.
    + rewrite set_flag_cons, G. cbn [empty_node]. rewrite is_cons, dict_get_set_eq.
      cbn [flag_in existsb].
      specialize (IH flag flag0 [] Hne).
      replace (unset_all (k2 :: key) []) with (@nil (str * FlagNode)) in IH
        by (destruct key; reflexivity).
      apply IH. destruct key; reflexivity.
Qed.

(** ** The document tree *)

Lemma value_at_cons k rest cont :
  rest <> [] ->
  value_at (k :: rest) cont
  = match dict_get cont k with
    | Some (VDict d) => value_at rest d
    | Some (VList l) =>
        match last_item l with
        | Some (VDict d) => value_at rest d
        | _ => None
        end
    | _ => None
    end.
Proof. destruct rest; [congruence | reflexivity]. Qed.

Lemma value_at_head k rest cont cont' :
  dict_get cont k = dict_get cont' k ->
  value_at (k :: rest) cont = value_at (k :: rest) cont'.
Proof.
  intros H. destruct rest as [|k2 rest]; [exact H |].
  rewrite !value_at_cons by congruence. now rewrite H.
Qed.

Lemma last_item_app {A} (l : list A) x : last_item (l ++ [x]) = Some x.
Proof. unfold last_item. now rewrite rev_unit. Qed.

Lemma last_item_split {A} (l : list A) x :
  last_item l = Some x -> l = removelast l ++ [x].
Proof.
  unfold last_item. intros H.
  destruct (rev l) as [|y r] eqn:E; [discriminate |]. inversion H; subst.
  apply (f_equal (@rev A)) in E. rewrite rev_involutive in E. cbn in E.
  rewrite E. now rewrite removelast_last.
Qed.

Lemma removelast_cons {A} (x y : A) l : removelast (x :: y :: l) = x :: removelast (y :: l).
Proof. reflexivity. Qed.

Lemma last_cons {A} (x y : A) l d : last (x :: y :: l) d = last (y :: l) d.
Proof. reflexivity. Qed.

Lemma get_or_create_nest_app al p : forall q use cont,
  get_or_create_nest al (p ++ q) use cont
  = get_or_create_nest al p (get_or_create_nest al q use) cont.
Proof.
  induction p as [|k p IH]; intros q use cont; [reflexivity |].
  cbn [app get_or_create_nest].
  destruct (match dict_get cont k with Some v => v | None => VDict [] end);
    try reflexivity.
  - destruct al; [| reflexivity].
    destruct (last_item items) as [[]|]; try reflexivity. now rewrite IH.
  - now rewrite IH.
Qed.

(** A key that is there makes the caller's duplicate check fail. *)
Lemma get_or_create_nest_existing a : forall use cont e,
  key_exists a cont = true ->
  (forall nest, dict_in (last a []) nest = true -> use nest = Raise e) ->
  get_or_create_nest true (removelast a) use cont = Raise e.
Proof.
  unfold key_exists.
  induction a as [|k a IH]; intros use cont e Hex Huse; [discriminate |].
  destruct a as [|k2 a].
  - cbn in *. apply Huse. unfold dict_in. now destruct (dict_get cont k).
  - rewrite removelast_cons. rewrite last_cons in Huse.
    rewrite value_at_cons in Hex by congruence.
    cbn [get_or_create_nest].
    destruct (dict_get cont k) as [[]|]; try discriminate.
    + destruct (last_item items) as [[]|]; try discriminate.
      now rewrite (IH use items0 e Hex Huse).
    + now rewrite (IH use items e Hex Huse).
Qed.

(** What [get_or_create_nest] puts at the end of the path it walked. *)
Lemma get_or_create_nest_value al p : forall k (Q : Value -> Prop) use cont cont',
  (forall nest nest', use nest = Ok nest' -> exists v, dict_get nest' k = Some v /\ Q v) ->
  get_or_create_nest al p use cont = Ok cont' ->
  exists v, value_at (p ++ [k]) cont' = Some v /\ Q v.
Proof.
  induction p as [|k1 p IH]; intros k Q use cont cont' Huse H.
  - cbn in *. eauto.
  - cbn [get_or_create_nest] in H. cbn [app].
    rewrite value_at_cons by (destruct p; discriminate).
    destruct (match dict_get cont k1 with Some v => v | None => VDict [] end);
      try discriminate.
    + destruct al; [| discriminate].
      destruct (last_item items) as [[]|]; try discriminate.
      destruct (get_or_create_nest true p use items0) as [d'| |] eqn:G; try discriminate.
      cbn [bind] in H. inversion H; subst.
      rewrite dict_get_set_eq, last_item_app. eapply IH; eauto.
    + destruct (get_or_create_nest al p use items) as [d'| |] eqn:G; try discriminate.
      cbn [bind] in H. inversion H; subst.
      rewrite dict_get_set_eq. eapply IH; eauto.
Qed.

(** Walking to a value that is there: the caller's change of it is the
    change of the tree. *)
Lemma get_or_create_nest_change p : forall k v v' use cont,
  value_at (p ++ [k]) cont = Some v ->
  (forall nest, dict_get nest k = Some v ->
     exists nest', use nest = Ok nest' /\ dict_get nest' k = Some v') ->
  exists cont',
    get_or_create_nest true p use cont = Ok cont' /\
    value_at (p ++ [k]) cont' = Some v'.
Proof.
  induction p as [|k1 p IH]; intros k v v' use cont Hv Huse.
  - cbn in *. now apply Huse.
  - cbn [app] in *. rewrite value_at_cons in Hv by (destruct p; discriminate).
    cbn [get_or_create_nest].
    destruct (dict_get cont k1) as [[]|]; try discriminate.
    + destruct (last_item items) as [[]|] eqn:L; try discriminate.
      destruct (IH k v v' use items0 Hv Huse) as [d' [G Hd']].
      rewrite G. cbn [bind]. eexists. split; [reflexivity |].
      rewrite value_at_cons by (destruct p; discriminate).
      now rewrite dict_get_set_eq, last_item_app.
    + destruct (IH k v v' use items Hv Huse) as [d' [G Hd']].
      rewrite G. cbn [bind]. eexists. split; [reflexivity |].
      rewrite value_at_cons by (destruct p; discriminate).
      now rewrite dict_get_set_eq.
Qed.

Lemma key_exists_head k rest cont cont' :
  dict_get cont k = dict_get cont' k ->
  key_exists (k :: rest) cont = key_exists (k :: rest) cont'.
Proof. intros H. unfold key_exists. now rewrite (value_at_head k rest cont cont' H). Qed.

Lemma key_exists_set k cont v : key_exists [k] (dict_set cont k v) = true.
Proof. unfold key_exists. cbn [value_at]. now rewrite dict_get_set_eq. Qed.

(** A key that is there stays there when [get_or_create_nest] walks a path
    [p], if what the caller does at the end of [p] keeps what is left of the
    key there. *)
Lemma get_or_create_nest_keeps p : forall a use cont cont',
  get_or_create_nest true p use cont = Ok cont' ->
  key_exists a cont = true ->
  (forall a', a = p ++ a' -> forall nest nest',
      use nest = Ok nest' -> key_exists a' nest = true -> key_exists a' nest' = true) ->
  key_exists a cont' = true.
Proof.
  induction p as [|k p IH]; intros a use cont cont' H Hex Huse.
  - cbn in H. now apply (Huse a eq_refl cont cont').
  - destruct a as [|k1 a1]; [discriminate |].
    cbn [get_or_create_nest] in H.
    destruct (str_eq_dec k k1) as [<-|Hne].
    + destruct a1 as [|k2 a1].
      { destruct (match dict_get cont k with Some v => v | None => VDict [] end);
          try discriminate.
        - destruct (last_item items) as [[]|]; try discriminate.
          destruct (get_or_create_nest true p use items0); try discriminate.
          cbn [bind] in H. inversion H. apply key_exists_set.
        - destruct (get_or_create_nest true p use items); try discriminate.
          cbn [bind] in H. inversion H. apply key_exists_set. }
      unfold key_exists in Hex |- *.
      rewrite value_at_cons in Hex |- * by congruence.
      destruct (dict_get cont k) as [[]|]; try discriminate.
      * destruct (last_item items) as [[]|] eqn:L; try discriminate.
        destruct (get_or_create_nest true p use items0) as [d'| |] eqn:G; try discriminate.
        cbn [bind] in H. inversion H; subst.
        rewrite dict_get_set_eq, last_item_app.
        apply (IH (k2 :: a1) use items0 d' G Hex).
        intros a' E. apply (Huse a'). cbn [app]. now rewrite E.
      * destruct (get_or_create_nest true p use items) as [d'| |] eqn:G; try discriminate.
        cbn [bind] in H. inversion H; subst.
        rewrite dict_get_set_eq.
        apply (IH (k2 :: a1) use items d' G Hex).
        intros a' E. apply (Huse a'). cbn [app]. now rewrite E.
    + rewrite <- Hex. apply key_exists_head.
      destruct (match dict_get cont k with Some v => v | None => VDict [] end);
        try discriminate.
      * destruct (last_item items) as [[]|]; try discriminate.
        destruct (get_or_create_nest true p use items0); try discriminate.
        cbn [bind] in H. inversion H. now apply dict_get_set_ne.
      * destruct (get_or_create_nest true p use items); try discriminate.
        cbn [bind] in H. inversion H. now apply dict_get_set_ne.
Qed.

(** ** Nothing is overwritten *)

Lemma same_or_container_refl v : same_or_container v v.
Proof. destruct v; cbn; auto. Qed.

Lemma kept_refl v : kept v v.
Proof. intros p x H. exists x. split; [exact H | apply same_or_container_refl]. Qed.

Lemma kept_dict_set cont k new :
  (forall old, dict_get cont k = Some old -> kept old new) ->
  kept (VDict cont) (VDict (dict_set cont k new)).
Proof.
  intros Hold [|[k'|i] p] v H; cbn [get_path] in *.
  - inversion H; subst. eexists. split; [reflexivity | exact I].
  - destruct (str_eq_dec k k') as [<-|Hne].
    + rewrite dict_get_set_eq. destruct (dict_get cont k) as [old|]; [| discriminate].
      now apply (Hold old eq_refl).
    + rewrite dict_get_set_ne by assumption.
      destruct (dict_get cont k') as [x|]; [| discriminate].
      exists v. split; [exact H | apply same_or_container_refl].
  - discriminate.
Qed.

Lemma kept_list_app l x : kept (VList l) (VList (l ++ [x])).
Proof.
  intros [|[k|i] p] v H; cbn [get_path] in *.
  - inversion H; subst. eexists. split; [reflexivity | exact I].
  - discriminate.
  - destruct (nth_error l i) as [e|] eqn:E; [| discriminate].
    rewrite nth_error_app1 by (apply nth_error_Some; congruence).
    rewrite E. exists v. split; [exact H | apply same_or_container_refl].
Qed.

Lemma kept_list_last l d d' :
  last_item l = Some (VDict d) -> kept (VDict d) (VDict d') ->
  kept (VList l) (VList (removelast l ++ [VDict d'])).
Proof.
  intros L Hk. apply last_item_split in L. set (init := removelast l) in *.
  rewrite L. clearbody init. clear L.
  intros [|[k|i] p] v H; cbn [get_path] in *.
  - inversion H; subst. eexists. split; [reflexivity | exact I].
  - discriminate.
  - destruct (Nat.lt_ge_cases i (length init)) as [Hlt | Hge].
    + rewrite nth_error_app1 in H |- * by assumption.
      destruct (nth_error init i); [| discriminate].
      exists v. split; [exact H | apply same_or_container_refl].
    + rewrite nth_error_app2 in H |- * by assumption.
      destruct (i - length init) as [|j]; cbn [nth_error] in *.
      * now apply Hk.
      * destruct j; discriminate.
Qed.

Lemma get_or_create_nest_kept al key : forall use cont cont',
  (forall nest nest', use nest = Ok nest' -> kept (VDict nest) (VDict nest')) ->
  get_or_create_nest al key use cont = Ok cont' ->
  kept (VDict cont) (VDict cont').
Proof.
  induction key as [|k key IH]; intros use cont cont' Huse H.
  - cbn in H. now apply Huse.
  - cbn [get_or_create_nest] in H.
    destruct (dict_get cont k) as [x|] eqn:G.
    + destruct x; try discriminate.
      * destruct al; [| discriminate].
        destruct (last_item items) as [[]|] eqn:L; try discriminate.
        destruct (get_or_create_nest true key use items0) as [d'| |] eqn:E; try discriminate.
        cbn [bind] in H. inversion H; subst.
        apply kept_dict_set. intros old Hold. rewrite G in Hold. inversion Hold; subst.
        apply (kept_list_last items items0 d' L). now apply (IH use).
      * destruct (get_or_create_nest al key use items) as [d'| |] eqn:E; try discriminate.
        cbn [bind] in H. inversion H; subst.
        apply kept_dict_set. intros old Hold. rewrite G in Hold. inversion Hold; subst.
        now apply (IH use).
    + destruct (get_or_create_nest al key use []) as [d'| |] eqn:E; try discriminate.
      cbn [bind] in H. inversion H; subst.
      apply kept_dict_set. intros old Hold. congruence.
Qed.

(** ** Statements *)

Lemma last_app_nonempty {A} (l l' : list A) d : l' <> [] -> last (l ++ l') d = last l' d.
Proof.
  intros Hne. induction l as [|x l IH]; [reflexivity |].
  cbn [app]. destruct (l ++ l') eqn:E.
  - apply app_eq_nil in E. destruct E; congruence.
  - rewrite <- E in *. cbn [last]. rewrite E. rewrite <- E. exact IH.
Qed.

Lemma key_split (key : Key) : key <> [] -> key = removelast key ++ [last key []].
Proof. apply app_removelast_last. Qed.

Lemma except_KeyError_Ok {A} (r : result A) e x :
  except_KeyError r e = Ok x -> r = Ok x.
Proof. destruct r as [| [] |]; cbn; congruence. Qed.

Lemma except_KeyError_decode {A} (r : result A) e :
  is_decode_error r -> is_decode_error (except_KeyError r e).
Proof. intros [m ->]. now exists m. Qed.

Lemma bind_decode {A B} (r : result A) (k : A -> result B) :
  is_decode_error r -> is_decode_error (bind r k).
Proof. intros [m ->]. now exists m. Qed.

(** The duplicate check of [key_value_rule]. *)
Lemma key_value_effect_duplicate src pos state key value :
  key <> [] ->
  key_exists (header_namespace state ++ key) (out state) = true ->
  is_decode_error (key_value_effect src pos state key value).
Proof.
  intros Hne Hex. unfold key_value_effect.
  destruct key as [|k key]; [congruence |].
  set (key0 := k :: key) in *.
  destruct (is_ (header_namespace state ++ removelast key0) FROZEN (flags state));
    [apply raise_suffixed_err |].
  apply bind_decode, except_KeyError_decode.
  rewrite <- (removelast_app (header_namespace state) Hne).
  rewrite <- (last_app_nonempty (header_namespace state) key0 [] Hne).
  erewrite get_or_create_nest_existing; [apply raise_suffixed_err | exact Hex |].
  intros nest Hin. cbv beta. now rewrite Hin.
Qed.

Lemma key_value_effect_Ok src pos state key value state' :
  key_value_effect src pos state key value = Ok state' ->
  key <> [] /\
  is_ (header_namespace state ++ removelast key) FROZEN (flags state) = false /\
  header_namespace state' = header_namespace state /\
  flags state'
  = (let flags1 :=
       set_for_relative_key (header_namespace state) key EXPLICIT_NEST (flags state) in
     if is_container value
     then set_flag (header_namespace state ++ key) FROZEN true flags1 else flags1) /\
  get_or_create_nest true (header_namespace state ++ removelast key)
    (fun nest =>
       if dict_in (last key []) nest
       then Raise (suffixed_err src pos
                     [Lit "Can not define "; ReprKey (header_namespace state ++ key);
                      Lit " twice"])
       else Ok (dict_set nest (last key []) value))
    (out state) = Ok (out state').
Proof.
  unfold key_value_effect. intros H.
  destruct key as [|k key]; [discriminate |].
  set (key0 := k :: key) in *.
  split; [discriminate |].
  destruct (is_ (header_namespace state ++ removelast key0) FROZEN (flags state));
    [discriminate |].
  split; [reflexivity |].
  match type of H with bind (except_KeyError ?r ?e) _ = _ =>
    destruct (except_KeyError r e) as [o| |] eqn:E; try discriminate;
    apply except_KeyError_Ok in E end.
  cbn [bind] in H. inversion H; subst. cbn. auto.
Qed.

Lemma create_dict_effect_Ok src pos state key state' :
  create_dict_effect src pos state key = Ok state' ->
  key <> [] /\
  is_ key EXPLICIT_NEST (flags state) = false /\
  is_ key FROZEN (flags state) = false /\
  header_namespace state' = key /\
  flags state' = set_flag key EXPLICIT_NEST false (flags state) /\
  get_or_create_nest true key (fun nest => Ok nest) (out state) = Ok (out state').
Proof.
  unfold create_dict_effect. intros H.
  destruct (is_ key EXPLICIT_NEST (flags state)); [discriminate |].
  destruct (is_ key FROZEN (flags state)); [discriminate |].
  cbn [orb] in H. destruct key as [|k key]; [discriminate |].
  set (key0 := k :: key) in *.
  split; [discriminate |]. do 2 (split; [reflexivity |]).
  match type of H with bind (except_KeyError ?r ?e) _ = _ =>
    destruct (except_KeyError r e) as [o| |] eqn:E; try discriminate;
    apply except_KeyError_Ok in E end.
  cbn [bind] in H. inversion H; subst. cbn. auto.
Qed.

Lemma create_list_effect_Ok src pos state key state' :
  create_list_effect src pos state key = Ok state' ->
  key <> [] /\
  is_ key FROZEN (flags state) = false /\
  header_namespace state' = key /\
  flags state' = set_flag key EXPLICIT_NEST false (unset_all key (flags state)) /\
  append_nest_to_list key (out state) = Ok (out state').
Proof.
  unfold create_list_effect. intros H.
  destruct (is_ key FROZEN (flags state)); [discriminate |].
  destruct key as [|k key]; [discriminate |].
  set (key0 := k :: key) in *.
  split; [discriminate |]. split; [reflexivity |].
  match type of H with bind (except_KeyError ?r ?e) _ = _ =>
    destruct (except_KeyError r e) as [o| |] eqn:E; try discriminate;
    apply except_KeyError_Ok in E end.
  cbn [bind] in H. inversion H; subst. cbn. auto.
Qed.

(** No statement overwrites a value of the tree. *)
Lemma exec_kept src pos state s state' :
  exec src pos state s = Ok state' -> kept (VDict (out state)) (VDict (out state')).
Proof.
  destruct s as [key value | key | key]; cbn [exec]; intros H.
  - apply key_value_effect_Ok in H. destruct H as (_ & _ & _ & _ & H).
    eapply get_or_create_nest_kept; [| exact H].
    intros nest nest' Huse. cbv beta in Huse.
    destruct (dict_in (last key []) nest) eqn:Hin; [discriminate |].
    inversion Huse; subst. apply kept_dict_set.
    intros old Hold. unfold dict_in in Hin. now rewrite Hold in Hin.
  - apply create_dict_effect_Ok in H. destruct H as (_ & _ & _ & _ & _ & H).
    eapply get_or_create_nest_kept; [| exact H].
    intros nest nest' Huse. inversion Huse; subst. apply kept_refl.
  - apply create_list_effect_Ok in H. destruct H as (_ & _ & _ & _ & H).
    unfold append_nest_to_list in H.
    eapply get_or_create_nest_kept; [| exact H].
    intros nest nest' Huse. cbv beta zeta in Huse.
    destruct (dict_get nest (last key [])) as [[]|] eqn:G; try discriminate;
      inversion Huse; subst; apply kept_dict_set; intros old Hold;
      rewrite G in Hold; inversion Hold; subst.
    apply kept_list_app.
Qed.

(** A parsed key has at least one part. *)
Lemma parse_key_loop_nonempty fuel : forall src pos key pos' key',
  key <> [] -> parse_key_loop fuel src pos key = Ok (pos', key') -> key' <> [].
Proof.
  induction fuel as [|fuel IH]; intros src pos key pos' key' Hne H; [discriminate |].
  cbn [parse_key_loop] in H.
  destruct (negb (char_is (char_at src pos) (ch "."))).
  - inversion H; subst. exact Hne.
  - destruct (parse_key_part fuel src (skip_chars src (pos + 1) TOML_WS)) as [[p part]| |];
      try discriminate.
    cbn [bind] in H. apply IH in H; [exact H |]. now destruct key.
Qed.

Lemma parse_key_nonempty fuel src pos pos' key :
  parse_key fuel src pos = Ok (pos', key) -> key <> [].
Proof.
  unfold parse_key. intros H.
  destruct (parse_key_part fuel src pos) as [[p part]| |]; try discriminate.
  cbn [bind] in H. apply parse_key_loop_nonempty in H; [exact H | discriminate].
Qed.

Lemma parse_key_value_pair_nonempty parse_value fuel src pos pos' key value :
  parse_key_value_pair parse_value fuel src pos = Ok (pos', (key, value)) -> key <> [].
Proof.
  unfold parse_key_value_pair. intros H.
  destruct (parse_key fuel src pos) as [[p k]| |] eqn:E; try discriminate.
  cbn [bind] in H. apply parse_key_nonempty in E.
  destruct (negb (char_is (char_at src p) (ch "="))); [discriminate |].
  destruct (parse_value src (skip_chars src (p + 1) TOML_WS)) as [[p2 v]| |];
    try discriminate.
  cbn [bind] in H. now inversion H; subst.
Qed.

(** The rules are their effects on the state after the key is parsed. *)
Lemma key_value_rule_exec re fuel src pos state :
  key_value_rule re fuel src pos state
  = ('(pos, (key, value)) <- parse_key_value_pair (parse_value re fuel) fuel src pos ;;
     state <- exec src pos state (SKeyValue key value) ;;
     Ok (pos, state)).
Proof. reflexivity. Qed.

Lemma create_dict_rule_exec fuel src pos state :
  create_dict_rule fuel src pos state
  = ('(pos, key) <- parse_key fuel src (skip_chars src (pos + 1) TOML_WS) ;;
     state <- exec src pos state (STable key) ;;
     if negb (starts_with src pos (py "]"))
     then Raise (suffixed_err src pos
                   [Lit "Expected "; DQ; Lit "]"; DQ; Lit " at the end of a table declaration"])
     else Ok (pos + 1, state)).
Proof. reflexivity. Qed.

Lemma create_list_rule_exec fuel src pos state :
  create_list_rule fuel src pos state
  = ('(pos, key) <- parse_key fuel src (skip_chars src (pos + 2) TOML_WS) ;;
     state <- exec src pos state (SArray key) ;;
     if negb (str_eqb (slice src pos (pos + 2)) (py "]]"))
     then Raise (suffixed_err src pos
                   [Lit "Found "; DQ; Repr (slice src pos (pos + 2)); DQ;
                    Lit " at the end of an array declaration. Expected "; DQ; Lit "]]"; DQ])
     else Ok (pos + 2, state)).
Proof. reflexivity. Qed.

(** The duplicate check of [key_value_rule], on the rule itself. *)
Lemma key_value_rule_duplicate re fuel src pos state pos' key value :
  parse_key_value_pair (parse_value re fuel) fuel src pos = Ok (pos', (key, value)) ->
  key_exists (header_namespace state ++ key) (out state) = true ->
  is_decode_error (key_value_rule re fuel src pos state).
Proof.
  intros H Hex. unfold key_value_rule. rewrite H. cbn [bind].
  apply bind_decode, key_value_effect_duplicate; [| exact Hex].
  exact (parse_key_value_pair_nonempty _ _ _ _ _ _ _ H).
Qed.

(** A key that is there, for the walk of an inline table, which does not go
    into arrays: the duplicate check fails or the walk does. *)
Lemma get_or_create_nest_existing_no_lists a : forall use cont e,
  key_exists a cont = true ->
  (forall nest, dict_in (last a []) nest = true -> use nest = Raise e) ->
  get_or_create_nest false (removelast a) use cont = Raise e \/
  get_or_create_nest false (removelast a) use cont = Raise no_nest.
Proof.
  unfold key_exists.
  induction a as [|k a IH]; intros use cont e Hex Huse; [discriminate |].
  destruct a as [|k2 a].
  - left. cbn in *. apply Huse. unfold dict_in. now destruct (dict_get cont k).
  - rewrite removelast_cons. rewrite last_cons in Huse.
    rewrite value_at_cons in Hex by congruence.
    cbn [get_or_create_nest].
    destruct (dict_get cont k) as [[]|]; try discriminate.
    + now right.
    + destruct (IH use items e Hex Huse) as [-> | ->]; auto.
Qed.

(** The duplicate check of [parse_inline_table]. *)
Lemma parse_inline_table_duplicate parse_value fuel src pos nested_dict flags pos' key value :
  parse_key_value_pair parse_value (S fuel) src pos = Ok (pos', (key, value)) ->
  key_exists key nested_dict = true ->
  is_decode_error (parse_inline_table_loop parse_value (S fuel) src pos nested_dict flags).
Proof.
  intros H Hex. cbn [parse_inline_table_loop]. rewrite H. cbn [bind].
  pose proof (parse_key_value_pair_nonempty _ _ _ _ _ _ _ H) as Hne.
  destruct key as [|k key]; [congruence |].
  set (key0 := k :: key) in *.
  destruct (is_ key0 FROZEN flags); [apply raise_suffixed_err |].
  apply bind_decode.
  match goal with |- is_decode_error (except_KeyError (get_or_create_nest false _ ?use _) _) =>
    destruct (get_or_create_nest_existing_no_lists key0 use nested_dict
                (suffixed_err src pos'
                   [Lit "Duplicate inline table key "; DQ; Text (last key0 []); DQ]) Hex)
      as [-> | ->]
  end.
  - intros nest Hin. cbv beta. now rewrite Hin.
  - apply except_KeyError_decode, raise_suffixed_err.
  - cbn [except_KeyError no_nest]. apply raise_suffixed_err.
Qed.

(** ** The statement loop, line by line *)

(** The loop at a statement: the rule parses it, changes the state, reads
    the end of the statement, and the loop reads the end of the line. *)
Lemma loads_loop_statement re fuel src pos state r :
  statement_at re fuel src pos = Some r ->
  loads_loop re (S fuel) src pos state
  = ('(p, s) <- r ;;
     state' <- exec src p state s ;;
     p1 <- end_of_statement src p s ;;
     p' <- skip_comment src (skip_chars src p1 TOML_WS) ;;
     match char_at src p' with
     | None => Ok (out state')
     | Some char_ =>
         if negb (N.eqb char_ LF)
         then Raise (suffixed_err src p'
                       [Lit "Expected newline or end of document after a statement"])
         else loads_loop re fuel src (p' + 1) state'
     end).
Proof.
  unfold statement_at. cbn [loads_loop].
  set (pos1 := skip_chars src pos TOML_WS).
  destruct (char_at src pos1) as [c|]; [| discriminate].
  destruct (N.eqb c LF); [discriminate |].
  destruct (N.eqb c (ch "#")); [discriminate |].
  cbn [orb]. intros H. injection H as <-.
  destruct (KEY_INITIAL_CHARS c).
  { unfold key_value_rule.
    destruct (parse_key_value_pair (parse_value re fuel) fuel src pos1)
      as [[p [key value]]| |]; cbn [bind]; try reflexivity.
    cbn [exec]. destruct (key_value_effect src p state key value); reflexivity. }
  destruct (starts_with src pos1 (py "[[")).
  { unfold create_list_rule.
    destruct (parse_key fuel src (skip_chars src (pos1 + 2) TOML_WS)) as [[p key]| |];
      cbn [bind]; try reflexivity.
    cbn [exec end_of_statement]. destruct (create_list_effect src p state key);
      cbn [bind]; try reflexivity.
    destruct (negb (str_eqb (slice src p (p + 2)) (py "]]"))); reflexivity. }
  change 91%N with (ch "[").
  destruct (N.eqb c (ch "[")); [| reflexivity].
  unfold create_dict_rule.
  destruct (parse_key fuel src (skip_chars src (pos1 + 1) TOML_WS)) as [[p key]| |];
    cbn [bind]; try reflexivity.
  cbn [exec end_of_statement]. destruct (create_dict_effect src p state key);
    cbn [bind]; try reflexivity.
  destruct (negb (starts_with src p (py "]"))); reflexivity.
Qed.

(** After a line the loop goes on from where the line ends. *)
Lemma line_loads_loop re src fuel pos state ran fuel' pos' state' :
  line re src (fuel, pos, state) ran (fuel', pos', state') ->
  loads_loop re fuel src pos state = loads_loop re fuel' src pos' state'.
Proof.
  intros H. inversion H; subst; clear H.
  - cbn [loads_loop].
    match goal with E : char_at _ _ = _ |- _ => rewrite E end.
    reflexivity.
  - cbn [loads_loop].
    match goal with E : char_at src (skip_chars src pos TOML_WS) = _ |- _ => rewrite E end.
    change (N.eqb (ch "#") LF) with false. change (N.eqb (ch "#") (ch "#")) with true.
    cbv iota.
    match goal with E : expect_comment _ _ = _ |- _ => rewrite E end.
    cbn [bind].
    match goal with E : skip_comment _ _ = _ |- _ => rewrite E end.
    cbn [bind].
    match goal with E : char_at src p' = _ |- _ => rewrite E end.
    reflexivity.
  - match goal with E : statement_at _ _ _ _ = _ |- _ =>
      rewrite (loads_loop_statement _ _ _ _ state _ E)
    end.
    cbn [bind].
    repeat match goal with E : _ = Ok _ |- _ => rewrite E; clear E; cbn [bind] end.
    match goal with E : char_at src p' = _ |- _ => rewrite E end.
    reflexivity.
Qed.

Lemma lines_loads_loop allowed re src fuel pos state point :
  lines allowed re src (fuel, pos, state) point ->
  loads_loop re fuel src pos state
  = loads_loop re (fst (fst point)) src (snd (fst point)) (snd point).
Proof.
  intros H. induction H as [|[[fuel' pos'] state'] [[fuel'' pos''] state''] ran _ IH L _].
  - reflexivity.
  - rewrite IH. cbn [fst snd]. eapply line_loads_loop; eauto.
Qed.

(** The statement that a line has run has changed the state; a line with
    no statement leaves the state as it is. *)
Lemma line_exec re src fuel pos state ran fuel' pos' state' :
  line re src (fuel, pos, state) ran (fuel', pos', state') ->
  match ran with
  | Some (p, s) => exec src p state s = Ok state'
  | None => state' = state
  end.
Proof. intros H. inversion H; subst; auto. Qed.

(** The key of a statement has at least one part. *)
Lemma statement_at_nonempty re fuel src pos p s :
  statement_at re fuel src pos = Some (Ok (p, s)) -> stmt_key s <> [].
Proof.
  unfold statement_at.
  destruct (char_at src (skip_chars src pos TOML_WS)) as [c|]; [| discriminate].
  destruct (N.eqb c LF || N.eqb c (ch "#"))%bool; [discriminate |].
  intros H. inversion H as [E]; clear H.
  destruct (KEY_INITIAL_CHARS c).
  { destruct (parse_key_value_pair (parse_value re fuel) fuel src
                (skip_chars src pos TOML_WS)) as [[p1 [key value]]| |] eqn:P;
      cbn [bind] in E; try discriminate.
    inversion E; subst. cbn [stmt_key].
    eapply parse_key_value_pair_nonempty; eauto. }
  destruct (starts_with src (skip_chars src pos TOML_WS) (py "[[")).
  { destruct (parse_key fuel src (skip_chars src (skip_chars src pos TOML_WS + 2) TOML_WS))
      as [[p1 key]| |] eqn:P; cbn [bind] in E; try discriminate.
    inversion E; subst. cbn [stmt_key]. eapply parse_key_nonempty; eauto. }
  change 91%N with (ch "[") in E.
  destruct (N.eqb c (ch "[")); [| discriminate].
  destruct (parse_key fuel src (skip_chars src (skip_chars src pos TOML_WS + 1) TOML_WS))
    as [[p1 key]| |] eqn:P; cbn [bind] in E; try discriminate.
  inversion E; subst. cbn [stmt_key]. eapply parse_key_nonempty; eauto.
Qed.

(** A statement that its rule rejects ends [loads], wherever in the
    document it is. *)
Lemma loads_loop_rejects re fuel src pos state p s :
  statement_at re fuel src pos = Some (Ok (p, s)) ->
  is_decode_error (exec src p state s) ->
  is_decode_error (loads_loop re (S fuel) src pos state).
Proof.
  intros H [msg E]. rewrite (loads_loop_statement _ _ _ _ state _ H).
  cbn [bind]. rewrite E. cbn [bind]. now exists msg.
Qed.

Lemma loads_rejects allowed re s fuel pos state p st :
  lines allowed re (replace_crlf s) (loads_start (replace_crlf s)) (S fuel, pos, state) ->
  statement_at re fuel (replace_crlf s) pos = Some (Ok (p, st)) ->
  is_decode_error (exec (replace_crlf s) p state st) ->
  is_decode_error (loads re s).
Proof.
  intros L H E. unfold loads. unfold loads_start in L.
  rewrite (lines_loads_loop _ _ _ _ _ _ _ L). cbn [fst snd].
  eapply loads_loop_rejects; eauto.
Qed.

(** A key/value statement for a key that is there ends [loads], wherever in
    the document it is. *)
Lemma loads_duplicate re s fuel pos state p key value :
  lines (fun _ => True) re (replace_crlf s) (loads_start (replace_crlf s))
    (S fuel, pos, state) ->
  statement_at re fuel (replace_crlf s) pos = Some (Ok (p, SKeyValue key value)) ->
  key_exists (header_namespace state ++ key) (out state) = true ->
  is_decode_error (loads re s).
Proof.
  intros L H Hex. eapply loads_rejects; [exact L | exact H |].
  cbn [exec]. apply key_value_effect_duplicate; [| exact Hex].
  exact (statement_at_nonempty _ _ _ _ _ _ H).
Qed.

Lemma same_or_container_trans v1 v2 v3 :
  same_or_container v1 v2 -> same_or_container v2 v3 -> same_or_container v1 v3.
Proof.
  destruct v1, v2; cbn; intros H12; try discriminate; try exact (fun H => H);
    destruct v3; cbn; intros H23; try discriminate; try exact I; congruence.
Qed.

Lemma kept_trans v1 v2 v3 : kept v1 v2 -> kept v2 v3 -> kept v1 v3.
Proof.
  intros H12 H23 p v H. destruct (H12 p v H) as (v' & H' & S1).
  destruct (H23 p v' H') as (v'' & H'' & S2).
  exists v''. split; [exact H'' | eapply same_or_container_trans; eauto].
Qed.

(** A statement that a rule of [loads] has run leaves every place of the
    tree in its place. *)
Lemma statement_kept re fuel src pos state char_ pos' state' :
  (if N.eqb char_ (ch "#")
   then pos <- expect_comment src pos ;; Ok (pos, state)
   else if KEY_INITIAL_CHARS char_ then key_value_rule re fuel src pos state
   else if starts_with src pos (py "[[") then create_list_rule fuel src pos state
   else if N.eqb char_ (ch "[") then create_dict_rule fuel src pos state
   else Raise (suffixed_err src pos [Lit "Invalid statement"])) = Ok (pos', state') ->
  kept (VDict (out state)) (VDict (out state')).
Proof.
  destruct (N.eqb char_ (ch "#")).
  { destruct (expect_comment src pos); cbn [bind]; intros H; inversion H; subst.
    apply kept_refl. }
  destruct (KEY_INITIAL_CHARS char_).
  { rewrite key_value_rule_exec.
    destruct (parse_key_value_pair (parse_value re fuel) fuel src pos)
      as [[p1 [key value]]| |]; cbn [bind]; try discriminate.
    destruct (exec src p1 state (SKeyValue key value)) as [state1| |] eqn:E; cbn [bind];
      try discriminate.
    intros H. inversion H; subst. eapply exec_kept; eauto. }
  destruct (starts_with src pos (py "[[")).
  { rewrite create_list_rule_exec.
    destruct (parse_key fuel src (skip_chars src (pos + 2) TOML_WS)) as [[p1 key]| |];
      cbn [bind]; try discriminate.
    destruct (exec src p1 state (SArray key)) as [state1| |] eqn:E; cbn [bind];
      try discriminate.
    destruct (negb (str_eqb (slice src p1 (p1 + 2)) (py "]]"))); [discriminate |].
    intros H. inversion H; subst. eapply exec_kept; eauto. }
  destruct (N.eqb char_ (ch "[")); [| discriminate].
  rewrite create_dict_rule_exec.
  destruct (parse_key fuel src (skip_chars src (pos + 1) TOML_WS)) as [[p1 key]| |];
    cbn [bind]; try discriminate.
  destruct (exec src p1 state (STable key)) as [state1| |] eqn:E; cbn [bind];
    try discriminate.
  destruct (negb (starts_with src p1 (py "]"))); [discriminate |].
  intros H. inversion H; subst. eapply exec_kept; eauto.
Qed.

(** The table that the statement loop returns has every place of the tree
    of every state that the loop has gone through. *)
Lemma loads_loop_kept re fuel : forall src pos state table,
  loads_loop re fuel src pos state = Ok table ->
  kept (VDict (out state)) (VDict table).
Proof.
  induction fuel as [|fuel IH]; intros src pos state table H; [discriminate |].
  cbn [loads_loop] in H.
  set (pos1 := skip_chars src pos TOML_WS) in *.
  destruct (char_at src pos1) as [c|]; [| inversion H; apply kept_refl].
  destruct (N.eqb c LF) eqn:Hlf; [eapply IH; eauto |].
  match type of H with bind ?r _ = _ => destruct r as [[p2 state2]| |] eqn:E end;
    cbn [bind] in H; try discriminate.
  apply statement_kept in E.
  destruct (skip_comment src (skip_chars src p2 TOML_WS)) as [p3| |]; cbn [bind] in H;
    try discriminate.
  destruct (char_at src p3) as [c'|].
  - destruct (negb (N.eqb c' LF)); [discriminate |].
    eapply kept_trans; [exact E | eapply IH; eauto].
  - inversion H; subst. exact E.
Qed.

(** C2.  A key/value statement whose absolute key is already there, in the
    table that its parent path denotes, is a document error, whatever the
    old and the new value are, and so is a pair of an inline table whose key
    is already in that inline table; and a statement that succeeds leaves
    every value of the tree in its place: a table is still a table, an array
    is still an array, and any other value is unchanged; so the table that
    [loads] returns has every place of every tree that the statement loop
    went through.  Wherever in a document the key/value statement for a key
    that is there stands, [loads] raises the document error; [a = 1] and
    then [a = 2] is an error. *)
Theorem duplicate_key_is_error :
  (forall src pos state key value,
      key <> [] ->
      key_exists (header_namespace state ++ key) (out state) = true ->
      is_decode_error (key_value_effect src pos state key value)) /\
  (forall re fuel src pos state pos' key value,
      parse_key_value_pair (parse_value re fuel) fuel src pos = Ok (pos', (key, value)) ->
      key_exists (header_namespace state ++ key) (out state) = true ->
      is_decode_error (key_value_rule re fuel src pos state)) /\
  (forall re s fuel pos state p key value,
      lines (fun _ => True) re (replace_crlf s) (loads_start (replace_crlf s))
        (S fuel, pos, state) ->
      statement_at re fuel (replace_crlf s) pos = Some (Ok (p, SKeyValue key value)) ->
      key_exists (header_namespace state ++ key) (out state) = true ->
      is_decode_error (loads re s)) /\
  (forall parse_value fuel src pos nested_dict flags pos' key value,
      parse_key_value_pair parse_value (S fuel) src pos = Ok (pos', (key, value)) ->
      key_exists key nested_dict = true ->
      is_decode_error
        (parse_inline_table_loop parse_value (S fuel) src pos nested_dict flags)) /\
  (forall src pos state s state',
      exec src pos state s = Ok state' ->
      kept (VDict (out state)) (VDict (out state'))) /\
  (forall re fuel src pos state table,
      loads_loop re fuel src pos state = Ok table ->
      kept (VDict (out state)) (VDict table)) /\
  is_decode_error (toml_loads (doc ["a = 1"; "a = 2"])) /\
  is_decode_error (toml_loads (doc ["a = 1"; "a = [2]"])) /\
  is_decode_error (toml_loads (doc ["x = {a = 1, a = 2}"])).
Proof.
  split; [exact key_value_effect_duplicate |].
  split; [exact key_value_rule_duplicate |].
  split; [exact loads_duplicate |].
  split; [exact parse_inline_table_duplicate |].
  split; [exact exec_kept |].
  split; [exact loads_loop_kept |].
  repeat split; eexists; vm_compute; reflexivity.
Qed.

(** ** Frozen containers *)

Lemma is_prefix_snoc a p x : is_prefix a (p ++ [x]) -> is_prefix a p \/ a = p ++ [x].
Proof.
  intros [rest E]. destruct rest as [|y rest] using rev_ind.
  - right. now rewrite app_nil_r in E.
  - left. rewrite app_assoc in E. apply app_inj_tail in E. destruct E as [E _].
    now exists rest.
Qed.

Lemma key_exists_insert a nest k v :
  dict_in k nest = false -> key_exists a nest = true ->
  key_exists a (dict_set nest k v) = true.
Proof.
  intros Hin Hex. destruct a as [|x r]; [discriminate |].
  destruct (str_eq_dec k x) as [<-|Hne].
  - exfalso. unfold key_exists, dict_in in *.
    destruct r as [|x2 r]; [cbn [value_at] in Hex | rewrite value_at_cons in Hex by congruence];
      destruct (dict_get nest k); discriminate.
  - rewrite <- Hex. apply key_exists_head. now apply dict_get_set_ne.
Qed.

(** A key/value statement with a container makes its key frozen. *)
Lemma key_value_effect_freezes src pos state key value state' :
  is_container value = true ->
  key_value_effect src pos state key value = Ok state' ->
  frozen (header_namespace state ++ key) state'.
Proof.
  intros Hc H. apply key_value_effect_Ok in H.
  destruct H as (Hne & _ & _ & Hf & Ho). split.
  - rewrite Hf, Hc. cbv zeta. apply marked_recursive_set_flag.
    intros E. apply app_eq_nil in E. now destruct E.
  - assert (Hv : exists v,
              value_at ((header_namespace state ++ removelast key) ++ [last key []])
                (out state') = Some v /\ True).
    { eapply get_or_create_nest_value; [| exact Ho].
      intros nest nest' Huse. cbv beta in Huse.
      destruct (dict_in (last key []) nest); [discriminate |].
      inversion Huse; subst. exists value. now rewrite dict_get_set_eq. }
    destruct Hv as [v [Hv _]].
    rewrite <- app_assoc, <- (key_split key Hne) in Hv.
    unfold key_exists. now rewrite Hv.
Qed.

(** A frozen key stays frozen. *)
Lemma exec_keeps_frozen a src pos state s state' :
  frozen a state -> exec src pos state s = Ok state' -> ~ resets a s ->
  frozen a state'.
Proof.
  intros [Hm Hex] H Hr. destruct s as [key value | key | key]; cbn [exec] in H.
  - apply key_value_effect_Ok in H. destruct H as (Hne & _ & _ & Hf & Ho). split.
    + rewrite Hf. cbv zeta. destruct (is_container value).
      * now apply marked_recursive_kept_set_flag, marked_recursive_kept_set_for_relative_key.
      * now apply marked_recursive_kept_set_for_relative_key.
    + eapply get_or_create_nest_keeps; [exact Ho | exact Hex |].
      intros a' _ nest nest' Huse Ha'. cbv beta in Huse.
      destruct (dict_in (last key []) nest) eqn:Hin; [discriminate |].
      inversion Huse; subst. now apply key_exists_insert.
  - apply create_dict_effect_Ok in H. destruct H as (Hne & _ & _ & _ & Hf & Ho). split.
    + rewrite Hf. now apply marked_recursive_kept_set_flag.
    + eapply get_or_create_nest_keeps; [exact Ho | exact Hex |].
      intros a' _ nest nest' Huse Ha'. now inversion Huse; subst.
  - apply create_list_effect_Ok in H. destruct H as (Hne & Hfz & _ & Hf & Ho).
    assert (Hnp : ~ is_prefix key a).
    { intros Hp. destruct (list_eq_dec str_eq_dec key a) as [->|Hd].
      - rewrite (is_marked_recursive a a FROZEN (flags state) Hm) in Hfz;
          [discriminate | exists []; now rewrite app_nil_r].
      - apply Hr. cbn. auto. }
    split.
    + rewrite Hf. now apply marked_recursive_kept_set_flag, marked_recursive_kept_unset_all.
    + unfold append_nest_to_list in Ho.
      eapply get_or_create_nest_keeps; [exact Ho | exact Hex |].
      intros a' Ea nest nest' Huse Ha'. cbv beta zeta in Huse.
      assert (Hset : forall x, key_exists a' (dict_set nest (last key []) x) = true).
      { intros x. destruct a' as [|y r]; [discriminate |].
        destruct (str_eq_dec (last key []) y) as [<-|Hd].
        - destruct r as [|y2 r]; [apply key_exists_set |].
          exfalso. apply Hnp. exists (y2 :: r). rewrite Ea.
          replace (key ++ y2 :: r) with ((removelast key ++ [last key []]) ++ y2 :: r)
            by (now rewrite <- key_split).
          now rewrite <- app_assoc.
        - rewrite <- Ha'. apply key_exists_head. now apply dict_get_set_ne. }
      destruct (dict_get nest (last key [])) as [[]|]; try discriminate;
        inversion Huse; subst; apply Hset.
Qed.

(** So it is after lines that have no header [[[p]]] for a [p] above it. *)
Lemma lines_frozen a re src point point' :
  frozen a (snd point) ->
  lines (fun s => ~ resets a s) re src point point' ->
  frozen a (snd point').
Proof.
  intros Hf L.
  induction L as [|[[fuel' pos'] state'] [[fuel'' pos''] state''] ran _ IH Hl Hr];
    [exact Hf |].
  cbn [snd] in *. apply line_exec in Hl. destruct ran as [[p s]|].
  - exact (exec_keeps_frozen a src p state' s state'' IH Hl (Hr p s eq_refl)).
  - now subst state''.
Qed.

(** A statement for a frozen key, or for a key below it, is an error. *)
Lemma frozen_rejects a src pos state s :
  frozen a state -> stmt_key s <> [] -> is_prefix a (target state s) ->
  is_decode_error (exec src pos state s).
Proof.
  intros [Hm Hex] Hne Hp. destruct s as [key value | key | key]; cbn [exec target stmt_key] in *.
  - destruct (is_ (header_namespace state ++ removelast key) FROZEN (flags state)) eqn:Hfz.
    + unfold key_value_effect. destruct key; [congruence |]. rewrite Hfz.
      apply raise_suffixed_err.
    + apply key_value_effect_duplicate; [assumption |].
      rewrite (key_split key Hne), app_assoc in Hp.
      apply is_prefix_snoc in Hp. destruct Hp as [Hp | ->].
      * rewrite (is_marked_recursive a _ FROZEN (flags state) Hm Hp) in Hfz. discriminate.
      * now rewrite <- app_assoc, <- (key_split key Hne) in Hex.
  - unfold create_dict_effect.
    rewrite (is_marked_recursive a key FROZEN (flags state) Hm Hp), orb_true_r.
    apply raise_suffixed_err.
  - unfold create_list_effect.
    rewrite (is_marked_recursive a key FROZEN (flags state) Hm Hp).
    apply raise_suffixed_err.
Qed.

(** C1, as amended.  Once a key/value statement of the document has given
    a key an inline table or an array, a later statement for that key or for
    a key below it makes [loads] raise the document error, be it a key/value
    pair, a table header or an array-of-tables header, as long as no
    array-of-tables header for a key strictly above the key has come in
    between. *)
Theorem frozen_container_is_immutable re s point0 p0 key value point1 fuel2 pos2 state2 p2 st :
  lines (fun _ => True) re (replace_crlf s) (loads_start (replace_crlf s)) point0 ->
  line re (replace_crlf s) point0 (Some (p0, SKeyValue key value)) point1 ->
  is_container value = true ->
  lines (fun s => ~ resets (header_namespace (snd point0) ++ key) s) re (replace_crlf s)
    point1 (S fuel2, pos2, state2) ->
  statement_at re fuel2 (replace_crlf s) pos2 = Some (Ok (p2, st)) ->
  is_prefix (header_namespace (snd point0) ++ key) (target state2 st) ->
  is_decode_error (loads re s).
Proof.
  intros L0 L1 Hc L2 Hst Hp.
  destruct point0 as [[fuel0 pos0] state0], point1 as [[fuel1 pos1] state1].
  cbn [snd] in *.
  unfold loads. unfold loads_start in L0.
  rewrite (lines_loads_loop _ _ _ _ _ _ _ L0). cbn [fst snd].
  rewrite (line_loads_loop _ _ _ _ _ _ _ _ _ L1).
  rewrite (lines_loads_loop _ _ _ _ _ _ _ L2). cbn [fst snd].
  apply (loads_loop_rejects _ _ _ _ _ _ _ Hst).
  apply (frozen_rejects (header_namespace state0 ++ key)).
  - apply (lines_frozen _ re (replace_crlf s) (fuel1, pos1, state1) (S fuel2, pos2, state2));
      [| exact L2].
    cbn [snd]. apply line_exec in L1. cbn [exec] in L1.
    now apply (key_value_effect_freezes (replace_crlf s) p0 state0 key value).
  - exact (statement_at_nonempty _ _ _ _ _ _ Hst).
  - exact Hp.
Qed.

(** ** Arrays of tables *)

(** The step of [get_or_create_nest] through an array: into its last
    item, the items before it stay. *)
Lemma get_or_create_nest_last_item key use cont k init d :
  dict_get cont k = Some (VList (init ++ [VDict d])) ->
  get_or_create_nest true (k :: key) use cont
  = (d' <- get_or_create_nest true key use d ;;
     Ok (dict_set cont k (VList (init ++ [VDict d'])))).
Proof.
  intros G. cbn [get_or_create_nest]. rewrite G, last_item_app.
  now rewrite removelast_last.
Qed.

(** Walking to an array of tables: what the caller does to its last item. *)
Lemma get_or_create_nest_array key l d d' use cont :
  key <> [] ->
  value_at key cont = Some (VList (l ++ [VDict d])) ->
  use d = Ok d' ->
  exists cont',
    get_or_create_nest true key use cont = Ok cont' /\
    value_at key cont' = Some (VList (l ++ [VDict d'])).
Proof.
  intros Hne Hv Huse. rewrite (key_split key Hne) in Hv |- *.
  rewrite get_or_create_nest_app.
  eapply get_or_create_nest_change; [exact Hv |].
  intros nest G. rewrite (get_or_create_nest_last_item [] use nest _ l d G).
  cbn [get_or_create_nest]. rewrite Huse. cbn [bind].
  eexists. split; [reflexivity | apply dict_get_set_eq].
Qed.

(** [append_nest_to_list] leaves an array that ends with an empty table. *)
Lemma append_nest_to_list_value key cont cont' :
  key <> [] ->
  append_nest_to_list key cont = Ok cont' ->
  exists l, value_at key cont' = Some (VList (l ++ [VDict []])).
Proof.
  intros Hne H. unfold append_nest_to_list in H.
  assert (Hv : exists v, value_at (removelast key ++ [last key []]) cont' = Some v /\
                         exists l, v = VList (l ++ [VDict []])).
  { eapply get_or_create_nest_value; [| exact H].
    intros nest nest' Huse. cbv beta zeta in Huse.
    destruct (dict_get nest (last key [])) as [[]|]; try discriminate;
      inversion Huse; subst; rewrite dict_get_set_eq; eexists; split; try reflexivity.
    - now exists items.
    - now exists []. }
  destruct Hv as [v [Hv [l ->]]]. rewrite <- (key_split key Hne) in Hv. eauto.
Qed.


(** Below a key that was just reset nothing is flagged, if no key above
    hands the flag down. *)
Lemma is_below_after_reset key : forall y flag flag0 cont,
  key <> [] ->
  is_ key flag cont = false ->
  is_ (key ++ [y]) flag (set_flag key flag0 false (unset_all key cont)) = false.
Proof.
  induction key as [|k key IH]; intros y flag flag0 cont Hne His; [congruence |].
  destruct key as [|k2 key].
  - cbn [unset_all set_flag app]. rewrite dict_get_pop_eq. cbn [empty_node].
    rewrite is_cons, dict_get_set_eq. reflexivity.
  - cbn [app]. rewrite unset_all_cons. rewrite is_cons in His.
    destruct (dict_get cont k) as [[f r n]|] eqn:G.
    + rewrite set_flag_cons, dict_get_set_eq.
      change (k :: k2 :: key ++ [y]) with (k :: (k2 :: key) ++ [y]).
      destruct ((k2 :: key) ++ [y]) as [|z zs] eqn:E; [discriminate |].
      rewrite is_cons, dict_get_set_eq.
      destruct (flag_in flag r); [discriminate |].
      rewrite <- E. apply IH; [congruence | assumption].
    + rewrite set_flag_cons, G. cbn [empty_node].
      change (k :: k2 :: key ++ [y]) with (k :: (k2 :: key) ++ [y]).
      destruct ((k2 :: key) ++ [y]) as [|z zs] eqn:E; [discriminate |].
      rewrite is_cons, dict_get_set_eq. cbn [flag_in existsb].
      rewrite <- E.
      specialize (IH y flag flag0 []).
      replace (unset_all (k2 :: key) []) with (@nil (str * FlagNode)) in IH
        by (destruct key; reflexivity).
      apply IH; [congruence |]. destruct key; reflexivity.
Qed.


Lemma create_dict_effect_run src pos state key out1 :
  key <> [] ->
  is_ key EXPLICIT_NEST (flags state) = false ->
  is_ key FROZEN (flags state) = false ->
  get_or_create_nest true key (fun nest => Ok nest) (out state) = Ok out1 ->
  create_dict_effect src pos state key
  = Ok (mkState out1 (set_flag key EXPLICIT_NEST false (flags state)) key).
Proof.
  intros Hne He Hfz Hg. unfold create_dict_effect. rewrite He, Hfz, Hg.
  destruct key; [congruence | reflexivity].
Qed.



(** C6.  After an array-of-tables header the statements go into the last
    item of the array: a key/value pair puts its key there, a header for a
    table below the array puts the table there, and the items before it are
    as they were.  This is the step of [get_or_create_nest] through an
    array, which goes on in the last item.  [[[a]]], [x=1], [[[a]]], [x=2]
    gives an array of the tables [{x = 1}] and [{x = 2}]. *)
Theorem statements_go_to_last_array_item :
  (forall key use cont k init d,
      dict_get cont k = Some (VList (init ++ [VDict d])) ->
      get_or_create_nest true (k :: key) use cont
      = (d' <- get_or_create_nest true key use d ;;
         Ok (dict_set cont k (VList (init ++ [VDict d']))))) /\
  (forall src pos state key state1,
      create_list_effect src pos state key = Ok state1 ->
      exists l,
        value_at key (out state1) = Some (VList (l ++ [VDict []])) /\
        (forall src' pos' x v,
            exists state2,
              key_value_effect src' pos' state1 [x] v = Ok state2 /\
              value_at key (out state2) = Some (VList (l ++ [VDict [(x, v)]]))) /\
        (forall src' pos' y,
            is_ (key ++ [y]) EXPLICIT_NEST (flags state1) = false ->
            exists state2,
              create_dict_effect src' pos' state1 (key ++ [y]) = Ok state2 /\
              value_at key (out state2) = Some (VList (l ++ [VDict [(y, VDict [])]])))) /\
  toml_loads (doc ["[[a]]"; "x=1"; "[[a]]"; "x=2"])
  = Ok [(py "a", VList [VDict [(py "x", VInt 1)]; VDict [(py "x", VInt 2)]])] /\
  toml_loads (doc ["[[a]]"; "[a.b]"; "x=1"; "[[a]]"; "[a.b]"; "x=2"])
  = Ok [(py "a", VList [VDict [(py "b", VDict [(py "x", VInt 1)])];
                        VDict [(py "b", VDict [(py "x", VInt 2)])]])].
Proof.
  split; [exact get_or_create_nest_last_item |].
  split; [| split; vm_compute; reflexivity].
  intros src pos state key state1 H.
  apply create_list_effect_Ok in H. destruct H as (Hne & Hfz & Hh & Hf & Ho).
  destruct (append_nest_to_list_value key _ _ Hne Ho) as [l Hv].
  exists l. split; [exact Hv |]. split.
  - intros src' pos' x v.
    destruct (get_or_create_nest_array key l [] [(x, v)]
                (fun nest =>
                   if dict_in (last [x] []) nest
                   then Raise (suffixed_err src' pos'
                                 [Lit "Can not define ";
                                  ReprKey (header_namespace state1 ++ [x]); Lit " twice"])
                   else Ok (dict_set nest (last [x] []) v))
                (out state1) Hne Hv eq_refl) as [out2 [Hg Hv2]].
    eexists. split.
    + unfold key_value_effect. cbn [removelast]. rewrite Hh, app_nil_r.
      rewrite Hf, is_after_reset by (discriminate || assumption).
      rewrite Hh in Hg. rewrite Hg. reflexivity.
    + exact Hv2.
  - intros src' pos' y Hy.
    destruct (get_or_create_nest_array key l [] [(y, VDict [])]
                (get_or_create_nest true [y] (fun nest => Ok nest))
                (out state1) Hne Hv eq_refl) as [out2 [Hg Hv2]].
    rewrite <- get_or_create_nest_app in Hg.
    eexists. split.
    + apply create_dict_effect_run; [now destruct key | exact Hy | | exact Hg].
      rewrite Hf. now apply is_below_after_reset.
    + exact Hv2.
Qed.

(** ** The fuel is enough, and no [KeyError] comes out *)

Lemma settled_suffixed_err A src pos msg : @settled A (Raise (suffixed_err src pos msg)).
Proof.
  destruct (suffixed_err_decode src pos msg) as [w [_ H]]. rewrite H. exact I.
Qed.

Lemma settled_fuel {A} (r : result A) : settled r -> r <> OutOfFuel.
Proof. intros H E. rewrite E in H. exact H. Qed.

Ltac settle :=
  first
    [ exact I
    | assumption
    | discriminate
    | apply settled_suffixed_err
    | match goal with T : settled OutOfFuel |- _ => destruct T end ].

Lemma skip_chars_ge src pos chars : pos <= skip_chars src pos chars.
Proof. rewrite skip_chars_span. lia. Qed.

Lemma skip_until_from_ge rest : forall src pos c error_on eof p,
  skip_until_from rest src pos c error_on eof = Ok p -> pos <= p.
Proof.
  induction rest as [|x rest IH]; intros src pos c error_on eof p H; cbn in H.
  - destruct eof; [discriminate | inversion H; lia].
  - destruct (N.eqb x c); [inversion H; lia |].
    destruct (error_on x); [settle |].
    apply IH in H. lia.
Qed.

Lemma skip_until_from_fuel rest : forall src pos c error_on eof,
  settled (skip_until_from rest src pos c error_on eof).
Proof.
  induction rest as [|x rest IH]; intros src pos c error_on eof;
    cbn [skip_until_from].
  - destruct eof; settle.
  - destruct (N.eqb x c); [settle |].
    destruct (error_on x); [settle | apply IH].
Qed.

Lemma skip_comment_ge src pos p : skip_comment src pos = Ok p -> pos <= p.
Proof.
  unfold skip_comment, expect_comment, skip_until.
  destruct (char_is (char_at src pos) (ch "#")); intros H.
  - apply skip_until_from_ge in H. lia.
  - inversion H. lia.
Qed.

Lemma skip_comment_fuel src pos : settled (skip_comment src pos).
Proof.
  unfold skip_comment, expect_comment, skip_until.
  destruct (char_is (char_at src pos) (ch "#")); [apply skip_until_from_fuel | settle].
Qed.

Lemma char_at_Some_lt (src : str) pos c : char_at src pos = Some c -> pos < length src.
Proof. intros H. apply nth_error_Some. unfold char_at in H. congruence. Qed.

Lemma skip_chars_le src pos chars :
  pos <= length src -> skip_chars src pos chars <= length src.
Proof.
  intros H. rewrite skip_chars_span.
  assert (span chars (skipn pos src) <= length (skipn pos src)).
  { generalize (skipn pos src). intros l. induction l as [|x l IH]; cbn; [lia |].
    destruct (chars x); cbn; lia. }
  rewrite length_skipn in *. lia.
Qed.

Lemma skip_chars_past_end src pos chars :
  length src <= pos -> skip_chars src pos chars = pos.
Proof. intros H. rewrite skip_chars_span, skipn_all2 by lia. cbn. lia. Qed.

Lemma char_at_past_end (src : str) pos : length src <= pos -> char_at src pos = None.
Proof. intros H. now apply nth_error_None. Qed.

Lemma skip_comments_and_array_ws_total fuel : forall src pos,
  length src - pos < fuel ->
  settled (skip_comments_and_array_ws fuel src pos) /\
  forall p, skip_comments_and_array_ws fuel src pos = Ok p -> pos <= p.
Proof.
  induction fuel as [|fuel IH]; intros src pos Hf; [lia |].
  cbn [skip_comments_and_array_ws].
  pose proof (skip_chars_ge src pos TOML_WS_AND_NEWLINE) as H1.
  pose proof (skip_comment_fuel src (skip_chars src pos TOML_WS_AND_NEWLINE)) as T0.
  destruct (skip_comment src (skip_chars src pos TOML_WS_AND_NEWLINE)) as [p1| |] eqn:E.
  - cbn [bind]. pose proof (skip_comment_ge _ _ _ E) as H2.
    destruct (Nat.eqb_spec p1 pos) as [->|Hne].
    + split; [settle |]. intros p H. inversion H. lia.
    + assert (Hlt : pos < length src).
      { destruct (Nat.lt_ge_cases pos (length src)) as [Hlt | Hge]; [exact Hlt |].
        exfalso. apply Hne.
        rewrite (skip_chars_past_end src pos _ Hge) in E.
        unfold skip_comment in E. rewrite (char_at_past_end src pos Hge) in E.
        cbn in E. now inversion E. }
      destruct (IH src p1) as [T G]; [lia |].
      split; [exact T | intros p H; apply G in H; lia].
  - cbn [bind]. split; [settle | intros p H; discriminate].
  - destruct T0.
Qed.

Lemma int_fuel s base : settled (int_ s base).
Proof.
  unfold int_.
  destruct (match s with
            | [] => (1%Z, [])
            | c :: s' =>
                if N.eqb c (ch "-") then ((-1)%Z, s')
                else if N.eqb c (ch "+") then (1%Z, s') else (1%Z, s)
            end) as [sign body].
  destruct (int_digits base body 0 false); exact I.
Qed.

Lemma parse_hex_char_total src pos hex_len :
  settled (parse_hex_char src pos hex_len) /\
  forall p x, parse_hex_char src pos hex_len = Ok (p, x) -> p = pos + hex_len.
Proof.
  unfold parse_hex_char.
  destruct (negb (length (slice src pos (pos + hex_len)) =? hex_len)
            || existsb (fun c => negb (hexdigits c)) (slice src pos (pos + hex_len)))%bool.
  - split; [settle | intros p x H; discriminate].
  - pose proof (int_fuel (slice src pos (pos + hex_len)) 16) as T0.
    destruct (int_ (slice src pos (pos + hex_len)) 16) as [i| |] eqn:E; cbn [bind].
    + destruct (negb (is_unicode_scalar_value i)).
      * split; [settle | intros p x H; discriminate].
      * split; [settle | intros p x H; now inversion H].
    + split; [settle | intros p x H; discriminate].
    + destruct T0.
Qed.

Lemma parse_basic_str_escape_total multiline src pos :
  settled (parse_basic_str_escape multiline src pos) /\
  forall p x, parse_basic_str_escape multiline src pos = Ok (p, x) -> pos + 2 <= p.
Proof.
  unfold parse_basic_str_escape.
  destruct (multiline
            && existsb (str_eqb (slice src pos (pos + 2)))
                 [[BACKSLASH; 32%N]; [BACKSLASH; TAB]; [BACKSLASH; LF]])%bool.
  - destruct (str_eq_dec (slice src pos (pos + 2)) [BACKSLASH; LF]).
    + split; [settle |]. intros p x H. inversion H.
      apply skip_chars_ge.
    + pose proof (skip_chars_ge src (pos + 2) TOML_WS) as G.
      destruct (slice src (skip_chars src (pos + 2) TOML_WS)
                  (skip_chars src (pos + 2) TOML_WS + 1)) as [|c t].
      * split; [settle |]. intros p x H. inversion H. lia.
      * destruct (str_eq_dec (c :: t) [LF]).
        -- split; [settle |]. intros p x H. inversion H.
           pose proof (skip_chars_ge src (skip_chars src (pos + 2) TOML_WS + 1)
                         TOML_WS_AND_NEWLINE). lia.
        -- split; [settle | intros p x H; discriminate].
  - destruct (dict_get BASIC_STR_ESCAPE_REPLACEMENTS (slice src pos (pos + 2))).
    + split; [settle |]. intros p x H. inversion H. lia.
    + destruct (str_eq_dec (slice src pos (pos + 2)) (BACKSLASH :: py "u")).
      { destruct (parse_hex_char_total src (pos + 2) 4) as [T G].
        split; [exact T |]. intros p x H. apply G in H. lia. }
      destruct (str_eq_dec (slice src pos (pos + 2)) (BACKSLASH :: py "U")).
      { destruct (parse_hex_char_total src (pos + 2) 8) as [T G].
        split; [exact T |]. intros p x H. apply G in H. lia. }
      destruct (negb (length (slice src pos (pos + 2)) =? 2));
        (split; [settle | intros p x H; discriminate]).
Qed.

Lemma parse_string_loop_total delim delim_len error_on parse_escapes fuel :
  0 < delim_len -> escapes_advance parse_escapes ->
  forall src result_ start_pos pos,
    length src - pos < fuel ->
    settled (parse_string_loop fuel src delim delim_len error_on parse_escapes result_ start_pos pos) /\
    forall p x,
      parse_string_loop fuel src delim delim_len error_on parse_escapes result_ start_pos pos
      = Ok (p, x) -> pos < p.
Proof.
  intros Hlen Hesc.
  induction fuel as [|fuel IH]; intros src result_ start_pos pos Hf; [lia |].
  cbn [parse_string_loop].
  destruct (char_at src pos) as [c|] eqn:Hc.
  2: { split; [settle | intros p x H; discriminate]. }
  pose proof (char_at_Some_lt src pos c Hc) as Hlt.
  assert (Hnext : forall r s, pos < s ->
            settled
              (parse_string_loop fuel src delim delim_len error_on parse_escapes r start_pos s)
            /\
            forall p x,
              parse_string_loop fuel src delim delim_len error_on parse_escapes r start_pos s
              = Ok (p, x) -> pos < p).
  { intros r s Hs. destruct (IH src r start_pos s) as [T G]; [lia |].
    split; [exact T | intros p x H; apply G in H; lia]. }
  destruct (N.eqb c delim).
  - destruct (str_eq_dec (slice src (pos + 1) (pos + delim_len)) (repeat delim (delim_len - 1))).
    + split; [settle |]. intros p x H. inversion H. lia.
    + apply Hnext. lia.
  - destruct parse_escapes as [escapes|].
    + destruct (N.eqb c BACKSLASH).
      * destruct (Hesc src pos) as [T G].
        destruct (escapes src pos) as [[p1 s1]| |] eqn:E; cbn [bind].
        -- pose proof (G p1 s1 eq_refl) as Hp.
           destruct (IH src (result_ ++ slice src start_pos pos ++ s1) p1 p1) as [T2 G2];
             [lia |].
           rewrite <- app_assoc.
           split; [exact T2 | intros p x H; apply G2 in H; lia].
        -- split; [settle | intros p x H; discriminate].
        -- destruct T.
      * destruct (error_on c); [split; [settle | intros p x H; discriminate] |].
        apply Hnext. lia.
    + destruct (error_on c); [split; [settle | intros p x H; discriminate] |].
      apply Hnext. lia.
Qed.

Lemma escapes_advance_basic multiline :
  escapes_advance (Some (parse_basic_str_escape multiline)).
Proof.
  intros src pos. destruct (parse_basic_str_escape_total multiline src pos) as [T G].
  split; [exact T | intros p x H; apply G in H; lia].
Qed.

Lemma parse_basic_str_total fuel src pos :
  length src - pos <= fuel -> char_at src pos <> None ->
  advances (parse_basic_str fuel) src pos.
Proof.
  intros Hf Hc. unfold advances, parse_basic_str, parse_string.
  assert (Hlt : pos < length src).
  { destruct (char_at src pos) eqn:E; [eapply char_at_Some_lt; eauto | congruence]. }
  destruct (parse_string_loop_total QUOTE 1 ILLEGAL_BASIC_STR_CHARS
              (Some (parse_basic_str_escape false)) fuel (Nat.lt_0_1)
              (escapes_advance_basic false) src [] (pos + 1) (pos + 1)) as [T G]; [lia |].
  split; [exact T | intros p x H; apply G in H; lia].
Qed.

Lemma parse_literal_str_total src pos : advances parse_literal_str src pos.
Proof.
  unfold advances, parse_literal_str, skip_until.
  pose proof (skip_until_from_fuel (skipn (pos + 1) src) src (pos + 1) APOSTROPHE
                ILLEGAL_LITERAL_STR_CHARS true) as T0.
  destruct (skip_until_from (skipn (pos + 1) src) src (pos + 1) APOSTROPHE
              ILLEGAL_LITERAL_STR_CHARS true) as [p1| |] eqn:E; cbn [bind].
  - apply skip_until_from_ge in E. split; [settle |].
    intros p x H. inversion H. lia.
  - split; [settle | intros p x H; discriminate].
  - destruct T0.
Qed.

Lemma parse_multiline_str_total fuel src pos literal :
  length src - pos <= fuel -> char_at src pos <> None ->
  advances (fun src pos => parse_multiline_str fuel src pos literal) src pos.
Proof.
  intros Hf Hc. unfold advances, parse_multiline_str.
  assert (Hlt : pos < length src).
  { destruct (char_at src pos) eqn:E; [eapply char_at_Some_lt; eauto | congruence]. }
  set (p0 := if starts_with src (pos + 3) [LF] then pos + 3 + 1 else pos + 3).
  assert (Hp0 : pos + 3 <= p0) by (unfold p0; destruct (starts_with src (pos + 3) [LF]); lia).
  destruct literal; cbv beta iota zeta; unfold parse_string.
  - destruct (parse_string_loop_total APOSTROPHE 3 ILLEGAL_MULTILINE_LITERAL_STR_CHARS
                None fuel ltac:(lia) I src [] p0 p0) as [T G]; [lia |].
    destruct (parse_string_loop fuel src APOSTROPHE 3 ILLEGAL_MULTILINE_LITERAL_STR_CHARS
                None [] p0 p0) as [[p1 r1]| |]; cbn [bind]; try settle.
    + pose proof (G p1 r1 eq_refl).
      destruct (negb (starts_with src p1 [APOSTROPHE]));
        [| destruct (negb (starts_with src (p1 + 1) [APOSTROPHE]))];
        (split; [settle | intros p x H'; inversion H'; lia]).
    + split; [settle | intros p x H'; discriminate].
  - destruct (parse_string_loop_total QUOTE 3 ILLEGAL_MULTILINE_BASIC_STR_CHARS
                (Some parse_basic_str_escape_multiline) fuel ltac:(lia)
                (escapes_advance_basic true) src [] p0 p0) as [T G]; [lia |].
    destruct (parse_string_loop fuel src QUOTE 3 ILLEGAL_MULTILINE_BASIC_STR_CHARS
                (Some parse_basic_str_escape_multiline) [] p0 p0) as [[p1 r1]| |];
      cbn [bind]; try settle.
    + pose proof (G p1 r1 eq_refl).
      destruct (negb (starts_with src p1 [QUOTE]));
        [| destruct (negb (starts_with src (p1 + 1) [QUOTE]))];
        (split; [settle | intros p x H'; inversion H'; lia]).
    + split; [settle | intros p x H'; discriminate].
Qed.

Lemma parse_key_part_total fuel src pos :
  length src - pos <= fuel -> advances (parse_key_part fuel) src pos.
Proof.
  intros Hf. unfold advances, parse_key_part.
  destruct (char_at src pos) as [c|] eqn:Hc.
  2: { split; [settle | intros p x H; discriminate]. }
  destruct (BARE_KEY_CHARS c) eqn:Hb.
  - split; [settle |]. intros p x H. inversion H.
    rewrite skip_chars_span.
    destruct (skipn pos src) as [|c' t] eqn:E.
    + rewrite (skipn_nil_char_at _ _ E) in Hc. discriminate.
    + destruct (skipn_cons_char_at _ _ _ _ E) as [Hc' _].
      rewrite Hc' in Hc. inversion Hc; subst. cbn [span]. rewrite Hb. lia.
  - destruct (N.eqb c APOSTROPHE); [apply parse_literal_str_total |].
    destruct (N.eqb c QUOTE).
    + apply parse_basic_str_total; [exact Hf | congruence].
    + split; [settle | intros p x H; discriminate].
Qed.

Lemma parse_key_loop_total fuel : forall src pos key,
  length src - pos < fuel ->
  settled (parse_key_loop fuel src pos key) /\
  forall p x, parse_key_loop fuel src pos key = Ok (p, x) -> pos <= p.
Proof.
  induction fuel as [|fuel IH]; intros src pos key Hf; [lia |].
  cbn [parse_key_loop].
  destruct (char_at src pos) as [c|] eqn:Hc; cbn [char_is negb].
  2: { split; [settle | intros p x H; inversion H; lia]. }
  pose proof (char_at_Some_lt src pos c Hc) as Hlt.
  destruct (N.eqb c (ch ".")); cbn [negb].
  2: { split; [settle | intros p x H; inversion H; lia]. }
  pose proof (skip_chars_ge src (pos + 1) TOML_WS) as H1.
  destruct (parse_key_part_total fuel src (skip_chars src (pos + 1) TOML_WS)) as [T G]; [lia |].
  destruct (parse_key_part fuel src (skip_chars src (pos + 1) TOML_WS)) as [[p1 part]| |];
    cbn [bind]; try settle.
  - pose proof (G p1 part eq_refl) as H2.
    pose proof (skip_chars_ge src p1 TOML_WS) as H3.
    destruct (IH src (skip_chars src p1 TOML_WS) (key ++ [part])) as [T2 G2]; [lia |].
    split; [exact T2 | intros p x H; apply G2 in H; lia].
  - split; [settle | intros p x H; discriminate].
Qed.

Lemma parse_key_total fuel src pos :
  length src - pos < fuel -> advances (parse_key fuel) src pos.
Proof.
  intros Hf. unfold advances, parse_key.
  destruct (parse_key_part_total fuel src pos) as [T G]; [lia |].
  destruct (parse_key_part fuel src pos) as [[p1 part]| |]; cbn [bind]; try settle.
  - pose proof (G p1 part eq_refl) as H2.
    pose proof (skip_chars_ge src p1 TOML_WS) as H3.
    destruct (parse_key_loop_total fuel src (skip_chars src p1 TOML_WS) [part]) as [T2 G2];
      [lia |].
    split; [exact T2 | intros p x H; apply G2 in H; lia].
  - split; [settle | intros p x H; discriminate].
Qed.

Lemma get_or_create_nest_total access_lists use :
  (forall d, use d <> OutOfFuel) ->
  forall key cont, get_or_create_nest access_lists key use cont <> OutOfFuel.
Proof.
  intros Huse. induction key as [|k key IH]; intros cont; cbn [get_or_create_nest].
  - apply Huse.
  - destruct (match dict_get cont k with Some v => v | None => VDict [] end)
      as [| | | | | | |l|d]; try discriminate.
    + destruct access_lists; [| discriminate].
      destruct (last_item l) as [[| | | | | | |l'|d]|]; try discriminate.
      pose proof (IH d) as T.
      destruct (get_or_create_nest true key use d); cbn [bind]; congruence.
    + pose proof (IH d) as T.
      destruct (get_or_create_nest access_lists key use d); cbn [bind]; congruence.
Qed.

Lemma settled_bind {A B} (r : result A) (k : A -> result B) :
  settled r -> (forall a, settled (k a)) -> settled (bind r k).
Proof.
  destruct r as [a|e|]; cbn [bind]; intros T K; [apply K | exact T | destruct T].
Qed.

Lemma except_KeyError_settled {A} (r : result A) e :
  r <> OutOfFuel -> @settled A (Raise e) -> settled (except_KeyError r e).
Proof. destruct r as [x|[]|]; cbn; intros H He; try exact I; try exact He. congruence. Qed.

(** *** Dates, times and numbers *)

Lemma ends_at_bind {A B} q (r : result A) (k : A -> result (Pos * B)) :
  settled r -> (forall a, ends_at q (k a)) -> ends_at q (bind r k).
Proof.
  intros T K. destruct r as [a| |]; cbn [bind]; [apply K | | destruct T].
  split; [exact T | intros p x H; discriminate].
Qed.

Lemma ends_at_Ok {A} q (x : A) : ends_at q (Ok (q, x)).
Proof. split; [settle | intros p y H; inversion H; reflexivity]. Qed.

Lemma ends_at_advances {A} (f : parser A) src pos q :
  ends_at q (f src pos) -> pos < q -> advances f src pos.
Proof.
  intros [T G] H. split; [exact T | intros p x E; rewrite (G p x E); exact H].
Qed.

Lemma int_group_fuel m i : settled (int_group m i).
Proof. unfold int_group. destruct (group m i); [apply int_fuel | exact I]. Qed.

Lemma micros_of_fuel o : settled (micros_of o).
Proof. destruct o as [[|c s]|]; cbn [micros_of]; try exact I. apply int_fuel. Qed.

Lemma date_fuel y m d : settled (date y m d).
Proof. unfold date. destruct (valid_date y m d); exact I. Qed.

Lemma time_fuel h m s u : settled (time h m s u).
Proof. unfold time. destruct (valid_time h m s u); exact I. Qed.

Lemma datetime_fuel y m d h mi s u tz : settled (datetime y m d h mi s u tz).
Proof.
  unfold datetime. destruct (valid_date y m d && valid_time h mi s u)%bool; exact I.
Qed.

Lemma timezone_fuel h m : settled (timezone h m).
Proof.
  unfold timezone.
  destruct ((-1440 <? h * 60 + m)%Z && (h * 60 + m <? 1440)%Z)%bool; exact I.
Qed.

Ltac ends_at_steps :=
  repeat first
    [ apply ends_at_Ok
    | apply ends_at_bind;
      [ first [ apply int_group_fuel | apply int_fuel | apply micros_of_fuel
              | apply date_fuel | apply time_fuel | apply datetime_fuel
              | apply timezone_fuel ]
      | intros ? ] ].

Lemma parse_datetime_ends src pos m : ends_at (m_end m) (parse_datetime src pos m).
Proof.
  unfold parse_datetime. ends_at_steps.
  destruct (group m 3) as [hour_str|]; ends_at_steps.
  apply ends_at_bind; [| intros tz; ends_at_steps].
  destruct (group m 7) as [offset_hour_str|].
  - apply settled_bind; [apply int_fuel | intros offset_hour].
    apply settled_bind; [apply int_group_fuel | intros offset_minute].
    apply settled_bind; [apply timezone_fuel | intros tz'; exact I].
  - destruct (in_chars (m_group m) (ch "Z")); exact I.
Qed.

Lemma parse_localtime_ends src pos m : ends_at (m_end m) (parse_localtime src pos m).
Proof. unfold parse_localtime. ends_at_steps. Qed.

Lemma parse_dec_or_float_ends src pos m :
  ends_at (m_end m) (parse_dec_or_float src pos m).
Proof.
  unfold parse_dec_or_float.
  destruct (in_chars (m_group m) (ch ".") || in_chars (m_group m) (ch "e")
            || in_chars (m_group m) (ch "E"))%bool; ends_at_steps.
Qed.

Lemma parse_regex_advances src pos regex q :
  pattern_advances regex -> q <= pos ->
  settled (parse_regex src pos regex) /\
  forall p x, parse_regex src pos regex = Ok (p, x) -> q < p.
Proof.
  intros Hre Hq. unfold parse_regex. destruct (regex src pos) as [m|] eqn:E.
  - apply Hre in E. split; [settle | intros p x H; inversion H; lia].
  - split; [settle | intros p x H; discriminate].
Qed.

(** *** The value parser *)

Section ValueParser.
Variable re : Patterns.
Hypothesis re_advances : patterns_advance re.

(** The recursive call: it goes forward from [p0] on. *)
Variable parse_value_ : parser Value.
Variable src : str.
Variable p0 : Pos.
Hypothesis parse_value_advances : forall pos, p0 <= pos -> advances parse_value_ src pos.

Lemma parse_key_value_pair_total fuel pos :
  length src - pos < fuel -> p0 <= pos ->
  advances (parse_key_value_pair parse_value_ fuel) src pos.
Proof.
  intros Hf Hp. unfold advances, parse_key_value_pair.
  destruct (parse_key_total fuel src pos Hf) as [T G].
  destruct (parse_key fuel src pos) as [[p1 key]| |]; cbn [bind]; try settle.
  - pose proof (G p1 key eq_refl) as H1.
    destruct (negb (char_is (char_at src p1) (ch "=")));
      [split; [settle | intros p x H; discriminate] |].
    pose proof (skip_chars_ge src (p1 + 1) TOML_WS) as H2.
    destruct (parse_value_advances (skip_chars src (p1 + 1) TOML_WS)) as [T2 G2]; [lia |].
    destruct (parse_value_ src (skip_chars src (p1 + 1) TOML_WS)) as [[p2 v]| |];
      cbn [bind]; try settle.
    + pose proof (G2 p2 v eq_refl) as H3.
      split; [settle | intros p x H; inversion H; lia].
    + split; [settle | intros p x H; discriminate].
  - split; [settle | intros p x H; discriminate].
Qed.

Lemma starts_with_lt pos c : starts_with src pos [c] = true -> pos < length src.
Proof.
  rewrite starts_with_char. destruct (char_at src pos) eqn:E; [| discriminate].
  intros _. eapply char_at_Some_lt; eauto.
Qed.

Lemma parse_array_loop_total fuel : forall pos array,
  length src - pos < fuel -> p0 <= pos ->
  settled (parse_array_loop parse_value_ fuel src pos array) /\
  forall p x, parse_array_loop parse_value_ fuel src pos array = Ok (p, x) -> pos < p.
Proof.
  induction fuel as [|fuel IH]; intros pos array Hf Hp; [lia |].
  cbn [parse_array_loop].
  destruct (parse_value_advances pos Hp) as [T G].
  destruct (parse_value_ src pos) as [[p1 v]| |]; cbn [bind]; try settle.
  2: { split; [settle | intros p x H; discriminate]. }
  pose proof (G p1 v eq_refl) as H1.
  destruct (skip_comments_and_array_ws_total (S fuel) src p1) as [T2 G2]; [lia |].
  destruct (skip_comments_and_array_ws (S fuel) src p1) as [p2| |]; cbn [bind];
    try settle.
  2: { split; [settle | intros p x H; discriminate]. }
  pose proof (G2 p2 eq_refl) as H2.
  destruct (starts_with src p2 (py "]")).
  { split; [settle | intros p x H; inversion H; lia]. }
  destruct (starts_with src p2 (py ",")) eqn:Hcomma; cbn [negb].
  2: { split; [settle | intros p x H; discriminate]. }
  apply starts_with_lt in Hcomma.
  destruct (skip_comments_and_array_ws_total (S fuel) src (p2 + 1)) as [T3 G3]; [lia |].
  destruct (skip_comments_and_array_ws (S fuel) src (p2 + 1)) as [p3| |]; cbn [bind];
    try settle.
  2: { split; [settle | intros p x H; discriminate]. }
  pose proof (G3 p3 eq_refl) as H3.
  destruct (starts_with src p3 (py "]")).
  { split; [settle | intros p x H; inversion H; lia]. }
  destruct (IH p3 (array ++ [v])) as [T4 G4]; [lia | lia |].
  split; [exact T4 | intros p x H; apply G4 in H; lia].
Qed.

Lemma parse_array_total fuel pos :
  length src - pos <= fuel -> p0 <= pos + 1 -> pos < length src ->
  advances (parse_array parse_value_ fuel) src pos.
Proof.
  intros Hf Hp Hlt. unfold advances, parse_array.
  destruct (skip_comments_and_array_ws_total fuel src (pos + 1)) as [T G]; [lia |].
  destruct (skip_comments_and_array_ws fuel src (pos + 1)) as [p1| |]; cbn [bind];
    try settle.
  2: { split; [settle | intros p x H; discriminate]. }
  pose proof (G p1 eq_refl) as H1.
  destruct (starts_with src p1 (py "]")).
  { split; [settle | intros p x H; inversion H; lia]. }
  destruct (parse_array_loop_total fuel p1 []) as [T2 G2]; [lia | lia |].
  split; [exact T2 | intros p x H; apply G2 in H; lia].
Qed.

Lemma parse_inline_table_loop_total fuel : forall pos nested_dict flags,
  length src - pos < fuel -> p0 <= pos ->
  settled (parse_inline_table_loop parse_value_ fuel src pos nested_dict flags) /\
  forall p x,
    parse_inline_table_loop parse_value_ fuel src pos nested_dict flags = Ok (p, x) ->
    pos < p.
Proof.
  induction fuel as [|fuel IH]; intros pos nested_dict flags Hf Hp; [lia |].
  cbn [parse_inline_table_loop].
  destruct (parse_key_value_pair_total (S fuel) pos Hf Hp) as [T G].
  destruct (parse_key_value_pair parse_value_ (S fuel) src pos) as [[p1 [key value]]| |];
    cbn [bind]; try settle.
  2: { split; [settle | intros p x H; discriminate]. }
  pose proof (G p1 (key, value) eq_refl) as H1.
  destruct key as [|k key]; [split; [settle | intros p x H; discriminate] |].
  set (key0 := k :: key).
  destruct (is_ key0 FROZEN flags); [split; [settle | intros p x H; discriminate] |].
  match goal with |- context [except_KeyError ?r ?e] =>
    assert (Hr : settled (except_KeyError r e));
    [| destruct (except_KeyError r e) as [nd| |]; cbn [bind]; try settle]
  end.
  { apply except_KeyError_settled; [| apply settled_suffixed_err].
    apply get_or_create_nest_total.
    intros d. destruct (dict_in (last key0 []) d); discriminate. }
  2: { split; [settle | intros p x H; discriminate]. }
  pose proof (skip_chars_ge src p1 TOML_WS) as H2.
  destruct (starts_with src (skip_chars src p1 TOML_WS) (py "}")).
  { split; [settle | intros p x H; inversion H; lia]. }
  destruct (starts_with src (skip_chars src p1 TOML_WS) (py ",")) eqn:Hcomma; cbn [negb].
  2: { split; [settle | intros p x H; discriminate]. }
  apply starts_with_lt in Hcomma.
  pose proof (skip_chars_ge src (skip_chars src p1 TOML_WS + 1) TOML_WS) as H3.
  match goal with |- context [parse_inline_table_loop _ fuel src ?q ?nd' ?fl'] =>
    destruct (IH q nd' fl') as [T4 G4]; [lia | lia |]
  end.
  split; [exact T4 | intros p x H; apply G4 in H; lia].
Qed.

Lemma parse_inline_table_total fuel pos :
  length src - pos <= fuel -> p0 <= pos + 1 -> pos < length src ->
  advances (parse_inline_table parse_value_ fuel) src pos.
Proof.
  intros Hf Hp Hlt. unfold advances, parse_inline_table.
  pose proof (skip_chars_ge src (pos + 1) TOML_WS) as H1.
  destruct (starts_with src (skip_chars src (pos + 1) TOML_WS) (py "}")).
  { split; [settle | intros p x H; inversion H; lia]. }
  destruct (parse_inline_table_loop_total fuel (skip_chars src (pos + 1) TOML_WS) [] [])
    as [T G]; [lia | lia |].
  split; [exact T | intros p x H; apply G in H; lia].
Qed.
End ValueParser.

Lemma advances_VStr (f : parser str) src pos :
  advances f src pos ->
  advances (fun src pos => '(pos, s) <- f src pos ;; Ok (pos, VStr s)) src pos.
Proof.
  intros [T G]. unfold advances. destruct (f src pos) as [[p s]| |]; cbn [bind].
  - split; [settle | intros q x H; inversion H; subst; eapply G; reflexivity].
  - split; [settle | intros q x H; discriminate].
  - destruct T.
Qed.

Lemma advances_VInt src pos regex base :
  pattern_advances regex ->
  advances (fun src pos =>
              '(pos, digits) <- parse_regex src (pos + 2) regex ;;
              i <- int_ digits base ;; Ok (pos, VInt i)) src pos.
Proof.
  intros Hre. unfold advances.
  destruct (parse_regex_advances src (pos + 2) regex pos Hre) as [T G]; [lia |].
  destruct (parse_regex src (pos + 2) regex) as [[p digits]| |]; cbn [bind];
    try settle.
  - pose proof (G p digits eq_refl) as H1. pose proof (int_fuel digits base) as T2.
    destruct (int_ digits base); cbn [bind]; try settle.
    + split; [settle | intros q x H; inversion H; lia].
    + split; [settle | intros q x H; discriminate].
  - split; [settle | intros q x H; discriminate].
Qed.

Lemma char_is_lt (src : str) pos c : char_is (char_at src pos) c = true -> pos < length src.
Proof.
  destruct (char_at src pos) eqn:E; [| discriminate]. intros _.
  eapply char_at_Some_lt; eauto.
Qed.

Section Values.
Variable re : Patterns.
Hypothesis re_advances : patterns_advance re.

Lemma parse_value_total fuel : forall src pos,
  length src - pos + 2 <= fuel -> advances (parse_value re fuel) src pos.
Proof.
  destruct re_advances as (Hbin & Hdt & Hdec & Hhex & Hlt & Hoct).
  induction fuel as [|fuel IH]; intros src pos Hf; [lia |].
  unfold advances. cbn [parse_value].
  destruct (char_is (char_at src pos) QUOTE) eqn:Hq.
  { apply char_is_lt in Hq.
    destruct (starts_with src (pos + 1) [QUOTE; QUOTE]).
    - apply (advances_VStr (fun src pos => parse_multiline_str fuel src pos false)).
      apply parse_multiline_str_total; [lia |].
      intros E. apply nth_error_None in E. lia.
    - apply (advances_VStr (parse_basic_str fuel)).
      apply parse_basic_str_total; [lia |].
      intros E. apply nth_error_None in E. lia. }
  destruct (char_is (char_at src pos) APOSTROPHE) eqn:Ha.
  { apply char_is_lt in Ha.
    destruct (starts_with src (pos + 1) [APOSTROPHE; APOSTROPHE]).
    - apply (advances_VStr (fun src pos => parse_multiline_str fuel src pos true)).
      apply parse_multiline_str_total; [lia |].
      intros E. apply nth_error_None in E. lia.
    - apply (advances_VStr parse_literal_str). apply parse_literal_str_total. }
  destruct (char_is (char_at src pos) (ch "t") && starts_with src (pos + 1) (py "rue"))%bool.
  { split; [settle | intros p x H; inversion H; lia]. }
  destruct (char_is (char_at src pos) (ch "f") && starts_with src (pos + 1) (py "alse"))%bool.
  { split; [settle | intros p x H; inversion H; lia]. }
  destruct (RE_DATETIME re src pos) as [m|] eqn:Edt.
  { apply (ends_at_advances (fun src pos => parse_datetime src pos m) src pos (m_end m));
      [apply parse_datetime_ends | eapply Hdt; eauto]. }
  destruct (RE_LOCAL_TIME re src pos) as [m|] eqn:Elt.
  { apply (ends_at_advances (fun src pos => parse_localtime src pos m) src pos (m_end m));
      [apply parse_localtime_ends | eapply Hlt; eauto]. }
  destruct (char_is (char_at src pos) (ch "0") && starts_with src (pos + 1) (py "x"))%bool.
  { apply (advances_VInt src pos (RE_HEX re) 16 Hhex). }
  destruct (char_is (char_at src pos) (ch "0") && starts_with src (pos + 1) (py "o"))%bool.
  { apply (advances_VInt src pos (RE_OCT re) 8 Hoct). }
  destruct (char_is (char_at src pos) (ch "0") && starts_with src (pos + 1) (py "b"))%bool.
  { apply (advances_VInt src pos (RE_BIN re) 2 Hbin). }
  destruct (RE_DEC_OR_FLOAT re src pos) as [m|] eqn:Edec.
  { apply (ends_at_advances (fun src pos => parse_dec_or_float src pos m) src pos (m_end m));
      [apply parse_dec_or_float_ends | eapply Hdec; eauto]. }
  destruct (char_is (char_at src pos) (ch "[")) eqn:Hb.
  { apply char_is_lt in Hb.
    apply (parse_array_total (parse_value re fuel) src (pos + 1)); [| lia | lia | lia].
    intros q Hq'. apply IH. lia. }
  destruct (char_is (char_at src pos) (ch "{")) eqn:Hc.
  { apply char_is_lt in Hc.
    apply (parse_inline_table_total (parse_value re fuel) src (pos + 1)); [| lia | lia | lia].
    intros q Hq'. apply IH. lia. }
  destruct (existsb (str_eqb (slice src pos (pos + 3))) [py "inf"; py "nan"]).
  { split; [settle | intros p x H; inversion H; lia]. }
  destruct (existsb (str_eqb (slice src pos (pos + 4)))
              [py "-inf"; py "+inf"; py "-nan"; py "+nan"]).
  { split; [settle | intros p x H; inversion H; lia]. }
  split; [settle | intros p x H; discriminate].
Qed.
End Values.

(** *** Statements and documents *)

Lemma key_value_effect_fuel src pos state key value :
  settled (key_value_effect src pos state key value).
Proof.
  unfold key_value_effect. destruct key as [|k key]; [exact I |].
  set (key0 := k :: key).
  destruct (is_ (header_namespace state ++ removelast key0) FROZEN (flags state));
    [apply settled_suffixed_err |].
  apply settled_bind; [| intros out1; exact I].
  apply except_KeyError_settled; [| apply settled_suffixed_err].
  apply get_or_create_nest_total.
  intros d. destruct (dict_in (last key0 []) d); discriminate.
Qed.

Lemma create_dict_effect_fuel src pos state key :
  settled (create_dict_effect src pos state key).
Proof.
  unfold create_dict_effect.
  destruct (is_ key EXPLICIT_NEST (flags state) || is_ key FROZEN (flags state))%bool;
    [apply settled_suffixed_err |].
  destruct key as [|k key]; [exact I |].
  apply settled_bind; [| intros out1; exact I].
  apply except_KeyError_settled; [| apply settled_suffixed_err].
  apply get_or_create_nest_total. discriminate.
Qed.

Lemma create_list_effect_fuel src pos state key :
  settled (create_list_effect src pos state key).
Proof.
  unfold create_list_effect.
  destruct (is_ key FROZEN (flags state)); [apply settled_suffixed_err |].
  destruct key as [|k key]; [exact I |].
  apply settled_bind; [| intros out1; exact I].
  apply except_KeyError_settled; [| apply settled_suffixed_err].
  unfold append_nest_to_list. apply get_or_create_nest_total.
  intros d. destruct (dict_get d (last (k :: key) [])) as [[| | | | | | |l|d']|];
    discriminate.
Qed.

Section Statements.
Variable re : Patterns.
Hypothesis re_advances : patterns_advance re.

Lemma key_value_rule_total fuel src pos state :
  length src - pos + 2 <= fuel ->
  advances (fun src pos => key_value_rule re fuel src pos state) src pos.
Proof.
  intros Hf. unfold advances, key_value_rule.
  destruct (parse_key_value_pair_total (parse_value re fuel) src pos) with (fuel := fuel)
    (pos := pos) as [T G]; [| lia | lia |].
  { intros q Hq. apply parse_value_total; [exact re_advances | lia]. }
  destruct (parse_key_value_pair (parse_value re fuel) fuel src pos)
    as [[p1 [key value]]| |]; cbn [bind]; try settle.
  - pose proof (G p1 (key, value) eq_refl) as H1.
    pose proof (key_value_effect_fuel src p1 state key value) as T2.
    destruct (key_value_effect src p1 state key value); cbn [bind]; try settle.
    + split; [settle | intros p x H; inversion H; lia].
    + split; [settle | intros p x H; discriminate].
  - split; [settle | intros p x H; discriminate].
Qed.

Lemma create_dict_rule_total fuel src pos state :
  length src - pos <= fuel -> pos < length src ->
  advances (fun src pos => create_dict_rule fuel src pos state) src pos.
Proof.
  intros Hf Hlt. unfold advances, create_dict_rule.
  pose proof (skip_chars_ge src (pos + 1) TOML_WS) as H0.
  destruct (parse_key_total fuel src (skip_chars src (pos + 1) TOML_WS)) as [T G]; [lia |].
  destruct (parse_key fuel src (skip_chars src (pos + 1) TOML_WS)) as [[p1 key]| |];
    cbn [bind]; try settle.
  - pose proof (G p1 key eq_refl) as H1.
    pose proof (create_dict_effect_fuel src p1 state key) as T2.
    destruct (create_dict_effect src p1 state key); cbn [bind]; try settle.
    + destruct (negb (starts_with src p1 (py "]"))).
      * split; [settle | intros p x H; discriminate].
      * split; [settle | intros p x H; inversion H; lia].
    + split; [settle | intros p x H; discriminate].
  - split; [settle | intros p x H; discriminate].
Qed.

Lemma create_list_rule_total fuel src pos state :
  length src - pos <= fuel -> pos < length src ->
  advances (fun src pos => create_list_rule fuel src pos state) src pos.
Proof.
  intros Hf Hlt. unfold advances, create_list_rule.
  pose proof (skip_chars_ge src (pos + 2) TOML_WS) as H0.
  destruct (parse_key_total fuel src (skip_chars src (pos + 2) TOML_WS)) as [T G]; [lia |].
  destruct (parse_key fuel src (skip_chars src (pos + 2) TOML_WS)) as [[p1 key]| |];
    cbn [bind]; try settle.
  - pose proof (G p1 key eq_refl) as H1.
    pose proof (create_list_effect_fuel src p1 state key) as T2.
    destruct (create_list_effect src p1 state key); cbn [bind]; try settle.
    + destruct (negb (str_eqb (slice src p1 (p1 + 2)) (py "]]"))).
      * split; [settle | intros p x H; discriminate].
      * split; [settle | intros p x H; inversion H; lia].
    + split; [settle | intros p x H; discriminate].
  - split; [settle | intros p x H; discriminate].
Qed.

Lemma expect_comment_total src pos (state : State) :
  advances (fun src pos => pos <- expect_comment src pos ;; Ok (pos, state)) src pos.
Proof.
  unfold advances, expect_comment, skip_until.
  pose proof (skip_until_from_fuel (skipn (pos + 1) src) src (pos + 1) LF
                ILLEGAL_COMMENT_CHARS false) as T.
  pose proof (skip_until_from_ge (skipn (pos + 1) src) src (pos + 1) LF
                ILLEGAL_COMMENT_CHARS false) as G.
  destruct (skip_until_from (skipn (pos + 1) src) src (pos + 1) LF
              ILLEGAL_COMMENT_CHARS false) as [p1| |]; cbn [bind]; try settle.
  - pose proof (G p1 eq_refl).
    split; [settle | intros p x E; inversion E; lia].
  - split; [settle | intros p x E; discriminate].
Qed.

Lemma loads_loop_total fuel : forall src pos state,
  length src - pos + 3 <= fuel -> settled (loads_loop re fuel src pos state).
Proof.
  induction fuel as [|fuel IH]; intros src pos state Hf; [lia |].
  cbn [loads_loop].
  pose proof (skip_chars_ge src pos TOML_WS) as H0.
  set (pos1 := skip_chars src pos TOML_WS) in *.
  destruct (char_at src pos1) as [c|] eqn:Hc; [| exact I].
  pose proof (char_at_Some_lt src pos1 c Hc) as Hlt.
  destruct (N.eqb c LF); [apply IH; lia |].
  match goal with |- settled (bind ?r _) =>
    assert (A : settled r /\ forall p x, r = Ok (p, x) -> pos1 < p)
  end.
  { destruct (N.eqb c (ch "#")); [apply (expect_comment_total src pos1 state) |].
    destruct (KEY_INITIAL_CHARS c); [apply key_value_rule_total; lia |].
    destruct (starts_with src pos1 (py "[[")); [apply create_list_rule_total; lia |].
    destruct (N.eqb c (ch "[")); [apply create_dict_rule_total; lia |].
    split; [settle | intros p x H; discriminate]. }
  destruct A as [T G].
  match goal with |- settled (bind ?r _) => destruct r as [[p2 state2]| |] end;
    cbn [bind]; try settle.
  pose proof (G p2 state2 eq_refl) as H2.
  pose proof (skip_chars_ge src p2 TOML_WS) as H3.
  pose proof (skip_comment_fuel src (skip_chars src p2 TOML_WS)) as T3.
  pose proof (skip_comment_ge src (skip_chars src p2 TOML_WS)) as G3.
  destruct (skip_comment src (skip_chars src p2 TOML_WS)) as [p3| |]; cbn [bind];
    try settle.
  pose proof (G3 p3 eq_refl) as H4.
  destruct (char_at src p3) as [c'|]; [| exact I].
  destruct (negb (N.eqb c' LF)); [apply settled_suffixed_err |].
  apply IH. lia.
Qed.

(** [loads] gives its statement loop enough fuel, and it lets no
    [KeyError] out: whatever the text, it returns a table or raises an
    exception that is no [KeyError]. *)
Lemma loads_total s : settled (loads re s).
Proof. unfold loads. apply loads_loop_total. lia. Qed.
End Statements.

(** *** The patterns of [tomli._re] match no empty text *)

Lemma of_matcher_advances matcher :
  (forall rest len groups, matcher rest = Some (len, groups) -> 0 < len) ->
  pattern_advances (Re.of_matcher matcher).
Proof.
  intros Hm src pos m H. unfold Re.of_matcher in H.
  destruct (matcher (skipn pos src)) as [[len groups]|] eqn:E; [| discriminate].
  apply Hm in E. inversion H. cbn [m_end]. lia.
Qed.

Lemma plain_advances matcher :
  (forall rest len, matcher rest = Some len -> 0 < len) ->
  pattern_advances (Re.plain matcher).
Proof.
  intros Hm. apply of_matcher_advances. intros rest len groups H.
  destruct (matcher rest) as [n|] eqn:E; [| discriminate].
  inversion H; subst. eapply Hm; eauto.
Qed.

Lemma digits_advances D rest len : Re.digits D rest = Some len -> 0 < len.
Proof.
  unfold Re.digits. destruct rest as [|c rest]; [settle |].
  destruct (D c); [| discriminate]. intros H. inversion H. lia.
Qed.

Lemma time_matcher_advances rest len groups :
  Re.time_matcher rest = Some (len, groups) -> 0 < len.
Proof.
  unfold Re.time_matcher.
  destruct (Re.two_digits 0 23 rest); [| discriminate].
  destruct (negb (Re.literal (ch ":") (skipn 2 rest))); [settle |].
  destruct (Re.two_digits 0 59 (skipn 3 rest)); [| discriminate].
  destruct (negb (Re.literal (ch ":") (skipn 5 rest))); [settle |].
  destruct (Re.two_digits 0 59 (skipn 6 rest)); [| discriminate].
  match goal with |- (if ?b then _ else _) = _ -> _ => destruct b end;
    intros H; inversion H; lia.
Qed.

Lemma datetime_matcher_advances rest len groups :
  Re.datetime_matcher rest = Some (len, groups) -> 0 < len.
Proof.
  unfold Re.datetime_matcher.
  destruct (negb ((length (firstn 4 rest) =? 4) && forallb ascii_digit (firstn 4 rest))%bool);
    [settle |].
  destruct (negb (Re.literal (ch "-") (skipn 4 rest))); [settle |].
  destruct (Re.two_digits 1 12 (skipn 5 rest)); [| discriminate].
  destruct (negb (Re.literal (ch "-") (skipn 7 rest))); [settle |].
  destruct (Re.two_digits 1 31 (skipn 8 rest)); [| discriminate].
  destruct (Re.literal (ch "T") (skipn 10 rest) || Re.literal 32%N (skipn 10 rest))%bool.
  - destruct (Re.time_matcher (skipn 1 (skipn 10 rest))) as [[tlen tgroups]|].
    + destruct (Re.offset_matcher (skipn (1 + tlen) (skipn 10 rest))) as [olen ogroups].
      intros H. inversion H. lia.
    + intros H. inversion H. lia.
  - intros H. inversion H. lia.
Qed.

Lemma dec_or_float_matcher_advances rest len :
  Re.dec_or_float_matcher rest = Some len -> 0 < len.
Proof.
  unfold Re.dec_or_float_matcher.
  set (sign := if (Re.literal (ch "+") rest || Re.literal (ch "-") rest)%bool then 1 else 0).
  destruct (skipn sign rest) as [|c body'].
  - discriminate.
  - destruct (N.eqb c (ch "0")).
    + intros H. inversion H. lia.
    + destruct (in_range 49 57 c); [| discriminate]. intros H. inversion H. lia.
Qed.

Lemma tomli_re_advances : patterns_advance tomli_re.
Proof.
  unfold patterns_advance, tomli_re; cbn.
  repeat split.
  - apply plain_advances, digits_advances.
  - apply of_matcher_advances, datetime_matcher_advances.
  - apply plain_advances, dec_or_float_matcher_advances.
  - apply plain_advances, digits_advances.
  - apply of_matcher_advances, time_matcher_advances.
  - apply plain_advances, digits_advances.
Qed.

(** With the patterns of [tomli._re], [loads] returns a table or raises an
    exception that is no [KeyError], for every text. *)
Lemma toml_loads_total s :
  (exists table, toml_loads s = Ok table) \/
  (exists e, toml_loads s = Raise e /\ forall msg, e <> KeyError msg).
Proof.
  pose proof (loads_total tomli_re tomli_re_advances s) as T.
  unfold toml_loads. destruct (loads tomli_re s) as [table|e|].
  - left. exists table. reflexivity.
  - right. exists e. split; [reflexivity |]. intros msg ->. exact T.
  - destruct T.
Qed.

(** ** Dates and times come before numbers *)

Lemma ascii_digit_not c d :
  ascii_digit c = true -> ascii_digit d = false -> N.eqb c d = false.
Proof.
  intros Hc Hd. apply N.eqb_neq. intros ->. congruence.
Qed.

(** At a digit the value parser asks the date pattern first, then the time
    pattern. *)
Lemma parse_value_at_digit re fuel src pos c :
  char_at src pos = Some c -> ascii_digit c = true ->
  parse_value re (S fuel) src pos
  = match RE_DATETIME re src pos with
    | Some date_match => parse_datetime src pos date_match
    | None =>
        match RE_LOCAL_TIME re src pos with
        | Some localtime_match => parse_localtime src pos localtime_match
        | None => parse_value re (S fuel) src pos
        end
    end.
Proof.
  intros Hc Hd. destruct (RE_DATETIME re src pos) eqn:D.
  - cbn [parse_value]. rewrite Hc. cbn [char_is].
    rewrite !(ascii_digit_not c _ Hd) by reflexivity. cbn [andb]. now rewrite D.
  - destruct (RE_LOCAL_TIME re src pos) eqn:T; [| reflexivity].
    cbn [parse_value]. rewrite Hc. cbn [char_is].
    rewrite !(ascii_digit_not c _ Hd) by reflexivity. cbn [andb]. now rewrite D, T.
Qed.

Lemma parse_datetime_kind src pos m p v :
  parse_datetime src pos m = Ok (p, v) -> is_date_or_datetime v = true.
Proof.
  unfold parse_datetime. intros H. bind_inv H.
  destruct (group m 3).
  - bind_inv H. unfold datetime in *.
    match goal with E : (if ?c then _ else _) = Ok _ |- _ =>
      destruct c; [| discriminate]; inversion E; subst end.
    now inversion H.
  - bind_inv H. unfold date in *.
    match goal with E : (if ?c then _ else _) = Ok _ |- _ =>
      destruct c; [| discriminate]; inversion E; subst end.
    now inversion H.
Qed.

Lemma parse_localtime_kind src pos m p v :
  parse_localtime src pos m = Ok (p, v) -> is_time v = true.
Proof.
  unfold parse_localtime. intros H. bind_inv H. unfold time in *.
  match goal with E : (if ?c then _ else _) = Ok _ |- _ =>
    destruct c; [| discriminate]; inversion E; subst end.
  now inversion H.
Qed.

(** The patterns of dates and of times match at a digit only. *)
Lemma two_digits_head lo hi rest s :
  Re.two_digits lo hi rest = Some s -> exists c t, rest = c :: t /\ ascii_digit c = true.
Proof.
  unfold Re.two_digits. destruct rest as [|a [|b t]]; try discriminate.
  destruct (ascii_digit a) eqn:A; [| discriminate]. eauto.
Qed.

Lemma of_matcher_Some matcher src pos m :
  Re.of_matcher matcher src pos = Some m ->
  exists len groups, matcher (skipn pos src) = Some (len, groups).
Proof.
  unfold Re.of_matcher. destruct (matcher (skipn pos src)) as [[len groups]|]; [eauto | discriminate].
Qed.

Lemma tomli_re_local_time_digit src pos m :
  RE_LOCAL_TIME tomli_re src pos = Some m ->
  exists c, char_at src pos = Some c /\ ascii_digit c = true.
Proof.
  intros H. apply of_matcher_Some in H. destruct H as [len [groups H]].
  unfold Re.time_matcher in H.
  destruct (Re.two_digits 0 23 (skipn pos src)) eqn:E; [| discriminate].
  apply two_digits_head in E. destruct E as [c [t [E Hc]]].
  exists c. split; [| exact Hc]. now destruct (skipn_cons_char_at _ _ _ _ E).
Qed.

Lemma tomli_re_datetime_digit src pos m :
  RE_DATETIME tomli_re src pos = Some m ->
  exists c, char_at src pos = Some c /\ ascii_digit c = true.
Proof.
  intros H. apply of_matcher_Some in H. destruct H as [len [groups H]].
  unfold Re.datetime_matcher in H.
  destruct (skipn pos src) as [|c t] eqn:E; [discriminate |].
  exists c. split; [now destruct (skipn_cons_char_at _ _ _ _ E) |].
  destruct t as [|c2 [|c3 [|c4 t]]]; try discriminate.
  cbn [firstn length Nat.eqb forallb andb negb] in H.
  destruct (ascii_digit c); [reflexivity | discriminate].
Qed.

(** *** What the patterns of [tomli._re] put into their groups *)

(** A group of two digits is a number between the bounds of the pattern. *)
Lemma two_digits_int lo hi rest s :
  Re.two_digits lo hi rest = Some s ->
  exists v, int_ s 10 = Ok v /\ (Z.of_N lo <= v <= Z.of_N hi)%Z.
Proof.
  unfold Re.two_digits. destruct rest as [|a [|b t]]; try discriminate.
  destruct (ascii_digit a) eqn:A; [| discriminate].
  destruct (ascii_digit b) eqn:B; [| discriminate]. cbn [andb].
  destruct (in_range lo hi (10 * (a - 48) + (b - 48))) eqn:R; [| discriminate].
  intros H. inversion H; subst s; clear H.
  rewrite int_decimal; [| discriminate | cbn [forallb]; now rewrite A, B].
  eexists. split; [reflexivity |].
  unfold decimal_value. cbn [decimal_value_from].
  unfold ascii_digit, in_range in *.
  apply andb_prop in A, B, R. destruct A as [A1 A2], B as [B1 B2], R as [R1 R2].
  apply N.leb_le in A1, A2, B1, B2, R1, R2. lia.
Qed.

(** The run of digits that [digit_plus] counts. *)
Lemma digit_plus_firstn rest :
  length (firstn (Re.digit_plus rest) rest) = Re.digit_plus rest /\
  forallb ascii_digit (firstn (Re.digit_plus rest) rest) = true.
Proof.
  induction rest as [|c rest [IH1 IH2]]; [split; reflexivity |].
  cbn [Re.digit_plus]. destruct (ascii_digit c) eqn:C; [| split; reflexivity].
  cbn [firstn length forallb]. rewrite C, IH1, IH2. split; reflexivity.
Qed.

(** The fields of a time that the pattern has matched are a time of the
    day. *)
Lemma time_matcher_fields rest len groups :
  Re.time_matcher rest = Some (len, groups) ->
  exists hour minute second frac h mi s us,
    groups = [Some hour; Some minute; Some second; frac] /\
    int_ hour 10 = Ok h /\ int_ minute 10 = Ok mi /\ int_ second 10 = Ok s /\
    micros_of frac = Ok us /\ valid_time h mi s us = true.
Proof.
  unfold Re.time_matcher.
  destruct (Re.two_digits 0 23 rest) as [hour|] eqn:H1; [| discriminate].
  destruct (negb (Re.literal (ch ":") (skipn 2 rest))); [discriminate |].
  destruct (Re.two_digits 0 59 (skipn 3 rest)) as [minute|] eqn:H2; [| discriminate].
  destruct (negb (Re.literal (ch ":") (skipn 5 rest))); [discriminate |].
  destruct (Re.two_digits 0 59 (skipn 6 rest)) as [second|] eqn:H3; [| discriminate].
  apply two_digits_int in H1, H2, H3.
  destruct H1 as (h & Eh & Bh), H2 as (mi & Em & Bm), H3 as (s & Es & Bs).
  assert (V : forall us, (0 <= us <= 999999)%Z -> valid_time h mi s us = true).
  { intros us Bu. unfold valid_time.
    repeat (apply andb_true_intro; split); apply Z.leb_le; lia. }
  destruct (skipn 8 rest) as [|c after] eqn:A.
  { cbn [Re.literal andb]. intros H. inversion H; subst.
    exists hour, minute, second, None, h, mi, s, 0%Z.
    repeat split; try assumption; try reflexivity. apply V. lia. }
  cbn [skipn]. destruct (Re.literal (ch ".") (c :: after) && (0 <? Re.digit_plus after))%bool
    eqn:F; intros H; inversion H; subst; clear H.
  - apply andb_prop in F. destruct F as [_ F]. apply Nat.ltb_lt in F.
    destruct (digit_plus_firstn after) as [L D].
    cbn [Nat.add firstn].
    exists hour, minute, second, (Some (c :: firstn (Re.digit_plus after) after)),
      h, mi, s, (decimal_value (six_digits (firstn (Re.digit_plus after) after))).
    repeat split; try assumption; try reflexivity.
    + apply micros_of_digits; [| exact D].
      intros E. rewrite E in L. cbn in L. lia.
    + apply V. destruct (six_digits_digits _ D) as [L6 D6].
      pose proof (decimal_value_bound _ D6) as B. rewrite L6 in B.
      change (10 ^ Z.of_nat 6)%Z with 1000000%Z in B. lia.
  - exists hour, minute, second, None, h, mi, s, 0%Z.
    repeat split; try assumption; try reflexivity. apply V. lia.
Qed.

(** The offset that the pattern has matched is less than a day. *)
Lemma offset_matcher_fields rest olen ogroups :
  Re.offset_matcher rest = (olen, ogroups) ->
  ogroups = [None; None] \/
  exists hour minute h mi,
    ogroups = [Some hour; Some minute] /\
    int_ hour 10 = Ok h /\ int_ minute 10 = Ok mi /\
    (0 <= h <= 23)%Z /\ (0 <= mi <= 59)%Z.
Proof.
  unfold Re.offset_matcher.
  destruct (Re.literal (ch "Z") rest); [intros H; inversion H; auto |].
  destruct (Re.literal (ch "+") rest || Re.literal (ch "-") rest)%bool;
    [| intros H; inversion H; auto].
  destruct (Re.two_digits 0 23 (skipn 1 rest)) as [hour|] eqn:H1;
    [| intros H; inversion H; auto].
  destruct (Re.literal (ch ":") (skipn 3 rest)); [| intros H; inversion H; auto].
  destruct (Re.two_digits 0 59 (skipn 4 rest)) as [minute|] eqn:H2;
    [| intros H; inversion H; auto].
  apply two_digits_int in H1, H2.
  destruct H1 as (h & Eh & Bh), H2 as (mi & Em & Bm).
  intros H. inversion H; subst. right. exists hour, minute, h, mi.
  repeat split; try assumption; lia.
Qed.

Lemma timezone_in_range d h mi :
  (d = 1 \/ d = -1)%Z -> (0 <= h <= 23)%Z -> (0 <= mi <= 59)%Z ->
  exists tz, timezone (d * h) (d * mi) = Ok tz.
Proof.
  intros Hd Bh Bm. unfold timezone.
  replace ((-1440 <? d * h * 60 + d * mi)%Z && (d * h * 60 + d * mi <? 1440)%Z)%bool
    with true; [eauto |].
  symmetry. apply andb_true_intro. split; apply Z.ltb_lt; destruct Hd; subst; lia.
Qed.

(** A time of the day is returned as it is. *)
Lemma parse_localtime_tomli_re src pos m :
  RE_LOCAL_TIME tomli_re src pos = Some m ->
  exists v, parse_localtime src pos m = Ok (m_end m, v) /\ is_time v = true.
Proof.
  intros H. cbn [tomli_re RE_LOCAL_TIME] in H. unfold Re.of_matcher in H.
  destruct (Re.time_matcher (skipn pos src)) as [[len groups]|] eqn:T; [| discriminate].
  inversion H; subst m; clear H.
  apply time_matcher_fields in T.
  destruct T as (hour & minute & second & frac & h & mi & s & us & -> & Eh & Em & Es & Eu & V).
  unfold parse_localtime, int_group, group. cbn [m_groups m_end nth].
  rewrite Eh, Em, Es, Eu. cbn [bind]. unfold time. rewrite V. cbn [bind].
  eexists. split; reflexivity.
Qed.

(** The fields of a date that the pattern has matched are numbers, and with
    them there is a time of the day and an offset of less than a day, or
    nothing. *)
Lemma parse_datetime_tomli_re src pos m :
  RE_DATETIME tomli_re src pos = Some m ->
  exists year month day,
    int_group m 0 = Ok year /\ int_group m 1 = Ok month /\ int_group m 2 = Ok day /\
    if valid_date year month day
    then exists v, parse_datetime src pos m = Ok (m_end m, v) /\ is_date_or_datetime v = true
    else exists msg, parse_datetime src pos m = Raise (ValueError msg).
Proof.
  intros H. cbn [tomli_re RE_DATETIME] in H. unfold Re.of_matcher in H.
  destruct (Re.datetime_matcher (skipn pos src)) as [[len groups]|] eqn:D; [| discriminate].
  inversion H; subst m; clear H.
  unfold Re.datetime_matcher in D.
  set (rest := skipn pos src) in *.
  destruct (negb ((length (firstn 4 rest) =? 4) && forallb ascii_digit (firstn 4 rest))%bool)
    eqn:Y; [discriminate |].
  apply negb_false_iff, andb_prop in Y. destruct Y as [Y1 Y2]. apply Nat.eqb_eq in Y1.
  assert (Ey : int_ (firstn 4 rest) 10 = Ok (decimal_value (firstn 4 rest))).
  { apply int_decimal; [| exact Y2]. intros E. rewrite E in Y1. discriminate. }
  clear Y1 Y2. set (year := firstn 4 rest) in *. clearbody year.
  destruct (negb (Re.literal (ch "-") (skipn 4 rest))); [discriminate |].
  destruct (Re.two_digits 1 12 (skipn 5 rest)) as [month|] eqn:M; [| discriminate].
  destruct (negb (Re.literal (ch "-") (skipn 7 rest))); [discriminate |].
  destruct (Re.two_digits 1 31 (skipn 8 rest)) as [day|] eqn:Dd; [| discriminate].
  apply two_digits_int in M, Dd.
  destruct M as (mo & Emo & Bmo), Dd as (d & Ed & Bd).
  exists (decimal_value year), mo, d.
  assert (Date_only :
    forall len',
      let m := mkMatch (firstn len' rest) (pos + len')
                 [Some year; Some month; Some day;
                  None; None; None; None; None; None] in
      int_group m 0 = Ok (decimal_value year) /\
      int_group m 1 = Ok mo /\ int_group m 2 = Ok d /\
      if valid_date (decimal_value year) mo d
      then exists v, parse_datetime src pos m = Ok (m_end m, v) /\
                     is_date_or_datetime v = true
      else exists msg, parse_datetime src pos m = Raise (ValueError msg)).
  { intros len' m. unfold parse_datetime, int_group, group. cbn [m m_groups m_end nth].
    rewrite Ey, Emo, Ed. cbn [bind]. repeat split. unfold date.
    destruct (valid_date (decimal_value year) mo d); cbn [bind]; eauto. }
  destruct (Re.literal (ch "T") (skipn 10 rest) || Re.literal 32%N (skipn 10 rest))%bool.
  2: { inversion D; subst. apply Date_only. }
  destruct (Re.time_matcher (skipn 1 (skipn 10 rest))) as [[tlen tgroups]|] eqn:T.
  2: { inversion D; subst. apply Date_only. }
  destruct (Re.offset_matcher (skipn (1 + tlen) (skipn 10 rest))) as [olen ogroups] eqn:O.
  inversion D; subst len groups; clear D.
  apply time_matcher_fields in T.
  destruct T as (hour & minute & second & frac & h & mi & s & us & -> & Eh & Em & Es & Eu & V).
  apply offset_matcher_fields in O.
  unfold parse_datetime, int_group, group.
  cbn [m_groups m_end m_group nth app].
  rewrite Ey, Emo, Ed, Eh, Em, Es, Eu. cbn [bind]. repeat split.
  unfold datetime.
  destruct O as [-> | (ohour & ominute & oh & omi & -> & Eoh & Eom & Boh & Bom)];
    cbn [nth].
  - match goal with |- context [in_chars ?text (ch "Z")] =>
      assert (Z : exists tz, (if in_chars text (ch "Z")
                              then Ok (Some 0%Z) else Ok None) = Ok tz)
        by (destruct (in_chars text (ch "Z")); eauto)
    end.
    destruct Z as [tz Etz]. rewrite Etz. cbn [bind].
    destruct (valid_date (decimal_value year) mo d); rewrite ?V; cbn [andb bind].
    + eexists. split; reflexivity.
    + eexists. reflexivity.
  - rewrite Eoh, Eom. cbn [bind].
    match goal with |- context [in_chars ?text (ch "+")] =>
      set (dir := if in_chars text (ch "+") then 1%Z else (-1)%Z)
    end.
    destruct (timezone_in_range dir oh omi) as [tz Etz]; [| assumption | assumption |].
    { unfold dir. match goal with |- context [in_chars ?text ?c] =>
        destruct (in_chars text c) end; auto. }
    rewrite Etz. cbn [bind].
    destruct (valid_date (decimal_value year) mo d); rewrite ?V; cbn [andb bind].
    + eexists. split; reflexivity.
    + eexists. reflexivity.
Qed.

(** At a match of the date pattern the value parser returns a date or a
    date-time if the year, the month and the day are a date of the
    calendar, and else the [ValueError] of the constructor comes out. *)
Lemma parse_value_datetime_tomli_re fuel src pos m :
  RE_DATETIME tomli_re src pos = Some m ->
  exists year month day,
    int_group m 0 = Ok year /\ int_group m 1 = Ok month /\ int_group m 2 = Ok day /\
    if valid_date year month day
    then exists v, parse_value tomli_re (S fuel) src pos = Ok (m_end m, v) /\
                   is_date_or_datetime v = true
    else exists msg, parse_value tomli_re (S fuel) src pos = Raise (ValueError msg).
Proof.
  intros D. destruct (tomli_re_datetime_digit src pos m D) as [c [Hc Hd]].
  rewrite (parse_value_at_digit tomli_re fuel src pos c Hc Hd), D.
  now apply parse_datetime_tomli_re.
Qed.

(** At a match of the time pattern, where the date pattern does not match,
    the value parser returns a time. *)
Lemma parse_value_localtime_tomli_re fuel src pos m :
  RE_DATETIME tomli_re src pos = None ->
  RE_LOCAL_TIME tomli_re src pos = Some m ->
  exists v, parse_value tomli_re (S fuel) src pos = Ok (m_end m, v) /\ is_time v = true.
Proof.
  intros D T. destruct (tomli_re_local_time_digit src pos m T) as [c [Hc Hd]].
  rewrite (parse_value_at_digit tomli_re fuel src pos c Hc Hd), D, T.
  now apply parse_localtime_tomli_re.
Qed.

(** C5 as it stands fails where the date pattern matches a text that is no
    calendar date: the pattern matches [2021-02-30] and the value parser
    does not return a date there. *)
Lemma date_pattern_matches_no_date :
  (exists m, RE_DATETIME tomli_re (py "2021-02-30") 0 = Some m) /\
  (exists m, RE_DEC_OR_FLOAT tomli_re (py "2021-02-30") 0 = Some m) /\
  parse_value tomli_re 12 (py "2021-02-30") 0 = Raise (ValueError "date field out of range").
Proof.
  split; [eexists; vm_compute; reflexivity |].
  split; [eexists; vm_compute; reflexivity |].
  vm_compute. reflexivity.
Qed.

(** C5, as amended.  Where the date pattern matches, the value parser gives
    what [parse_datetime] gives for the match, and where it does not but the
    time pattern matches, what [parse_localtime] gives; this is never an
    integer or a float, although the pattern of decimal numbers matches a
    prefix of the same text.  At a match of the date pattern the value is a
    date or a date-time if the year, the month and the day that were matched
    are a date of the calendar, and else the constructor of the date raises;
    at a match of the time pattern the value is a time.  [x = 1979-05-27]
    is a local date and [x = 1979] is the integer 1979. *)
Theorem dates_and_times_before_numbers :
  (forall fuel src pos m,
      RE_DATETIME tomli_re src pos = Some m ->
      parse_value tomli_re (S fuel) src pos = parse_datetime src pos m) /\
  (forall fuel src pos m,
      RE_DATETIME tomli_re src pos = None ->
      RE_LOCAL_TIME tomli_re src pos = Some m ->
      parse_value tomli_re (S fuel) src pos = parse_localtime src pos m) /\
  (forall re fuel src pos c,
      char_at src pos = Some c -> ascii_digit c = true ->
      (forall m, RE_DATETIME re src pos = Some m ->
                 parse_value re (S fuel) src pos = parse_datetime src pos m) /\
      (forall m, RE_DATETIME re src pos = None -> RE_LOCAL_TIME re src pos = Some m ->
                 parse_value re (S fuel) src pos = parse_localtime src pos m)) /\
  (forall src pos m p v,
      parse_datetime src pos m = Ok (p, v) -> is_date_or_datetime v = true) /\
  (forall src pos m p v,
      parse_localtime src pos m = Ok (p, v) -> is_time v = true) /\
  (forall fuel src pos m,
      RE_DATETIME tomli_re src pos = Some m ->
      exists year month day,
        int_group m 0 = Ok year /\ int_group m 1 = Ok month /\ int_group m 2 = Ok day /\
        if valid_date year month day
        then exists v, parse_value tomli_re (S fuel) src pos = Ok (m_end m, v) /\
                       is_date_or_datetime v = true
        else exists msg, parse_value tomli_re (S fuel) src pos = Raise (ValueError msg)) /\
  (forall fuel src pos m,
      RE_DATETIME tomli_re src pos = None ->
      RE_LOCAL_TIME tomli_re src pos = Some m ->
      exists v, parse_value tomli_re (S fuel) src pos = Ok (m_end m, v) /\
                is_time v = true) /\
  toml_loads (py "x = 1979-05-27") = Ok [(py "x", VDate 1979 5 27)] /\
  toml_loads (py "x = 1979") = Ok [(py "x", VInt 1979)] /\
  (exists m, RE_DEC_OR_FLOAT tomli_re (py "x = 1979-05-27") 4 = Some m /\
             m_group m = py "1979").
Proof.
  assert (Hgen : forall re fuel src pos c,
             char_at src pos = Some c -> ascii_digit c = true ->
             (forall m, RE_DATETIME re src pos = Some m ->
                        parse_value re (S fuel) src pos = parse_datetime src pos m) /\
             (forall m, RE_DATETIME re src pos = None -> RE_LOCAL_TIME re src pos = Some m ->
                        parse_value re (S fuel) src pos = parse_localtime src pos m)).
  { intros re fuel src pos c Hc Hd. split.
    - intros m D. rewrite (parse_value_at_digit re fuel src pos c Hc Hd). now rewrite D.
    - intros m D T. rewrite (parse_value_at_digit re fuel src pos c Hc Hd). now rewrite D, T. }
  split; [| split; [| split; [exact Hgen |]]].
  - intros fuel src pos m D.
    destruct (tomli_re_datetime_digit src pos m D) as [c [Hc Hd]].
    now apply (Hgen tomli_re fuel src pos c Hc Hd).
  - intros fuel src pos m D T.
    destruct (tomli_re_local_time_digit src pos m T) as [c [Hc Hd]].
    now apply (Hgen tomli_re fuel src pos c Hc Hd).
  - split; [exact parse_datetime_kind |].
    split; [exact parse_localtime_kind |].
    split; [exact parse_value_datetime_tomli_re |].
    split; [exact parse_value_localtime_tomli_re |].
    split; [vm_compute; reflexivity |].
    split; [vm_compute; reflexivity |].
    eexists. split; vm_compute; reflexivity.
Qed.

(** ** One kind of error *)

(** C4 fails on a document with a date that is not in the calendar: the
    [ValueError] of [date] comes out of [loads] as it is, without a
    location, and it is not the document error; so it is at every match of
    the date pattern whose year, month and day are no date of the calendar.
    The rest of the claim
    holds.  The errors that [suffixed_err] builds are document errors whose
    message ends with a location; the location is the end of the document
    for a position at or after the end, and else a line, one more than the
    number of line feeds before the position, and a column that counts from
    1 in that line.  Whatever the patterns, if they match no empty text,
    [loads] returns or raises for every text, and what it raises is no
    [KeyError]. *)
Theorem invalid_date_raises_ValueError :
  toml_loads (py "x = 2021-02-30") = Raise (ValueError "date field out of range") /\
  ~ is_decode_error (toml_loads (py "x = 2021-02-30")) /\
  (forall fuel src pos m year month day,
      RE_DATETIME tomli_re src pos = Some m ->
      int_group m 0 = Ok year -> int_group m 1 = Ok month -> int_group m 2 = Ok day ->
      valid_date year month day = false ->
      exists msg, parse_value tomli_re (S fuel) src pos = Raise (ValueError msg)) /\
  (forall src pos msg,
      exists where_,
        coord_repr src pos = Some where_ /\
        suffixed_err src pos msg
        = TOMLDecodeError (msg ++ [Lit " (at "; Lit where_; Lit ")"])) /\
  (forall src pos,
      length src <= pos -> coord_repr src pos = Some "end of document") /\
  (forall line rest,
      one_line line = true -> rest <> [] ->
      coord_repr (line ++ rest) (length line)
      = Some (String.append "line 1, column " (decimal (length line + 1)))) /\
  (forall before line rest,
      one_line line = true -> rest <> [] ->
      coord_repr (before ++ LF :: line ++ rest) (length before + 1 + length line)
      = Some (String.append "line "
                (String.append (decimal (count_newlines before (length before) + 1 + 1))
                   (String.append ", column " (decimal (length line + 1)))))) /\
  (forall re s, patterns_advance re -> settled (loads re s)).
Proof.
  assert (H : toml_loads (py "x = 2021-02-30") = Raise (ValueError "date field out of range"))
    by (vm_compute; reflexivity).
  split; [exact H |]. split; [rewrite H; intros [msg E]; discriminate |].
  split.
  { intros fuel src pos m year month day D Ey Em Ed Hv.
    destruct (parse_value_datetime_tomli_re fuel src pos m D)
      as (year' & month' & day' & Ey' & Em' & Ed' & R).
    rewrite Ey in Ey'. rewrite Em in Em'. rewrite Ed in Ed'.
    inversion Ey'; inversion Em'; inversion Ed'; subst.
    now rewrite Hv in R. }
  split; [exact suffixed_err_decode |].
  split; [exact coord_repr_end |].
  split; [exact coord_repr_first_line |].
  split; [exact coord_repr_later_line |].
  intros re s Hre. now apply loads_total.
Qed.

Lemma invalid_date_raises_ValueError_witness :
  settled (toml_loads (py "x = 2021-02-30")).
Proof.
  apply (proj2 (proj2 (proj2 (proj2 (proj2 (proj2 (proj2 invalid_date_raises_ValueError))))))
           tomli_re (py "x = 2021-02-30")).
  exact tomli_re_advances.
Defined.

(** ** Examples of frozen containers *)

Lemma frozen_container_is_immutable_witness :
  is_decode_error (toml_loads (doc ["a = {x = 1}"; "[t]"; "[a.b]"])).
Proof.
  apply (frozen_container_is_immutable tomli_re (doc ["a = {x = 1}"; "[t]"; "[a.b]"])
           (24, 0, State_init) 11 [py "a"] (VDict [(py "x", VInt 1)])
           (23, 12, state_after_inline_table)
           21 16 state_after_inline_table_and_header 20 (STable [py "a"; py "b"])).
  - apply lines_none.
  - apply (line_statement tomli_re _ 23 0 State_init 11
             (SKeyValue [py "a"] (VDict [(py "x", VInt 1)])) state_after_inline_table 11 11);
      vm_compute; reflexivity.
  - reflexivity.
  - apply (lines_more _ tomli_re _ _ (23, 12, state_after_inline_table)
             (22, 16, state_after_inline_table_and_header) (Some (14, STable [py "t"]))).
    + apply lines_none.
    + apply (line_statement tomli_re _ 22 12 state_after_inline_table 14
               (STable [py "t"]) state_after_inline_table_and_header 15 15);
        vm_compute; reflexivity.
    + intros p s E. injection E as _ <-. intros [].
  - vm_compute. reflexivity.
  - exists [py "b"]. reflexivity.
Defined.

(** C1 as it stands fails after an array-of-tables header: the second
    [[[t]]] drops the flags below [t], and [a.y = 2] is accepted although
    [a] was given an inline table before. *)
Lemma frozen_container_reset_by_array_header :
  toml_loads (doc ["[[t]]"; "a = {x = 1}"; "[[t]]"; "a.y = 2"])
  = Ok [(py "t", VList [VDict [(py "a", VDict [(py "x", VInt 1)])];
                        VDict [(py "a", VDict [(py "y", VInt 2)])]])].
Proof. vm_compute. reflexivity. Qed.

Example frozen_inline_table_rejects_statements :
  is_decode_error (toml_loads (doc ["a = {x = 1}"; "a.x = 2"])) /\
  is_decode_error (toml_loads (doc ["a = {x = 1}"; "a.y = 2"])) /\
  is_decode_error (toml_loads (doc ["a = {x = 1}"; "a = 2"])) /\
  is_decode_error (toml_loads (doc ["a = {x = 1}"; "[a]"])) /\
  is_decode_error (toml_loads (doc ["a = {x = 1}"; "[a.b]"])) /\
  is_decode_error (toml_loads (doc ["a = [1]"; "[[a]]"])) /\
  is_decode_error (toml_loads (doc ["a = [1]"; "[[a.b]]"])).
Proof. repeat split; eexists; vm_compute; reflexivity. Qed.




(** ** Instances *)

Lemma duplicate_key_is_error_witness :
  is_decode_error (toml_loads (doc ["a = 1"; "a = 2"])).
Proof.
  apply (proj1 (proj2 (proj2 duplicate_key_is_error)) tomli_re (doc ["a = 1"; "a = 2"])
           12 6 (mkState [(py "a", VInt 1)] [(py "a", mkNode [EXPLICIT_NEST] [] [])] [])
           11 [py "a"] (VInt 2)).
  - apply (lines_more _ tomli_re _ _ (14, 0, State_init)
             (13, 6, mkState [(py "a", VInt 1)] [(py "a", mkNode [EXPLICIT_NEST] [] [])] [])
             (Some (5, SKeyValue [py "a"] (VInt 1)))).
    + apply lines_none.
    + apply (line_statement tomli_re _ 13 0 State_init 5 (SKeyValue [py "a"] (VInt 1))
               (mkState [(py "a", VInt 1)] [(py "a", mkNode [EXPLICIT_NEST] [] [])] [])
               5 5);
        vm_compute; reflexivity.
    + intros p s _. exact I.
  - vm_compute. reflexivity.
  - reflexivity.
Defined.


Lemma dates_and_times_before_numbers_witness :
  parse_value tomli_re 1 (py "1979-05-27") 0
  = parse_datetime (py "1979-05-27") 0
      (mkMatch (py "1979-05-27") 10
         [Some (py "1979"); Some (py "05"); Some (py "27");
          None; None; None; None; None; None]).
Proof.
  apply (proj1 dates_and_times_before_numbers). reflexivity.
Defined.

Lemma statements_go_to_last_array_item_witness :
  get_or_create_nest true [py "a"]
    (fun nest => Ok (dict_set nest (py "x") (VInt 2)))
    [(py "a", VList [VDict [(py "x", VInt 1)]; VDict []])]
  = (d' <- get_or_create_nest true []
             (fun nest => Ok (dict_set nest (py "x") (VInt 2))) [] ;;
     Ok (dict_set [(py "a", VList [VDict [(py "x", VInt 1)]; VDict []])] (py "a")
           (VList ([VDict [(py "x", VInt 1)]] ++ [VDict d'])))).
Proof.
  apply (proj1 statements_go_to_last_array_item). reflexivity.
Defined.

Lemma hex_escape_is_checked_witness :
  is_decode_error (parse_hex_char (py "uD8") 1 4).
Proof.
  apply (proj1 (proj2 (proj2 hex_escape_is_checked))). left. cbn. lia.
Defined.

Lemma fractional_seconds_six_digits_witness :
  micros_of (Some (py ".123456789")) = Ok 123456%Z /\
  micros_of (Some (py ".12")) = Ok 120000%Z.
Proof.
  split.
  - refine (proj1 (proj1 fractional_seconds_six_digits (ch ".") (py "123456789") _ _)).
    + discriminate.
    + intros c Hc. cbn in Hc. repeat (destruct Hc as [<- | Hc]; [reflexivity |]). contradiction.
  - refine (proj1 (proj1 fractional_seconds_six_digits (ch ".") (py "12") _ _)).
    + discriminate.
    + intros c Hc. cbn in Hc. repeat (destruct Hc as [<- | Hc]; [reflexivity |]). contradiction.
Defined.

(** ** Skipping characters, comments and blank lines *)

Lemma char_at_skipn (src : str) pos i : nth_error (skipn pos src) i = char_at src (pos + i).
Proof.
  unfold char_at. revert src. induction pos as [|pos IH]; intros src; [reflexivity |].
  destruct src as [|x src]; cbn [skipn Nat.add nth_error].
  - now destruct i.
  - apply IH.
Qed.

(** The characters that [span] counts are in the set. *)
Lemma span_inside chars rest i :
  i < span chars rest -> exists c, nth_error rest i = Some c /\ chars c = true.
Proof.
  revert i. induction rest as [|x rest IH]; intros i H; cbn [span] in H; [lia |].
  destruct (chars x) eqn:X; [| lia].
  destruct i as [|i]; [exists x; auto |].
  cbn [nth_error]. apply IH. lia.
Qed.

(** X1.  [skip_chars] goes over the characters of the set that stand at
    [pos] and after it and over nothing else: it does not go back, every
    position that it has gone over holds a character of the set, and where
    it stops the text ends or holds a character that is not in the set. *)
Theorem skip_chars_skips_the_set src pos chars :
  let p := skip_chars src pos chars in
  pos <= p /\
  (forall i, pos <= i < p -> exists c, char_at src i = Some c /\ chars c = true) /\
  match char_at src p with
  | Some c => chars c = false
  | None => True
  end.
Proof.
  cbv zeta. rewrite skip_chars_span.
  split; [lia |]. split.
  - intros i Hi.
    destruct (span_inside chars (skipn pos src) (i - pos)) as [c [Hc Hin]]; [lia |].
    exists c. split; [| exact Hin].
    rewrite char_at_skipn in Hc. now replace (pos + (i - pos)) with i in Hc by lia.
  - pose proof (span_head chars (skipn pos src)) as H.
    rewrite <- (Nat.add_0_r (pos + span chars (skipn pos src))), <- char_at_skipn.
    rewrite Nat.add_comm, <- skipn_skipn.
    destruct (skipn (span chars (skipn pos src)) (skipn pos src)); [exact I | exact H].
Qed.

(** What [skip_until] finds: the position of the character that it looks
    for or, if the end of the text is no error, the end; or the position
    whose character is an error, or the end. *)
Lemma skip_until_from_spec rest : forall src pos expect_char error_on error_on_eof,
  skipn pos src = rest ->
  match skip_until_from rest src pos expect_char error_on error_on_eof with
  | Ok p =>
      pos <= p /\
      (forall i, pos <= i < p ->
         exists c, char_at src i = Some c /\ c <> expect_char /\ error_on c = false) /\
      (char_at src p = Some expect_char \/ (char_at src p = None /\ error_on_eof = false))
  | Raise e =>
      exists p msg,
        e = suffixed_err src p msg /\ pos <= p /\
        (forall i, pos <= i < p ->
           exists c, char_at src i = Some c /\ c <> expect_char /\ error_on c = false) /\
        ((char_at src p = None /\ error_on_eof = true) \/
         (exists c, char_at src p = Some c /\ c <> expect_char /\ error_on c = true))
  | OutOfFuel => False
  end.
Proof.
  induction rest as [|x rest IH]; intros src pos expect_char error_on error_on_eof Hs;
    cbn [skip_until_from].
  - apply skipn_nil_char_at in Hs. destruct error_on_eof.
    + exists pos. eexists. split; [reflexivity |]. split; [lia |].
      split; [intros i Hi; lia | left; auto].
    + split; [lia |]. split; [intros i Hi; lia | right; auto].
  - destruct (skipn_cons_char_at _ _ _ _ Hs) as [Hat Hs'].
    destruct (N.eqb_spec x expect_char) as [->|Hne].
    { split; [lia |]. split; [intros i Hi; lia | left; exact Hat]. }
    destruct (error_on x) eqn:Hx.
    { exists pos. eexists. split; [reflexivity |]. split; [lia |].
      split; [intros i Hi; lia | right; exists x; auto]. }
    assert (Hstep : forall p i, pos <= i < p ->
              (forall j, S pos <= j < p ->
                 exists c, char_at src j = Some c /\ c <> expect_char /\ error_on c = false) ->
              exists c, char_at src i = Some c /\ c <> expect_char /\ error_on c = false).
    { intros p i Hi Hrest. destruct (Nat.eq_dec i pos) as [->|Hd].
      - exists x. auto.
      - apply Hrest. lia. }
    specialize (IH src (S pos) expect_char error_on error_on_eof Hs').
    destruct (skip_until_from rest src (S pos) expect_char error_on error_on_eof) as [p|e|].
    + destruct IH as (Hp & Hall & Hend). split; [lia |]. split; [| exact Hend].
      intros i Hi. now apply (Hstep p).
    + destruct IH as (p & msg & He & Hp & Hall & Hend).
      exists p, msg. split; [exact He |]. split; [lia |]. split; [| exact Hend].
      intros i Hi. now apply (Hstep p).
    + exact IH.
Qed.

(** X2.  [skip_until] returns the first position at or after [pos] that
    holds the character it looks for, or the end of the text if the end is
    no error; the characters before it are not errors.  It raises the
    document error, with the location of the first character that is an
    error, or of the end of the text if the end is one. *)
Theorem skip_until_finds_the_first src pos expect_char error_on error_on_eof :
  match skip_until src pos expect_char error_on error_on_eof with
  | Ok p =>
      pos <= p /\
      (forall i, pos <= i < p ->
         exists c, char_at src i = Some c /\ c <> expect_char /\ error_on c = false) /\
      (char_at src p = Some expect_char \/ (char_at src p = None /\ error_on_eof = false))
  | Raise e =>
      is_decode_error (@Raise Pos e) /\
      exists p msg,
        e = suffixed_err src p msg /\ pos <= p /\
        (forall i, pos <= i < p ->
           exists c, char_at src i = Some c /\ c <> expect_char /\ error_on c = false) /\
        ((char_at src p = None /\ error_on_eof = true) \/
         (exists c, char_at src p = Some c /\ c <> expect_char /\ error_on c = true))
  | OutOfFuel => False
  end.
Proof.
  unfold skip_until.
  pose proof (skip_until_from_spec (skipn pos src) src pos expect_char error_on
                error_on_eof eq_refl) as H.
  destruct (skip_until_from (skipn pos src) src pos expect_char error_on error_on_eof)
    as [p|e|]; [exact H | | exact H].
  split; [| exact H].
  destruct H as (p & msg & -> & _). apply raise_suffixed_err.
Qed.

(** [skip_comment] returns or raises the document error. *)
Lemma skip_comment_outcome src pos :
  match skip_comment src pos with
  | Ok _ => True
  | Raise e => is_decode_error (@Raise Pos e)
  | OutOfFuel => False
  end.
Proof.
  unfold skip_comment, expect_comment, skip_until.
  destruct (char_is (char_at src pos) (ch "#")); [| exact I].
  pose proof (skip_until_from_spec (skipn (pos + 1) src) src (pos + 1) LF
                ILLEGAL_COMMENT_CHARS false eq_refl) as H.
  destruct (skip_until_from (skipn (pos + 1) src) src (pos + 1) LF ILLEGAL_COMMENT_CHARS false)
    as [p|e|]; [exact I | | exact H].
  destruct H as (p & msg & -> & _). apply raise_suffixed_err.
Qed.

(** X3.  A comment runs to the end of its line.  Where there is no [#],
    [skip_comment] stays; at a [#] it returns the position of the next line
    feed, or the end of the text, and the comment holds no control character
    but the tab; it raises the document error at the first such
    character. *)
Theorem skip_comment_runs_to_the_line_end src pos :
  match skip_comment src pos with
  | Ok p =>
      if char_is (char_at src pos) (ch "#")
      then pos < p /\
           (forall i, pos < i < p ->
              exists c, char_at src i = Some c /\ c <> LF /\ ILLEGAL_COMMENT_CHARS c = false) /\
           (char_at src p = Some LF \/ char_at src p = None)
      else p = pos
  | Raise e =>
      char_is (char_at src pos) (ch "#") = true /\
      is_decode_error (@Raise Pos e) /\
      exists p c,
        pos < p /\ char_at src p = Some c /\ ILLEGAL_COMMENT_CHARS c = true /\
        (forall i, pos < i < p ->
           exists c', char_at src i = Some c' /\ c' <> LF /\ ILLEGAL_COMMENT_CHARS c' = false)
  | OutOfFuel => False
  end.
Proof.
  unfold skip_comment, expect_comment, skip_until.
  destruct (char_is (char_at src pos) (ch "#")); [| reflexivity].
  pose proof (skip_until_from_spec (skipn (pos + 1) src) src (pos + 1) LF
                ILLEGAL_COMMENT_CHARS false eq_refl) as H.
  destruct (skip_until_from (skipn (pos + 1) src) src (pos + 1) LF ILLEGAL_COMMENT_CHARS false)
    as [p|e|]; [| | exact H].
  - destruct H as (Hp & Hall & Hend). split; [lia |]. split.
    + intros i Hi. apply Hall. lia.
    + destruct Hend as [Hend | [Hend _]]; auto.
  - destruct H as (p & msg & -> & Hp & Hall & Hend).
    split; [reflexivity |]. split; [apply raise_suffixed_err |].
    destruct Hend as [[_ Hend] | (c & Hc & _ & Hbad)]; [discriminate |].
    exists p, c. split; [lia |]. split; [exact Hc |]. split; [exact Hbad |].
    intros i Hi. apply Hall. lia.
Qed.

(** One turn of the loop of [skip_comments_and_array_ws] that does not
    move has nothing to skip. *)
Lemma nothing_to_skip src pos :
  skip_comment src (skip_chars src pos TOML_WS_AND_NEWLINE) = Ok pos ->
  match char_at src pos with
  | Some c => TOML_WS_AND_NEWLINE c = false /\ N.eqb c (ch "#") = false
  | None => True
  end.
Proof.
  intros H.
  pose proof (skip_chars_ge src pos TOML_WS_AND_NEWLINE) as G.
  pose proof (skip_comment_ge _ _ _ H) as G'.
  assert (E : skip_chars src pos TOML_WS_AND_NEWLINE = pos) by lia.
  rewrite E in H.
  pose proof (span_head TOML_WS_AND_NEWLINE (skipn pos src)) as Hh.
  rewrite skip_chars_span in E.
  replace (span TOML_WS_AND_NEWLINE (skipn pos src)) with 0 in Hh by lia.
  cbn [skipn] in Hh.
  destruct (skipn pos src) as [|c t] eqn:S.
  - now rewrite (skipn_nil_char_at _ _ S).
  - destruct (skipn_cons_char_at _ _ _ _ S) as [Hat _]. rewrite Hat.
    split; [exact Hh |].
    unfold skip_comment, expect_comment, skip_until in H. rewrite Hat in H.
    cbn [char_is] in H. destruct (N.eqb c (ch "#")); [| reflexivity].
    apply skip_until_from_ge in H. lia.
Qed.

(** X4.  With a unit of fuel for each character that is left and one more,
    [skip_comments_and_array_ws] ends: it returns a position at which there
    is nothing left to skip, neither a blank, nor a line feed, nor a
    comment, or it raises the document error of a comment. *)
Theorem skip_comments_and_array_ws_skips_all fuel : forall src pos,
  length src - pos < fuel ->
  match skip_comments_and_array_ws fuel src pos with
  | Ok p =>
      pos <= p /\
      match char_at src p with
      | Some c => TOML_WS_AND_NEWLINE c = false /\ N.eqb c (ch "#") = false
      | None => True
      end
  | Raise e => is_decode_error (@Raise Pos e)
  | OutOfFuel => False
  end.
Proof.
  induction fuel as [|fuel IH]; intros src pos Hf; [lia |].
  cbn [skip_comments_and_array_ws].
  pose proof (skip_chars_ge src pos TOML_WS_AND_NEWLINE) as H1.
  pose proof (skip_comment_outcome src (skip_chars src pos TOML_WS_AND_NEWLINE)) as R.
  destruct (skip_comment src (skip_chars src pos TOML_WS_AND_NEWLINE)) as [p1|e|] eqn:E;
    cbn [bind]; [| exact R | exact R].
  pose proof (skip_comment_ge _ _ _ E) as H2.
  destruct (Nat.eqb_spec p1 pos) as [->|Hne].
  - split; [lia |]. now apply nothing_to_skip.
  - assert (Hlt : pos < length src).
    { destruct (Nat.lt_ge_cases pos (length src)) as [Hlt | Hge]; [exact Hlt |].
      exfalso. apply Hne.
      rewrite (skip_chars_past_end src pos _ Hge) in E.
      unfold skip_comment in E. rewrite (char_at_past_end src pos Hge) in E.
      cbn in E. now inversion E. }
    specialize (IH src p1).
    destruct (skip_comments_and_array_ws fuel src p1) as [p|e|].
    + destruct IH as [Hp Hc]; [lia |]. split; [lia | exact Hc].
    + apply IH. lia.
    + apply IH. lia.
Qed.

Lemma skip_comments_and_array_ws_skips_all_witness :
  length (doc [" # c"; "  x"]) - 0 < 10 /\
  match skip_comments_and_array_ws 10 (doc [" # c"; "  x"]) 0 with
  | Ok p =>
      0 <= p /\
      match char_at (doc [" # c"; "  x"]) p with
      | Some c => TOML_WS_AND_NEWLINE c = false /\ N.eqb c (ch "#") = false
      | None => True
      end
  | Raise e => is_decode_error (@Raise Pos e)
  | OutOfFuel => False
  end.
Proof.
  split; [cbn; lia |].
  apply (skip_comments_and_array_ws_skips_all 10 (doc [" # c"; "  x"]) 0). cbn. lia.
Defined.

(** ** Line ends *)

Lemma replace_crlf_cons (c : char) (s : str) :
  N.eqb c CR = false -> replace_crlf (c :: s) = c :: replace_crlf s.
Proof.
  intros H. cbn [replace_crlf]. destruct s as [|c' s]; [reflexivity |].
  now rewrite H.
Qed.

Lemma replace_crlf_no_CR (s : str) : no_CR s = true -> replace_crlf s = s.
Proof.
  induction s as [|c s IH]; [reflexivity |].
  cbn [no_CR forallb]. intros H. apply andb_prop in H. destruct H as [Hc Hs].
  apply negb_true_iff in Hc. rewrite (replace_crlf_cons c s Hc). f_equal. now apply IH.
Qed.

Lemma replace_crlf_with_crlf (s : str) : no_CR s = true -> replace_crlf (with_crlf s) = s.
Proof.
  induction s as [|c s IH]; [reflexivity |].
  cbn [no_CR forallb]. intros H. apply andb_prop in H. destruct H as [Hc Hs].
  apply negb_true_iff in Hc. cbn [with_crlf].
  destruct (N.eqb_spec c LF) as [->|Hne].
  - change (replace_crlf (CR :: LF :: with_crlf s)) with (replace_crlf (LF :: with_crlf s)).
    rewrite replace_crlf_cons by reflexivity. f_equal. now apply IH.
  - rewrite (replace_crlf_cons c _ Hc). f_equal. now apply IH.
Qed.

(** X5.  [loads] reads a document whose lines end with a carriage return
    and a line feed as it reads the document whose lines end with a line
    feed: the outcome is the same, the value or the exception with its
    message and location. *)
Theorem loads_reads_crlf_as_lf re s :
  no_CR s = true -> loads re (with_crlf s) = loads re s.
Proof.
  intros H. unfold loads.
  rewrite (replace_crlf_with_crlf s H), (replace_crlf_no_CR s H). reflexivity.
Qed.

Lemma loads_reads_crlf_as_lf_witness :
  loads tomli_re (with_crlf (doc ["a = 1"; "b = 2"])) = loads tomli_re (doc ["a = 1"; "b = 2"]).
Proof. apply loads_reads_crlf_as_lf. reflexivity. Defined.

(** ** The flag store *)

Lemma prefixb_spec a : forall b, prefixb a b = true <-> is_prefix a b.
Proof.
  induction a as [|x a IH]; intros b.
  - split; [intros _; exists b; reflexivity | reflexivity].
  - destruct b as [|y b]; cbn [prefixb].
    + split; [discriminate | intros [rest E]; discriminate].
    + rewrite andb_true_iff, str_eqb_eq, IH. split.
      * intros [-> [rest ->]]. now exists rest.
      * intros [rest E]. inversion E; subst. split; [reflexivity | now exists rest].
Qed.

Lemma key_eqb_spec a b : key_eqb a b = true <-> a = b.
Proof.
  unfold key_eqb. rewrite andb_true_iff, !prefixb_spec. split.
  - intros [[r1 E1] [r2 E2]]. rewrite E2 in E1.
    rewrite <- app_assoc in E1. rewrite <- (app_nil_r b) in E1 at 1.
    apply app_inv_head in E1. symmetry in E1. apply app_eq_nil in E1.
    destruct E1 as [-> _]. now rewrite app_nil_r in E2.
  - intros ->. split; exists []; now rewrite app_nil_r.
Qed.

Lemma is_nil a flag : is_ a flag [] = false.
Proof. destruct a as [|x [|y a]]; reflexivity. Qed.

Lemma flag_in_cons_eq flag flag0 s :
  flag_in flag (flag0 :: s) = (Nat.eqb flag flag0 || flag_in flag s)%bool.
Proof. reflexivity. Qed.

Lemma is_single k flag cont :
  is_ [k] flag cont
  = match dict_get cont k with
    | Some (mkNode f r _) => (flag_in flag f || flag_in flag r)%bool
    | None => false
    end.
Proof. reflexivity. Qed.

Lemma set_flag_single k flag recursive cont :
  set_flag [k] flag recursive cont
  = let '(mkNode f r nested) :=
      match dict_get cont k with Some n => n | None => empty_node end in
    dict_set cont k
      (if recursive then mkNode f (flag :: r) nested else mkNode (flag :: f) r nested).
Proof. reflexivity. Qed.

Lemma is_head k a flag cont cont' :
  dict_get cont k = dict_get cont' k -> is_ (k :: a) flag cont = is_ (k :: a) flag cont'.
Proof.
  intros H. destruct a as [|y a]; [rewrite !is_single | rewrite !is_cons]; now rewrite H.
Qed.

(** What [Flags.is_] answers after [Flags.set]. *)
Lemma is_after_set_flag key : forall a flag flag0 recursive cont,
  key <> [] ->
  is_ a flag (set_flag key flag0 recursive cont)
  = (is_ a flag cont
     || (Nat.eqb flag flag0 && (if recursive then prefixb key a else key_eqb key a)))%bool.
Proof.
  induction key as [|k [|k2 key] IH]; intros a flag flag0 recursive cont Hne; [congruence | |].
  - rewrite set_flag_single.
    destruct a as [|x a].
    { destruct recursive, (Nat.eqb flag flag0); reflexivity. }
    destruct (str_eq_dec k x) as [<-|Hd].
    2: { assert (Hb : str_eqb k x = false).
         { destruct (str_eqb k x) eqn:E; [apply str_eqb_eq in E; congruence | reflexivity]. }
         assert (Hp : (if recursive then prefixb [k] (x :: a) else key_eqb [k] (x :: a)) = false).
         { destruct recursive; unfold key_eqb; cbn [prefixb]; now rewrite Hb. }
         rewrite Hp, andb_false_r, orb_false_r.
         apply is_head.
         destruct (match dict_get cont k with Some n => n | None => empty_node end)
           as [f r nested].
         now rewrite dict_get_set_ne. }
    assert (Hp : (if recursive then prefixb [k] (k :: a) else key_eqb [k] (k :: a))
                 = if recursive then true else match a with [] => true | _ => false end).
    { destruct recursive; unfold key_eqb; cbn [prefixb]; rewrite str_eqb_refl; cbn [andb].
      - reflexivity.
      - destruct a; reflexivity. }
    rewrite Hp. clear Hp.
    destruct a as [|y a].
    + rewrite !is_single.
      destruct (dict_get cont k) as [[f r nested]|] eqn:G; cbn [empty_node].
      * destruct recursive; rewrite dict_get_set_eq, flag_in_cons_eq;
          destruct (Nat.eqb flag flag0), (flag_in flag f), (flag_in flag r); reflexivity.
      * destruct recursive; rewrite dict_get_set_eq, flag_in_cons_eq; cbn [flag_in existsb];
          destruct (Nat.eqb flag flag0); reflexivity.
    + rewrite !is_cons.
      destruct (dict_get cont k) as [[f r nested]|] eqn:G; cbn [empty_node].
      * destruct recursive; rewrite dict_get_set_eq, ?flag_in_cons_eq;
          destruct (Nat.eqb flag flag0), (flag_in flag r); cbn [orb andb];
          rewrite ?orb_false_r, ?orb_true_r; reflexivity.
      * destruct recursive; rewrite dict_get_set_eq, ?flag_in_cons_eq, is_nil;
          cbn [flag_in existsb]; destruct (Nat.eqb flag flag0); reflexivity.
  - rewrite set_flag_cons.
    destruct a as [|x a].
    { destruct recursive, (Nat.eqb flag flag0); reflexivity. }
    destruct (str_eq_dec k x) as [<-|Hd].
    2: { assert (Hb : str_eqb k x = false).
         { destruct (str_eqb k x) eqn:E; [apply str_eqb_eq in E; congruence | reflexivity]. }
         assert (Hp : (if recursive then prefixb (k :: k2 :: key) (x :: a)
                       else key_eqb (k :: k2 :: key) (x :: a)) = false).
         { destruct recursive; unfold key_eqb; cbn [prefixb]; now rewrite Hb. }
         rewrite Hp, andb_false_r, orb_false_r.
         apply is_head.
         destruct (match dict_get cont k with Some n => n | None => empty_node end)
           as [f r nested].
         now rewrite dict_get_set_ne. }
    assert (Hp : (if recursive then prefixb (k :: k2 :: key) (k :: a)
                  else key_eqb (k :: k2 :: key) (k :: a))
                 = if recursive then prefixb (k2 :: key) a else key_eqb (k2 :: key) a).
    { destruct recursive; unfold key_eqb; cbn [prefixb]; rewrite str_eqb_refl; reflexivity. }
    rewrite Hp. clear Hp.
    destruct a as [|y a].
    + assert (Hp : (if recursive then prefixb (k2 :: key) [] else key_eqb (k2 :: key) []) = false)
        by (destruct recursive; reflexivity).
      rewrite Hp, andb_false_r, orb_false_r. rewrite !is_single.
      destruct (dict_get cont k) as [[f r nested]|] eqn:G; cbn [empty_node];
        now rewrite dict_get_set_eq.
    + rewrite !is_cons.
      destruct (dict_get cont k) as [[f r nested]|] eqn:G; cbn [empty_node];
        rewrite dict_get_set_eq, IH by discriminate.
      * destruct (flag_in flag r); reflexivity.
      * cbn [flag_in existsb]. now rewrite is_nil.
Qed.

(** X6.  What [Flags.is_] answers after [Flags.set]: for a key that is not
    empty, the flag that was set is found at the key itself, and at every
    key below it if and only if it was set recursively; every other answer,
    for another key or another flag, is what it was before. *)
Theorem set_then_is_ key a flag flag0 recursive cont :
  key <> [] ->
  (is_ a flag (set_flag key flag0 recursive cont) = true <->
   is_ a flag cont = true \/
   (flag = flag0 /\ if recursive then is_prefix key a else a = key)).
Proof.
  intros Hne. rewrite (is_after_set_flag key a flag flag0 recursive cont Hne).
  rewrite orb_true_iff, andb_true_iff, Nat.eqb_eq.
  destruct recursive.
  - rewrite prefixb_spec. reflexivity.
  - rewrite key_eqb_spec. split; intros [H | [H1 H2]]; auto.
Qed.

Lemma set_then_is__witness :
  is_ [py "a"; py "b"] FROZEN (set_flag [py "a"] FROZEN true []) = true <->
  is_ [py "a"; py "b"] FROZEN [] = true \/
  (FROZEN = FROZEN /\ is_prefix [py "a"] [py "a"; py "b"]).
Proof. apply (set_then_is_ [py "a"] [py "a"; py "b"] FROZEN FROZEN true []). discriminate. Defined.

Lemma inherited_cons k k2 rest flag cont :
  inherited (k :: k2 :: rest) flag cont
  = match dict_get cont k with
    | None => false
    | Some (mkNode _ r nested) => (flag_in flag r || inherited (k2 :: rest) flag nested)%bool
    end.
Proof. reflexivity. Qed.

Lemma str_eqb_ne (k x : str) : k <> x -> str_eqb k x = false.
Proof.
  intros H. destruct (str_eqb k x) eqn:E; [apply str_eqb_eq in E; congruence | reflexivity].
Qed.

(** What [Flags.is_] answers after [Flags.unset_all]. *)
Lemma is_after_unset_all key : forall a flag cont,
  key <> [] ->
  is_ a flag (unset_all key cont)
  = if prefixb key a then inherited key flag cont else is_ a flag cont.
Proof.
  induction key as [|k [|k2 key] IH]; intros a flag cont Hne; [congruence | |].
  - cbn [unset_all]. destruct a as [|x a]; [reflexivity |].
    cbn [prefixb]. destruct (str_eq_dec k x) as [<-|Hd].
    + rewrite str_eqb_refl. cbn [andb inherited].
      destruct a as [|y a]; [rewrite is_single | rewrite is_cons];
        now rewrite dict_get_pop_eq.
    + rewrite (str_eqb_ne k x Hd). cbn [andb].
      apply is_head. now apply dict_get_pop_ne.
  - rewrite unset_all_cons. destruct a as [|x a].
    { cbn [prefixb]. now destruct (dict_get cont k) as [[f r nested]|]. }
    cbn [prefixb]. destruct (str_eq_dec k x) as [<-|Hd].
    + rewrite str_eqb_refl. cbn [andb]. rewrite inherited_cons.
      destruct (dict_get cont k) as [[f r nested]|] eqn:G.
      * destruct a as [|y a].
        -- cbn [prefixb]. rewrite !is_single. now rewrite dict_get_set_eq, G.
        -- rewrite !is_cons. rewrite dict_get_set_eq, G, IH by discriminate.
           destruct (flag_in flag r); cbn [orb]; [| reflexivity].
           now destruct (str_eqb k2 y && prefixb key a)%bool.
      * destruct a as [|y a]; [rewrite is_single | rewrite is_cons]; rewrite G;
          [reflexivity |];
          match goal with |- _ = (if ?b then _ else _) => destruct b end; reflexivity.
    + rewrite (str_eqb_ne k x Hd). cbn [andb].
      destruct (dict_get cont k) as [[f r nested]|] eqn:G; [| reflexivity].
      apply is_head. now apply dict_get_set_ne.
Qed.

(** X7.  What [Flags.is_] answers after [Flags.unset_all] for a key that
    is not empty: at the key and below it the flags are gone, a flag is
    found there only if a key strictly above carries it recursively; at
    every other key the answer is what it was before. *)
Theorem unset_all_then_is_ key a flag cont :
  key <> [] ->
  (is_prefix key a -> is_ a flag (unset_all key cont) = inherited key flag cont) /\
  (~ is_prefix key a -> is_ a flag (unset_all key cont) = is_ a flag cont).
Proof.
  intros Hne. rewrite (is_after_unset_all key a flag cont Hne). split; intros H.
  - apply prefixb_spec in H. now rewrite H.
  - destruct (prefixb key a) eqn:E; [| reflexivity].
    apply prefixb_spec in E. contradiction.
Qed.

Lemma unset_all_then_is__witness :
  (is_prefix [py "t"] [py "t"; py "a"] ->
   is_ [py "t"; py "a"] FROZEN
     (unset_all [py "t"] [(py "t", mkNode [] [] [(py "a", mkNode [] [FROZEN] [])])])
   = inherited [py "t"] FROZEN [(py "t", mkNode [] [] [(py "a", mkNode [] [FROZEN] [])])]) /\
  (~ is_prefix [py "t"] [py "t"; py "a"] ->
   is_ [py "t"; py "a"] FROZEN
     (unset_all [py "t"] [(py "t", mkNode [] [] [(py "a", mkNode [] [FROZEN] [])])])
   = is_ [py "t"; py "a"] FROZEN [(py "t", mkNode [] [] [(py "a", mkNode [] [FROZEN] [])])]).
Proof. apply unset_all_then_is_. discriminate. Defined.

(** ** Tables that dotted keys define *)





(** ** What the statements do to the tree *)

(** X9.  A key/value statement that succeeds defines a new key: the key
    was not in the tree, in the namespace of the last header; afterwards the
    value is found there, through the tables that the dotted key names; and
    the namespace is what it was. *)
Theorem key_value_defines_a_new_key src pos state key value state' :
  key_value_effect src pos state key value = Ok state' ->
  key_exists (header_namespace state ++ key) (out state) = false /\
  value_at (header_namespace state ++ key) (out state') = Some value /\
  header_namespace state' = header_namespace state.
Proof.
  intros H. pose proof (key_value_effect_Ok _ _ _ _ _ _ H) as (Hne & _ & Hh & _ & Ho).
  split; [| split; [| exact Hh]].
  - destruct (key_exists (header_namespace state ++ key) (out state)) eqn:E; [| reflexivity].
    destruct (key_value_effect_duplicate src pos state key value Hne E) as [msg D].
    rewrite D in H. discriminate.
  - assert (Hv : exists v,
              value_at ((header_namespace state ++ removelast key) ++ [last key []])
                (out state') = Some v /\ v = value).
    { eapply get_or_create_nest_value; [| exact Ho].
      intros nest nest' Huse. cbv beta in Huse.
      destruct (dict_in (last key []) nest); [discriminate |].
      inversion Huse; subst. exists value. now rewrite dict_get_set_eq. }
    destruct Hv as (v & Hv & ->).
    now rewrite <- app_assoc, <- (key_split key Hne) in Hv.
Qed.

Lemma key_value_defines_a_new_key_witness :
  key_exists ([py "t"] ++ [py "a"; py "b"]) [(py "t", VDict [])] = false /\
  value_at ([py "t"] ++ [py "a"; py "b"])
    [(py "t", VDict [(py "a", VDict [(py "b", VBool true)])])] = Some (VBool true) /\
  [py "t"] = [py "t"].
Proof.
  apply (key_value_defines_a_new_key [] 0
           (mkState [(py "t", VDict [])] [] [py "t"]) [py "a"; py "b"] (VBool true)
           (mkState [(py "t", VDict [(py "a", VDict [(py "b", VBool true)])])]
              [(py "t", mkNode [] []
                  [(py "a", mkNode [EXPLICIT_NEST] []
                      [(py "b", mkNode [EXPLICIT_NEST] [] [])])])]
              [py "t"])).
  reflexivity.
Defined.

Lemma dict_set_same {V} (d : dict V) k v : dict_get d k = Some v -> dict_set d k v = d.
Proof.
  induction d as [|[k' v'] d IH]; cbn; [discriminate |].
  destruct (str_eq_dec k k') as [->|Hne]; intros H; [congruence |].
  f_equal. now apply IH.
Qed.

Lemma removelast_snoc {A} (l : list A) x : removelast (l ++ [x]) = l.
Proof. rewrite removelast_app by discriminate. cbn. apply app_nil_r. Qed.

(** Walking a path again finds what the first walk has made, and changes
    nothing. *)
Lemma get_or_create_nest_again al p : forall use cont cont',
  get_or_create_nest al p use cont = Ok cont' ->
  get_or_create_nest al p (fun nest => Ok nest) cont' = Ok cont'.
Proof.
  induction p as [|k p IH]; intros use cont cont' H; [reflexivity |].
  cbn [get_or_create_nest] in H.
  destruct (match dict_get cont k with Some v => v | None => VDict [] end)
    as [| | | | | | |l|d]; try discriminate.
  - destruct al; [| discriminate].
    destruct (last_item l) as [[| | | | | | |l'|d]|]; try discriminate.
    destruct (get_or_create_nest true p use d) as [d'| |] eqn:G; try discriminate.
    cbn [bind] in H. inversion H; subst cont'; clear H.
    cbn [get_or_create_nest]. rewrite dict_get_set_eq, last_item_app.
    rewrite (IH use d d' G). cbn [bind]. rewrite removelast_snoc.
    f_equal. apply dict_set_same. apply dict_get_set_eq.
  - destruct (get_or_create_nest al p use d) as [d'| |] eqn:G; try discriminate.
    cbn [bind] in H. inversion H; subst cont'; clear H.
    cbn [get_or_create_nest]. rewrite dict_get_set_eq.
    rewrite (IH use d d' G). cbn [bind].
    f_equal. apply dict_set_same. apply dict_get_set_eq.
Qed.

Lemma key_eqb_snoc (key : Key) x : key_eqb (key ++ [x]) key = false.
Proof.
  destruct (key_eqb (key ++ [x]) key) eqn:E; [| reflexivity].
  apply key_eqb_spec in E. apply (f_equal (@length str)) in E.
  rewrite length_app in E. cbn in E. lia.
Qed.

(** X10.  A table may be declared after a table below it: when the header
    for [key.x] has succeeded and [key] itself has neither flag, the header
    for [key] succeeds after it, opens the namespace [key], and leaves the
    tree as it is. *)
Theorem super_table_after_sub_table src pos state key x state1 src' pos' :
  create_dict_effect src pos state (key ++ [x]) = Ok state1 ->
  key <> [] ->
  is_ key EXPLICIT_NEST (flags state) = false ->
  is_ key FROZEN (flags state) = false ->
  exists state2,
    create_dict_effect src' pos' state1 key = Ok state2 /\
    header_namespace state2 = key /\
    out state2 = out state1.
Proof.
  intros H Hne He Hf. apply create_dict_effect_Ok in H.
  destruct H as (Hne' & _ & _ & _ & Hfl & Ho).
  rewrite get_or_create_nest_app in Ho. apply get_or_create_nest_again in Ho.
  assert (E1 : is_ key EXPLICIT_NEST (flags state1) = false).
  { rewrite Hfl, is_after_set_flag, He, key_eqb_snoc by exact Hne'.
    now rewrite andb_false_r. }
  assert (E2 : is_ key FROZEN (flags state1) = false).
  { rewrite Hfl, is_after_set_flag, Hf, key_eqb_snoc by exact Hne'.
    now rewrite andb_false_r. }
  rewrite (create_dict_effect_run src' pos' state1 key (out state1) Hne E1 E2 Ho).
  eexists. split; [reflexivity |]. split; reflexivity.
Qed.

Lemma super_table_after_sub_table_witness :
  exists state2,
    create_dict_effect [] 0
      (mkState [(py "a", VDict [(py "b", VDict [])])]
         [(py "a", mkNode [] [] [(py "b", mkNode [EXPLICIT_NEST] [] [])])]
         [py "a"; py "b"])
      [py "a"] = Ok state2 /\
    header_namespace state2 = [py "a"] /\
    out state2 = [(py "a", VDict [(py "b", VDict [])])].
Proof.
  apply (super_table_after_sub_table [] 0 State_init [py "a"] (py "b")
           (mkState [(py "a", VDict [(py "b", VDict [])])]
              [(py "a", mkNode [] [] [(py "b", mkNode [EXPLICIT_NEST] [] [])])]
              [py "a"; py "b"]) [] 0).
  - reflexivity.
  - discriminate.
  - reflexivity.
  - reflexivity.
Defined.

(** The walk to a key that holds [v] ends with what the caller does there,
    if that is an exception. *)
Lemma get_or_create_nest_raise p : forall k v e use cont,
  value_at (p ++ [k]) cont = Some v ->
  (forall nest, dict_get nest k = Some v -> use nest = Raise e) ->
  get_or_create_nest true p use cont = Raise e.
Proof.
  induction p as [|k1 p IH]; intros k v e use cont Hv Huse.
  - cbn in *. now apply Huse.
  - cbn [app] in *. rewrite value_at_cons in Hv by (destruct p; discriminate).
    cbn [get_or_create_nest].
    destruct (dict_get cont k1) as [[| | | | | | |l|d]|]; try discriminate.
    + destruct (last_item l) as [[| | | | | | |l'|d]|]; try discriminate.
      now rewrite (IH k v e use d Hv Huse).
    + now rewrite (IH k v e use d Hv Huse).
Qed.

(** The walk along a key that goes through a value that is no container
    raises the [KeyError] of [get_or_create_nest]. *)
Lemma get_or_create_nest_through_scalar p : forall key v use cont,
  value_at p cont = Some v -> is_container v = false -> is_prefix p key ->
  get_or_create_nest true key use cont = Raise no_nest.
Proof.
  induction p as [|k [|k2 p] IH]; intros key v use cont Hv Hc Hp; [discriminate | |].
  - apply is_prefix_cons in Hp. destruct Hp as (key' & -> & _).
    cbn [value_at] in Hv. cbn [get_or_create_nest]. rewrite Hv.
    destruct v; try reflexivity; discriminate.
  - apply is_prefix_cons in Hp. destruct Hp as (key' & -> & Hp).
    rewrite value_at_cons in Hv by discriminate.
    cbn [get_or_create_nest].
    destruct (dict_get cont k) as [[| | | | | | |l|d]|]; try discriminate.
    + destruct (last_item l) as [[| | | | | | |l'|d]|]; try discriminate.
      now rewrite (IH key' v use d Hv Hc Hp).
    + now rewrite (IH key' v use d Hv Hc Hp).
Qed.

Lemma append_nest_to_list_not_a_list key cont v :
  key <> [] ->
  value_at key cont = Some v ->
  (forall l, v <> VList l) ->
  append_nest_to_list key cont
  = Raise (KeyError "An object other than list found behind this key").
Proof.
  intros Hne Hv Hl. unfold append_nest_to_list.
  rewrite (key_split key Hne) in Hv.
  apply (get_or_create_nest_raise (removelast key) (last key []) v _ _ cont Hv).
  intros nest Hn. cbv beta zeta. rewrite Hn.
  destruct v; try reflexivity. exfalso. now apply (Hl items).
Qed.

(** The [KeyError] of [append_nest_to_list] becomes the document error. *)
Lemma create_list_effect_KeyError src pos state key msg :
  key <> [] ->
  append_nest_to_list key (out state) = Raise (KeyError msg) ->
  is_decode_error (create_list_effect src pos state key).
Proof.
  intros Hne H. unfold create_list_effect.
  destruct (is_ key FROZEN (flags state)); [apply raise_suffixed_err |].
  destruct key as [|k key]; [congruence |].
  rewrite H. cbn [except_KeyError bind]. apply raise_suffixed_err.
Qed.

(** X11.  An array-of-tables header for a key that holds a value that is
    no array, a table or any other value, is a document error:
    [append_nest_to_list] raises its [KeyError], which does not come out of
    the rule. *)
Theorem array_header_needs_an_array src pos state key v :
  key <> [] ->
  value_at key (out state) = Some v ->
  (forall l, v <> VList l) ->
  append_nest_to_list key (out state)
  = Raise (KeyError "An object other than list found behind this key") /\
  is_decode_error (create_list_effect src pos state key).
Proof.
  intros Hne Hv Hl.
  pose proof (append_nest_to_list_not_a_list key (out state) v Hne Hv Hl) as H.
  split; [exact H |]. now apply (create_list_effect_KeyError src pos state key _ Hne H).
Qed.

Lemma array_header_needs_an_array_witness :
  append_nest_to_list [py "a"] [(py "a", VDict [])]
  = Raise (KeyError "An object other than list found behind this key") /\
  is_decode_error
    (create_list_effect [] 0 (mkState [(py "a", VDict [])] [] []) [py "a"]).
Proof.
  apply (array_header_needs_an_array [] 0 (mkState [(py "a", VDict [])] [] []) [py "a"]
           (VDict [])).
  - discriminate.
  - reflexivity.
  - discriminate.
Defined.

(** X12.  No statement goes through a value that is no container: where a
    key holds a string, a number, a boolean, a date or a time, a table
    header, an array-of-tables header and a key/value pair for the key or
    for a key below it are document errors; the [KeyError] of the walk does
    not come out. *)
Theorem no_statement_goes_through_a_scalar src pos state p v s :
  value_at p (out state) = Some v -> is_container v = false ->
  stmt_key s <> [] ->
  is_prefix p (target state s) ->
  is_decode_error (exec src pos state s).
Proof.
  intros Hv Hc Hne Hp. destruct s as [key value | key | key]; cbn [exec target stmt_key] in *.
  - destruct (key_exists (header_namespace state ++ key) (out state)) eqn:E.
    { now apply key_value_effect_duplicate. }
    rewrite (key_split key Hne), app_assoc in Hp.
    apply is_prefix_snoc in Hp. destruct Hp as [Hp | ->].
    2: { rewrite <- app_assoc, <- (key_split key Hne) in Hv.
         unfold key_exists in E. now rewrite Hv in E. }
    unfold key_value_effect. destruct key as [|k key]; [congruence |].
    set (key0 := k :: key) in *.
    destruct (is_ (header_namespace state ++ removelast key0) FROZEN (flags state));
      [apply raise_suffixed_err |].
    apply bind_decode.
    rewrite (get_or_create_nest_through_scalar p _ v _ (out state) Hv Hc Hp).
    cbn [except_KeyError no_nest]. apply raise_suffixed_err.
  - unfold create_dict_effect.
    destruct (is_ key EXPLICIT_NEST (flags state) || is_ key FROZEN (flags state))%bool;
      [apply raise_suffixed_err |].
    destruct key as [|k key]; [congruence |].
    apply bind_decode.
    rewrite (get_or_create_nest_through_scalar p _ v _ (out state) Hv Hc Hp).
    cbn [except_KeyError no_nest]. apply raise_suffixed_err.
  - rewrite (key_split key Hne) in Hp.
    apply is_prefix_snoc in Hp. destruct Hp as [Hp | ->].
    2: { rewrite <- (key_split key Hne) in Hv.
         apply (create_list_effect_KeyError src pos state key
                  "An object other than list found behind this key" Hne).
         apply (append_nest_to_list_not_a_list key (out state) v Hne Hv).
         intros l ->. discriminate. }
    unfold create_list_effect.
    destruct (is_ key FROZEN (flags state)); [apply raise_suffixed_err |].
    destruct key as [|k key]; [congruence |].
    set (key0 := k :: key) in *.
    apply bind_decode. unfold append_nest_to_list.
    rewrite (get_or_create_nest_through_scalar p _ v _ (out state) Hv Hc Hp).
    cbn [except_KeyError no_nest]. apply raise_suffixed_err.
Qed.

Lemma no_statement_goes_through_a_scalar_witness :
  is_decode_error
    (exec [] 0 (mkState [(py "a", VInt 1)] [] []) (STable [py "a"; py "b"])).
Proof.
  apply (no_statement_goes_through_a_scalar [] 0 (mkState [(py "a", VInt 1)] [] [])
           [py "a"] (VInt 1) (STable [py "a"; py "b"])).
  - reflexivity.
  - reflexivity.
  - discriminate.
  - exists [py "b"]. reflexivity.
Defined.

(** ** Keys *)

Lemma span_app chars (a t : str) :
  forallb chars a = true -> stops chars t = true -> span chars (a ++ t) = length a.
Proof.
  intros Ha Ht. induction a as [|c a IH]; cbn [app length].
  - destruct t as [|c t]; [reflexivity |]. cbn [stops] in Ht. cbn [span].
    apply negb_true_iff in Ht. now rewrite Ht.
  - cbn [forallb] in Ha. apply andb_prop in Ha. destruct Ha as [Hc Ha].
    cbn [span]. rewrite Hc. f_equal. now apply IH.
Qed.

Lemma skip_chars_app chars (src : str) pos a t :
  skipn pos src = a ++ t -> forallb chars a = true -> stops chars t = true ->
  skip_chars src pos chars = pos + length a.
Proof. intros Hs Ha Ht. rewrite skip_chars_span, Hs. f_equal. now apply span_app. Qed.

Lemma stops_app chars (a t : str) :
  stops chars (a ++ t) = match a with [] => stops chars t | c :: _ => negb (chars c) end.
Proof. destruct a; reflexivity. Qed.

(** A bare part is read as it stands. *)
Lemma parse_key_part_bare fuel (src : str) pos part t :
  skipn pos src = part ++ t -> bare_part part = true -> stops BARE_KEY_CHARS t = true ->
  parse_key_part fuel src pos = Ok (pos + length part, part).
Proof.
  intros Hs Hb Ht. unfold bare_part in Hb. apply andb_prop in Hb. destruct Hb as [Hn Hb].
  destruct part as [|c part]; [discriminate |].
  cbn [app] in Hs. destruct (skipn_cons_char_at _ _ _ _ Hs) as [Hat _].
  unfold parse_key_part. rewrite Hat.
  assert (Hc : BARE_KEY_CHARS c = true) by (cbn [forallb] in Hb; now apply andb_prop in Hb).
  rewrite Hc.
  rewrite (skip_chars_app BARE_KEY_CHARS src pos (c :: part) t Hs Hb Ht).
  now rewrite (slice_prefix src pos (c :: part) t Hs).
Qed.

Lemma blank_stops_bare (ws t : str) :
  forallb TOML_WS ws = true -> stops BARE_KEY_CHARS t = true ->
  (ws = [] -> stops BARE_KEY_CHARS t = true) ->
  stops BARE_KEY_CHARS (ws ++ t) = true.
Proof.
  intros Hw Ht _. rewrite stops_app. destruct ws as [|c ws]; [exact Ht |].
  cbn [forallb] in Hw. apply andb_prop in Hw. destruct Hw as [Hc _].
  unfold TOML_WS, in_chars in Hc. cbn [existsb] in Hc.
  rewrite orb_false_r in Hc. apply orb_prop in Hc.
  destruct Hc as [Hc | Hc]; apply N.eqb_eq in Hc; subst c; reflexivity.
Qed.

(** The loop of [parse_key] on the parts after the first. *)
Lemma parse_key_loop_dotted ws1 ws2 (src : str) rest :
  forallb TOML_WS ws1 = true -> forallb TOML_WS ws2 = true ->
  stops TOML_WS rest = true -> stops (N.eqb (ch ".")) rest = true ->
  (ws1 = [] -> stops BARE_KEY_CHARS rest = true) ->
  forall parts fuel pos key,
    forallb bare_part parts = true ->
    length parts < fuel ->
    skipn pos src = dotted_tail ws1 ws2 parts ++ rest ->
    parse_key_loop fuel src pos key
    = Ok (pos + length (dotted_tail ws1 ws2 parts), key ++ parts).
Proof.
  intros H1 H2 Hws Hdot Hbare.
  induction parts as [|part parts IH]; intros fuel pos key Hp Hf Hs;
    (destruct fuel as [|fuel]; [cbn in Hf; lia |]); cbn [parse_key_loop].
  - cbn [dotted_tail app] in Hs. cbn [dotted_tail length]. rewrite Nat.add_0_r, app_nil_r.
    assert (Hc : char_is (char_at src pos) (ch ".") = false).
    { destruct rest as [|c rest'].
      - now rewrite (skipn_nil_char_at _ _ Hs).
      - destruct (skipn_cons_char_at _ _ _ _ Hs) as [Hat _]. rewrite Hat.
        cbn [stops] in Hdot. cbn [char_is]. apply negb_true_iff in Hdot.
        now rewrite N.eqb_sym. }
    now rewrite Hc.
  - cbn [forallb] in Hp. apply andb_prop in Hp. destruct Hp as [Hpart Hp].
    cbn [dotted_tail app] in Hs. destruct (skipn_cons_char_at _ _ _ _ Hs) as [Hat Hs1].
    rewrite Hat. cbn [char_is]. rewrite N.eqb_refl. cbn [negb].
    rewrite <- Nat.add_1_r in Hs1.
    assert (Hnext : stops TOML_WS (part ++ ws1 ++ dotted_tail ws1 ws2 parts ++ rest) = true).
    { rewrite stops_app. unfold bare_part in Hpart. destruct part as [|c part]; [discriminate |].
      cbn [length Nat.eqb negb andb forallb] in Hpart. apply andb_prop in Hpart.
      destruct Hpart as [Hc _].
      destruct (TOML_WS c) eqn:W; [| reflexivity].
      unfold TOML_WS, in_chars in W. cbn [existsb] in W.
      rewrite orb_false_r in W. apply orb_prop in W.
      destruct W as [W | W]; apply N.eqb_eq in W; subst c; discriminate. }
    rewrite <- !app_assoc in Hs1.
    rewrite (skip_chars_app TOML_WS src (pos + 1) ws2 _ Hs1 H2 Hnext).
    pose proof (skipn_app_skip src (pos + 1) ws2 _ Hs1) as Hs2.
    assert (Htail : stops TOML_WS (dotted_tail ws1 ws2 parts ++ rest) = true).
    { destruct parts; [exact Hws | reflexivity]. }
    assert (Hafter : stops BARE_KEY_CHARS (ws1 ++ dotted_tail ws1 ws2 parts ++ rest) = true).
    { rewrite stops_app. destruct ws1 as [|c ws1'].
      - destruct parts; [now apply Hbare | reflexivity].
      - cbn [forallb] in H1. apply andb_prop in H1. destruct H1 as [Hc _].
        unfold TOML_WS, in_chars in Hc. cbn [existsb] in Hc.
        rewrite orb_false_r in Hc. apply orb_prop in Hc.
        destruct Hc as [Hc | Hc]; apply N.eqb_eq in Hc; subst c; reflexivity. }
    rewrite (parse_key_part_bare fuel src _ part _ Hs2 Hpart Hafter). cbn [bind].
    pose proof (skipn_app_skip src _ part _ Hs2) as Hs3.
    rewrite (skip_chars_app TOML_WS src _ ws1 _ Hs3 H1 Htail).
    pose proof (skipn_app_skip src _ ws1 _ Hs3) as Hs4.
    rewrite (IH fuel _ (key ++ [part]) Hp ltac:(cbn in Hf; lia) Hs4).
    rewrite <- app_assoc. cbn [app dotted_tail length]. rewrite !length_app.
    f_equal. f_equal. lia.
Qed.

(** X13.  [parse_key] reads a dotted key of bare parts as the list of its
    parts, whatever blanks stand after a part or after a dot, and it ends
    after the blanks that follow the last part.  The fuel is one unit for
    each part. *)
Theorem parse_key_reads_dotted_key fuel ws1 ws2 parts (src : str) pos rest :
  parts <> [] ->
  forallb bare_part parts = true ->
  forallb TOML_WS ws1 = true -> forallb TOML_WS ws2 = true ->
  stops TOML_WS rest = true -> stops (N.eqb (ch ".")) rest = true ->
  (ws1 = [] -> stops BARE_KEY_CHARS rest = true) ->
  length parts <= fuel ->
  skipn pos src = dotted_key ws1 ws2 parts ++ rest ->
  parse_key fuel src pos = Ok (pos + length (dotted_key ws1 ws2 parts), parts).
Proof.
  intros Hne Hp H1 H2 Hws Hdot Hbare Hf Hs.
  destruct parts as [|part parts]; [congruence |].
  cbn [forallb] in Hp. apply andb_prop in Hp. destruct Hp as [Hpart Hp].
  cbn [dotted_key] in *. rewrite <- !app_assoc in Hs.
  assert (Htail : stops TOML_WS (dotted_tail ws1 ws2 parts ++ rest) = true).
  { destruct parts; [exact Hws | reflexivity]. }
  assert (Hafter : stops BARE_KEY_CHARS (ws1 ++ dotted_tail ws1 ws2 parts ++ rest) = true).
  { rewrite stops_app. destruct ws1 as [|c ws1'].
    - destruct parts; [now apply Hbare | reflexivity].
    - cbn [forallb] in H1. apply andb_prop in H1. destruct H1 as [Hc _].
      unfold TOML_WS, in_chars in Hc. cbn [existsb] in Hc.
      rewrite orb_false_r in Hc. apply orb_prop in Hc.
      destruct Hc as [Hc | Hc]; apply N.eqb_eq in Hc; subst c; reflexivity. }
  unfold parse_key.
  rewrite (parse_key_part_bare fuel src pos part _ Hs Hpart Hafter). cbn [bind].
  pose proof (skipn_app_skip src pos part _ Hs) as Hs1.
  rewrite (skip_chars_app TOML_WS src _ ws1 _ Hs1 H1 Htail).
  pose proof (skipn_app_skip src _ ws1 _ Hs1) as Hs2.
  rewrite (parse_key_loop_dotted ws1 ws2 src rest H1 H2 Hws Hdot Hbare parts fuel _ [part]
             Hp ltac:(cbn in Hf; lia) Hs2).
  cbn [app]. rewrite !length_app. f_equal. f_equal. lia.
Qed.

Lemma parse_key_reads_dotted_key_witness :
  parse_key 3 (py "site . owner . name = 1") 0
  = Ok (20, [py "site"; py "owner"; py "name"]).
Proof.
  apply (parse_key_reads_dotted_key 3 (py " ") (py " ")
           [py "site"; py "owner"; py "name"] (py "site . owner . name = 1") 0 (py "= 1")).
  - discriminate.
  - reflexivity.
  - reflexivity.
  - reflexivity.
  - reflexivity.
  - reflexivity.
  - discriminate.
  - cbn. lia.
  - reflexivity.
Defined.

(** ** Single-line strings *)

Lemma firstn_snoc {A} (l : list A) k c :
  nth_error l k = Some c -> firstn (S k) l = firstn k l ++ [c].
Proof.
  revert l. induction k as [|k IH]; intros [|x l] H; try discriminate.
  - cbn in H. injection H as ->. reflexivity.
  - cbn [nth_error] in H. cbn [firstn app]. f_equal. now apply IH.
Qed.

Lemma slice_snoc (src : str) start pos c :
  start <= pos -> char_at src pos = Some c ->
  slice src start (pos + 1) = slice src start pos ++ [c].
Proof.
  intros Hle Hat. unfold slice.
  replace (pos + 1 - start) with (S (pos - start)) by lia.
  apply firstn_snoc. rewrite char_at_skipn.
  now replace (start + (pos - start)) with pos by lia.
Qed.

Lemma slice_empty (src : str) pos : slice src pos pos = [].
Proof. unfold slice. now rewrite Nat.sub_diag. Qed.

Lemma starts_with_first (src : str) pos (c : char) (lit : str) (x : char) (t : str) :
  skipn pos src = x :: t -> x <> c -> starts_with src pos (c :: lit) = false.
Proof.
  intros Hs Hx. unfold starts_with, slice, str_eqb. rewrite Hs.
  replace (pos + length (c :: lit) - pos) with (S (length lit)) by (cbn [length]; lia).
  cbn [firstn]. destruct (str_eq_dec _ _) as [e|]; [| reflexivity]. congruence.
Qed.

Lemma starts_with_second (src : str) pos (c d : char) (lit t : str) :
  skipn pos src = c :: t -> stops (N.eqb d) t = true ->
  starts_with src pos (c :: d :: lit) = false.
Proof.
  intros Hs Ht. unfold starts_with, slice, str_eqb. rewrite Hs.
  replace (pos + length (c :: d :: lit) - pos) with (S (S (length lit))) by (cbn [length]; lia).
  destruct (str_eq_dec _ _) as [e|]; [| reflexivity].
  destruct t as [|y t]; cbn [firstn] in e; [discriminate |].
  injection e as Hy _. subst y. cbn [stops] in Ht. now rewrite N.eqb_refl in Ht.
Qed.

(** *** Literal strings *)

Lemma skip_until_from_body (body : str) :
  forall (src : str) pos expect_char error_on error_on_eof (t : str),
  forallb (fun c => negb (N.eqb c expect_char) && negb (error_on c))%bool body = true ->
  skip_until_from (body ++ expect_char :: t) src pos expect_char error_on error_on_eof
  = Ok (pos + length body).
Proof.
  induction body as [|c body IH]; intros src pos expect_char error_on error_on_eof t Hb.
  - cbn. now rewrite N.eqb_refl, Nat.add_0_r.
  - cbn [forallb] in Hb. apply andb_prop in Hb. destruct Hb as [Hc Hb].
    apply andb_prop in Hc. destruct Hc as [H1 H2]. apply negb_true_iff in H1, H2.
    cbn [app skip_until_from]. rewrite H1, H2, IH by assumption.
    cbn [length]. f_equal. lia.
Qed.

Lemma parse_literal_str_body (src : str) pos (body rest : str) :
  skipn pos src = APOSTROPHE :: body ++ APOSTROPHE :: rest ->
  forallb literal_char body = true ->
  parse_literal_str src pos = Ok (pos + length body + 2, body).
Proof.
  intros Hs Hb. pose proof (skipn_cons_tail _ _ _ _ Hs) as Hs1.
  unfold parse_literal_str, skip_until. cbv zeta. rewrite Hs1.
  rewrite skip_until_from_body by exact Hb. cbn [bind].
  rewrite (slice_prefix src (pos + 1) body _ Hs1). f_equal. f_equal. lia.
Qed.

(** X14.  A literal string is taken as it stands: between two apostrophes,
    characters that are neither an apostrophe nor a control character other
    than the tab, the backslash among them, are the value.  (An empty string
    followed by a third apostrophe opens a multiline string instead.) *)
Theorem literal_string_is_verbatim re fuel (src : str) pos (body rest : str) :
  skipn pos src = APOSTROPHE :: body ++ APOSTROPHE :: rest ->
  forallb literal_char body = true ->
  (body = [] -> stops (N.eqb APOSTROPHE) rest = true) ->
  0 < fuel ->
  parse_value re fuel src pos = Ok (pos + length body + 2, VStr body).
Proof.
  intros Hs Hb Hrest Hf. destruct fuel as [|fuel]; [lia |].
  destruct (skipn_cons_char_at _ _ _ _ Hs) as [Hat _].
  pose proof (skipn_cons_tail _ _ _ _ Hs) as Hs1.
  cbn [parse_value]. rewrite Hat. cbn [char_is].
  change (N.eqb APOSTROPHE QUOTE) with false. rewrite N.eqb_refl. cbv iota.
  assert (Hm : starts_with src (pos + 1) [APOSTROPHE; APOSTROPHE] = false).
  { destruct body as [|c body].
    - cbn [app] in Hs1. apply (starts_with_second src (pos + 1) _ _ _ _ Hs1).
      now apply Hrest.
    - cbn [app] in Hs1. apply (starts_with_first src (pos + 1) _ _ _ _ Hs1).
      cbn [forallb] in Hb. apply andb_prop in Hb. destruct Hb as [Hc _].
      unfold literal_char in Hc. apply andb_prop in Hc. destruct Hc as [Hc _].
      apply negb_true_iff, N.eqb_neq in Hc. exact Hc. }
  rewrite Hm, (parse_literal_str_body src pos body rest Hs Hb). reflexivity.
Qed.

Lemma literal_string_is_verbatim_witness :
  parse_value tomli_re 1 (py "x = 'C:\new\table' # path") 4
  = Ok (18, VStr (py "C:\new\table")).
Proof.
  apply (literal_string_is_verbatim tomli_re 1 (py "x = 'C:\new\table' # path") 4
           (py "C:\new\table") (py " # path")).
  - reflexivity.
  - reflexivity.
  - discriminate.
  - lia.
Defined.

(** *** Basic strings *)

Lemma illegal_below_128 c : ILLEGAL_BASIC_STR_CHARS c = true -> (c < 128)%N.
Proof.
  unfold ILLEGAL_BASIC_STR_CHARS, ASCII_CTRL. intros H.
  apply andb_prop in H. destruct H as [H _]. apply orb_prop in H.
  destruct H as [H | H]; [apply N.ltb_lt in H | apply N.eqb_eq in H]; lia.
Qed.

Lemma hex_escape_value c :
  ILLEGAL_BASIC_STR_CHARS c = true ->
  let h := [ch "0"; ch "0"; hex_digit (c / 16); hex_digit (c mod 16)] in
  forallb hexdigits h = true /\ int_ h 16 = Ok (Z.of_N c).
Proof.
  intros Hc h.
  assert (Hall : forallb hex_escape_checked (map N.of_nat (seq 0 128)) = true)
    by (vm_compute; reflexivity).
  rewrite forallb_forall in Hall.
  assert (Hin : In c (map N.of_nat (seq 0 128))).
  { apply in_map_iff. exists (N.to_nat c). split; [apply N2Nat.id |].
    apply in_seq. pose proof (illegal_below_128 c Hc). lia. }
  specialize (Hall c Hin). unfold hex_escape_checked in Hall. rewrite Hc in Hall.
  fold h in Hall. apply andb_prop in Hall. destruct Hall as [H1 H2]. split; [exact H1 |].
  destruct (int_ h 16) as [i| |]; try discriminate.
  apply Z.eqb_eq in H2. now subst i.
Qed.

(** The escape of a character is read back as the character. *)
Lemma escape_char_decoded multiline (src : str) pos (c : char) (t : str) :
  escape_char c <> [c] -> skipn pos src = escape_char c ++ t ->
  char_at src pos = Some BACKSLASH /\
  parse_basic_str_escape multiline src pos = Ok (pos + length (escape_char c), [c]).
Proof.
  unfold escape_char. intros Hne Hs.
  destruct (N.eqb_spec c QUOTE) as [->|Hq].
  { split; [now destruct (skipn_cons_char_at _ _ _ _ Hs) |].
    pose proof (slice_prefix src pos _ t Hs) as Hsl. cbn [length] in Hsl.
    unfold parse_basic_str_escape. rewrite Hsl.
    destruct multiline; reflexivity. }
  destruct (N.eqb_spec c BACKSLASH) as [->|Hb].
  { split; [now destruct (skipn_cons_char_at _ _ _ _ Hs) |].
    pose proof (slice_prefix src pos _ t Hs) as Hsl. cbn [length] in Hsl.
    unfold parse_basic_str_escape. rewrite Hsl.
    destruct multiline; reflexivity. }
  destruct (ILLEGAL_BASIC_STR_CHARS c) eqn:Hi; [| congruence].
  split; [now destruct (skipn_cons_char_at _ _ _ _ Hs) |].
  destruct (hex_escape_value c Hi) as [Hh Hv].
  set (h := [ch "0"; ch "0"; hex_digit (c / 16); hex_digit (c mod 16)]) in *.
  assert (Hs0 : skipn pos src = [BACKSLASH; ch "u"] ++ h ++ t) by exact Hs.
  clear Hs. rename Hs0 into Hs.
  change (length (BACKSLASH :: ch "u" :: h)) with 6.
  rewrite (parse_basic_str_escape_u multiline src pos (slice_prefix src pos _ _ Hs)).
  pose proof (skipn_app_skip src pos _ _ Hs) as Hs2. cbn [length] in Hs2.
  pose proof (slice_prefix src (pos + 2) h t Hs2) as Hsl. change (length h) with 4 in Hsl.
  unfold parse_hex_char. rewrite Hsl, existsb_negb_forallb, Hh, Hv.
  cbn [length Nat.eqb negb orb bind].
  assert (Hu : is_unicode_scalar_value (Z.of_N c) = true).
  { apply is_unicode_scalar_value_spec. pose proof (illegal_below_128 c Hi). lia. }
  rewrite Hu. cbn [negb]. unfold chr. rewrite N2Z.id.
  change (length h) with 4. cbn [Nat.eqb negb orb]. f_equal. f_equal. lia.
Qed.

Lemma escape_char_plain c :
  escape_char c = [c] ->
  N.eqb c QUOTE = false /\ N.eqb c BACKSLASH = false /\ ILLEGAL_BASIC_STR_CHARS c = false.
Proof.
  unfold escape_char.
  destruct (N.eqb_spec c QUOTE) as [->|]; [discriminate |].
  destruct (N.eqb_spec c BACKSLASH) as [->|]; [discriminate |].
  destruct (ILLEGAL_BASIC_STR_CHARS c); [discriminate | auto].
Qed.

(** No escaped text starts with a quote, a blank or a line feed that was
    not there. *)
Lemma escape_head (s t : str) (c : char) :
  head (escape s ++ t) = Some c -> s <> [] ->
  c = BACKSLASH \/ (head s = Some c /\ escape_char c = [c]).
Proof.
  intros H Hne. destruct s as [|x s]; [congruence |].
  unfold escape in H. cbn [flat_map] in H. rewrite <- app_assoc in H.
  destruct (str_eq_dec (escape_char x) [x]) as [E|E].
  - rewrite E in H. cbn in H. injection H as ->. right. auto.
  - left. unfold escape_char in E, H.
    destruct (N.eqb c QUOTE), (N.eqb x QUOTE), (N.eqb x BACKSLASH),
      (ILLEGAL_BASIC_STR_CHARS x); cbn in H; congruence.
Qed.

Section Escaped.
Variables (delim_len : nat) (error_on : char -> bool) (multiline : bool).
Hypothesis error_on_illegal :
  forall c, error_on c = true -> ILLEGAL_BASIC_STR_CHARS c = true.

(** The loop of [parse_string] over escaped text takes one turn for each
    character of the string and collects the string. *)
Lemma parse_string_loop_escaped (s : str) :
  forall fuel (src : str) (result_ : str) start_pos pos (t : str),
  start_pos <= pos ->
  skipn pos src = escape s ++ t ->
  exists result' start_pos',
    start_pos' <= pos + length (escape s) /\
    result' ++ slice src start_pos' (pos + length (escape s))
    = result_ ++ slice src start_pos pos ++ s /\
    parse_string_loop (length s + fuel) src QUOTE delim_len error_on
      (Some (parse_basic_str_escape multiline)) result_ start_pos pos
    = parse_string_loop fuel src QUOTE delim_len error_on
        (Some (parse_basic_str_escape multiline)) result' start_pos'
        (pos + length (escape s)).
Proof.
  induction s as [|c s IH]; intros fuel src result_ start_pos pos t Hle Hs.
  - exists result_, start_pos. cbn [escape flat_map length Nat.add].
    rewrite Nat.add_0_r, app_nil_r. auto.
  - unfold escape in Hs. cbn [flat_map] in Hs. fold (escape s) in Hs.
    rewrite <- app_assoc in Hs.
    pose proof (skipn_app_skip src pos _ _ Hs) as Hs'.
    assert (Hlen : length (escape (c :: s)) = length (escape_char c) + length (escape s)).
    { unfold escape. cbn [flat_map]. now rewrite length_app. }
    rewrite Hlen, Nat.add_assoc. cbn [length Nat.add].
    destruct (str_eq_dec (escape_char c) [c]) as [E|E].
    + rewrite E in *. cbn [app length] in *.
      destruct (escape_char_plain c E) as (Hq & Hb & Hi).
      assert (Hstep : stepped_over QUOTE error_on (Some (parse_basic_str_escape multiline)) c
                      = true).
      { unfold stepped_over. rewrite Hq, Hb. cbn [negb andb].
        destruct (error_on c) eqn:Ee; [| reflexivity].
        apply error_on_illegal in Ee. congruence. }
      rewrite (parse_string_loop_step QUOTE delim_len error_on _ (length s + fuel) src
                 result_ start_pos pos c _ Hs Hstep).
      destruct (IH fuel src result_ start_pos (pos + 1) t ltac:(lia) Hs')
        as (r' & s' & H1 & H2 & H3).
      exists r', s'. split; [exact H1 |]. split; [| exact H3].
      rewrite H2. destruct (skipn_cons_char_at _ _ _ _ Hs) as [Hat _].
      rewrite (slice_snoc src start_pos pos c Hle Hat), <- app_assoc. reflexivity.
    + destruct (escape_char_decoded multiline src pos c _ E Hs) as [Hat Hdec].
      cbn [parse_string_loop]. rewrite Hat.
      change (N.eqb BACKSLASH QUOTE) with false. rewrite N.eqb_refl. cbv iota.
      rewrite Hdec. cbn [bind].
      destruct (IH fuel src ((result_ ++ slice src start_pos pos) ++ [c])
                  (pos + length (escape_char c)) (pos + length (escape_char c)) t
                  (le_n _) Hs') as (r' & s' & H1 & H2 & H3).
      exists r', s'. split; [exact H1 |]. split; [| exact H3].
      rewrite H2, slice_empty, <- !app_assoc. reflexivity.
Qed.
End Escaped.

Lemma multiline_basic_illegal c :
  ILLEGAL_MULTILINE_BASIC_STR_CHARS c = true -> ILLEGAL_BASIC_STR_CHARS c = true.
Proof.
  unfold ILLEGAL_MULTILINE_BASIC_STR_CHARS, ILLEGAL_BASIC_STR_CHARS, in_chars.
  cbn [existsb]. intros H. apply andb_prop in H. destruct H as [H1 H2].
  rewrite H1. apply negb_true_iff in H2. apply orb_false_elim in H2.
  destruct H2 as [H2 _]. now rewrite H2.
Qed.

(** [parse_basic_str] on the escaped form of a string. *)
Lemma parse_basic_str_escaped fuel (src : str) pos (s rest : str) :
  skipn pos src = QUOTE :: escape s ++ QUOTE :: rest ->
  length s < fuel ->
  parse_basic_str fuel src pos = Ok (pos + length (escape s) + 2, s).
Proof.
  intros Hs Hf. pose proof (skipn_cons_tail _ _ _ _ Hs) as Hs1.
  unfold parse_basic_str, parse_string.
  replace fuel with (length s + S (fuel - length s - 1)) by lia.
  destruct (parse_string_loop_escaped 1 ILLEGAL_BASIC_STR_CHARS false (fun c H => H) s
              (S (fuel - length s - 1)) src [] (pos + 1) (pos + 1) _ (le_n _) Hs1)
    as (r' & s' & H1 & H2 & H3).
  rewrite H3.
  pose proof (skipn_app_skip src (pos + 1) _ _ Hs1) as Hs2.
  rewrite (parse_string_loop_close QUOTE 1 ILLEGAL_BASIC_STR_CHARS _ _ src r' s' _ rest Hs2)
    by lia.
  rewrite H2, slice_empty. cbn [app]. f_equal. f_equal. lia.
Qed.

Lemma escape_not_multiline (src : str) pos (s t : str) :
  skipn pos src = escape s ++ QUOTE :: t ->
  (s = [] -> stops (N.eqb QUOTE) t = true) ->
  starts_with src pos [QUOTE; QUOTE] = false.
Proof.
  intros Hs Hrest. destruct s as [|c s].
  - cbn [escape flat_map app] in Hs. apply (starts_with_second src pos _ _ _ _ Hs).
    now apply Hrest.
  - destruct (escape (c :: s) ++ QUOTE :: t) as [|x l] eqn:E.
    + unfold escape in E. cbn [flat_map] in E. unfold escape_char in E.
      destruct (N.eqb c QUOTE), (N.eqb c BACKSLASH), (ILLEGAL_BASIC_STR_CHARS c);
        discriminate.
    + apply (starts_with_first src pos _ _ x l Hs).
      destruct (escape_head (c :: s) (QUOTE :: t) x) as [-> | [Hh Hx]];
        [now rewrite E | discriminate | discriminate |].
      apply escape_char_plain in Hx. destruct Hx as [Hx _]. now apply N.eqb_neq.
Qed.

(** X15.  Every string can be written as a basic string and is read back:
    with the quote and the backslash behind a backslash and the control
    characters other than the tab as [\u00XX], the text between two quotes
    gives the string.  The parser takes one turn of its loop for each
    character of the string.  (An empty string followed by a third quote
    opens a multiline string instead.) *)
Theorem basic_string_round_trip re fuel (src : str) pos (s rest : str) :
  skipn pos src = QUOTE :: escape s ++ QUOTE :: rest ->
  (s = [] -> stops (N.eqb QUOTE) rest = true) ->
  length s + 1 < fuel ->
  parse_value re fuel src pos = Ok (pos + length (escape s) + 2, VStr s).
Proof.
  intros Hs Hrest Hf. destruct fuel as [|fuel]; [lia |].
  destruct (skipn_cons_char_at _ _ _ _ Hs) as [Hat _].
  pose proof (skipn_cons_tail _ _ _ _ Hs) as Hs1.
  cbn [parse_value]. rewrite Hat. cbn [char_is]. rewrite N.eqb_refl.
  rewrite (escape_not_multiline src (pos + 1) s rest Hs1 Hrest).
  rewrite (parse_basic_str_escaped fuel src pos s rest Hs) by lia.
  reflexivity.
Qed.

Lemma basic_string_round_trip_witness :
  parse_value tomli_re 7
    (py "x = " ++ [QUOTE] ++ py "a\\" ++ [BACKSLASH; QUOTE] ++ py "\u000ab" ++ [QUOTE]) 4
  = Ok (18, VStr (py "a\" ++ [QUOTE; LF] ++ py "b")).
Proof.
  apply (basic_string_round_trip tomli_re 7
           (py "x = " ++ [QUOTE] ++ py "a\\" ++ [BACKSLASH; QUOTE] ++ py "\u000ab" ++ [QUOTE])
           4 (py "a\" ++ [QUOTE; LF] ++ py "b") []).
  - reflexivity.
  - discriminate.
  - cbn. lia.
Defined.

(** X16.  A key part in quotes is read like a string: between apostrophes
    as it stands, between quotes with its escapes replaced. *)
Theorem quoted_key_parts fuel (src : str) pos (s rest : str) :
  (skipn pos src = APOSTROPHE :: s ++ APOSTROPHE :: rest ->
   forallb literal_char s = true ->
   parse_key_part fuel src pos = Ok (pos + length s + 2, s)) /\
  (skipn pos src = QUOTE :: escape s ++ QUOTE :: rest ->
   length s < fuel ->
   parse_key_part fuel src pos = Ok (pos + length (escape s) + 2, s)).
Proof.
  split.
  - intros Hs Hb. destruct (skipn_cons_char_at _ _ _ _ Hs) as [Hat _].
    unfold parse_key_part. rewrite Hat.
    change (BARE_KEY_CHARS APOSTROPHE) with false. rewrite N.eqb_refl. cbv iota.
    now apply parse_literal_str_body with (rest := rest).
  - intros Hs Hf. destruct (skipn_cons_char_at _ _ _ _ Hs) as [Hat _].
    unfold parse_key_part. rewrite Hat.
    change (BARE_KEY_CHARS QUOTE) with false. change (N.eqb QUOTE APOSTROPHE) with false.
    rewrite N.eqb_refl. cbv iota.
    now apply parse_basic_str_escaped with (rest := rest).
Qed.

Lemma quoted_key_parts_witness :
  parse_key_part 0 (py "'a.b' = 1") 0 = Ok (5, py "a.b") /\
  parse_key_part 4 ([QUOTE] ++ py "a\\b" ++ [QUOTE] ++ py " = 1") 0 = Ok (6, py "a\b").
Proof.
  split.
  - apply (proj1 (quoted_key_parts 0 (py "'a.b' = 1") 0 (py "a.b") (py " = 1")));
      reflexivity.
  - apply (proj2 (quoted_key_parts 4 ([QUOTE] ++ py "a\\b" ++ [QUOTE] ++ py " = 1") 0
                    (py "a\b") (py " = 1"))); [reflexivity | cbn; lia].
Defined.

Lemma dict_get_In {V} (d : dict V) k v : dict_get d k = Some v -> In (k, v) d.
Proof.
  induction d as [|[k' v'] d IH]; cbn [dict_get]; [discriminate |].
  destruct (str_eq_dec k k') as [->|_].
  - intros [= ->]. now left.
  - intros H. right. now apply IH.
Qed.

(** The escape parser of a single-line string at a backslash that no
    escape letter follows. *)
Lemma parse_basic_str_escape_unknown (src : str) pos (tail : str) :
  skipn pos src = BACKSLASH :: tail ->
  stops (in_chars escape_letters) tail = true ->
  is_decode_error (parse_basic_str_escape false src pos).
Proof.
  intros Hs Ht. unfold parse_basic_str_escape. cbn [andb].
  destruct tail as [|c tail].
  - assert (Hsl : slice src pos (pos + 2) = [BACKSLASH]).
    { unfold slice. rewrite Hs. now replace (pos + 2 - pos) with 2 by lia. }
    rewrite Hsl. cbn. apply raise_suffixed_err.
  - assert (Hsl : slice src pos (pos + 2) = [BACKSLASH; c])
      by exact (slice_prefix src pos [BACKSLASH; c] tail Hs).
    rewrite Hsl. cbn [stops] in Ht. apply negb_true_iff in Ht.
    destruct (dict_get BASIC_STR_ESCAPE_REPLACEMENTS [BACKSLASH; c]) as [r|] eqn:D.
    { apply dict_get_In in D. cbn [BASIC_STR_ESCAPE_REPLACEMENTS In] in D.
      repeat (destruct D as [D | D];
              [injection D as <- _; vm_compute in Ht; discriminate |]).
      destruct D. }
    destruct (str_eq_dec [BACKSLASH; c] (BACKSLASH :: py "u")) as [E|_].
    { injection E as ->. vm_compute in Ht. discriminate. }
    destruct (str_eq_dec [BACKSLASH; c] (BACKSLASH :: py "U")) as [E|_].
    { injection E as ->. vm_compute in Ht. discriminate. }
    cbn [length Nat.eqb negb]. apply raise_suffixed_err.
Qed.

(** X17.  In a basic string a backslash is the start of an escape: one
    that is followed by no escape letter ([b t n f r], the quote, the
    backslash, [u], [U]), or by nothing, makes the value a document error,
    wherever in the string it stands. *)
Theorem unknown_escape_is_rejected re fuel (src : str) pos (s tail : str) :
  skipn pos src = QUOTE :: escape s ++ BACKSLASH :: tail ->
  stops (in_chars escape_letters) tail = true ->
  length s + 1 < fuel ->
  is_decode_error (parse_value re fuel src pos).
Proof.
  intros Hs Ht Hf. destruct fuel as [|fuel]; [lia |].
  destruct (skipn_cons_char_at _ _ _ _ Hs) as [Hat _].
  pose proof (skipn_cons_tail _ _ _ _ Hs) as Hs1.
  cbn [parse_value]. rewrite Hat. cbn [char_is]. rewrite N.eqb_refl.
  assert (Hm : starts_with src (pos + 1) [QUOTE; QUOTE] = false).
  { destruct (escape s ++ BACKSLASH :: tail) as [|x l] eqn:E.
    - destruct (escape s); discriminate.
    - apply (starts_with_first src (pos + 1) _ _ x l Hs1).
      destruct s as [|c s].
      + cbn in E. injection E as <- _. discriminate.
      + destruct (escape_head (c :: s) (BACKSLASH :: tail) x) as [-> | [Hh Hx]];
          [now rewrite E | discriminate | discriminate |].
        apply escape_char_plain in Hx. destruct Hx as [Hx _]. now apply N.eqb_neq. }
  rewrite Hm. apply bind_decode.
  unfold parse_basic_str, parse_string.
  replace fuel with (length s + S (fuel - length s - 1)) by lia.
  destruct (parse_string_loop_escaped 1 ILLEGAL_BASIC_STR_CHARS false (fun c H => H) s
              (S (fuel - length s - 1)) src [] (pos + 1) (pos + 1) _ (le_n _) Hs1)
    as (r' & s' & H1 & H2 & H3).
  rewrite H3.
  pose proof (skipn_app_skip src (pos + 1) _ _ Hs1) as Hs2.
  destruct (skipn_cons_char_at _ _ _ _ Hs2) as [Hat2 _].
  cbn [parse_string_loop]. rewrite Hat2.
  change (N.eqb BACKSLASH QUOTE) with false. rewrite N.eqb_refl. cbv iota.
  apply bind_decode. now apply parse_basic_str_escape_unknown with (tail := tail).
Qed.

Lemma unknown_escape_is_rejected_witness :
  is_decode_error (parse_value tomli_re 4 (py "x = " ++ [QUOTE] ++ py "C:\Windows" ++ [QUOTE]) 4).
Proof.
  apply (unknown_escape_is_rejected tomli_re 4 (py "x = " ++ [QUOTE] ++ py "C:\Windows" ++ [QUOTE])
           4 (py "C:") (py "Windows" ++ [QUOTE])).
  - reflexivity.
  - reflexivity.
  - cbn. lia.
Defined.

(** *** The backslash at the end of a line *)

Lemma blank_cases (c : char) : TOML_WS c = true -> c = 32%N \/ c = TAB.
Proof.
  unfold TOML_WS, in_chars. cbn [existsb]. rewrite orb_false_r. intros H.
  apply orb_prop in H. destruct H as [H | H]; apply N.eqb_eq in H; auto.
Qed.

(** In a multiline string a backslash, blanks and a line feed are skipped
    together with the blanks and line feeds that follow. *)
Lemma parse_basic_str_escape_line_end (src : str) pos (ws blanks t : str) :
  skipn pos src = BACKSLASH :: ws ++ LF :: blanks ++ t ->
  forallb TOML_WS ws = true -> forallb TOML_WS_AND_NEWLINE blanks = true ->
  stops TOML_WS_AND_NEWLINE t = true ->
  parse_basic_str_escape true src pos = Ok (pos + (length ws + length blanks + 2), []).
Proof.
  intros Hs Hw Hb Ht. unfold parse_basic_str_escape. cbn [andb].
  destruct ws as [|w ws].
  - cbn [app] in Hs.
    assert (Hsl : slice src pos (pos + 2) = [BACKSLASH; LF])
      by exact (slice_prefix src pos [BACKSLASH; LF] _ Hs).
    rewrite Hsl.
    change (existsb (str_eqb [BACKSLASH; LF])
              [[BACKSLASH; 32%N]; [BACKSLASH; TAB]; [BACKSLASH; LF]]) with true.
    cbv iota. destruct (str_eq_dec [BACKSLASH; LF] [BACKSLASH; LF]) as [_|N]; [| congruence].
    pose proof (skipn_app_skip src pos [BACKSLASH; LF] _ Hs) as Hs2. cbn [length] in Hs2.
    rewrite (skip_chars_app TOML_WS_AND_NEWLINE src (pos + 2) blanks t Hs2 Hb Ht).
    cbn [length]. f_equal. f_equal. lia.
  - cbn [app] in Hs. cbn [forallb] in Hw. apply andb_prop in Hw. destruct Hw as [Hw0 Hw].
    assert (Hsl : slice src pos (pos + 2) = [BACKSLASH; w])
      by exact (slice_prefix src pos [BACKSLASH; w] _ Hs).
    rewrite Hsl.
    assert (Hex : existsb (str_eqb [BACKSLASH; w])
                    [[BACKSLASH; 32%N]; [BACKSLASH; TAB]; [BACKSLASH; LF]] = true)
      by (destruct (blank_cases w Hw0) as [-> | ->]; reflexivity).
    rewrite Hex. cbv iota.
    destruct (str_eq_dec [BACKSLASH; w] [BACKSLASH; LF]) as [E|_].
    { injection E as ->. discriminate. }
    pose proof (skipn_app_skip src pos [BACKSLASH; w] _ Hs) as Hs2. cbn [length] in Hs2.
    rewrite (skip_chars_app TOML_WS src (pos + 2) ws _ Hs2 Hw eq_refl).
    pose proof (skipn_app_skip src (pos + 2) ws _ Hs2) as Hs3.
    assert (Hsl1 : slice src (pos + 2 + length ws) (pos + 2 + length ws + 1) = [LF])
      by exact (slice_prefix src _ [LF] _ Hs3).
    rewrite Hsl1. destruct (str_eq_dec [LF] [LF]) as [_|N]; [| congruence].
    pose proof (skipn_app_skip src _ [LF] _ Hs3) as Hs4. cbn [length] in Hs4.
    rewrite (skip_chars_app TOML_WS_AND_NEWLINE src _ blanks t Hs4 Hb Ht).
    cbn [length]. f_equal. f_equal. lia.
Qed.

Lemma escape_no_line_feed (s t : str) :
  stops (N.eqb LF) t = true -> head (escape s ++ t) <> Some LF.
Proof.
  intros Ht H. destruct s as [|c s].
  - cbn [escape flat_map app] in H. destruct t as [|y t]; [discriminate |].
    cbn in H, Ht. injection H as ->. discriminate.
  - destruct (escape_head (c :: s) t LF H) as [E | [_ E]]; [discriminate | discriminate |].
    apply escape_char_plain in E. destruct E as (_ & _ & E). discriminate.
Qed.

(** X18.  In a multiline basic string a backslash at the end of a line,
    with or without blanks before the line feed, joins the lines: the
    backslash, the line feed and the blanks and line feeds up to the next
    other character are left out of the value. *)
Theorem line_ending_backslash_joins_lines re fuel (src : str) pos
    (s1 s2 ws blanks rest : str) :
  skipn pos src = repeat QUOTE 3 ++ escape s1 ++ BACKSLASH :: ws ++ LF :: blanks
                    ++ escape s2 ++ repeat QUOTE 3 ++ rest ->
  forallb TOML_WS ws = true -> forallb TOML_WS_AND_NEWLINE blanks = true ->
  stops TOML_WS s2 = true ->
  stops (N.eqb QUOTE) rest = true ->
  length s1 + length s2 + 2 < fuel ->
  parse_value re fuel src pos
  = Ok (pos + (length (escape s1) + length ws + length blanks + length (escape s2) + 8),
        VStr (s1 ++ s2)).
Proof.
  intros Hs Hw Hb Hs2 Hrest Hf. destruct fuel as [|fuel]; [lia |].
  cbn [repeat app] in Hs.
  destruct (skipn_cons_char_at _ _ _ _ Hs) as [Hat _].
  pose proof (skipn_cons_tail _ _ _ _ Hs) as Hq.
  cbn [parse_value]. rewrite Hat. cbn [char_is]. rewrite N.eqb_refl.
  rewrite (starts_with_prefix src (pos + 1) [QUOTE; QUOTE] _ Hq).
  pose proof (skipn_app_skip src pos [QUOTE; QUOTE; QUOTE] _ Hs) as H3.
  cbn [length] in H3.
  unfold parse_multiline_str. cbv zeta.
  rewrite starts_with_char.
  rewrite (char_is_head_false src (pos + 3) LF _ H3)
    by (apply escape_no_line_feed; reflexivity).
  unfold parse_string.
  replace fuel with (length s1 + S (length s2 + S (fuel - length s1 - length s2 - 2))) by lia.
  destruct (parse_string_loop_escaped 3 ILLEGAL_MULTILINE_BASIC_STR_CHARS true
              multiline_basic_illegal s1
              (S (length s2 + S (fuel - length s1 - length s2 - 2)))
              src [] (pos + 3) (pos + 3) _ (le_n _) H3)
    as (r1 & st1 & L1 & R1 & E1).
  change parse_basic_str_escape_multiline with (parse_basic_str_escape true).
  rewrite E1. clear E1.
  pose proof (skipn_app_skip src (pos + 3) _ _ H3) as H4.
  set (p1 := pos + 3 + length (escape s1)) in *.
  destruct (skipn_cons_char_at _ _ _ _ H4) as [Hat1 _].
  assert (Hstop : stops TOML_WS_AND_NEWLINE (escape s2 ++ QUOTE :: QUOTE :: QUOTE :: rest) = true).
  { destruct s2 as [|c s2]; [reflexivity |].
    destruct (escape (c :: s2) ++ QUOTE :: QUOTE :: QUOTE :: rest) as [|x l] eqn:E;
      [reflexivity |].
    destruct (escape_head (c :: s2) (QUOTE :: QUOTE :: QUOTE :: rest) x) as [-> | [Hh Hx]];
      [now rewrite E | discriminate | reflexivity |].
    cbn [head] in Hh. injection Hh as ->. cbn [stops] in *.
    unfold TOML_WS_AND_NEWLINE. apply negb_true_iff in Hs2. rewrite Hs2. cbn [orb].
    apply escape_char_plain in Hx. destruct Hx as (_ & _ & Hx).
    destruct (N.eqb_spec x LF) as [->|]; [discriminate | reflexivity]. }
  pose proof (parse_basic_str_escape_line_end src p1 ws blanks _ H4 Hw Hb Hstop) as Hesc.
  cbn [parse_string_loop]. rewrite Hat1.
  change (N.eqb BACKSLASH QUOTE) with false. rewrite N.eqb_refl. cbv iota.
  rewrite Hesc. cbn [bind].
  set (p2 := p1 + (length ws + length blanks + 2)) in *.
  assert (H5 : skipn p2 src = escape s2 ++ QUOTE :: QUOTE :: QUOTE :: rest).
  { pose proof (skipn_cons_tail _ _ _ _ H4) as T1.
    pose proof (skipn_app_skip src _ ws _ T1) as T2.
    pose proof (skipn_cons_tail _ _ _ _ T2) as T3.
    pose proof (skipn_app_skip src _ blanks _ T3) as T4.
    unfold p2. rewrite <- T4. f_equal. lia. }
  destruct (parse_string_loop_escaped 3 ILLEGAL_MULTILINE_BASIC_STR_CHARS true
              multiline_basic_illegal s2 (S (fuel - length s1 - length s2 - 2))
              src ((r1 ++ slice src st1 p1) ++ []) p2 p2 _ (le_n _) H5)
    as (r2 & st2 & L2 & R2 & E2).
  rewrite E2. clear E2.
  pose proof (skipn_app_skip src p2 _ _ H5) as H6.
  rewrite (parse_string_loop_close QUOTE 3 ILLEGAL_MULTILINE_BASIC_STR_CHARS _ _ src r2 st2 _
             rest H6) by lia.
  cbn [bind].
  pose proof (skipn_app_skip src _ [QUOTE; QUOTE; QUOTE] _ H6) as H7. cbn [length] in H7.
  rewrite starts_with_char.
  rewrite (char_is_head_false src _ QUOTE _ H7).
  - cbn [negb]. rewrite R2, R1, slice_empty, !app_nil_r. cbn [app].
    rewrite slice_empty. cbn [app]. unfold p2, p1. cbn [bind]. f_equal. f_equal. lia.
  - destruct rest as [|y rest]; [discriminate |]. cbn in Hrest |- *.
    intros [= ->]. discriminate.
Qed.

Lemma line_ending_backslash_joins_lines_witness :
  parse_value tomli_re 16
    (repeat QUOTE 3 ++ py "The quick \  " ++ [LF; LF] ++ py "  fox" ++ repeat QUOTE 3) 0
  = Ok (26, VStr (py "The quick fox")).
Proof.
  apply (line_ending_backslash_joins_lines tomli_re 16
           (repeat QUOTE 3 ++ py "The quick \  " ++ [LF; LF] ++ py "  fox" ++ repeat QUOTE 3) 0
           (py "The quick ") (py "fox") (py "  ") (LF :: py "  ") []).
  - reflexivity.
  - reflexivity.
  - reflexivity.
  - reflexivity.
  - reflexivity.
  - cbn. lia.
Defined.

(** ** Arrays *)

(** Blanks and line feeds before something that is neither, nor a
    comment, are skipped in two turns. *)
Lemma skip_comments_and_array_ws_blanks fuel (src : str) pos (ws t : str) :
  skipn pos src = ws ++ t ->
  forallb TOML_WS_AND_NEWLINE ws = true ->
  stops TOML_WS_AND_NEWLINE t = true -> head t <> Some (ch "#") ->
  2 <= fuel ->
  skip_comments_and_array_ws fuel src pos = Ok (pos + length ws).
Proof.
  intros Hs Hw Ht Hc Hf. destruct fuel as [|[|fuel]]; [lia | lia |].
  pose proof (skipn_app_skip src pos ws t Hs) as Hs1.
  assert (Hhere : skip_chars src (pos + length ws) TOML_WS_AND_NEWLINE = pos + length ws).
  { rewrite (skip_chars_app TOML_WS_AND_NEWLINE src (pos + length ws) [] t Hs1 eq_refl Ht).
    cbn [length]. lia. }
  assert (Hno : skip_comment src (pos + length ws) = Ok (pos + length ws)).
  { unfold skip_comment. now rewrite (char_is_head_false src _ (ch "#") t Hs1 Hc). }
  cbn [skip_comments_and_array_ws].
  rewrite (skip_chars_app TOML_WS_AND_NEWLINE src pos ws t Hs Hw Ht), Hno. cbn [bind].
  destruct (Nat.eqb_spec (pos + length ws) pos) as [E|E]; [reflexivity |].
  rewrite Hhere, Hno. cbn [bind]. now rewrite Nat.eqb_refl.
Qed.

Lemma starts_with_one (src : list N) pos (c : N) (t : list N) :
  skipn pos src = c :: t -> starts_with src pos [c] = true.
Proof. intros H. rewrite starts_with_char. eapply char_is_head_true. exact H. Qed.

Lemma starts_with_other (src : list N) pos (c : N) (t : list N) :
  skipn pos src = t -> head t <> Some c -> starts_with src pos [c] = false.
Proof. intros H Hc. rewrite starts_with_char. eapply char_is_head_false; eassumption. Qed.

Lemma array_item_start_head (text t : str) :
  array_item_start text = true ->
  stops TOML_WS_AND_NEWLINE (text ++ t) = true /\
  head (text ++ t) <> Some (ch "#") /\ head (text ++ t) <> Some (ch "]").
Proof.
  destruct text as [|c text]; [discriminate |]. cbn [array_item_start app stops head].
  intros H. apply andb_prop in H. destruct H as [H H3]. apply andb_prop in H.
  destruct H as [H1 H2]. split; [exact H1 |].
  apply negb_true_iff in H2, H3. apply N.eqb_neq in H2, H3. split; congruence.
Qed.

(** Names the position that [H : skipn _ src = _] speaks of. *)
Ltac after_skip H p :=
  unfold str, char in *;
  match type of H with
  | skipn ?q _ = _ =>
      let E := fresh "E" p in
      remember q as p eqn:E in *
  end.

Section ArrayItems.
Variables (parse_value : parser Value) (src : str) (ws1 ws2 rest : str) (trailing : bool).
Hypothesis blank1 : forallb TOML_WS_AND_NEWLINE ws1 = true.
Hypothesis blank2 : forallb TOML_WS_AND_NEWLINE ws2 = true.

Lemma array_item_end_next (texts : list str) (t : str) :
  array_item_end (ws1 ++ array_tail ws1 ws2 texts ++ array_close ws2 trailing ++ t) = true.
Proof.
  destruct ws1 as [|c ws].
  - destruct texts; [| reflexivity]. destruct trailing; reflexivity.
  - cbn [forallb] in blank1. apply andb_prop in blank1. destruct blank1 as [H _].
    cbn [app array_item_end]. now rewrite H.
Qed.

Lemma parse_array_loop_items : forall (items : list (str * Value)) item array fuel pos,
  skipn pos src
  = fst item ++ ws1 ++ array_tail ws1 ws2 (map fst items) ++ array_close ws2 trailing ++ rest ->
  reads_item parse_value src item ->
  (forall i, In i items -> reads_item parse_value src i) ->
  length items + 2 <= fuel ->
  parse_array_loop parse_value fuel src pos array
  = Ok (pos + length (fst item ++ ws1 ++ array_tail ws1 ws2 (map fst items)
                        ++ array_close ws2 trailing),
        VList (array ++ snd item :: map snd items)).
Proof.
  induction items as [|next items IH]; intros item array fuel pos Hs Hitem Hitems Hf;
    (destruct fuel as [|fuel]; [lia |]); cbn [parse_array_loop];
    change (py "]") with [ch "]"]; change (py ",") with [ch ","];
    destruct Hitem as [_ Hread];
    rewrite (Hread pos _ Hs (array_item_end_next _ _)); cbn [bind];
    apply skipn_app_skip in Hs; after_skip Hs p1.
  - cbn [map array_tail app] in *.
    destruct trailing; cbn [array_close app] in *.
    + rewrite (skip_comments_and_array_ws_blanks (S fuel) src p1 ws1 _ Hs blank1 eq_refl)
        by (discriminate || lia).
      cbn [bind]. apply skipn_app_skip in Hs. after_skip Hs p2.
      rewrite (starts_with_other src p2 (ch "]") _ Hs) by discriminate.
      rewrite (starts_with_one src p2 (ch ",") _ Hs). cbn [negb].
      apply skipn_cons_tail in Hs. rewrite <- app_assoc in Hs. cbn [app] in Hs.
      rewrite (skip_comments_and_array_ws_blanks (S fuel) src (p2 + 1) ws2 _ Hs blank2 eq_refl)
        by (discriminate || lia).
      cbn [bind]. apply skipn_app_skip in Hs.
      rewrite (starts_with_one src _ (ch "]") _ Hs).
      rewrite !length_app. cbn [length]. rewrite length_app. cbn [length].
      f_equal. f_equal. unfold str, char in *. lia.
    + rewrite (skip_comments_and_array_ws_blanks (S fuel) src p1 ws1 _ Hs blank1 eq_refl)
        by (discriminate || lia).
      cbn [bind]. apply skipn_app_skip in Hs.
      rewrite (starts_with_one src _ (ch "]") _ Hs).
      rewrite !length_app. cbn [length]. f_equal. f_equal. unfold str, char in *. lia.
  - cbn [map array_tail app] in *.
    rewrite (skip_comments_and_array_ws_blanks (S fuel) src p1 ws1 _ Hs blank1 eq_refl)
      by (discriminate || lia).
    cbn [bind]. apply skipn_app_skip in Hs. after_skip Hs p2.
    rewrite (starts_with_other src p2 (ch "]") _ Hs) by discriminate.
    rewrite (starts_with_one src p2 (ch ",") _ Hs). cbn [negb].
    apply skipn_cons_tail in Hs. rewrite <- !app_assoc in Hs.
    destruct (Hitems next (or_introl eq_refl)) as [Hstart Hnext].
    destruct (array_item_start_head (fst next)
                (ws1 ++ array_tail ws1 ws2 (map fst items) ++ array_close ws2 trailing ++ rest)
                Hstart) as (S1 & S2 & S3).
    rewrite (skip_comments_and_array_ws_blanks (S fuel) src (p2 + 1) ws2 _ Hs blank2 S1 S2)
      by lia.
    cbn [bind]. apply skipn_app_skip in Hs. after_skip Hs p3.
    rewrite (starts_with_other src p3 (ch "]") _ Hs S3).
    rewrite (IH next (array ++ [snd item]) fuel p3 Hs (conj Hstart Hnext)
               (fun i Hi => Hitems i (or_intror Hi)) ltac:(cbn [length] in Hf; lia)).
    rewrite <- app_assoc. cbn [app].
    rewrite !length_app. cbn [length]. rewrite !length_app.
    f_equal. f_equal. unfold str, char in *. lia.
Qed.
End ArrayItems.

(** [parse_array] on an array of items that the value parser reads. *)
Lemma parse_array_of_items (parse_value : parser Value) fuel (src : str) pos
    (ws1 ws2 rest : str) (trailing : bool) (items : list (str * Value)) :
  skipn pos src = array_text ws1 ws2 trailing (map fst items) ++ rest ->
  forallb TOML_WS_AND_NEWLINE ws1 = true -> forallb TOML_WS_AND_NEWLINE ws2 = true ->
  (forall item, In item items -> reads_item parse_value src item) ->
  length items + 2 <= fuel ->
  parse_array parse_value fuel src pos
  = Ok (pos + length (array_text ws1 ws2 trailing (map fst items)), VList (map snd items)).
Proof.
  intros Hs H1 H2 Hitems Hf. unfold array_text in *. cbn [app] in Hs.
  apply skipn_cons_tail in Hs. rewrite <- app_assoc in Hs.
  unfold parse_array. cbv zeta.
  change (py "]") with [ch "]"]. after_skip Hs p1.
  destruct items as [|item items]; cbn [map] in *.
  - rewrite (skip_comments_and_array_ws_blanks fuel src p1 ws2 _ Hs H2 eq_refl)
      by (discriminate || lia).
    cbn [bind]. apply skipn_app_skip in Hs. cbn [app] in Hs.
    rewrite (starts_with_one src _ (ch "]") _ Hs).
    cbn [length]. rewrite length_app. cbn [length]. f_equal. f_equal. unfold str, char in *. lia.
  - rewrite <- !app_assoc in Hs.
    destruct (Hitems item (or_introl eq_refl)) as [Hstart Hread].
    destruct (array_item_start_head (fst item)
                (ws1 ++ array_tail ws1 ws2 (map fst items) ++ array_close ws2 trailing ++ rest)
                Hstart) as (S1 & S2 & S3).
    rewrite (skip_comments_and_array_ws_blanks fuel src p1 ws2 _ Hs H2 S1 S2)
      by (cbn [length] in Hf; lia).
    cbn [bind]. apply skipn_app_skip in Hs. after_skip Hs p2.
    rewrite (starts_with_other src p2 (ch "]") _ Hs S3).
    cbn [length] in Hf.
    rewrite (parse_array_loop_items parse_value src ws1 ws2 rest trailing H1 H2 items item []
               fuel p2 Hs (conj Hstart Hread) (fun i Hi => Hitems i (or_intror Hi)));
      [| unfold str, char in *; lia].
    cbn [app length]. rewrite !length_app. f_equal. f_equal. unfold str, char in *. lia.
Qed.

(** X19.  [parse_array] returns the list of the values that the value
    parser reads for the items, in their order, and the position after the
    closing bracket.  Blanks and line feeds may stand after the opening
    bracket, around the commas and before the closing bracket, and a comma
    may follow the last item.  The fuel is one unit for each item and two
    more.  Items are separated by commas: where, after an item and what is
    skipped behind it, neither a comma nor the closing bracket stands, the
    array is a document error. *)
Theorem parse_array_reads_items (parse_value : parser Value) fuel (src : str) pos :
  (forall (ws1 ws2 rest : str) (trailing : bool) (items : list (str * Value)),
     skipn pos src = array_text ws1 ws2 trailing (map fst items) ++ rest ->
     forallb TOML_WS_AND_NEWLINE ws1 = true -> forallb TOML_WS_AND_NEWLINE ws2 = true ->
     (forall item, In item items -> reads_item parse_value src item) ->
     length items + 2 <= fuel ->
     parse_array parse_value fuel src pos
     = Ok (pos + length (array_text ws1 ws2 trailing (map fst items)),
           VList (map snd items))) /\
  (forall array p1 v p2,
     parse_value src pos = Ok (p1, v) ->
     skip_comments_and_array_ws (S fuel) src p1 = Ok p2 ->
     char_is (char_at src p2) (ch "]") = false ->
     char_is (char_at src p2) (ch ",") = false ->
     is_decode_error (parse_array_loop parse_value (S fuel) src pos array)).
Proof.
  split.
  - intros ws1 ws2 rest trailing items. apply parse_array_of_items.
  - intros array p1 v p2 Hv Hskip H1 H2. cbn [parse_array_loop].
    rewrite Hv. cbn [bind]. rewrite Hskip. cbn [bind].
    change (py "]") with [ch "]"]. change (py ",") with [ch ","].
    rewrite !starts_with_char, H1, H2. cbn [negb]. apply raise_suffixed_err.
Qed.

(** ** Values that are read back *)

Lemma tomli_re_dec_or_float_start (src : str) pos m :
  RE_DEC_OR_FLOAT tomli_re src pos = Some m ->
  exists c, char_at src pos = Some c /\ starts_number c = true.
Proof.
  intros H. change (RE_DEC_OR_FLOAT tomli_re) with (Re.plain Re.dec_or_float_matcher) in H.
  unfold Re.plain in H. apply of_matcher_Some in H. destruct H as (len & groups & H).
  destruct (Re.dec_or_float_matcher (skipn pos src)) as [n|] eqn:E; [clear H | discriminate].
  destruct (skipn pos src) as [|c t] eqn:Hs; [discriminate |].
  exists c. split; [now destruct (skipn_cons_char_at _ _ _ _ Hs) |].
  unfold Re.dec_or_float_matcher in E. unfold starts_number. cbn [Re.literal] in E.
  destruct (N.eqb c (ch "+")) eqn:Ep; [now rewrite orb_true_r |].
  destruct (N.eqb c (ch "-")) eqn:Em; [now rewrite orb_true_r |].
  cbn [orb skipn] in E. rewrite !orb_false_r.
  destruct (N.eqb_spec c (ch "0")) as [->|_]; [reflexivity |].
  destruct (in_range 49 57 c) eqn:R; [| discriminate].
  unfold ascii_digit, in_range in *. apply andb_prop in R. destruct R as [R1 R2].
  apply N.leb_le in R1, R2. apply andb_true_intro. split; apply N.leb_le; lia.
Qed.

Lemma tomli_re_start_numeric : patterns_start_numeric tomli_re.
Proof.
  intros src pos H. repeat split.
  - destruct (RE_DATETIME tomli_re src pos) as [m|] eqn:E; [| reflexivity].
    destruct (tomli_re_datetime_digit src pos m E) as (c & Hc & Hd).
    apply H in Hc. unfold starts_number in Hc. now rewrite Hd in Hc.
  - destruct (RE_LOCAL_TIME tomli_re src pos) as [m|] eqn:E; [| reflexivity].
    destruct (tomli_re_local_time_digit src pos m E) as (c & Hc & Hd).
    apply H in Hc. unfold starts_number in Hc. now rewrite Hd in Hc.
  - destruct (RE_DEC_OR_FLOAT tomli_re src pos) as [m|] eqn:E; [| reflexivity].
    destruct (tomli_re_dec_or_float_start src pos m E) as (c & Hc & Hd).
    apply H in Hc. congruence.
Qed.

Lemma parse_value_bool re fuel (src : str) pos (b : bool) (t : str) :
  skipn pos src = (if b then py "true" else py "false") ++ t ->
  parse_value re (S fuel) src pos
  = Ok (pos + length (if b then py "true" else py "false"), VBool b).
Proof.
  intros Hs. destruct b; cbn [py map list_ascii_of_string app] in Hs;
    destruct (skipn_cons_char_at _ _ _ _ Hs) as [Hat _];
    pose proof (skipn_cons_tail _ _ _ _ Hs) as Hs1;
    cbn [parse_value]; rewrite Hat; cbn [char_is].
  - change (N.eqb (ch "t") QUOTE) with false. change (N.eqb (ch "t") APOSTROPHE) with false.
    rewrite N.eqb_refl. cbv iota.
    rewrite (starts_with_prefix src (pos + 1) (py "rue") t Hs1). reflexivity.
  - change (N.eqb (ch "f") QUOTE) with false. change (N.eqb (ch "f") APOSTROPHE) with false.
    change (N.eqb (ch "f") (ch "t")) with false. rewrite N.eqb_refl. cbv iota.
    rewrite (starts_with_prefix src (pos + 1) (py "alse") t Hs1). reflexivity.
Qed.

(** At an opening bracket the value parser goes to [parse_array]. *)
Lemma parse_value_array re fuel (src : str) pos (t : str) :
  patterns_start_numeric re ->
  skipn pos src = ch "[" :: t ->
  parse_value re (S fuel) src pos = parse_array (parse_value re fuel) fuel src pos.
Proof.
  intros Hre Hs. destruct (skipn_cons_char_at _ _ _ _ Hs) as [Hat _].
  destruct (Hre src pos) as (R1 & R2 & R3).
  { intros c Hc. rewrite Hat in Hc. now injection Hc as <-. }
  cbn [parse_value]. rewrite Hat, R1, R2, R3. reflexivity.
Qed.

Lemma items_length_In (text : str) (texts : list str) :
  In text texts -> S (length text) <= items_length texts.
Proof.
  unfold items_length.
  induction texts as [|y texts IH]; cbn [In map list_sum fold_right]; [tauto |].
  intros [-> | H]; [lia |]. specialize (IH H). unfold list_sum in IH. lia.
Qed.

Lemma items_length_count (texts : list str) :
  (forall text, In text texts -> text <> []) -> 2 * length texts <= items_length texts.
Proof.
  unfold items_length.
  induction texts as [|y texts IH]; intros H; cbn [map list_sum fold_right length]; [lia |].
  assert (Hy : y <> []) by (apply H; now left).
  specialize (IH (fun t Ht => H t (or_intror Ht))). unfold list_sum in IH.
  destruct y as [|c y]; [congruence |]. cbn [length]. lia.
Qed.

Lemma array_tail_length ws1 ws2 (texts : list str) :
  items_length texts <= length (array_tail ws1 ws2 texts).
Proof.
  unfold items_length.
  induction texts as [|y texts IH]; cbn [map list_sum fold_right array_tail length]; [lia |].
  unfold list_sum in IH. rewrite !length_app. lia.
Qed.

Lemma array_text_length ws1 ws2 trailing (texts : list str) :
  2 <= length (array_text ws1 ws2 trailing texts) /\
  S (items_length texts) <= length (array_text ws1 ws2 trailing texts).
Proof.
  unfold array_text. cbn [length]. rewrite length_app.
  destruct texts as [|y texts].
  - cbn. lia.
  - pose proof (array_tail_length ws1 ws2 texts) as H.
    unfold items_length in *. cbn [map list_sum fold_right]. unfold list_sum in H.
    rewrite !length_app. unfold array_close. rewrite length_app. cbn [length]. lia.
Qed.

Lemma escape_length (s : str) : length s <= length (escape s).
Proof.
  induction s as [|c s IH]; [apply le_n |].
  unfold escape in *. cbn [flat_map length]. rewrite length_app.
  assert (1 <= length (escape_char c)).
  { unfold escape_char.
    destruct (N.eqb c QUOTE), (N.eqb c BACKSLASH), (ILLEGAL_BASIC_STR_CHARS c); cbn; lia. }
  lia.
Qed.

Lemma render_start ws1 ws2 trailing (v : Value) :
  simple v = true -> array_item_start (render ws1 ws2 trailing v) = true.
Proof. destruct v as [s| | |[|]| | | |items|]; try discriminate; reflexivity. Qed.

Lemma array_item_end_no_quote (t : str) :
  array_item_end t = true -> stops (N.eqb QUOTE) t = true.
Proof.
  destruct t as [|c t]; [reflexivity |]. cbn [array_item_end stops].
  destruct (N.eqb_spec QUOTE c) as [<-|]; [discriminate | reflexivity].
Qed.

(** The value parser on the text of a simple value. *)
Lemma parse_value_simple re (ws1 ws2 : str) (trailing : bool) :
  patterns_start_numeric re ->
  forallb TOML_WS_AND_NEWLINE ws1 = true -> forallb TOML_WS_AND_NEWLINE ws2 = true ->
  forall fuel (v : Value) (src : str) pos (rest : str),
    simple v = true ->
    length (render ws1 ws2 trailing v) < fuel ->
    skipn pos src = render ws1 ws2 trailing v ++ rest ->
    stops (N.eqb QUOTE) rest = true ->
    parse_value re fuel src pos = Ok (pos + length (render ws1 ws2 trailing v), v).
Proof.
  intros Hre H1 H2.
  induction fuel as [|fuel IH]; intros v src pos rest Hv Hf Hs Hrest; [lia |].
  destruct v as [s| | |b| | | |items|]; try discriminate.
  - cbn [render] in *.
    assert (Hs0 : skipn pos src = QUOTE :: escape s ++ QUOTE :: rest)
      by (rewrite Hs; cbn [app]; now rewrite <- app_assoc).
    clear Hs. rename Hs0 into Hs.
    destruct (skipn_cons_char_at _ _ _ _ Hs) as [Hat _].
    pose proof (skipn_cons_tail _ _ _ _ Hs) as Hs1.
    cbn [parse_value]. rewrite Hat. cbn [char_is]. rewrite N.eqb_refl.
    rewrite (escape_not_multiline src (pos + 1) s rest Hs1 (fun _ => Hrest)).
    pose proof (escape_length s) as Hlen.
    cbn [length] in Hf. rewrite length_app in Hf. cbn [length] in Hf.
    rewrite (parse_basic_str_escaped fuel src pos s rest Hs) by (unfold str, char in *; lia).
    cbn [bind length]. rewrite length_app. cbn [length]. f_equal. f_equal. lia.
  - cbn [render] in *.
    replace (match b with true => py "true" | false => py "false" end)
      with (if b then py "true" else py "false") in * by now destruct b.
    now apply parse_value_bool with (t := rest).
  - cbn [render simple] in *.
    pose proof Hs as Hb. unfold array_text in Hb. cbn [app] in Hb.
    rewrite (parse_value_array re fuel src pos _ Hre Hb).
    set (items' := map (fun x => (render ws1 ws2 trailing x, x)) items).
    assert (Hfst : map fst items' = map (render ws1 ws2 trailing) items).
    { unfold items'. rewrite map_map. reflexivity. }
    assert (Hsnd : map snd items' = items).
    { unfold items'. rewrite map_map. apply map_id. }
    rewrite <- Hfst in Hs, Hf |- *.
    replace (VList items) with (VList (map snd items')) by now rewrite Hsnd.
    destruct (array_text_length ws1 ws2 trailing (map fst items')) as [L2 Ls].
    assert (Hstart : forall item, In item items' -> array_item_start (fst item) = true).
    { intros item Hin. unfold items' in Hin. apply in_map_iff in Hin.
      destruct Hin as (x & <- & Hx). cbn [fst]. apply render_start.
      rewrite forallb_forall in Hv. now apply Hv. }
    apply parse_array_of_items with (rest := rest); try assumption.
    + intros item Hin. split; [now apply Hstart |].
      pose proof (items_length_In (fst item) (map fst items') (in_map fst _ _ Hin)) as Hl.
      unfold items' in Hin. apply in_map_iff in Hin.
      destruct Hin as (x & <- & Hx). cbn [fst snd] in *.
      intros p t Ht Hend. apply IH with (rest := t).
      * rewrite forallb_forall in Hv. now apply Hv.
      * unfold str, char in *. lia.
      * exact Ht.
      * now apply array_item_end_no_quote.
    + assert (Hc : 2 * length (map fst items') <= items_length (map fst items')).
      { apply items_length_count. intros text Hin. apply in_map_iff in Hin.
        destruct Hin as (item & <- & Hin). specialize (Hstart item Hin).
        intros E. rewrite E in Hstart. discriminate. }
      rewrite length_map in Hc. unfold str, char in *. lia.
Qed.

(** X20.  Booleans, strings and arrays of them, nested to any depth, are
    read back by the value parser from their text: a value written with
    strings as basic strings and arrays in brackets, with any blanks and
    line feeds inside the brackets and a trailing comma or not, gives the
    value and the position after the text, with a unit of fuel for each
    character of the text and one more.  The patterns of numbers and dates
    are taken to match only at a digit or a sign, as those of [tomli._re]
    do. *)
Theorem simple_values_round_trip re (ws1 ws2 : str) (trailing : bool) (v : Value) fuel
    (src : str) pos (rest : str) :
  patterns_start_numeric re ->
  forallb TOML_WS_AND_NEWLINE ws1 = true -> forallb TOML_WS_AND_NEWLINE ws2 = true ->
  simple v = true ->
  length (render ws1 ws2 trailing v) < fuel ->
  skipn pos src = render ws1 ws2 trailing v ++ rest ->
  stops (N.eqb QUOTE) rest = true ->
  patterns_start_numeric tomli_re /\
  parse_value re fuel src pos = Ok (pos + length (render ws1 ws2 trailing v), v).
Proof.
  intros Hre H1 H2 Hv Hf Hs Hrest. split.
  - exact tomli_re_start_numeric.
  - now apply (parse_value_simple re ws1 ws2 trailing Hre H1 H2 fuel v src pos rest).
Qed.

Lemma parse_array_reads_items_witness :
  parse_array (parse_value tomli_re 1) 4 (py "x = [ true , false ]") 4
  = Ok (20, VList [VBool true; VBool false]).
Proof.
  apply (proj1 (parse_array_reads_items (parse_value tomli_re 1) 4 (py "x = [ true , false ]") 4)
           (py " ") (py " ") [] false [(py "true", VBool true); (py "false", VBool false)]).
  - reflexivity.
  - reflexivity.
  - reflexivity.
  - intros item [<- | [<- | []]]; (split; [reflexivity |]); intros p t Ht _.
    + exact (parse_value_bool tomli_re 0 _ p true t Ht).
    + exact (parse_value_bool tomli_re 0 _ p false t Ht).
  - cbn. lia.
Defined.

Lemma simple_values_round_trip_witness :
  patterns_start_numeric tomli_re /\
  parse_value tomli_re 32
    (py "[ true, [ " ++ [QUOTE] ++ py "a" ++ [QUOTE] ++ py ", false, ], [ ], ] # end") 0
  = Ok (31, VList [VBool true; VList [VStr (py "a"); VBool false]; VList []]).
Proof.
  apply (simple_values_round_trip tomli_re [] (py " ") true
           (VList [VBool true; VList [VStr (py "a"); VBool false]; VList []]) 32
           (py "[ true, [ " ++ [QUOTE] ++ py "a" ++ [QUOTE] ++ py ", false, ], [ ], ] # end") 0
           (py " # end")).
  - exact tomli_re_start_numeric.
  - reflexivity.
  - reflexivity.
  - reflexivity.
  - cbn. lia.
  - reflexivity.
  - reflexivity.
Defined.

(** ** Inline tables *)

(** Where no key can start, a key/value pair is a document error. *)
Lemma parse_key_value_pair_no_key (parse_value : parser Value) fuel (src : str) pos :
  stops KEY_INITIAL_CHARS (skipn pos src) = true ->
  is_decode_error (parse_key_value_pair parse_value fuel src pos).
Proof.
  intros H. unfold parse_key_value_pair, parse_key. do 2 apply bind_decode.
  unfold parse_key_part.
  destruct (skipn pos src) as [|c t] eqn:E.
  - rewrite (skipn_nil_char_at _ _ E). apply raise_suffixed_err.
  - destruct (skipn_cons_char_at _ _ _ _ E) as [Hat _]. rewrite Hat.
    cbn [stops] in H. apply negb_true_iff in H.
    unfold KEY_INITIAL_CHARS, in_chars in H. cbn [existsb] in H.
    rewrite orb_false_r in H. apply orb_false_elim in H. destruct H as [Hb H].
    apply orb_false_elim in H. destruct H as [Hq Ha].
    rewrite Hb, Hq, Ha. apply raise_suffixed_err.
Qed.

(** Without access to lists [get_or_create_nest] returns, raises what its
    caller's action raises, or raises the [KeyError]. *)
Lemma get_or_create_nest_dicts_outcome use :
  (forall d, match use d with
             | Ok _ => True
             | Raise e => is_decode_error (@Raise (dict Value) e)
             | OutOfFuel => False
             end) ->
  forall key cont,
    match get_or_create_nest false key use cont with
    | Ok _ => True
    | Raise e => is_decode_error (@Raise (dict Value) e) \/ e = no_nest
    | OutOfFuel => False
    end.
Proof.
  intros Huse. induction key as [|k key IH]; intros cont; cbn [get_or_create_nest].
  - specialize (Huse cont). destruct (use cont); auto.
  - destruct (match dict_get cont k with Some v => v | None => VDict [] end)
      as [| | | | | | |l|d]; auto.
    specialize (IH d). destruct (get_or_create_nest false key use d) as [d'|e|]; cbn [bind]; auto.
Qed.

(** X21.  An inline table stands on one line and has no trailing comma:
    after the opening brace and after each comma only blanks are skipped,
    and what follows has to start a key.  A line feed, a comment, the end
    of the text or, after a comma, the closing brace there make the table
    a document error. *)
Theorem inline_table_is_one_line (parse_value : parser Value) fuel (src : str) pos :
  (char_is (char_at src (skip_chars src (pos + 1) TOML_WS)) (ch "}") = false ->
   stops KEY_INITIAL_CHARS (skipn (skip_chars src (pos + 1) TOML_WS) src) = true ->
   is_decode_error (parse_inline_table parse_value (S fuel) src pos)) /\
  (forall nested_dict flags p1 key value,
     parse_key_value_pair parse_value (S (S fuel)) src pos = Ok (p1, (key, value)) ->
     char_at src (skip_chars src p1 TOML_WS) = Some (ch ",") ->
     stops KEY_INITIAL_CHARS
       (skipn (skip_chars src (skip_chars src p1 TOML_WS + 1) TOML_WS) src) = true ->
     is_decode_error
       (parse_inline_table_loop parse_value (S (S fuel)) src pos nested_dict flags)).
Proof.
  split.
  - intros Hclose Hkey. unfold parse_inline_table. cbv zeta.
    change (py "}") with [ch "}"]. rewrite starts_with_char, Hclose.
    cbn [parse_inline_table_loop]. apply bind_decode.
    now apply parse_key_value_pair_no_key.
  - intros nested_dict flags p1 key value Hpair Hcomma Hkey.
    pose proof (parse_key_value_pair_nonempty _ _ _ _ _ _ _ Hpair) as Hne.
    cbn [parse_inline_table_loop]. rewrite Hpair. cbn [bind].
    destruct key as [|k key]; [congruence |].
    destruct (is_ (k :: key) FROZEN flags); [apply raise_suffixed_err |].
    match goal with
    | |- context [get_or_create_nest false ?kp ?use nested_dict] =>
        assert (Huse : forall d, match use d with
                                 | Ok _ => True
                                 | Raise e => is_decode_error (@Raise (dict Value) e)
                                 | OutOfFuel => False
                                 end)
          by (intros d; cbv beta; destruct (dict_in (last (k :: key) []) d);
              [apply raise_suffixed_err | exact I]);
        pose proof (get_or_create_nest_dicts_outcome use Huse kp nested_dict) as Hout;
        destruct (get_or_create_nest false kp use nested_dict) as [d|e|]
    end; [| | destruct Hout].
    + cbn [except_KeyError bind].
      change (py "}") with [ch "}"]. change (py ",") with [ch ","].
      rewrite !starts_with_char, Hcomma. cbn [char_is].
      change (N.eqb (ch ",") (ch "}")) with false. rewrite N.eqb_refl. cbn [negb].
      cbn [parse_inline_table_loop]. apply bind_decode.
      now apply parse_key_value_pair_no_key.
    + apply bind_decode. destruct Hout as [[m Hm] | ->].
      * injection Hm as ->. cbn [except_KeyError]. now exists m.
      * cbn [except_KeyError no_nest]. apply raise_suffixed_err.
Qed.

Lemma inline_table_is_one_line_witness :
  is_decode_error
    (parse_inline_table (parse_value tomli_re 2) 3 (py "t = {" ++ [LF] ++ py "a = true }") 4) /\
  is_decode_error
    (parse_inline_table_loop (parse_value tomli_re 2) 3 (py "t = { a = true, }") 6 [] []).
Proof.
  split.
  - apply (proj1 (inline_table_is_one_line (parse_value tomli_re 2) 2
                    (py "t = {" ++ [LF] ++ py "a = true }") 4)); reflexivity.
  - apply (proj2 (inline_table_is_one_line (parse_value tomli_re 2) 1
                    (py "t = { a = true, }") 6) [] [] 14 [py "a"] (VBool true));
      reflexivity.
Defined.

(** ** Documents of key/value pairs *)

Lemma dict_set_new {V} (d : dict V) (k : str) (v : V) :
  dict_get d k = None -> dict_set d k v = d ++ [(k, v)].
Proof.
  induction d as [|[k' v'] d IH]; cbn [dict_get dict_set app]; [reflexivity |].
  destruct (str_eq_dec k k'); [discriminate |]. intros H. now rewrite IH.
Qed.

Lemma dict_get_snoc_other {V} (d : dict V) (k k' : str) (v : V) :
  k' <> k -> dict_get (d ++ [(k, v)]) k' = dict_get d k'.
Proof.
  intros Hne. induction d as [|[k0 v0] d IH]; cbn [dict_get app].
  - destruct (str_eq_dec k' k); [congruence | reflexivity].
  - destruct (str_eq_dec k' k0); [reflexivity | exact IH].
Qed.

Lemma bare_not_CR (c : char) : BARE_KEY_CHARS c = true -> negb (N.eqb c CR) = true.
Proof. destruct (N.eqb_spec c CR) as [->|]; [discriminate | reflexivity]. Qed.

Lemma no_CR_app (a b : str) : no_CR (a ++ b) = (no_CR a && no_CR b)%bool.
Proof. apply forallb_app. Qed.

Lemma document_no_CR re (items : list (str * (str * Value))) :
  (forall item, In item items -> pair_ok re item) -> no_CR (document items) = true.
Proof.
  induction items as [|item items IH]; intros H; [reflexivity |].
  unfold document. cbn [flat_map]. fold (document items).
  destruct (H item (or_introl eq_refl)) as (Hk & Ht & _).
  unfold pair_line. rewrite !no_CR_app, Ht, IH by (intros i Hi; apply H; now right).
  unfold bare_part in Hk. apply andb_prop in Hk. destruct Hk as [_ Hk].
  assert (Hkey : no_CR (fst item) = true).
  { unfold no_CR. rewrite forallb_forall in *. intros c Hc. apply bare_not_CR. now apply Hk. }
  now rewrite Hkey.
Qed.

Lemma bare_head (key t : str) :
  bare_part key = true ->
  exists c rest, key ++ t = c :: rest /\ BARE_KEY_CHARS c = true.
Proof.
  unfold bare_part. destruct key as [|c key]; [discriminate |].
  cbn [length Nat.eqb negb andb forallb app]. intros H. apply andb_prop in H.
  destruct H as [Hc _]. eauto.
Qed.

(** The statement loop on the lines of a document. *)
Lemma loads_loop_pairs re (src : str) :
  forall (items : list (str * (str * Value))) out_ flags_ fuel pos,
    (forall item, In item items -> pair_ok re item) ->
    NoDup (map fst items) ->
    (forall item, In item items -> dict_get out_ (fst item) = None) ->
    skipn pos src = document items ->
    length (document items) < fuel ->
    loads_loop re fuel src pos (mkState out_ flags_ []) = Ok (out_ ++ table_of items).
Proof.
  induction items as [|item items IH]; intros out_ flags_ fuel pos Hok Hdup Hnew Hs Hf;
    (destruct fuel as [|fuel]; [lia |]); cbn [loads_loop].
  - cbn [document flat_map] in Hs.
    rewrite (skip_chars_app TOML_WS src pos [] [] Hs eq_refl eq_refl). cbn [length].
    rewrite Nat.add_0_r, (skipn_nil_char_at _ _ Hs). cbn [out table_of map].
    now rewrite app_nil_r.
  - destruct item as [key [text v]].
    destruct (Hok _ (or_introl eq_refl)) as (Hk & _ & Hblank & Hread). cbn [fst snd] in *.
    unfold document in Hs, Hf. cbn [flat_map fst snd] in Hs, Hf. fold (document items) in Hs, Hf.
    unfold pair_line in Hs, Hf. rewrite <- !app_assoc in Hs. cbn [app] in Hs.
    rewrite !length_app in Hf. cbn [length] in Hf.
    destruct (bare_head key (py " = " ++ text ++ LF :: document items) Hk)
      as (c & krest & Hhead & Hc).
    assert (Hnws : TOML_WS c = false).
    { destruct (TOML_WS c) eqn:W; [| reflexivity].
      destruct (blank_cases c W) as [-> | ->]; discriminate. }
    assert (Hs' : skipn pos src = c :: krest) by (now rewrite Hs).
    rewrite (skip_chars_app TOML_WS src pos [] (c :: krest) Hs' eq_refl)
      by (cbn [stops]; now rewrite Hnws).
    cbn [length]. rewrite Nat.add_0_r.
    destruct (skipn_cons_char_at _ _ _ _ Hs') as [Hat _]. rewrite Hat.
    assert (Hlf : N.eqb c LF = false)
      by (destruct (N.eqb_spec c LF) as [->|]; [discriminate | reflexivity]).
    assert (Hhash : N.eqb c (ch "#") = false)
      by (destruct (N.eqb_spec c (ch "#")) as [->|]; [discriminate | reflexivity]).
    assert (Hinit : KEY_INITIAL_CHARS c = true) by (unfold KEY_INITIAL_CHARS; now rewrite Hc).
    rewrite Hlf, Hhash, Hinit.
    (* the key *)
    assert (Hkey : parse_key fuel src pos = Ok (pos + length key + 1, [key])).
    { unfold parse_key.
      rewrite (parse_key_part_bare fuel src pos key _ Hs Hk eq_refl). cbn [bind].
      pose proof (skipn_app_skip src pos key _ Hs) as H1.
      rewrite (skip_chars_app TOML_WS src _ [32%N] _ H1 eq_refl eq_refl).
      pose proof (skipn_app_skip src _ [32%N] _ H1) as H2. cbn [length] in H2 |- *.
      destruct fuel as [|fuel]; [lia |]. cbn [parse_key_loop].
      destruct (skipn_cons_char_at _ _ _ _ H2) as [Hat2 _]. rewrite Hat2. reflexivity. }
    assert (H3 : skipn (pos + length key + 1) src
                 = ch "=" :: 32%N :: text ++ LF :: document items).
    { pose proof (skipn_app_skip src pos key _ Hs) as H1.
      exact (skipn_cons_tail _ _ _ _ H1). }
    destruct (skipn_cons_char_at _ _ _ _ H3) as [Hat3 _].
    pose proof (skipn_cons_tail _ _ _ _ H3) as H4.
    assert (Hstop : stops TOML_WS (text ++ LF :: document items) = true).
    { rewrite stops_app. destruct text; [reflexivity | exact Hblank]. }
    pose proof (skip_chars_app TOML_WS src _ [32%N] _ H4 eq_refl Hstop) as Hskip.
    pose proof (skipn_app_skip src _ [32%N] _ H4) as H5. cbn [length] in H5, Hskip.
    unfold key_value_rule, parse_key_value_pair.
    rewrite Hkey. cbn [bind]. rewrite Hat3. cbn [char_is]. rewrite N.eqb_refl. cbn [negb].
    rewrite Hskip.
    rewrite (Hread fuel src _ (document items) ltac:(unfold str, char in *; lia) H5).
    cbn [bind].
    (* the effect *)
    pose proof (Hnew (key, (text, v)) (or_introl eq_refl)) as Hnone. cbn [fst] in Hnone.
    assert (Hfresh : dict_in key out_ = false) by (unfold dict_in; now rewrite Hnone).
    unfold key_value_effect.
    cbn [removelast last header_namespace flags out app get_or_create_nest is_].
    rewrite Hfresh. cbn [except_KeyError bind].
    (* the end of the line *)
    pose proof (skipn_app_skip src _ text _ H5) as H6.
    rewrite (skip_chars_app TOML_WS src _ [] _ H6 eq_refl eq_refl).
    cbn [length]. rewrite Nat.add_0_r.
    destruct (skipn_cons_char_at _ _ _ _ H6) as [Hat6 _].
    unfold skip_comment. rewrite Hat6. cbn [char_is].
    change (N.eqb LF (ch "#")) with false. cbv iota. cbn [bind]. rewrite Hat6.
    rewrite N.eqb_refl. cbn [negb].
    pose proof (skipn_cons_tail _ _ _ _ H6) as H7.
    rewrite (dict_set_new out_ key v Hnone).
    cbn [map] in Hdup. inversion Hdup as [|k ks Hnotin Hdup']; subst.
    match goal with
    | |- loads_loop re fuel src ?p (mkState ?o ?f []) = _ =>
        rewrite (IH o f fuel p)
    end.
    + cbn [table_of map fst snd]. now rewrite <- app_assoc.
    + intros i Hi. apply Hok. now right.
    + exact Hdup'.
    + intros i Hi. rewrite dict_get_snoc_other.
      * apply Hnew. now right.
      * intros E. apply Hnotin. cbn [fst]. rewrite <- E. now apply in_map.
    + exact H7.
    + unfold str, char in *. lia.
Qed.

(** X22.  A document of lines [key = value] with bare keys that are all
    different is loaded as the table of its pairs, in the order of the
    lines: each value is what the value parser reads from its text. *)
Theorem loads_reads_pairs re (items : list (str * (str * Value))) :
  (forall item, In item items -> pair_ok re item) ->
  NoDup (map fst items) ->
  loads re (document items) = Ok (table_of items).
Proof.
  intros Hok Hdup. unfold loads. cbv zeta.
  rewrite (replace_crlf_no_CR _ (document_no_CR re items Hok)).
  change State_init with (mkState [] [] []).
  rewrite (loads_loop_pairs re (document items) items [] [] _ 0 Hok Hdup).
  - reflexivity.
  - reflexivity.
  - reflexivity.
  - lia.
Qed.

(** The texts of simple values are read as the values. *)
Lemma simple_value_read re (ws1 ws2 : str) (trailing : bool) (v : Value) :
  patterns_start_numeric re ->
  forallb TOML_WS_AND_NEWLINE ws1 = true -> forallb TOML_WS_AND_NEWLINE ws2 = true ->
  simple v = true ->
  value_read re (render ws1 ws2 trailing v) v.
Proof.
  intros Hre H1 H2 Hv fuel src pos rest Hf Hs.
  now apply (parse_value_simple re ws1 ws2 trailing Hre H1 H2 fuel v src pos (LF :: rest)).
Qed.

Lemma loads_reads_pairs_witness :
  loads tomli_re (py "flag = true" ++ [LF] ++ py "list = [ true, [ false, ], ]" ++ [LF])
  = Ok [(py "flag", VBool true); (py "list", VList [VBool true; VList [VBool false]])].
Proof.
  apply (loads_reads_pairs tomli_re
           [(py "flag", (py "true", VBool true));
            (py "list", (py "[ true, [ false, ], ]", VList [VBool true; VList [VBool false]]))]).
  - intros item [<- | [<- | []]]; (split; [reflexivity |]); (split; [reflexivity |]);
      (split; [reflexivity |]); cbn [fst snd].
    + exact (simple_value_read tomli_re [] [] false (VBool true)
               tomli_re_start_numeric eq_refl eq_refl eq_refl).
    + exact (simple_value_read tomli_re [] (py " ") true
               (VList [VBool true; VList [VBool false]])
               tomli_re_start_numeric eq_refl eq_refl eq_refl).
  - repeat constructor; cbn; intuition discriminate.
Defined.

(** ** Lines *)

Lemma char_at_skipn_cons (src : str) pos (c : char) :
  char_at src pos = Some c -> exists t, skipn pos src = c :: t.
Proof.
  intros H. pose proof (char_at_skipn src pos 0) as E. rewrite Nat.add_0_r, H in E.
  destruct (skipn pos src) as [|x t]; [discriminate |].
  cbn in E. injection E as ->. now exists t.
Qed.

(** A line that starts with none of the characters that start a statement,
    a comment or the end of the line is a document error. *)
Lemma loads_loop_invalid_statement re fuel (src : str) pos state (c : char) :
  char_at src (skip_chars src pos TOML_WS) = Some c ->
  N.eqb c LF = false -> N.eqb c (ch "#") = false ->
  KEY_INITIAL_CHARS c = false -> N.eqb c (ch "[") = false ->
  is_decode_error (loads_loop re (S fuel) src pos state).
Proof.
  intros Hat H1 H2 H3 H4.
  destruct (char_at_skipn_cons _ _ _ Hat) as [t Hs].
  assert (Hst : statement_at re fuel src pos
                = Some (Raise (suffixed_err src (skip_chars src pos TOML_WS)
                                 [Lit "Invalid statement"]))).
  { unfold statement_at. rewrite Hat, H1, H2, H3, H4. cbn [orb].
    change (py "[[") with [ch "["; ch "["].
    rewrite (starts_with_first src _ (ch "[") [ch "["] c t Hs); [reflexivity |].
    now apply N.eqb_neq. }
  rewrite (loads_loop_statement re fuel src pos state _ Hst). cbn [bind].
  apply raise_suffixed_err.
Qed.

(** After a statement only blanks and a comment may stand on the line. *)
Lemma loads_loop_second_statement re fuel (src : str) pos state p st state' p1 (c : char) :
  statement_at re fuel src pos = Some (Ok (p, st)) ->
  exec src p state st = Ok state' ->
  end_of_statement src p st = Ok p1 ->
  char_at src (skip_chars src p1 TOML_WS) = Some c ->
  N.eqb c LF = false -> N.eqb c (ch "#") = false ->
  is_decode_error (loads_loop re (S fuel) src pos state).
Proof.
  intros Hst Hexec Hend Hat H1 H2.
  rewrite (loads_loop_statement re fuel src pos state _ Hst). cbn [bind].
  rewrite Hexec. cbn [bind]. rewrite Hend. cbn [bind].
  unfold skip_comment. rewrite Hat. cbn [char_is]. rewrite H2. cbn [bind].
  rewrite Hat, H1. cbn [negb]. apply raise_suffixed_err.
Qed.

(** X23.  A line of a document holds a blank line, a comment or one
    statement, with a comment behind it or not.  Wherever the statement
    loop of [loads] has come to the start of a line, a line whose first
    character after the blanks starts no statement, and a statement that
    is followed on its line by something other than blanks and a comment,
    make [loads] raise the document error. *)
Theorem one_statement_per_line re (s : str) fuel pos state (c : char) :
  lines (fun _ => True) re (replace_crlf s) (loads_start (replace_crlf s))
    (S fuel, pos, state) ->
  N.eqb c LF = false -> N.eqb c (ch "#") = false ->
  (char_at (replace_crlf s) (skip_chars (replace_crlf s) pos TOML_WS) = Some c ->
   KEY_INITIAL_CHARS c = false -> N.eqb c (ch "[") = false ->
   is_decode_error (loads re s)) /\
  (forall p st state' p1,
     statement_at re fuel (replace_crlf s) pos = Some (Ok (p, st)) ->
     exec (replace_crlf s) p state st = Ok state' ->
     end_of_statement (replace_crlf s) p st = Ok p1 ->
     char_at (replace_crlf s) (skip_chars (replace_crlf s) p1 TOML_WS) = Some c ->
     is_decode_error (loads re s)).
Proof.
  intros L H1 H2.
  assert (E : loads re s = loads_loop re (S fuel) (replace_crlf s) pos state).
  { unfold loads. unfold loads_start in L.
    now rewrite (lines_loads_loop _ _ _ _ _ _ _ L). }
  rewrite E. split.
  - intros Hat H3 H4. now apply loads_loop_invalid_statement with (c := c).
  - intros p st state' p1 Hst Hexec Hend Hat.
    now apply loads_loop_second_statement with (p := p) (st := st) (state' := state')
                                                (p1 := p1) (c := c).
Qed.

Lemma one_statement_per_line_witness :
  is_decode_error (toml_loads (doc ["a = 1"; "b = 2 c = 3"])).
Proof.
  refine (proj2 (one_statement_per_line tomli_re (doc ["a = 1"; "b = 2 c = 3"]) 18 6
                   (mkState [(py "a", VInt 1)] [(py "a", mkNode [EXPLICIT_NEST] [] [])] [])
                   (ch "c") _ _ _)
            11 (SKeyValue [py "b"] (VInt 2))
            (mkState [(py "a", VInt 1); (py "b", VInt 2)]
                     [(py "a", mkNode [EXPLICIT_NEST] [] []);
                      (py "b", mkNode [EXPLICIT_NEST] [] [])] [])
            11 _ _ _ _).
  - apply (lines_more _ tomli_re _ _ (20, 0, State_init)
             (19, 6, mkState [(py "a", VInt 1)] [(py "a", mkNode [EXPLICIT_NEST] [] [])] [])
             (Some (5, SKeyValue [py "a"] (VInt 1)))).
    + apply lines_none.
    + apply (line_statement tomli_re _ 19 0 State_init 5 (SKeyValue [py "a"] (VInt 1))
               (mkState [(py "a", VInt 1)] [(py "a", mkNode [EXPLICIT_NEST] [] [])] [])
               5 5);
        vm_compute; reflexivity.
    + intros p s _. exact I.
  - reflexivity.
  - reflexivity.
  - vm_compute. reflexivity.
  - vm_compute. reflexivity.
  - reflexivity.
  - reflexivity.
Defined.

(** ** Table headers *)

(** Walking to a key that is not there makes an empty table of it. *)
Lemma get_or_create_nest_new key : forall cont cont',
  key <> [] ->
  value_at key cont = None ->
  get_or_create_nest true key (fun nest => Ok nest) cont = Ok cont' ->
  value_at key cont' = Some (VDict []).
Proof.
  induction key as [|k key IH]; intros cont cont' Hne Hv H; [congruence |].
  cbn [get_or_create_nest] in H.
  destruct key as [|k2 key].
  - cbn [value_at] in Hv. rewrite Hv in H. cbn [get_or_create_nest bind] in H.
    injection H as <-. cbn [value_at]. apply dict_get_set_eq.
  - rewrite value_at_cons in Hv |- * by discriminate.
    destruct (dict_get cont k) as [[| | | | | | |l|d]|] eqn:G; try discriminate.
    + destruct (last_item l) as [[| | | | | | |l'|d]|] eqn:L; try discriminate.
      destruct (get_or_create_nest true (k2 :: key) (fun nest => Ok nest) d) as [d'| |] eqn:E;
        try discriminate.
      cbn [bind] in H. injection H as <-. rewrite dict_get_set_eq, last_item_app.
      now apply (IH d d').
    + destruct (get_or_create_nest true (k2 :: key) (fun nest => Ok nest) d) as [d'| |] eqn:E;
        try discriminate.
      cbn [bind] in H. injection H as <-. rewrite dict_get_set_eq.
      now apply (IH d d').
    + destruct (get_or_create_nest true (k2 :: key) (fun nest => Ok nest) []) as [d'| |] eqn:E;
        try discriminate.
      cbn [bind] in H. injection H as <-. rewrite dict_get_set_eq.
      apply (IH [] d'); [discriminate | | exact E].
      destruct key; reflexivity.
Qed.

(** Walking to a key that is there leaves the tree as it is. *)
Lemma get_or_create_nest_there key : forall cont cont',
  key_exists key cont = true ->
  get_or_create_nest true key (fun nest => Ok nest) cont = Ok cont' ->
  cont' = cont.
Proof.
  unfold key_exists.
  induction key as [|k key IH]; intros cont cont' Hv H; [discriminate |].
  cbn [get_or_create_nest] in H.
  assert (Hd : forall v, dict_get cont k = Some v ->
               match v with
               | VDict d => forall d', get_or_create_nest true key (fun nest => Ok nest) d = Ok d' -> d' = d
               | VList l =>
                   forall d d', last_item l = Some (VDict d) ->
                     get_or_create_nest true key (fun nest => Ok nest) d = Ok d' -> d' = d
               | _ => True
               end).
  { intros v G. destruct key as [|k2 key].
    - destruct v; auto; cbn [get_or_create_nest]; intros; congruence.
    - rewrite value_at_cons, G in Hv by discriminate.
      destruct v as [| | | | | | |l|d]; try exact I.
      + intros d d' L E. rewrite L in Hv. now apply (IH d d').
      + intros d' E. now apply (IH d d'). }
  destruct (dict_get cont k) as [v|] eqn:G.
  2: { destruct key; [cbn in Hv; now rewrite G in Hv |].
       rewrite value_at_cons, G in Hv by discriminate. discriminate. }
  specialize (Hd v eq_refl).
  destruct v as [| | | | | | |l|d]; try discriminate.
  - destruct (last_item l) as [[| | | | | | |l'|d]|] eqn:L; try discriminate.
    destruct (get_or_create_nest true key (fun nest => Ok nest) d) as [d'| |] eqn:E;
      try discriminate.
    cbn [bind] in H. injection H as <-. rewrite (Hd d d' eq_refl E).
    rewrite <- (last_item_split l (VDict d) L). now apply dict_set_same.
  - destruct (get_or_create_nest true key (fun nest => Ok nest) d) as [d'| |] eqn:E;
      try discriminate.
    cbn [bind] in H. injection H as <-. rewrite (Hd d' eq_refl). now apply dict_set_same.
Qed.

(** X24.  An accepted table header makes its key the current table.  A
    key that was not in the data becomes an empty table; where the key was
    there already, as a table that a longer header or a dotted key made on
    its way, the data stay as they are. *)
Theorem table_header_opens_a_table src pos state key state' :
  create_dict_effect src pos state key = Ok state' ->
  header_namespace state' = key /\
  (key_exists key (out state) = false -> value_at key (out state') = Some (VDict [])) /\
  (key_exists key (out state) = true -> out state' = out state).
Proof.
  intros H. apply create_dict_effect_Ok in H.
  destruct H as (Hne & _ & _ & Hns & _ & Hg).
  split; [exact Hns |]. split.
  - intros Hnew. unfold key_exists in Hnew.
    destruct (value_at key (out state)) eqn:Hv; [discriminate |].
    now apply (get_or_create_nest_new key (out state) (out state')).
  - intros Hthere. now apply (get_or_create_nest_there key (out state) (out state')).
Qed.

Lemma table_header_opens_a_table_witness :
  header_namespace (mkState [(py "a", VDict [(py "b", VDict [])])]
                            [(py "a", mkNode [] [] [(py "b", mkNode [EXPLICIT_NEST] [] [])])]
                            [py "a"; py "b"])
  = [py "a"; py "b"] /\
  (key_exists [py "a"; py "b"] (out State_init) = false ->
   value_at [py "a"; py "b"]
     (out (mkState [(py "a", VDict [(py "b", VDict [])])]
                   [(py "a", mkNode [] [] [(py "b", mkNode [EXPLICIT_NEST] [] [])])]
                   [py "a"; py "b"]))
   = Some (VDict [])) /\
  (key_exists [py "a"; py "b"] (out State_init) = true ->
   out (mkState [(py "a", VDict [(py "b", VDict [])])]
                [(py "a", mkNode [] [] [(py "b", mkNode [EXPLICIT_NEST] [] [])])]
                [py "a"; py "b"])
   = out State_init).
Proof.
  apply (table_header_opens_a_table [] 0 State_init [py "a"; py "b"]). reflexivity.
Defined.

(** ** Inline tables of key/value pairs *)

(** [parse_key_value_pair] on [key = text]. *)
Lemma parse_key_value_pair_bare (parse_value : parser Value) fuel (src : str) pos
    (key text t : str) (v : Value) :
  skipn pos src = key ++ py " = " ++ text ++ t ->
  bare_part key = true -> value_start text = true ->
  0 < fuel ->
  parse_value src (pos + length key + 3) = Ok (pos + length key + 3 + length text, v) ->
  parse_key_value_pair parse_value fuel src pos
  = Ok (pos + length key + 3 + length text, ([key], v)).
Proof.
  intros Hs Hk Hblank Hf Hv. cbn [py map list_ascii_of_string app] in Hs.
  assert (Hkey : parse_key fuel src pos = Ok (pos + length key + 1, [key])).
  { unfold parse_key.
    rewrite (parse_key_part_bare fuel src pos key _ Hs Hk eq_refl). cbn [bind].
    pose proof (skipn_app_skip src pos key _ Hs) as H1.
    rewrite (skip_chars_app TOML_WS src _ [32%N] _ H1 eq_refl eq_refl).
    pose proof (skipn_app_skip src _ [32%N] _ H1) as H2. cbn [length] in H2 |- *.
    destruct fuel as [|fuel]; [lia |]. cbn [parse_key_loop].
    destruct (skipn_cons_char_at _ _ _ _ H2) as [Hat2 _]. rewrite Hat2. reflexivity. }
  pose proof (skipn_app_skip src pos key _ Hs) as H1.
  pose proof (skipn_cons_tail _ _ _ _ H1) as H3.
  destruct (skipn_cons_char_at _ _ _ _ H3) as [Hat3 _].
  pose proof (skipn_cons_tail _ _ _ _ H3) as H4.
  assert (Hstop : stops TOML_WS (text ++ t) = true).
  { rewrite stops_app. destruct text; [discriminate | exact Hblank]. }
  pose proof (skip_chars_app TOML_WS src _ [32%N] _ H4 eq_refl Hstop) as Hskip.
  cbn [length] in Hskip.
  unfold parse_key_value_pair. rewrite Hkey. cbn [bind].
  rewrite Hat3. cbn [char_is]. rewrite N.eqb_refl. cbn [negb]. rewrite Hskip.
  replace (pos + length key + 1 + 1 + 1) with (pos + length key + 3) by lia.
  rewrite Hv. reflexivity.
Qed.

Lemma table_item_end_next ws1 ws2 (items : list (str * (str * Value))) (t : str) :
  forallb TOML_WS ws1 = true ->
  table_item_end (ws1 ++ table_tail ws1 ws2 items ++ ch "}" :: t) = true /\
  stops TOML_WS (table_tail ws1 ws2 items ++ ch "}" :: t) = true.
Proof.
  intros H. split; [| destruct items; reflexivity].
  destruct ws1 as [|c ws].
  - destruct items; reflexivity.
  - cbn [forallb] in H. apply andb_prop in H. destruct H as [H _].
    cbn [app table_item_end]. now rewrite H.
Qed.

Lemma pair_text_head (item : str * (str * Value)) (t : str) :
  bare_part (fst item) = true ->
  stops TOML_WS (pair_text item ++ t) = true /\ head (pair_text item ++ t) <> Some (ch "}").
Proof.
  intros Hk. unfold pair_text. rewrite <- !app_assoc.
  destruct (bare_head (fst item) (py " = " ++ fst (snd item) ++ t) Hk) as (c & r & -> & Hc).
  cbn [stops head]. split.
  - destruct (TOML_WS c) eqn:W; [| reflexivity].
    destruct (blank_cases c W) as [-> | ->]; discriminate.
  - intros [= ->]. discriminate.
Qed.

(** The flags of the keys that are still to come stay unset. *)
Lemma frozen_other_key (k k' : str) (v : Value) (flags : Flags) :
  k <> k' ->
  is_ [k'] FROZEN flags = false ->
  is_ [k'] FROZEN (if is_container v then set_flag [k] FROZEN true flags else flags) = false.
Proof.
  intros Hne H. destruct (is_container v); [| exact H].
  rewrite is_after_set_flag by discriminate. rewrite H. cbn [prefixb orb].
  rewrite (str_eqb_ne k k' Hne). now rewrite andb_false_r.
Qed.

Section TablePairs.
Variables (parse_value : parser Value) (src : str) (ws1 ws2 rest : str).
Hypothesis blank1 : forallb TOML_WS ws1 = true.
Hypothesis blank2 : forallb TOML_WS ws2 = true.

(** One pair of the table, up to what follows the blanks behind it. *)
Lemma parse_inline_table_loop_pair fuel pos (key text : str) (v : Value)
    (items : list (str * (str * Value))) nested_dict flags :
  skipn pos src
  = key ++ py " = " ++ text ++ ws1 ++ table_tail ws1 ws2 items ++ ch "}" :: rest ->
  reads_pair parse_value src (key, (text, v)) ->
  dict_get nested_dict key = None -> is_ [key] FROZEN flags = false ->
  exists p,
    skipn p src = table_tail ws1 ws2 items ++ ch "}" :: rest /\
    p = pos + length (key ++ py " = " ++ text ++ ws1) /\
    parse_inline_table_loop parse_value (S fuel) src pos nested_dict flags
    = if starts_with src p [ch "}"] then Ok (p + 1, VDict (nested_dict ++ [(key, v)]))
      else if negb (starts_with src p [ch ","])
      then Raise (suffixed_err src p [Lit "Unclosed inline table"])
      else parse_inline_table_loop parse_value fuel src
             (skip_chars src (p + 1) TOML_WS) (nested_dict ++ [(key, v)])
             (if is_container v then set_flag [key] FROZEN true flags else flags).
Proof.
  intros Hs (Hk & Hstart & Hread) Hnone Hfz. cbn [fst snd] in *.
  destruct (table_item_end_next ws1 ws2 items rest blank1) as [Hend Htail].
  pose proof (skipn_app_skip src pos key _ Hs) as H1.
  pose proof (skipn_app_skip src _ (py " = ") _ H1) as H2.
  change (length (py " = ")) with 3 in H2.
  pose proof (skipn_app_skip src _ text _ H2) as H3.
  pose proof (skipn_app_skip src _ ws1 _ H3) as H4.
  exists (pos + length key + 3 + length text + length ws1).
  split; [exact H4 |]. split.
  { rewrite !length_app. change (length (py " = ")) with 3. lia. }
  cbn [parse_inline_table_loop].
  rewrite (parse_key_value_pair_bare parse_value (S fuel) src pos key text _ v Hs Hk Hstart
             (Nat.lt_0_succ _) (Hread _ _ H2 Hend)).
  cbn [bind removelast last get_or_create_nest]. rewrite Hfz.
  unfold dict_in. rewrite Hnone. cbn [except_KeyError bind].
  rewrite (skip_chars_app TOML_WS src _ ws1 _ H3 blank1 Htail).
  rewrite (dict_set_new nested_dict key v Hnone).
  reflexivity.
Qed.
End TablePairs.

Lemma parse_inline_table_loop_pairs (parse_value : parser Value) (src : str)
    (ws1 ws2 rest : str) :
  forallb TOML_WS ws1 = true -> forallb TOML_WS ws2 = true ->
  forall (items : list (str * (str * Value))) item nested_dict flags fuel pos,
    skipn pos src = pair_text item ++ ws1 ++ table_tail ws1 ws2 items ++ ch "}" :: rest ->
    (forall i, In i (item :: items) -> reads_pair parse_value src i) ->
    NoDup (map fst (item :: items)) ->
    (forall i, In i (item :: items) ->
       dict_get nested_dict (fst i) = None /\ is_ [fst i] FROZEN flags = false) ->
    length items < fuel ->
    parse_inline_table_loop parse_value fuel src pos nested_dict flags
    = Ok (pos + length (pair_text item ++ ws1 ++ table_tail ws1 ws2 items ++ [ch "}"]),
          VDict (nested_dict ++ table_of (item :: items))).
Proof.
  intros blank1 blank2.
  induction items as [|next items IH]; intros item nested_dict flags fuel pos Hs Hok Hdup Hnew Hf;
    (destruct fuel as [|fuel]; [cbn [length] in Hf; lia |]);
    destruct (Hnew item (or_introl eq_refl)) as [Hnone Hfz];
    pose proof (Hok item (or_introl eq_refl)) as Hitem;
    destruct item as [key [text v]]; cbn [fst snd] in Hnone, Hfz;
    unfold pair_text in Hs |- *; cbn [fst snd] in Hs |- *; rewrite <- !app_assoc in Hs;
    destruct (parse_inline_table_loop_pair parse_value src ws1 ws2 rest blank1 fuel pos
                key text v _ nested_dict flags Hs Hitem Hnone Hfz) as (p & Hp & Ep & ->).
  - cbn [table_tail app] in Hp |- *. unfold str, char in *.
    rewrite (starts_with_one src p (ch "}") _ Hp).
    rewrite <- !app_assoc, !length_app in *. cbn [length table_of map fst snd].
    f_equal. f_equal. unfold str, char in *. lia.
  - cbn [table_tail app] in Hp. unfold str, char in *.
    rewrite (starts_with_other src p (ch "}") _ Hp) by discriminate.
    rewrite (starts_with_one src p (ch ",") _ Hp). cbn [negb].
    pose proof (skipn_cons_tail _ _ _ _ Hp) as H1. rewrite <- !app_assoc in H1.
    destruct (Hok next (or_intror (or_introl eq_refl))) as (Hk' & _).
    destruct (pair_text_head next (ws1 ++ table_tail ws1 ws2 items ++ ch "}" :: rest) Hk')
      as [Hstop _].
    rewrite (skip_chars_app TOML_WS src (p + 1) ws2 _ H1 blank2 Hstop).
    pose proof (skipn_app_skip src (p + 1) ws2 _ H1) as H2.
    cbn [map] in Hdup. inversion Hdup as [|k ks Hnotin Hdup']; subst k ks.
    match goal with
    | |- parse_inline_table_loop _ _ _ ?q ?nd ?fl = _ => rewrite (IH next nd fl fuel q H2)
    end.
    + rewrite <- !app_assoc. cbn [table_of map fst snd app table_tail].
      f_equal. f_equal. unfold pair_text in *. cbn [fst snd] in *.
      repeat (rewrite length_app in * || cbn [length] in * ).
      unfold str, char in *. lia.
    + intros i Hi. apply Hok. now right.
    + exact Hdup'.
    + intros i Hi.
      assert (Hne : key <> fst i).
      { intros E. apply Hnotin. rewrite E. exact (in_map fst (next :: items) i Hi). }
      destruct (Hnew i (or_intror Hi)) as [N1 N2]. split.
      * now rewrite dict_get_snoc_other by congruence.
      * now apply frozen_other_key.
    + cbn [length] in Hf. lia.
Qed.

(** X25.  [parse_inline_table] returns the table of the pairs that stand
    between the braces, in their order: the keys are bare and all
    different, the values are what the value parser reads, and blanks may
    stand after the opening brace, after each pair and after each comma.
    The fuel is one unit for each pair. *)
Theorem parse_inline_table_reads_pairs (parse_value : parser Value) fuel (src : str) pos
    (ws1 ws2 rest : str) (items : list (str * (str * Value))) :
  skipn pos src = table_text ws1 ws2 items ++ rest ->
  forallb TOML_WS ws1 = true -> forallb TOML_WS ws2 = true ->
  (forall item, In item items -> reads_pair parse_value src item) ->
  NoDup (map fst items) ->
  length items <= fuel ->
  parse_inline_table parse_value fuel src pos
  = Ok (pos + length (table_text ws1 ws2 items), VDict (table_of items)).
Proof.
  intros Hs H1 H2 Hok Hdup Hf. unfold table_text in *. cbn [app] in Hs.
  pose proof (skipn_cons_tail _ _ _ _ Hs) as Hs1. rewrite <- app_assoc in Hs1.
  unfold parse_inline_table. cbv zeta. change (py "}") with [ch "}"].
  unfold str, char in *.
  destruct items as [|item items].
  - cbn [app] in Hs1.
    rewrite (skip_chars_app TOML_WS src (pos + 1) ws2 _ Hs1 H2 eq_refl).
    pose proof (skipn_app_skip src (pos + 1) ws2 _ Hs1) as Hs2.
    rewrite (starts_with_one src _ (ch "}") _ Hs2).
    cbn [length table_of map]. rewrite length_app. cbn [length].
    f_equal. f_equal. unfold str, char in *. lia.
  - rewrite <- !app_assoc in Hs1. cbn [app] in Hs1.
    destruct (Hok item (or_introl eq_refl)) as (Hk & _).
    destruct (pair_text_head item (ws1 ++ table_tail ws1 ws2 items ++ ch "}" :: rest) Hk)
      as [Hstop Hclose].
    rewrite (skip_chars_app TOML_WS src (pos + 1) ws2 _ Hs1 H2 Hstop).
    pose proof (skipn_app_skip src (pos + 1) ws2 _ Hs1) as Hs2.
    rewrite (starts_with_other src _ (ch "}") _ Hs2 Hclose).
    match goal with
    | |- parse_inline_table_loop _ _ _ ?q ?nd ?fl = _ =>
        rewrite (parse_inline_table_loop_pairs parse_value src ws1 ws2 rest H1 H2 items item
                   nd fl fuel q Hs2 Hok Hdup)
    end.
    + cbn [app length]. rewrite !length_app. f_equal. f_equal. unfold str, char in *. lia.
    + intros i _. split; reflexivity.
    + cbn [length] in Hf. unfold str, char in *. lia.
Qed.

Lemma parse_inline_table_reads_pairs_witness :
  parse_inline_table (parse_value tomli_re 1) 2 (py "t = { a = true , b = false }") 4
  = Ok (28, VDict [(py "a", VBool true); (py "b", VBool false)]).
Proof.
  apply (parse_inline_table_reads_pairs (parse_value tomli_re 1) 2
           (py "t = { a = true , b = false }") 4 (py " ") (py " ") []
           [(py "a", (py "true", VBool true)); (py "b", (py "false", VBool false))]).
  - reflexivity.
  - reflexivity.
  - reflexivity.
  - intros item [<- | [<- | []]]; (split; [reflexivity |]); (split; [reflexivity |]);
      cbn [fst snd]; intros p t Ht _.
    + exact (parse_value_bool tomli_re 0 _ p true t Ht).
    + exact (parse_value_bool tomli_re 0 _ p false t Ht).
  - repeat constructor; cbn; intuition discriminate.
  - cbn. lia.
Defined.
